(** * svcore: EventSeries, AlignmentModel, CodedAudioFileReader and
      FeatureExtractionModelTransformer

    A shallow embedding of the four core components of svcore and the
    properties stated about them.

    Part I holds the embedding, one module per source file.  Part II holds the
    theorems, one module per component.

    Conventions.
    - [sv_frame_t], [long] and [size_t] values are integers in [Z]; the
      conversions between signed and unsigned 64-bit values are written out
      ([to_long], [to_size_t]).
    - C [float] is IEEE-754 binary32 with round-to-nearest-even, taken from
      the specification of floating-point arithmetic in [SpecFloat]
      (precision 24, maximal exponent 128).
    - [std::vector] and [std::multiset] are lists in iteration order,
      [std::map] is an association list in key order. *)

From Stdlib Require Import ZArith List Bool Lia Sorting.Sorted Permutation.
From Stdlib Require String.
From Stdlib Require Import Floats.SpecFloat.
Import ListNotations.
Local Open Scope Z_scope.

(* ====================================================================== *)
(** * Part I: the embedding *)
(* ====================================================================== *)

(** ** Machine integers *)

Module Int64.

Definition two63 : Z := 2 ^ 63.
Definition two64 : Z := 2 ^ 64.
Definition LONG_MIN : Z := - two63.
Definition LONG_MAX : Z := two63 - 1.

Definition in_long (z : Z) : bool := (LONG_MIN <=? z) && (z <=? LONG_MAX).

(** Conversion of an integer value to [size_t]: reduction modulo 2^64. *)
Definition to_size_t (z : Z) : Z := z mod two64.

(** Conversion of a [size_t] value to [long]: the two's-complement reading. *)
Definition to_long (z : Z) : Z :=
  let u := z mod two64 in
  if u <? two63 then u else u - two64.

End Int64.

(** ** Single-precision floating point *)

Module Float32.

Definition float := spec_float.

Definition prec : Z := 24.
Definition emax : Z := 128.

Definition mul (x y : float) : float := SFmul prec emax x y.
Definition div (x y : float) : float := SFdiv prec emax x y.
Definition ltb (x y : float) : bool := SFltb x y.
Definition fabsf (x : float) : float := SFabs x.

(** Conversion of an integer to [float] (round to nearest, ties to even). *)
Definition of_Z (z : Z) : float := binary_normalize prec emax z 0 false.

Definition zero : float := S754_zero false.
Definition one : float := of_Z 1.

(** [m / 2^k] rounded to the nearest integer, ties to even ([0 < k]). *)
Definition rne_shift (m k : Z) : Z :=
  let q := Z.shiftr m k in
  let r := m - Z.shiftl q k in
  let h := Z.shiftl 1 (k - 1) in
  if r <? h then q
  else if h <? r then q + 1
  else if Z.even q then q else q + 1.

(** [lrintf] in the default rounding mode.  A NaN, an infinity or a value
    outside the range of [long] gives [LONG_MIN], the "integer indefinite"
    result of the x86-64 conversion instruction. *)
Definition lrintf (x : float) : Z :=
  match x with
  | S754_zero _ => 0
  | S754_finite s m e =>
      let a := if 0 <=? e then Zpos m * 2 ^ e else rne_shift (Zpos m) (- e) in
      let z := if s then - a else a in
      if Int64.in_long z then z else Int64.LONG_MIN
  | _ => Int64.LONG_MIN
  end.

Arguments mul : simpl never.
Arguments div : simpl never.
Arguments ltb : simpl never.
Arguments fabsf : simpl never.
Arguments of_Z : simpl never.
Arguments lrintf : simpl never.

End Float32.

(** ** Double-precision floating point *)

Module Float64.

Definition float := spec_float.

Definition prec : Z := 53.
Definition emax : Z := 1024.

Definition mul (x y : float) : float := SFmul prec emax x y.
Definition div (x y : float) : float := SFdiv prec emax x y.
Definition ltb (x y : float) : bool := SFltb x y.
Definition eqb (x y : float) : bool := SFeqb x y.

(** Conversion of an integer to [double]. *)
Definition of_Z (z : Z) : float := binary_normalize prec emax z 0 false.

(** The cast [sv_frame_t(x)]: truncation towards zero.  A NaN, an infinity
    or a value outside the range of [sv_frame_t] gives [LONG_MIN], the
    "integer indefinite" result of the x86-64 conversion instruction. *)
Definition to_frame (x : float) : Z :=
  match x with
  | S754_zero _ => 0
  | S754_finite s m e =>
      let a := if 0 <=? e then Zpos m * 2 ^ e else Z.shiftr (Zpos m) (- e) in
      let z := if s then - a else a in
      if Int64.in_long z then z else Int64.LONG_MIN
  | _ => Int64.LONG_MIN
  end.

(** [int(round(x))]: the nearest integer, halves away from zero, then the
    cast to [int].  A NaN, an infinity or a value outside the range of
    [int] gives [INT_MIN], the "integer indefinite" result of the x86-64
    conversion instruction. *)
Definition round_to_int (x : float) : Z :=
  match x with
  | S754_zero _ => 0
  | S754_finite s m e =>
      let a :=
        if 0 <=? e then Zpos m * 2 ^ e
        else Z.shiftr (Zpos m) (- e) + (if Z.testbit (Zpos m) (- e - 1) then 1 else 0) in
      let z := if s then - a else a in
      if (- 2 ^ 31 <=? z) && (z <? 2 ^ 31) then z else - 2 ^ 31
  | _ => - 2 ^ 31
  end.

Arguments mul : simpl never.
Arguments div : simpl never.
Arguments ltb : simpl never.
Arguments eqb : simpl never.
Arguments of_Z : simpl never.
Arguments to_frame : simpl never.
Arguments round_to_int : simpl never.

End Float64.

(** ** base/EventSeries.cpp *)

Module EventSeries.

(** Modelled from the spec: [Event] (base/Event.h) is not under src/.  An
    event has a frame, a duration (0 means "durationless"), a value, a level
    and a label; the ordering is lexicographic over these fields and two
    events are equal iff all fields match.  The value, the level and the
    label enter EventSeries through the ordering and the equality alone:
    they are kept together as a payload of any type with a total order.
    [payload_default] is the payload of the event [Event(frame)]. *)
Class Payload (P : Type) := {
  payload_compare : P -> P -> comparison;
  payload_default : P
}.

(** The payload's ordering is a total order. *)
Class PayloadOrder (P : Type) `{Payload P} : Prop := {
  payload_compare_eq : forall x y, payload_compare x y = Eq <-> x = y;
  payload_compare_antisym :
    forall x y, payload_compare y x = CompOpp (payload_compare x y);
  payload_compare_trans :
    forall x y z,
      payload_compare x y = Lt -> payload_compare y z = Lt -> payload_compare x z = Lt
}.

Section Series.

Context {P : Type} `{Payload P}.

Record Event := mkEvent { frame : Z; duration : Z; payload : P }.

Definition hasDuration (e : Event) : bool := 0 <? duration e.

Definition Event_compare (a b : Event) : comparison :=
  match frame a ?= frame b with
  | Eq =>
      match duration a ?= duration b with
      | Eq => payload_compare (payload a) (payload b)
      | c => c
      end
  | c => c
  end.

(** [operator<] and [operator==] *)
Definition Event_ltb (a b : Event) : bool :=
  match Event_compare a b with Lt => true | _ => false end.

Definition Event_eqb (a b : Event) : bool :=
  match Event_compare a b with Eq => true | _ => false end.

(** [Event(frame)] *)
Definition Event_at (f : Z) : Event := mkEvent f 0 payload_default.

Definition EventVector := list Event.

(** [std::map<sv_frame_t, std::vector<Event>>], in key order. *)
Definition SeamMap := list (Z * EventVector).

Record EventSeries := mkEventSeries {
  m_events : EventVector;
  m_seams : SeamMap;
  m_finalDurationlessEventFrame : Z
}.

Definition empty : EventSeries := mkEventSeries [] [] 0.

(** [lower_bound(m_events.begin(), m_events.end(), p)], as a position. *)
Fixpoint lower_bound (l : EventVector) (p : Event) : nat :=
  match l with
  | [] => O
  | x :: l' => if Event_ltb x p then S (lower_bound l' p) else O
  end.

(** [m_events.insert(pitr, p)] and [m_events.erase(pitr)] *)
Definition insert_at (i : nat) (p : Event) (l : EventVector) : EventVector :=
  firstn i l ++ p :: skipn i l.

Definition erase_at (i : nat) (l : EventVector) : EventVector :=
  firstn i l ++ skipn (S i) l.

(** Modelled from the spec: [createSeam] is declared in base/EventSeries.h,
    not under src/.  A seam key is made to exist, "splitting inserts by
    copying the nearest-below list"; with no key below, the new list is
    empty. *)
Fixpoint createSeam_below (below : EventVector) (f : Z) (m : SeamMap) : SeamMap :=
  match m with
  | [] => [(f, below)]
  | (k, l) :: m' =>
      if f <? k then (f, below) :: m
      else if f =? k then m
      else (k, l) :: createSeam_below l f m'
  end.

Definition createSeam (f : Z) (m : SeamMap) : SeamMap := createSeam_below [] f m.

(** Modelled from the spec: [seamsEqual] is declared in base/EventSeries.h,
    not under src/.  A seam is redundant when its "list equals the list at
    the previous key". *)
Fixpoint seamsEqual (s1 s2 : EventVector) : bool :=
  match s1, s2 with
  | [], [] => true
  | a :: s1', b :: s2' => Event_eqb a b && seamsEqual s1' s2'
  | _, _ => false
  end.

(** [m_seams.find(key)], as a position. *)
Fixpoint position (key : Z) (m : SeamMap) : option nat :=
  match m with
  | [] => None
  | (k, _) :: m' =>
      if k =? key then Some O
      else match position key m' with Some i => Some (S i) | None => None end
  end.

(** [for (auto i = i0; i != i1; ++i) i->second.push_back(p);] from the seam
    the loop stands at; it stops at the key [endFrame], or at the end of the
    map (where [add] reports an error and breaks). *)
Fixpoint push_from (p : Event) (endFrame : Z) (m : SeamMap) : SeamMap :=
  match m with
  | [] => []
  | (k, l) :: m' =>
      if k =? endFrame then m else (k, l ++ [p]) :: push_from p endFrame m'
  end.

(** The same loop from [i0 = m_seams.find(frame)]. *)
Fixpoint push_range (p : Event) (f endFrame : Z) (m : SeamMap) : SeamMap :=
  match m with
  | [] => []
  | (k, l) :: m' =>
      if k =? f then push_from p endFrame m
      else (k, l) :: push_range p f endFrame m'
  end.

Definition add (p : Event) (s : EventSeries) : EventSeries :=
  let pitr := lower_bound (m_events s) p in
  let isUnique :=
    match nth_error (m_events s) pitr with
    | Some x => negb (Event_eqb x p)
    | None => true
    end in
  let events := insert_at pitr p (m_events s) in
  let final :=
    if negb (hasDuration p) && (frame p >? m_finalDurationlessEventFrame s)
    then frame p else m_finalDurationlessEventFrame s in
  let seams :=
    if hasDuration p && isUnique then
      let f := frame p in
      let endFrame := frame p + duration p in
      push_range p f endFrame (createSeam endFrame (createSeam f (m_seams s)))
    else m_seams s in
  mkEventSeries events seams final.

(** The inner loop of [remove]: every occurrence of [p] leaves the list. *)
Definition erase_all (p : Event) (l : EventVector) : EventVector :=
  filter (fun x => negb (Event_eqb x p)) l.

Fixpoint erase_from (p : Event) (endFrame : Z) (m : SeamMap) : SeamMap :=
  match m with
  | [] => []
  | (k, l) :: m' =>
      if k =? endFrame then m else (k, erase_all p l) :: erase_from p endFrame m'
  end.

Fixpoint erase_range (p : Event) (f endFrame : Z) (m : SeamMap) : SeamMap :=
  match m with
  | [] => []
  | (k, l) :: m' =>
      if k =? f then erase_from p endFrame m
      else (k, l) :: erase_range p f endFrame m'
  end.

(** The loop from [i0] reaches [m_seams.end()] with [i != i1] still true:
    [remove] throws [std::logic_error]. *)
Definition reaches_end (f endFrame : Z) (m : SeamMap) : bool :=
  match position endFrame m with
  | None => false
  | Some j =>
      match position f m with
      | None => true
      | Some i => Nat.ltb j i
      end
  end.

(** The keys of the seams, from [i0] to [i1], that equal their predecessor;
    [prev] is the list at [pitr]. *)
Fixpoint redundant_from (prev : option EventVector) (endFrame : Z) (m : SeamMap) : list Z :=
  match m with
  | [] => []
  | (k, l) :: m' =>
      let r :=
        match prev with
        | Some lp => if seamsEqual l lp then [k] else []
        | None => []
        end in
      if k =? endFrame then r else r ++ redundant_from (Some l) endFrame m'
  end.

Fixpoint redundant (prev : option EventVector) (f endFrame : Z) (m : SeamMap) : list Z :=
  match m with
  | [] => []
  | (k, l) :: m' =>
      if k =? f then redundant_from prev endFrame m
      else redundant (Some l) f endFrame m'
  end.

(** [m_seams.erase(f)] *)
Fixpoint seam_erase (f : Z) (m : SeamMap) : SeamMap :=
  match m with
  | [] => []
  | (k, l) :: m' => if k =? f then m' else (k, l) :: seam_erase f m'
  end.

(** [while (m_seams.begin() != m_seams.end() && m_seams.begin()->second.empty())
       m_seams.erase(m_seams.begin());] *)
Fixpoint drop_empty_front (m : SeamMap) : SeamMap :=
  match m with
  | (_, []) :: m' => drop_empty_front m'
  | _ => m
  end.

(** The frame of the last durationless event, 0 when there is none. *)
Definition last_durationless (events : EventVector) : Z :=
  match find (fun e => negb (hasDuration e)) (rev events) with
  | Some e => frame e
  | None => 0
  end.

(** [remove]; [None] stands for the [std::logic_error] thrown. *)
Definition remove (p : Event) (s : EventSeries) : option EventSeries :=
  let pitr := lower_bound (m_events s) p in
  match nth_error (m_events s) pitr with
  | None => Some s
  | Some x =>
      if negb (Event_eqb x p) then Some s
      else
        let isUnique :=
          match nth_error (m_events s) (S pitr) with
          | Some y => negb (Event_eqb y p)
          | None => true
          end in
        let events := erase_at pitr (m_events s) in
        let final :=
          if negb (hasDuration p) && isUnique
             && (frame p =? m_finalDurationlessEventFrame s)
          then last_durationless events
          else m_finalDurationlessEventFrame s in
        if hasDuration p && isUnique then
          let f := frame p in
          let endFrame := frame p + duration p in
          if reaches_end f endFrame (m_seams s) then None
          else
            let seams := erase_range p f endFrame (m_seams s) in
            let seams :=
              fold_left (fun m k => seam_erase k m)
                (redundant None f endFrame seams) seams in
            Some (mkEventSeries events (drop_empty_front seams) final)
        else Some (mkEventSeries events (m_seams s) final)
  end.

(** [std::set<Event>::insert] *)
Fixpoint set_insert (p : Event) (l : EventVector) : EventVector :=
  match l with
  | [] => [p]
  | x :: l' =>
      match Event_compare p x with
      | Lt => p :: l
      | Eq => l
      | Gt => x :: set_insert p l'
      end
  end.

(** The seam list [getEventsCovering] reads: the list at the greatest key
    not above [f], if there is such a key.  [prev] is the list before the
    position the search stands at. *)
Fixpoint seam_covering (prev : option EventVector) (f : Z) (m : SeamMap)
    : option EventVector :=
  match m with
  | [] => prev
  | (k, l) :: m' =>
      if k <? f then seam_covering (Some l) f m'
      else if k =? f then Some l
      else prev
  end.

Fixpoint take_while (f : Event -> bool) (l : EventVector) : EventVector :=
  match l with
  | [] => []
  | x :: l' => if f x then x :: take_while f l' else []
  end.

Definition getEventsCovering (f : Z) (s : EventSeries) : EventVector :=
  let events := m_events s in
  let at_frame :=
    take_while (fun e => frame e =? f) (skipn (lower_bound events (Event_at f)) events) in
  let cover := filter (fun e => negb (hasDuration e)) at_frame in
  let found :=
    match seam_covering None f (m_seams s) with
    | Some l => fold_left (fun set p => set_insert p set) l []
    | None => []
    end in
  cover ++
  flat_map
    (fun p => take_while (fun e => Event_eqb e p) (skipn (lower_bound events p) events))
    found.

(** A series is used through [add] and [remove]. *)
Inductive Op := Add (e : Event) | Remove (e : Event).

Definition apply (s : option EventSeries) (op : Op) : option EventSeries :=
  match s with
  | None => None
  | Some s =>
      match op with
      | Add e => Some (add e s)
      | Remove e => remove e s
      end
  end.

Definition apply_all (ops : list Op) (s : EventSeries) : option EventSeries :=
  fold_left apply ops (Some s).

(** *** The queries *)

Definition isEmpty (s : EventSeries) : bool :=
  match m_events s with [] => true | _ => false end.

Definition INT_MAX : Z := 2 ^ 31 - 1.

(** [count]; [None] stands for the [std::logic_error] thrown. *)
Definition count (s : EventSeries) : option Z :=
  let n := Z.of_nat (length (m_events s)) in
  if n >? INT_MAX then None else Some n.

(** [contains]: [std::binary_search] is [lower_bound] followed by the test
    [first != last && !(value < *first)]. *)
Definition contains (p : Event) (s : EventSeries) : bool :=
  match nth_error (m_events s) (lower_bound (m_events s) p) with
  | Some x => negb (Event_ltb p x)
  | None => false
  end.

Definition clear (s : EventSeries) : EventSeries := mkEventSeries [] [] 0.

Definition getStartFrame (s : EventSeries) : Z :=
  match m_events s with
  | [] => 0
  | e :: _ => frame e
  end.

(** [m_seams.rbegin()] is the head of the reversed map. *)
Definition getEndFrame (s : EventSeries) : Z :=
  match m_events s with
  | [] => 0
  | _ :: _ =>
      let latest := m_finalDurationlessEventFrame s in
      match rev (m_seams s) with
      | [] => latest
      | (lastSeam, _) :: _ => if lastSeam >? latest then lastSeam else latest
      end
  end.

(** [while (pitr != m_events.end() && pitr->getFrame() < end)], from
    [lower_bound(m_events.begin(), m_events.end(), Event(start))]. *)
Definition starting_from (start endFrame : Z) (events : EventVector) : EventVector :=
  take_while (fun e => frame e <? endFrame)
    (skipn (lower_bound events (Event_at start)) events).

(** [m_seams.lower_bound(f)], as a position. *)
Fixpoint seam_lower_bound (f : Z) (m : SeamMap) : nat :=
  match m with
  | [] => O
  | (k, _) :: m' => if k <? f then S (seam_lower_bound f m') else O
  end.

(** [if (sitr == m_seams.end() || sitr->first > start)
       { if (sitr != m_seams.begin()) --sitr; }] *)
Definition seam_start (start : Z) (m : SeamMap) : nat :=
  let sitr := seam_lower_bound start m in
  match nth_error m sitr with
  | Some (k, _) => if k >? start then Nat.pred sitr else sitr
  | None => Nat.pred sitr
  end.

(** [while (sitr != m_seams.end() && sitr->first < end)]: the events met,
    in the order they are inserted into [found]. *)
Fixpoint seams_until (endFrame : Z) (m : SeamMap) : EventVector :=
  match m with
  | [] => []
  | (k, l) :: m' => if k <? endFrame then l ++ seams_until endFrame m' else []
  end.

(** The instances of [p] in the vector, from its lower bound on. *)
Definition instances (p : Event) (events : EventVector) : EventVector :=
  take_while (fun e => Event_eqb e p) (skipn (lower_bound events p) events).

Definition getEventsSpanning (f d : Z) (s : EventSeries) : EventVector :=
  let start := f in
  let endFrame := f + d in
  let span :=
    filter (fun e => negb (hasDuration e)) (starting_from start endFrame (m_events s)) in
  let found :=
    fold_left (fun set p => set_insert p set)
      (seams_until endFrame (skipn (seam_start start (m_seams s)) (m_seams s))) [] in
  span ++ flat_map (fun p => instances p (m_events s)) found.

(** The main loop of [getEventsWithin] over the events from [reference]
    on: the events pushed and the position [last] afterwards; [i] is the
    position of the head of [l]. *)
Fixpoint within_scan (endFrame : Z) (l : EventVector) (i last : nat)
    : EventVector * nat :=
  match l with
  | [] => ([], last)
  | x :: l' =>
      if frame x <? endFrame then
        if negb (hasDuration x) || (frame x + duration x <=? endFrame) then
          let '(span, last') := within_scan endFrame l' (S i) (S i) in
          (x :: span, last')
        else within_scan endFrame l' (S i) last
      else ([], last)
  end.

(** [overspill] is an [int]; the loops over it make no round when it is
    not positive. *)
Definition getEventsWithin (f d overspill : Z) (s : EventSeries) : EventVector :=
  let events := m_events s in
  let endFrame := f + d in
  let n := Z.to_nat overspill in
  let reference := lower_bound events (Event_at f) in
  let first := (reference - n)%nat in
  let before := skipn first (firstn reference events) in
  let '(span, last) := within_scan endFrame (skipn reference events) reference reference in
  before ++ span ++ firstn n (skipn last events).

Definition getEventsStartingWithin (f d : Z) (s : EventSeries) : EventVector :=
  starting_from f (f + d) (m_events s).

Definition getAllEvents (s : EventSeries) : EventVector := m_events s.

(** [getEventPreceding]; [None] stands for the result [false]. *)
Definition getEventPreceding (e : Event) (s : EventSeries) : option Event :=
  let pitr := lower_bound (m_events s) e in
  match nth_error (m_events s) pitr with
  | None => None
  | Some x =>
      if negb (Event_eqb x e) then None
      else
        match pitr with
        | O => None
        | S i => nth_error (m_events s) i
        end
  end.

(** The loop that steps [pitr] over the instances of [e]; the result
    [false] is given when it reaches [m_events.end()]. *)
Fixpoint skip_instances (e : Event) (l : EventVector) : option Event :=
  match l with
  | [] => None
  | x :: l' => if Event_eqb x e then skip_instances e l' else Some x
  end.

Definition getEventFollowing (e : Event) (s : EventSeries) : option Event :=
  let pitr := lower_bound (m_events s) e in
  match nth_error (m_events s) pitr with
  | None => None
  | Some x =>
      if negb (Event_eqb x e) then None
      else skip_instances e (skipn pitr (m_events s))
  end.

Inductive Direction := Forward | Backward.

(** The loop steps back before it tests when the direction is [Backward],
    and forward after it has tested when it is [Forward]. *)
Definition getNearestEventMatching (startSearchAt : Z) (predicate : Event -> bool)
    (direction : Direction) (s : EventSeries) : option Event :=
  let pitr := lower_bound (m_events s) (Event_at startSearchAt) in
  match direction with
  | Backward => find predicate (rev (firstn pitr (m_events s)))
  | Forward => find predicate (skipn pitr (m_events s))
  end.

(** [getEventByIndex]; [None] stands for the [std::logic_error] thrown,
    by [count] or for an index out of range. *)
Definition getEventByIndex (index : Z) (s : EventSeries) : option Event :=
  match count s with
  | None => None
  | Some c =>
      if (index <? 0) || (index >=? c) then None
      else nth_error (m_events s) (Z.to_nat index)
  end.

Definition getIndexForEvent (e : Event) (s : EventSeries) : Z :=
  let d := Z.of_nat (lower_bound (m_events s) e) in
  if (d <? 0) || (d >? INT_MAX) then 0 else d.

End Series.

Arguments Event P : clear implicits.
Arguments EventSeries P : clear implicits.
Arguments Op P : clear implicits.

End EventSeries.

(** ** data/model/AlignmentModel.cpp *)

Module AlignmentModel.

Import Int64.

(** [PathPoint] (data/model/PathModel.h). *)
Record PathPoint := mkPathPoint { frame : Z; mapframe : Z }.

(** [PathModel::PointList]: the points in iteration order, ordered by
    [PathPoint::OrderComparator], that is by [frame] alone. *)
Definition PointList := list PathPoint.

(** Modelled from the spec: [SparseModel<PathPoint>::addPoint] is not under
    src/.  The path is "sorted by the first coordinate": a point goes after
    every point whose frame is not greater than its own, as an insertion
    into a [std::multiset] does. *)
Fixpoint addPoint (p : PathPoint) (l : PointList) : PointList :=
  match l with
  | [] => [p]
  | x :: l' => if frame p <? frame x then p :: l else x :: addPoint p l'
  end.

(** [TimeValuePoint] (data/model/PathModel.h, second half). *)
Record TimeValuePoint := mkTimeValuePoint {
  tv_frame : Z;
  tv_value : Float32.float;
  tv_label : String.string
}.

(** The raw path, a [SparseTimeValueModel] owned by some other thread: its
    points in frame order, its completion and [isOK]. *)
Record RawPath := mkRawPath {
  raw_points : list TimeValuePoint;
  raw_completion : Z;
  raw_ok : bool
}.

(** [Model::isReady(int *cp)] (data/model/Model.h): the completion written
    through [cp], and the result. *)
Definition raw_isReady (r : RawPath) : Z * bool :=
  let c := raw_completion r in
  (c, if negb (raw_ok r) then false else c =? 100).

Record AlignmentModel := mkAlignmentModel {
  m_alignedRate : Z;          (* m_aligned->getSampleRate() *)
  m_inputModel : bool;        (* is the transient input model still held *)
  m_rawPath : option RawPath;
  m_path : option PointList;
  m_reversePath : option PointList;
  m_pathBegun : bool;
  m_pathComplete : bool
}.

(** [lrintf(value * m_aligned->getSampleRate())] *)
Definition rframe_of (value : Float32.float) (rate : Z) : Z :=
  Float32.lrintf (Float32.mul value (Float32.of_Z rate)).

Definition forward_points (rate : Z) (points : list TimeValuePoint) : PointList :=
  fold_left
    (fun path p => addPoint (mkPathPoint (tv_frame p) (rframe_of (tv_value p) rate)) path)
    points [].

Definition reverse_points (rate : Z) (points : list TimeValuePoint) : PointList :=
  fold_left
    (fun path p => addPoint (mkPathPoint (rframe_of (tv_value p) rate) (tv_frame p)) path)
    points [].

Definition constructPath (m : AlignmentModel) : AlignmentModel :=
  match m_rawPath m with
  | None => m     (* no path yet: error return; path present: plain return *)
  | Some raw =>
      mkAlignmentModel (m_alignedRate m) (m_inputModel m) (m_rawPath m)
        (Some (forward_points (m_alignedRate m) (raw_points raw)))
        (m_reversePath m) (m_pathBegun m) (m_pathComplete m)
  end.

Definition constructReversePath (m : AlignmentModel) : AlignmentModel :=
  match m_rawPath m with
  | None => m
  | Some raw =>
      mkAlignmentModel (m_alignedRate m) (m_inputModel m) (m_rawPath m)
        (m_path m)
        (Some (reverse_points (m_alignedRate m) (raw_points raw)))
        (m_pathBegun m) (m_pathComplete m)
  end.

(** The constructor. *)
Definition construct (alignedRate : Z) (inputModel : bool)
    (path : option RawPath) : AlignmentModel :=
  constructReversePath
    (constructPath
       (mkAlignmentModel alignedRate inputModel path None None false false)).

(** [isReady(int *completion)]: the completion written, and the result. *)
Definition isReady (m : AlignmentModel) : Z * bool :=
  if negb (m_pathBegun m) then (0, false)
  else if m_pathComplete m || (match m_rawPath m with None => true | Some _ => false end)
  then (100, true)
  else match m_rawPath m with
       | Some raw => raw_isReady raw
       | None => (100, true)
       end.

(** Slot [pathChanged()]. *)
Definition pathChanged (m : AlignmentModel) : AlignmentModel :=
  if m_pathComplete m then
    mkAlignmentModel (m_alignedRate m) (m_inputModel m) None
      (m_path m) (m_reversePath m) (m_pathBegun m) (m_pathComplete m)
  else m.

(** Slot [pathChanged(size_t, size_t)]. *)
Definition pathChangedWithin (m : AlignmentModel) : AlignmentModel :=
  if negb (m_pathComplete m) then m
  else constructReversePath (constructPath m).

(** Slot [pathCompletionChanged()]. *)
Definition pathCompletionChanged (m : AlignmentModel) : AlignmentModel :=
  match m_rawPath m with
  | None => m
  | Some raw =>
      if negb (m_pathComplete m) then
        let completion := fst (raw_isReady raw) in
        let complete := completion =? 100 in
        let m1 :=
          mkAlignmentModel (m_alignedRate m) (m_inputModel m) (m_rawPath m)
            (m_path m) (m_reversePath m) true complete in
        if complete then
          let m2 := constructReversePath (constructPath m1) in
          mkAlignmentModel (m_alignedRate m2) false (m_rawPath m2)
            (m_path m2) (m_reversePath m2) (m_pathBegun m2) (m_pathComplete m2)
        else m1
      else
        mkAlignmentModel (m_alignedRate m) (m_inputModel m) (m_rawPath m)
          (m_path m) (m_reversePath m) true (m_pathComplete m)
  end.

(** The raw path model is written by its own thread; the alignment model
    sees the new contents through its pointer. *)
Definition rawPathWritten (r : RawPath) (m : AlignmentModel) : AlignmentModel :=
  match m_rawPath m with
  | None => m
  | Some _ =>
      mkAlignmentModel (m_alignedRate m) (m_inputModel m) (Some r)
        (m_path m) (m_reversePath m) (m_pathBegun m) (m_pathComplete m)
  end.

(** What can happen to a constructed model. *)
Inductive Signal :=
| SigPathChanged
| SigPathChangedWithin
| SigPathCompletionChanged
| SigRawPathWritten (r : RawPath).

Definition deliver (m : AlignmentModel) (s : Signal) : AlignmentModel :=
  match s with
  | SigPathChanged => pathChanged m
  | SigPathChangedWithin => pathChangedWithin m
  | SigPathCompletionChanged => pathCompletionChanged m
  | SigRawPathWritten r => rawPathWritten r m
  end.

Definition deliver_all (m : AlignmentModel) (l : list Signal) : AlignmentModel :=
  fold_left deliver l m.

(** [points.lower_bound(point)]: the position of the first point whose
    frame is not less than [q]. *)
Fixpoint lower_bound (points : PointList) (q : Z) : nat :=
  match points with
  | [] => O
  | x :: l => if frame x <? q then S (lower_bound l q) else O
  end.

Definition dummy : PathPoint := mkPathPoint 0 0.

Definition at_ (points : PointList) (i : nat) : PathPoint := nth i points dummy.

(** [while (i != points.begin() && i->frame > long(frame)) --i;] *)
Fixpoint step_back (points : PointList) (i : nat) (q : Z) : nat :=
  match i with
  | O => O
  | S j => if frame (at_ points i) >? q then step_back points j q else i
  end.

(** [AlignmentModel::align] on a path with at least one point. *)
Definition align_points (points : PointList) (frame_ : Z) : Z :=
  let q := to_long frame_ in
  let i := lower_bound points q in
  let i := if Nat.eqb i (length points) then Nat.pred i else i in
  let i := step_back points i q in
  let foundFrame := frame (at_ points i) in
  let foundMapFrame := mapframe (at_ points i) in
  let following :=
    if Nat.eqb (S i) (length points) then at_ points i else at_ points (S i) in
  let followingFrame := frame following in
  let followingMapFrame := mapframe following in
  if foundMapFrame <? 0 then 0
  else
    let resultFrame := foundMapFrame in
    if negb (followingFrame =? foundFrame) && (q >? foundFrame) then
      let interp :=
        Float32.div (Float32.of_Z (to_size_t (frame_ - foundFrame)))
                    (Float32.of_Z (followingFrame - foundFrame)) in
      to_size_t
        (resultFrame +
         Float32.lrintf
           (Float32.mul (Float32.of_Z (followingMapFrame - foundMapFrame)) interp))
    else resultFrame.

Definition align (path : option PointList) (frame_ : Z) : Z :=
  match path with
  | None => frame_
  | Some points =>
      match points with
      | [] => frame_
      | _ => align_points points frame_
      end
  end.

Definition toReference (m : AlignmentModel) (frame_ : Z) : Z :=
  match m_path m with
  | None =>
      match m_rawPath m with
      | None => frame_
      | Some _ => align (m_path (constructPath m)) frame_
      end
  | Some _ => align (m_path m) frame_
  end.

Definition fromReference (m : AlignmentModel) (frame_ : Z) : Z :=
  match m_reversePath m with
  | None =>
      match m_rawPath m with
      | None => frame_
      | Some _ => align (m_reversePath (constructReversePath m)) frame_
      end
  | Some _ => align (m_reversePath m) frame_
  end.

End AlignmentModel.

(** ** transform/FeatureExtractionPluginTransform.cpp
       (class FeatureExtractionModelTransformer) *)

Module Transformer.

Import Int64.

(** *** [run]: the calls of [setCompletion] *)

(** Everything [run] reads from outside itself.  [m_abandoned] is written
    by another thread: [abandoned k] is what the [k]-th read of the flag
    finds.  [input_ready k] is the answer of the [k]-th call of
    [input->isReady()].  [fft_error i] tells whether an FFT model reports
    an error in iteration [i] of the block loop. *)
Record RunEnv := mkRunEnv {
  has_input : bool;          (* getConformingInput() is not null *)
  outputs : nat;             (* m_outputs.size(), also m_outputNos.size() *)
  input_ready : nat -> bool;
  abandoned : nat -> bool;
  frequencyDomain : bool;
  fft_models_ok : bool;      (* every FFTModel constructed isOK() *)
  fft_error : nat -> bool;
  stepSize : Z;              (* size_t *)
  blockSize : Z;             (* size_t *)
  startFrame : Z;            (* m_input.getModel()->getStartFrame() *)
  endFrame : Z;              (* m_input.getModel()->getEndFrame() *)
  contextStartFrames : Z;    (* realTime2Frame(contextStartRT, sampleRate) *)
  contextDurationFrames : Z  (* realTime2Frame(contextDurationRT, sampleRate) *)
}.

(** Conversion of a [size_t] or a [long] to [int]. *)
Definition to_int (z : Z) : Z :=
  let u := z mod 2 ^ 32 in
  if u <? 2 ^ 31 then u else u - 2 ^ 32.

Definition contextStart (e : RunEnv) : Z :=
  let cs := contextStartFrames e in
  if (cs =? 0) || (cs <? startFrame e) then startFrame e else cs.

Definition contextDuration (e : RunEnv) : Z :=
  let cd := contextDurationFrames e in
  let cd := if cd =? 0 then endFrame e - contextStart e else cd in
  if contextStart e + cd >? endFrame e then endFrame e - contextStart e else cd.

(** The exit test at the head of the block loop. *)
Definition past_end (e : RunEnv) (blockFrame : Z) : bool :=
  if frequencyDomain e then
    blockFrame - Z.quot (to_int (blockSize e)) 2 >? contextStart e + contextDuration e
  else
    blockFrame >=? contextStart e + contextDuration e.

(** [(((blockFrame - contextStart) / stepSize) * 99) /
     (contextDuration / stepSize + 1)], an expression of type [size_t]
    stored in a [long]. *)
Definition completion_at (e : RunEnv) (blockFrame : Z) : Z :=
  to_long
    (Z.div
       (to_size_t (Z.div (to_size_t (blockFrame - contextStart e)) (stepSize e) * 99))
       (to_size_t (Z.div (to_size_t (contextDuration e)) (stepSize e) + 1))).

(** [while (!input->isReady() && !m_abandoned) usleep(500000);]
    The result is the number of reads of [m_abandoned] made; [None] when
    the loop is still waiting after [fuel] rounds. *)
Fixpoint wait_for_input (fuel : nat) (e : RunEnv) (k clock : nat) : option nat :=
  match fuel with
  | O => None
  | S fuel' =>
      if input_ready e k then Some clock
      else if abandoned e clock then Some (S clock)
      else wait_for_input fuel' e (S k) (S clock)
  end.

(** The block loop, from iteration [i] on.  [calls] holds the completion
    values passed to [setCompletion] so far, latest last; each value goes
    to every output in turn.  After the loop every output is set to 100. *)
Fixpoint block_loop (fuel : nat) (e : RunEnv) (i : nat)
    (blockFrame prevCompletion : Z) (clock : nat) (calls : list Z) : option (list Z) :=
  match fuel with
  | O => None
  | S fuel' =>
      if abandoned e clock then Some (calls ++ [100])
      else if past_end e blockFrame then Some (calls ++ [100])
      else
        let completion := completion_at e blockFrame in
        let error := frequencyDomain e && fft_error e i in
        if error || abandoned e (S clock) then Some (calls ++ [100])
        else if abandoned e (S (S clock)) then Some (calls ++ [100])
        else if (blockFrame =? contextStart e) || (completion >? prevCompletion) then
          block_loop fuel' e (S i) (blockFrame + stepSize e) completion
            (S (S (S clock))) (calls ++ [completion])
        else
          block_loop fuel' e (S i) (blockFrame + stepSize e) prevCompletion
            (S (S (S clock))) calls
  end.

(** [run]: the completion values passed to [setCompletion], in order.
    The plugin calls and [addFeature] do not touch completion and are left
    out.  [None]: one of the two loops has not finished within its fuel. *)
Definition run (wait_fuel loop_fuel : nat) (e : RunEnv) : option (list Z) :=
  if negb (has_input e) then Some []
  else if Nat.eqb (outputs e) 0 then Some []
  else
    match wait_for_input wait_fuel e 0 0 with
    | None => None
    | Some clock =>
        if abandoned e clock then Some []
        else if frequencyDomain e && negb (fft_models_ok e) then Some [100]
        else block_loop loop_fuel e 0 (contextStart e) 0 (S clock) [0]
    end.

(** The calls [setCompletion(j, c)] behind a list of completion values. *)
Definition setCompletion_calls (e : RunEnv) (values : list Z) : list (nat * Z) :=
  flat_map (fun c => map (fun j => (j, c)) (seq 0 (outputs e))) values.

(** The completion values output [j] is given. *)
Definition reported_to (j : nat) (calls : list (nat * Z)) : list Z :=
  map snd (filter (fun jc => Nat.eqb (fst jc) j) calls).

(** Enough rounds for the block loop. *)
Definition loop_fuel (e : RunEnv) : nat :=
  Z.to_nat (contextDuration e + Z.quot (to_int (blockSize e)) 2 + 2) + 1.

(** *** [addFeature] *)

Record RealTime := mkRealTime { sec : Z; nsec : Z }.

(** [Vamp::Plugin::Feature] *)
Record Feature := mkFeature {
  hasTimestamp : bool;
  timestamp : RealTime;
  hasDuration : bool;
  duration : RealTime;
  values : list Float32.float;
  label : String.string
}.

Inductive SampleType := OneSamplePerStep | FixedSampleRate | VariableSampleRate.

(** The kind of model the constructor made for an output, as told by
    [isOutput<...>(n)] in the order [addFeature] asks. *)
Inductive OutputModel :=
| SparseOneDimensionalModel
| SparseTimeValueModel
| FlexiNoteModel
| NoteModel
| RegionModel
| EditableDenseThreeDimensionalModel (resolution : Z)
| UnknownModel.

(** What [addFeature] needs of the descriptor and of the output [n]. *)
Record Output := mkOutput {
  sampleType : SampleType;
  sampleRate : Float32.float;       (* m_descriptors[n]->sampleRate *)
  model : OutputModel;
  fixedRateFeatureNo : Z            (* m_fixedRateFeatureNos[n], an int *)
}.

(** [QString("[%1] %2").arg(i+1).arg(label)] is kept as its two arguments. *)
Inductive Label :=
| Plain (text : String.string)
| Numbered (i : Z) (text : String.string).

(** The calls [addFeature] makes on the output model. *)
Inductive ModelCall :=
| AddInstant (frame : Z) (l : Label)
| AddTimeValue (frame : Z) (value : Float32.float) (l : Label)
| AddFlexiNote (frame : Z) (value : Float32.float) (dur : Z)
    (level : Float32.float) (l : Label)
| AddNote (frame : Z) (value : Float32.float) (dur : Z)
    (level : Float32.float) (l : Label)
| AddRegion (frame : Z) (value : Float32.float) (dur : Z) (l : Label)
| SetColumn (column : Z) (bins : list Float32.float).

Section AddFeature.

(** [Vamp::RealTime::realTime2Frame], from the Vamp SDK. *)
Variable realTime2Frame : RealTime -> Z -> Z.

(** [lrint(ts.toDouble() * sampleRate)], in double precision, with
    [RealTime::toDouble] from base/RealTime: a [long]. *)
Variable timestampIndex : RealTime -> Float32.float -> Z.

(** The frame a feature is filed under and the new value of
    [m_fixedRateFeatureNos[n]]; [None] when the feature is dropped.
    [m_fixedRateFeatureNos] is a [std::vector<int>]: the number is kept as
    an [int], both after [++m_fixedRateFeatureNos[n]] (whose overflow at
    [INT_MAX] is written out as the wrap-around of two's complement) and
    after the assignment of the [long] that [lrint] gives. *)
Definition featureFrame (inputRate : Z) (o : Output) (blockFrame : Z)
    (f : Feature) : option (Z * Z) :=
  match sampleType o with
  | VariableSampleRate =>
      if negb (hasTimestamp f) then None
      else Some (to_size_t (realTime2Frame (timestamp f) inputRate),
                 fixedRateFeatureNo o)
  | FixedSampleRate =>
      let no :=
        if negb (hasTimestamp f) then to_int (fixedRateFeatureNo o + 1)
        else to_int (timestampIndex (timestamp f) (sampleRate o)) in
      Some (to_size_t
              (Float32.lrintf
                 (Float32.mul
                    (Float32.div (Float32.of_Z no) (sampleRate o))
                    (Float32.of_Z inputRate))),
            no)
  | OneSamplePerStep => Some (blockFrame, fixedRateFeatureNo o)
  end.

(** One point per value, labelled "[i] label" when there are several. *)
Fixpoint numbered_points (mk : Float32.float -> Label -> ModelCall)
    (several : bool) (text : String.string) (i : Z)
    (vs : list Float32.float) : list ModelCall :=
  match vs with
  | [] => []
  | v :: vs' =>
      mk v (if several then Numbered (i + 1) text else Plain text)
        :: numbered_points mk several text (i + 1) vs'
  end.

Definition several (vs : list Float32.float) : bool := (1 <? Z.of_nat (length vs)).

(** The read [feature.values[index++]] guarded by
    [feature.values.size() > index]: the value read, or the default, and
    the index afterwards. *)
Definition next_value (vs : list Float32.float) (index : nat)
    (default : Float32.float) : Float32.float * nat :=
  match nth_error vs index with
  | Some v => (v, S index)
  | None => (default, index)
  end.

(** [if (velocity < 0) velocity = 127; if (velocity > 127) velocity = 127;] *)
Definition limit_velocity (velocity : Float32.float) : Float32.float :=
  let velocity :=
    if Float32.ltb velocity (Float32.of_Z 0) then Float32.of_Z 127 else velocity in
  if Float32.ltb (Float32.of_Z 127) velocity then Float32.of_Z 127 else velocity.

(** The calls made on the output model. *)
Definition routeFeature (inputRate : Z) (o : Output) (frame : Z)
    (f : Feature) : list ModelCall :=
  match model o with
  | SparseOneDimensionalModel => [AddInstant frame (Plain (label f))]
  | SparseTimeValueModel =>
      numbered_points (AddTimeValue frame) (several (values f)) (label f) 0 (values f)
  | FlexiNoteModel | NoteModel | RegionModel =>
      let index := O in
      let '(value, index) := next_value (values f) index (Float32.of_Z 0) in
      let '(dur, index) :=
        if hasDuration f
        then (Float32.of_Z (realTime2Frame (duration f) inputRate), index)
        else next_value (values f) index (Float32.of_Z 1) in
      match model o with
      | FlexiNoteModel =>
          let '(velocity, _) := next_value (values f) index (Float32.of_Z 100) in
          [AddFlexiNote frame value (Float32.lrintf dur)
             (Float32.div (limit_velocity velocity) (Float32.of_Z 127))
             (Plain (label f))]
      | NoteModel =>
          let '(velocity, _) := next_value (values f) index (Float32.of_Z 100) in
          [AddNote frame value (Float32.lrintf dur)
             (Float32.div (limit_velocity velocity) (Float32.of_Z 127))
             (Plain (label f))]
      | _ =>
          if hasDuration f && negb (match values f with [] => true | _ => false end)
          then
            numbered_points
              (fun v l => AddRegion frame v (Float32.lrintf dur) l)
              (several (values f)) (label f) 0 (values f)
          else [AddRegion frame value (Float32.lrintf dur) (Plain (label f))]
      end
  | EditableDenseThreeDimensionalModel resolution =>
      [SetColumn (Z.div frame resolution) (values f)]
  | UnknownModel => []
  end.

(** [addFeature(n, blockFrame, feature)]: the calls made on the output
    model and the output's state afterwards. *)
Definition addFeature (inputRate : Z) (o : Output) (blockFrame : Z)
    (f : Feature) : list ModelCall * Output :=
  match featureFrame inputRate o blockFrame f with
  | None => ([], o)
  | Some (frame, no) =>
      (routeFeature inputRate o frame f,
       mkOutput (sampleType o) (sampleRate o) (model o) no)
  end.

(** The loop of [run] over the features of one output:
    [for (fi = 0; fi < features[m_outputNos[j]].size(); ++fi)
       addFeature(j, blockFrame, features[m_outputNos[j]][fi]);] *)
Definition addFeatures (inputRate : Z) (o : Output) (blockFrame : Z)
    (fs : list Feature) : list ModelCall * Output :=
  fold_left
    (fun state f =>
       let '(calls, o') := addFeature inputRate (snd state) blockFrame f in
       (fst state ++ calls, o'))
    fs ([], o).

End AddFeature.

(** *** [getFrames] *)

Section GetFrames.

(** [DenseTimeValueModel::getData] is declared in
    data/model/DenseTimeValueModel.h, which is not under src/.
    [getData channel start count] gives the samples the call writes from
    the start of the buffer it is passed; their number is the result of
    the call.  [getDataRange fromchannel tochannel start count] gives the
    result of the call for several channels and the samples written to
    each of the buffers. *)
Variable getData : Z -> Z -> Z -> list Float32.float.
Variable getDataRange : Z -> Z -> Z -> Z -> Z * list (list Float32.float).

(** The writes [buffer[offset + i] = data[i]]; one outside the array is
    left out. *)
Fixpoint write (offset : nat) (data buffer : list Float32.float) : list Float32.float :=
  match buffer with
  | [] => []
  | b :: buffer' =>
      match offset with
      | O =>
          match data with
          | [] => buffer
          | v :: data' => v :: write O data' buffer'
          end
      | S offset' => b :: write offset' data buffer'
      end
  end.

Definition zeros (n : Z) : list Float32.float := repeat Float32.zero (Z.to_nat n).

(** [for (int c = 0; c < channelCount; ++c)] over the buffers. *)
Definition on_channels (channelCount : Z) (f : list Float32.float -> list Float32.float)
    (buffers : list (list Float32.float)) : list (list Float32.float) :=
  map f (firstn (Z.to_nat channelCount) buffers) ++ skipn (Z.to_nat channelCount) buffers.

Definition on_first (f : list Float32.float -> list Float32.float)
    (buffers : list (list Float32.float)) : list (list Float32.float) :=
  match buffers with
  | [] => []
  | b :: rest => f b :: rest
  end.

Fixpoint write_each (offset : nat) (data buffers : list (list Float32.float))
    : list (list Float32.float) :=
  match data, buffers with
  | d :: data', b :: buffers' => write offset d b :: write_each offset data' buffers'
  | _, _ => buffers
  end.

(** [for (long i = 0; i < size; ++i) buffers[0][i + offset] /= cc;] *)
Definition divide (offset size : Z) (cc : Float32.float) (buffer : list Float32.float)
    : list Float32.float :=
  write (Z.to_nat offset)
    (map (fun x => Float32.div x cc) (firstn (Z.to_nat size) (skipn (Z.to_nat offset) buffer)))
    buffer.

(** [getFrames]: the buffers afterwards.  [hasInput] tells whether
    [getConformingInput()] is not null, [inputChannel] is
    [m_input.getChannel()] and [inputChannelCount] is
    [input->getChannelCount()]. *)
Definition getFrames (hasInput : bool) (inputChannel inputChannelCount : Z)
    (channelCount startFrame size : Z) (buffers : list (list Float32.float))
    : list (list Float32.float) :=
  let before := startFrame <? 0 in
  let buffers :=
    if before
    then on_channels channelCount (write 0 (zeros (Z.min size (- startFrame)))) buffers
    else buffers in
  let offset := if before then - startFrame else 0 in
  let size := size - offset in
  if before && (size <=? 0) then buffers
  else
    let startFrame := if before then 0 else startFrame in
    if negb hasInput then buffers
    else
      let '(got, buffers) :=
        if channelCount =? 1 then
          let data := getData inputChannel startFrame size in
          let buffers := on_first (write (Z.to_nat offset) data) buffers in
          let buffers :=
            if (inputChannel =? -1) && (inputChannelCount >? 1)
            then on_first (divide offset size (Float32.of_Z inputChannelCount)) buffers
            else buffers in
          (Z.of_nat (length data), buffers)
        else
          let '(got, data) := getDataRange 0 (channelCount - 1) startFrame size in
          (got, write_each (Z.to_nat offset) data buffers) in
      on_channels channelCount (write (Z.to_nat (got + offset)) (zeros (size - got))) buffers.

End GetFrames.

End Transformer.

(** ** data/fileio/CodedAudioFileReader.cpp *)

Module CodedAudioFileReader.

(** [CodedAudioFileReader::CacheMode].  CodedAudioFileReader.h is not under
    src/; the constructor names the two values. *)
Inductive CacheMode := CacheInTemporaryFile | CacheInMemory.

(** How a call can end other than by returning: the two exceptions the
    file throws, and the behaviour C++ leaves undefined (a range of
    iterators or a buffer that is not valid, a null pointer, a division by
    zero).  The state an exception leaves behind is not kept: the decode
    ends there.  Every [new] is taken to succeed. *)
Inductive Failure :=
| FileOperationFailed
| InsufficientDiscSpace
| UndefinedBehaviour.

Inductive Result (A : Type) : Type :=
| Ok (a : A)
| Fails (f : Failure).

Arguments Ok {A}.
Arguments Fails {A}.

Definition bind {A B : Type} (x : Result A) (k : A -> Result B) : Result B :=
  match x with
  | Ok a => k a
  | Fails f => Fails f
  end.

Notation "x <- c1 ;; c2" := (bind c1 (fun x => c2))
  (at level 61, c1 at next level, right associativity).

(** A loop that ends at the first failure. *)
Fixpoint foldM {A B : Type} (f : B -> A -> Result B) (l : list A) (b : B) : Result B :=
  match l with
  | [] => Ok b
  | a :: l' => b' <- f b a ;; foldM f l' b'
  end.

(** The code the reader calls and src/ does not hold.  [R] is the state of
    the resampler (base/Resampler), [F] that of the temporary file: what is
    on disc, with the libsndfile handle that writes it and the
    WavFileReader that reads it.  A handle or a reader is passed as the
    flag that tells whether the pointer is not null. *)
Record External (R F : Type) := mkExternal {
  (* new Resampler(Resampler::FastestTolerable, channels, bufferSize) *)
  newResampler : Z -> Z -> R;
  (* resampleInterleaved(in, out, sz, ratio, final): the new state, the
     number of frames produced and the samples written to [out] *)
  resampleInterleaved :
    R -> list Float32.float -> Z -> Float64.float -> bool -> R * Z * list Float32.float;
  (* TempDirectory::getInstance()->getPath(); false: DirectoryCreationFailed *)
  getPath : F -> F * bool;
  (* sf_open(name, SFM_WRITE, &fileInfo) with the sample rate and the
     channel count of fileInfo; false: a null handle *)
  sf_open : F -> Z -> Z -> F * bool;
  (* sf_writef_float(handle, buffer, sz): the frames written *)
  sf_writef_float : bool -> F -> list Float32.float -> Z -> F * Z;
  (* sf_close(handle) *)
  sf_close : bool -> F -> F;
  (* new WavFileReader(name), with the answer of its isOK() *)
  newWavFileReader : F -> F * bool;
  (* m_cacheFileReader->updateFrameCount() *)
  updateFrameCount : F -> F;
  (* m_cacheFileReader->getInterleavedFrames(start, count) *)
  readInterleavedFrames : F -> Z -> Z -> list Float32.float
}.

Arguments mkExternal {R F}.
Arguments newResampler {R F}.
Arguments resampleInterleaved {R F}.
Arguments getPath {R F}.
Arguments sf_open {R F}.
Arguments sf_writef_float {R F}.
Arguments sf_close {R F}.
Arguments newWavFileReader {R F}.
Arguments updateFrameCount {R F}.
Arguments readInterleavedFrames {R F}.

Section Reader.

Variables R F : Type.
Variable lib : External R F.

(** The fields of the reader.  [isOK()] is declared in AudioFileReader.h,
    which is not under src/: the field [isOK] holds its answer. *)
Record Reader := mkReader {
  m_cacheMode : CacheMode;
  m_initialised : bool;
  isOK : bool;
  m_channelCount : Z;
  m_fileRate : Float64.float;
  m_sampleRate : Float64.float;
  m_resampler : option R;
  m_fileFrameCount : Z;
  m_frameCount : Z;
  m_normalised : bool;
  m_max : Float32.float;
  m_gain : Float32.float;
  m_data : list Float32.float;
  m_cacheFileWritePtr : bool;     (* not null *)
  m_cacheFileReader : bool;       (* not null *)
  m_cacheFile : F
}.

Definition clip : Float32.float := Float32.of_Z 1.

(** [float v = fabsf(buffer[i]); if (v > m_max) { m_max = v; m_gain = 1.f / m_max; }] *)
Definition track_peak (mg : Float32.float * Float32.float) (sample : Float32.float)
    : Float32.float * Float32.float :=
  let v := Float32.fabsf sample in
  if Float32.ltb (fst mg) v then (v, Float32.div (Float32.of_Z 1) v) else mg.

(** The two clipping loops of the mode without normalisation. *)
Definition clip_sample (x : Float32.float) : Float32.float :=
  let x := if Float32.ltb clip x then clip else x in
  if Float32.ltb x (SFopp clip) then SFopp clip else x.

(** The first [count] floats of a buffer, the ones the loops
    [for (i = 0; i < count; ++i)] visit; none when [count] is negative. *)
Definition buffer_prefix (buffer : list Float32.float) (count : Z) : list Float32.float :=
  firstn (Z.to_nat count) buffer.

(** [m_max], [m_gain] and [m_frameCount] as [pushBufferNonResampling] sets
    them before it stores the samples. *)
Definition counted (max gain : Float32.float) (frameCount : Z) (r : Reader) : Reader :=
  mkReader (m_cacheMode r) (m_initialised r) (isOK r) (m_channelCount r) (m_fileRate r)
    (m_sampleRate r) (m_resampler r) (m_fileFrameCount r) frameCount
    (m_normalised r) max gain (m_data r)
    (m_cacheFileWritePtr r) (m_cacheFileReader r) (m_cacheFile r).

Definition with_data (data : list Float32.float) (r : Reader) : Reader :=
  mkReader (m_cacheMode r) (m_initialised r) (isOK r) (m_channelCount r) (m_fileRate r)
    (m_sampleRate r) (m_resampler r) (m_fileFrameCount r) (m_frameCount r)
    (m_normalised r) (m_max r) (m_gain r) data
    (m_cacheFileWritePtr r) (m_cacheFileReader r) (m_cacheFile r).

Definition with_file (file : F) (r : Reader) : Reader :=
  mkReader (m_cacheMode r) (m_initialised r) (isOK r) (m_channelCount r) (m_fileRate r)
    (m_sampleRate r) (m_resampler r) (m_fileFrameCount r) (m_frameCount r)
    (m_normalised r) (m_max r) (m_gain r) (m_data r)
    (m_cacheFileWritePtr r) (m_cacheFileReader r) file.

(** [pushBufferNonResampling(buffer, sz)].  The list [buffer] is the
    array the pointer leads to: a loop over more samples than it holds
    reads past its end.  In memory the samples are appended by
    [m_data.insert(m_data.end(), buffer, buffer + count)], a range that is
    not valid when [count] is negative.  In the temporary file the buffer
    goes to [sf_writef_float], and a short write throws. *)
Definition pushBufferNonResampling (buffer : list Float32.float) (sz : Z)
    (r : Reader) : Result Reader :=
  let count := sz * m_channelCount r in
  if Z.of_nat (length buffer) <? count then Fails UndefinedBehaviour
  else
    let samples := buffer_prefix buffer count in
    let '(max, gain) :=
      if m_normalised r then fold_left track_peak samples (m_max r, m_gain r)
      else (m_max r, m_gain r) in
    let stored := if m_normalised r then samples else map clip_sample samples in
    let r := counted max gain (m_frameCount r + sz) r in
    match m_cacheMode r with
    | CacheInTemporaryFile =>
        let '(file, written) :=
          sf_writef_float lib (m_cacheFileWritePtr r) (m_cacheFile r)
            (stored ++ skipn (Z.to_nat count) buffer) sz in
        if written <? sz then Fails InsufficientDiscSpace
        else Ok (with_file file r)
    | CacheInMemory =>
        if count <? 0 then Fails UndefinedBehaviour
        else Ok (with_data (m_data r ++ stored) r)
    end.

Definition with_resampler (rs : option R) (r : Reader) : Reader :=
  mkReader (m_cacheMode r) (m_initialised r) (isOK r) (m_channelCount r) (m_fileRate r)
    (m_sampleRate r) rs (m_fileFrameCount r) (m_frameCount r)
    (m_normalised r) (m_max r) (m_gain r) (m_data r)
    (m_cacheFileWritePtr r) (m_cacheFileReader r) (m_cacheFile r).

(** The number of frames the output may hold:
    [sv_frame_t(double(m_fileFrameCount) * ratio)]. *)
Definition output_limit (ratio : Float64.float) (r : Reader) : Z :=
  Float64.to_frame (Float64.mul (Float64.of_Z (m_fileFrameCount r)) ratio).

Definition padFrames (ratio : Float64.float) (r : Reader) : Z :=
  if Float64.ltb (Float64.div (Float64.of_Z (m_frameCount r)) ratio)
                 (Float64.of_Z (m_fileFrameCount r))
  then m_fileFrameCount r
       - Float64.to_frame (Float64.div (Float64.of_Z (m_frameCount r)) ratio) + 1
  else 1.

(** The first half of [pushBufferResampling]: [if (sz > 0) { ... }]. *)
Definition resampleBlock (rs : R) (buffer : list Float32.float) (sz : Z)
    (ratio : Float64.float) (r : Reader) : Result (R * Reader) :=
  if 0 <? sz then
    let '(rs', out, resampled) := resampleInterleaved lib rs buffer sz ratio false in
    r' <- pushBufferNonResampling resampled out (with_resampler (Some rs') r) ;;
    Ok (rs', r')
  else Ok (rs, r).

(** The call that flushes the resampler with [padFrames] frames of zeros. *)
Definition flushResampler (rs : R) (ratio : Float64.float) (r : Reader)
    : R * Z * list Float32.float :=
  let pad := padFrames ratio r in
  let padding := repeat (S754_zero false) (Z.to_nat (pad * m_channelCount r)) in
  resampleInterleaved lib rs padding pad ratio true.

(** The second half of [pushBufferResampling]: [if (final) { ... }]. *)
Definition flushClipped (rs : R) (ratio : Float64.float) (r : Reader) : Result Reader :=
  let '(rs', out, resampled) := flushResampler rs ratio r in
  let out :=
    if m_frameCount r + out >? output_limit ratio r
    then output_limit ratio r - m_frameCount r else out in
  pushBufferNonResampling resampled out (with_resampler (Some rs') r).

Definition pushBufferResampling (rs : R) (buffer : list Float32.float) (sz : Z)
    (ratio : Float64.float) (final : bool) (r : Reader) : Result Reader :=
  rr <- resampleBlock rs buffer sz ratio r ;;
  if final then flushClipped (fst rr) ratio (snd rr) else Ok (snd rr).

(** [m_fileFrameCount += sz] *)
Definition countFileFrames (sz : Z) (r : Reader) : Reader :=
  mkReader (m_cacheMode r) (m_initialised r) (isOK r) (m_channelCount r) (m_fileRate r)
    (m_sampleRate r) (m_resampler r) (m_fileFrameCount r + sz) (m_frameCount r)
    (m_normalised r) (m_max r) (m_gain r) (m_data r)
    (m_cacheFileWritePtr r) (m_cacheFileReader r) (m_cacheFile r).

(** The ratio [pushBuffer] works out: [m_sampleRate / m_fileRate] when there
    is a resampler and the file rate is not zero, else [1.0]. *)
Definition ratioOf (r : Reader) : Float64.float :=
  match m_resampler r with
  | Some _ =>
      if negb (Float64.eqb (m_fileRate r) (Float64.of_Z 0))
      then Float64.div (m_sampleRate r) (m_fileRate r)
      else Float64.of_Z 1
  | None => Float64.of_Z 1
  end.

Definition pushBuffer (buffer : list Float32.float) (sz : Z) (final : bool)
    (r : Reader) : Result Reader :=
  let r := countFileFrames sz r in
  let ratio := ratioOf r in
  match m_resampler r with
  | Some rs =>
      if negb (Float64.eqb ratio (Float64.of_Z 1))
      then pushBufferResampling rs buffer sz ratio final r
      else pushBufferNonResampling buffer sz r
  | None => pushBufferNonResampling buffer sz r
  end.

(** [if (m_normalised) for (auto &f: frames) f *= m_gain;] *)
Definition scaled (r : Reader) (frames : list Float32.float) : list Float32.float :=
  if m_normalised r then map (fun f => Float32.mul f (m_gain r)) frames else frames.

(** [getInterleavedFrames(start, count)].  In memory the frames are
    [vector<float>(m_data.begin() + ix0, m_data.begin() + ix1)], a range
    that is valid only from an index within the data up to one that is
    not before it. *)
Definition getInterleavedFrames (start count : Z) (r : Reader)
    : Result (list Float32.float) :=
  if negb (m_initialised r) then Ok []
  else
    match m_cacheMode r with
    | CacheInTemporaryFile =>
        let frames :=
          if m_cacheFileReader r
          then readInterleavedFrames lib (m_cacheFile r) start count
          else [] in
        Ok (scaled r frames)
    | CacheInMemory =>
        if negb (isOK r) then Ok []
        else if count =? 0 then Ok []
        else
          let ix0 := start * m_channelCount r in
          let ix1 := ix0 + count * m_channelCount r in
          let n := Z.of_nat (length (m_data r)) in
          let ix1 := if ix1 >? n then n else ix1 in
          if (ix0 <? 0) || (ix1 <? ix0) then Fails UndefinedBehaviour
          else
            Ok (scaled r (skipn (Z.to_nat ix0) (firstn (Z.to_nat ix1) (m_data r))))
    end.

(** A decode: blocks pushed by [pushBuffer(buffer, sz, false)], then the
    last block pushed by [finishDecodeCache] with [final] set. *)
Definition push_all (blocks : list (list Float32.float * Z)) (r : Reader) : Result Reader :=
  foldM (fun r b => pushBuffer (fst b) (snd b) false r) blocks r.

Definition decode (blocks : list (list Float32.float * Z))
    (last : list Float32.float * Z) (r : Reader) : Result Reader :=
  r' <- push_all blocks r ;; pushBuffer (fst last) (snd last) true r'.

(** The reader as the constructor and [initialiseDecodeCache] leave it,
    for a reader that is OK and whose cache has been set up in the mode
    asked for. *)
Definition initialised (mode : CacheMode) (channels : Z) (fileRate sampleRate : Float64.float)
    (resampler : option R) (normalised : bool) (file : F) : Reader :=
  mkReader mode true true channels fileRate sampleRate resampler 0 0 normalised
    (S754_zero false) (Float32.of_Z 1) []
    (match mode with CacheInTemporaryFile => true | CacheInMemory => false end)
    (match mode with CacheInTemporaryFile => true | CacheInMemory => false end)
    file.

(** *** The decode cache *)

(** The reader with its write buffer.  [m_cacheWriteBuffer] is [None] for
    the null pointer; else it holds the entries [0] to
    [m_cacheWriteBufferIndex - 1] of the array, the ones written since the
    last push (the others are not read before they are written). *)
Record Decoder := mkDecoder {
  reader : Reader;
  m_cacheWriteBuffer : option (list Float32.float);
  m_cacheWriteBufferIndex : Z;
  m_cacheWriteBufferSize : Z
}.

(** The reader as the constructor leaves it, once the subclass has set the
    channel count and the rate of the file. *)
Definition constructed (cacheMode : CacheMode) (ok : bool) (channels : Z)
    (fileRate targetRate : Float64.float) (normalised : bool) (file : F) : Decoder :=
  mkDecoder
    (mkReader cacheMode false ok channels fileRate targetRate None 0 0 normalised
       (S754_zero false) (Float32.of_Z 1) [] false false file)
    None 0 16384.

(** The set-up of the temporary file in [initialiseDecodeCache]: the mode
    it ends in, the handle, the reader and the file.  Each of the three
    failures falls back to the cache in memory; after the third the handle
    has been closed but not set to null. *)
Definition openCacheFile (sampleRate : Float64.float) (channels : Z) (file : F)
    : CacheMode * bool * bool * F :=
  let '(file, found) := getPath lib file in
  if negb found then (CacheInMemory, false, false, file)
  else
    let '(file, opened) := sf_open lib file (Float64.round_to_int sampleRate) channels in
    if negb opened then (CacheInMemory, false, false, file)
    else
      let '(file, ok) := newWavFileReader lib file in
      if ok then (CacheInTemporaryFile, true, true, file)
      else (CacheInMemory, true, false, sf_close lib true file).

(** [initialiseDecodeCache]. *)
Definition initialiseDecodeCache (d : Decoder) : Result Decoder :=
  let r := reader d in
  if Float64.eqb (m_fileRate r) (Float64.of_Z 0) then Fails FileOperationFailed
  else
    let sampleRate :=
      if Float64.eqb (m_sampleRate r) (Float64.of_Z 0) then m_fileRate r
      else m_sampleRate r in
    let resampler :=
      if negb (Float64.eqb (m_fileRate r) sampleRate)
      then Some (newResampler lib (m_channelCount r) (m_cacheWriteBufferSize d))
      else m_resampler r in
    let '(mode, handle, wav, file) :=
      match m_cacheMode r with
      | CacheInTemporaryFile => openCacheFile sampleRate (m_channelCount r) (m_cacheFile r)
      | CacheInMemory =>
          (CacheInMemory, m_cacheFileWritePtr r, m_cacheFileReader r, m_cacheFile r)
      end in
    let data := match mode with CacheInMemory => [] | CacheInTemporaryFile => m_data r end in
    Ok (mkDecoder
          (mkReader mode true (isOK r) (m_channelCount r) (m_fileRate r) sampleRate
             resampler (m_fileFrameCount r) (m_frameCount r) (m_normalised r)
             (m_max r) (m_gain r) data handle wav file)
          (Some []) 0 (m_cacheWriteBufferSize d)).

Definition with_reader (r : Reader) (d : Decoder) : Decoder :=
  mkDecoder r (m_cacheWriteBuffer d) (m_cacheWriteBufferIndex d) (m_cacheWriteBufferSize d).

(** The body of the loops of [addSamplesToDecodeCache]:
    [m_cacheWriteBuffer[m_cacheWriteBufferIndex++] = sample], the push of
    a full buffer, and the call of [updateFrameCount]. *)
Definition addSample (d : Decoder) (sample : Float32.float) : Result Decoder :=
  match m_cacheWriteBuffer d with
  | None => Fails UndefinedBehaviour
  | Some written =>
      let size := m_cacheWriteBufferSize d in
      let capacity := size * m_channelCount (reader d) in
      if (m_cacheWriteBufferIndex d <? 0) || (capacity <=? m_cacheWriteBufferIndex d)
      then Fails UndefinedBehaviour
      else
        let buffer := written ++ [sample] in
        let index := m_cacheWriteBufferIndex d + 1 in
        d' <- (if index =? capacity
               then r <- pushBuffer buffer size false (reader d) ;;
                    Ok (mkDecoder r (Some []) 0 size)
               else Ok (mkDecoder (reader d) (Some buffer) index size)) ;;
        if (Z.rem (m_cacheWriteBufferIndex d') 10240 =? 0) && m_cacheFileReader (reader d')
        then Ok (with_reader
                   (with_file (updateFrameCount lib (m_cacheFile (reader d'))) (reader d')) d')
        else Ok d'
  end.

(** [addSamplesToDecodeCache(const vector<float> &samples)] *)
Definition addSamplesToDecodeCache (samples : list Float32.float) (d : Decoder)
    : Result Decoder :=
  if negb (m_initialised (reader d)) then Ok d
  else foldM addSample samples d.

(** The counting loops [for (i = 0; i < n; ++i)]. *)
Definition upto (n : Z) : list Z := map Z.of_nat (seq 0 (Z.to_nat n)).

(** [addSamplesToDecodeCache(float *samples, sv_frame_t nframes)]: the
    sample read is [samples[i * m_channelCount + c]]. *)
Definition addInterleavedToDecodeCache (samples : list Float32.float) (nframes : Z)
    (d : Decoder) : Result Decoder :=
  if negb (m_initialised (reader d)) then Ok d
  else
    foldM
      (fun d i =>
         foldM
           (fun d c =>
              addSample d
                (nth (Z.to_nat (i * m_channelCount (reader d) + c)) samples Float32.zero))
           (upto (m_channelCount (reader d))) d)
      (upto nframes) d.

(** [addSamplesToDecodeCache(float **samples, sv_frame_t nframes)]: the
    sample read is [samples[c][i]]. *)
Definition addPlanarToDecodeCache (samples : list (list Float32.float)) (nframes : Z)
    (d : Decoder) : Result Decoder :=
  if negb (m_initialised (reader d)) then Ok d
  else
    foldM
      (fun d i =>
         foldM
           (fun d c =>
              addSample d (nth (Z.to_nat i) (nth (Z.to_nat c) samples []) Float32.zero))
           (upto (m_channelCount (reader d))) d)
      (upto nframes) d.

(** What [finishDecodeCache] does once the rest of the buffer is pushed:
    the write buffer and the resampler are deleted and their pointers set
    to null, the handle of the temporary file is closed.
    [m_cacheWriteBufferIndex] and [m_initialised] stay as they are. *)
Definition released (r : Reader) (d : Decoder) : Decoder :=
  let r := with_resampler None r in
  let r :=
    match m_cacheMode r with
    | CacheInTemporaryFile =>
        let file := sf_close lib (m_cacheFileWritePtr r) (m_cacheFile r) in
        let file := if m_cacheFileReader r then updateFrameCount lib file else file in
        mkReader (m_cacheMode r) (m_initialised r) (isOK r) (m_channelCount r)
          (m_fileRate r) (m_sampleRate r) (m_resampler r) (m_fileFrameCount r)
          (m_frameCount r) (m_normalised r) (m_max r) (m_gain r) (m_data r)
          false (m_cacheFileReader r) file
    | CacheInMemory => r
    end in
  mkDecoder r None (m_cacheWriteBufferIndex d) (m_cacheWriteBufferSize d).

(** [finishDecodeCache]: the rest of the buffer is pushed with [final]
    set, as [m_cacheWriteBufferIndex / m_channelCount] frames.  A buffer
    that has been deleted already can only be pushed as no frames. *)
Definition finishDecodeCache (d : Decoder) : Result Decoder :=
  if negb (m_initialised (reader d)) then Ok d
  else if m_channelCount (reader d) =? 0 then Fails UndefinedBehaviour
  else
    let sz := Z.quot (m_cacheWriteBufferIndex d) (m_channelCount (reader d)) in
    r <- match m_cacheWriteBuffer d with
         | Some written => pushBuffer written sz true (reader d)
         | None =>
             if 0 <? sz then Fails UndefinedBehaviour
             else pushBuffer [] sz true (reader d)
         end ;;
    Ok (released r d).

End Reader.

Arguments mkReader {R F}.
Arguments m_cacheMode {R F}.
Arguments m_initialised {R F}.
Arguments isOK {R F}.
Arguments m_channelCount {R F}.
Arguments m_fileRate {R F}.
Arguments m_sampleRate {R F}.
Arguments m_resampler {R F}.
Arguments m_fileFrameCount {R F}.
Arguments m_frameCount {R F}.
Arguments m_normalised {R F}.
Arguments m_max {R F}.
Arguments m_gain {R F}.
Arguments m_data {R F}.
Arguments m_cacheFileWritePtr {R F}.
Arguments m_cacheFileReader {R F}.
Arguments m_cacheFile {R F}.
Arguments counted {R F}.
Arguments with_data {R F}.
Arguments with_file {R F}.
Arguments pushBufferNonResampling {R F}.
Arguments with_resampler {R F}.
Arguments output_limit {R F}.
Arguments padFrames {R F}.
Arguments resampleBlock {R F}.
Arguments flushResampler {R F}.
Arguments flushClipped {R F}.
Arguments pushBufferResampling {R F}.
Arguments countFileFrames {R F}.
Arguments ratioOf {R F}.
Arguments pushBuffer {R F}.
Arguments scaled {R F}.
Arguments getInterleavedFrames {R F}.
Arguments push_all {R F}.
Arguments decode {R F}.
Arguments initialised {R F}.
Arguments mkDecoder {R F}.
Arguments reader {R F}.
Arguments m_cacheWriteBuffer {R F}.
Arguments m_cacheWriteBufferIndex {R F}.
Arguments m_cacheWriteBufferSize {R F}.
Arguments constructed {R F}.
Arguments openCacheFile {R F}.
Arguments initialiseDecodeCache {R F}.
Arguments with_reader {R F}.
Arguments addSample {R F}.
Arguments addSamplesToDecodeCache {R F}.
Arguments addInterleavedToDecodeCache {R F}.
Arguments addPlanarToDecodeCache {R F}.
Arguments released {R F}.
Arguments finishDecodeCache {R F}.

End CodedAudioFileReader.

(** ** data/model/NoteModel.h *)

Module NoteModel.

Import String.StringSyntax.
Local Open Scope string_scope.

Definition hertz : String.string := "Hz".

Section Notes.

Context {P : Type} `{EventSeries.Payload P}.

(** [Event::getValue] and [Event::toNoteData] are declared in base/Event.h,
    which is not under src/: the value of an event is read off its payload,
    and the note made of an event is of some type [NoteData]. *)
Variable getValue : P -> Float32.float.
Variable NoteData : Type.
Variable toNoteData : EventSeries.Event P -> Float64.float -> bool -> NoteData.

Inductive Subtype := NORMAL_NOTE | FLEXI_NOTE.

Record NoteModel := mkNoteModel {
  m_subtype : Subtype;
  m_sampleRate : Float64.float;
  m_resolution : Z;
  m_valueMinimum : Float32.float;
  m_valueMaximum : Float32.float;
  m_haveExtents : bool;
  m_units : String.string;
  m_completion : Z;
  m_events : EventSeries.EventSeries P
}.

(** The constructor without extents. *)
Definition construct (sampleRate : Float64.float) (resolution : Z) (subtype : Subtype)
    : NoteModel :=
  match subtype with
  | FLEXI_NOTE =>
      mkNoteModel subtype sampleRate resolution (Float32.of_Z 33) (Float32.of_Z 88)
        false String.EmptyString 100 EventSeries.empty
  | NORMAL_NOTE =>
      mkNoteModel subtype sampleRate resolution Float32.zero Float32.zero
        false String.EmptyString 100 EventSeries.empty
  end.

(** The constructor with extents. *)
Definition construct_with_extents (sampleRate : Float64.float) (resolution : Z)
    (valueMinimum valueMaximum : Float32.float) (subtype : Subtype) : NoteModel :=
  mkNoteModel subtype sampleRate resolution valueMinimum valueMaximum
    true String.EmptyString 100 EventSeries.empty.

Definition ISNAN (v : Float32.float) : bool :=
  match v with S754_nan => true | _ => false end.

Definition ISINF (v : Float32.float) : bool :=
  match v with S754_infinity _ => true | _ => false end.

(** [add]: the model afterwards and [allChange], which tells whether
    [modelChanged] is emitted. *)
Definition add (e : EventSeries.Event P) (m : NoteModel) : NoteModel * bool :=
  let events := EventSeries.add e (m_events m) in
  let v := getValue (EventSeries.payload e) in
  if negb (ISNAN v) && negb (ISINF v) then
    let '(lo, c1) :=
      if negb (m_haveExtents m) || Float32.ltb v (m_valueMinimum m)
      then (v, true) else (m_valueMinimum m, false) in
    let '(hi, c2) :=
      if negb (m_haveExtents m) || Float32.ltb (m_valueMaximum m) v
      then (v, true) else (m_valueMaximum m, false) in
    (mkNoteModel (m_subtype m) (m_sampleRate m) (m_resolution m) lo hi true
       (m_units m) (m_completion m) events,
     c1 || c2)
  else
    (mkNoteModel (m_subtype m) (m_sampleRate m) (m_resolution m)
       (m_valueMinimum m) (m_valueMaximum m) (m_haveExtents m)
       (m_units m) (m_completion m) events,
     false).

(** [remove]; [None] stands for the exception of [EventSeries::remove]. *)
Definition remove (e : EventSeries.Event P) (m : NoteModel) : option NoteModel :=
  match EventSeries.remove e (m_events m) with
  | None => None
  | Some events =>
      Some (mkNoteModel (m_subtype m) (m_sampleRate m) (m_resolution m)
              (m_valueMinimum m) (m_valueMaximum m) (m_haveExtents m)
              (m_units m) (m_completion m) events)
  end.

Definition getStartFrame (m : NoteModel) : Z := EventSeries.getStartFrame (m_events m).
Definition getEndFrame (m : NoteModel) : Z := EventSeries.getEndFrame (m_events m).

(** [getFrameForRow]; [None] stands for the exception of
    [EventSeries::count]. *)
Definition getFrameForRow (row : Z) (m : NoteModel) : option Z :=
  match EventSeries.count (m_events m) with
  | None => None
  | Some c =>
      if (row <? 0) || (row >=? c) then Some 0
      else option_map EventSeries.frame (EventSeries.getEventByIndex row (m_events m))
  end.

Definition getRowForFrame (f : Z) (m : NoteModel) : Z :=
  EventSeries.getIndexForEvent (EventSeries.Event_at f) (m_events m).

(** [getScaleUnits() != "Hz"] *)
Definition not_in_hertz (m : NoteModel) : bool :=
  negb (String.eqb (m_units m) hertz).

Definition getNotesStartingWithin (startFrame duration : Z) (m : NoteModel)
    : list NoteData :=
  map (fun e => toNoteData e (m_sampleRate m) (not_in_hertz m))
    (EventSeries.getEventsStartingWithin startFrame duration (m_events m)).

Definition getNotesActiveAt (f : Z) (m : NoteModel) : list NoteData :=
  map (fun e => toNoteData e (m_sampleRate m) (not_in_hertz m))
    (EventSeries.getEventsCovering f (m_events m)).

Definition getNotes (m : NoteModel) : list NoteData :=
  getNotesStartingWithin (getStartFrame m) (getEndFrame m - getStartFrame m) m.

End Notes.

Arguments NoteModel P : clear implicits.
Arguments getNotesStartingWithin {P H NoteData}.
Arguments getNotesActiveAt {P H NoteData}.
Arguments getNotes {P H NoteData}.

End NoteModel.

(** ** data/model/PathModel.h: the comparators of [PathPoint] *)

Module PathModel.

Import AlignmentModel.

(** [PathPoint::Comparator] *)
Definition Comparator (p1 p2 : PathPoint) : bool :=
  if negb (frame p1 =? frame p2) then frame p1 <? frame p2
  else mapframe p1 <? mapframe p2.

(** [PathPoint::OrderComparator] *)
Definition OrderComparator (p1 p2 : PathPoint) : bool := frame p1 <? frame p2.

End PathModel.

(** ** HelperExecPath.cpp (src/unnamed/part_002), as built for a 64-bit
       system that is neither macOS nor Windows *)

Module HelperExecPath.

Import String.StringSyntax.
Local Open Scope string_scope.

Local Infix "+++" := String.append (at level 60, right associativity).

Inductive SearchType := NativeArchitectureOnly | AllInstalled.

Record HelperExec := mkHelperExec { executable : String.string; tag : String.string }.

Definition getTags (m_type : SearchType) : list String.string :=
  match m_type with
  | NativeArchitectureOnly => ["64"; ""]
  | AllInstalled => ["64"; ""; "32"; "translated"]
  end.

Section Search.

(** [QCoreApplication::applicationName()], [applicationDirPath()] and the
    file name of [arguments().at(0)]. *)
Variables appName myDir binaryName : String.string.

(** [QFile(path).exists() && QFileInfo(path).isExecutable()] *)
Variable isGood : String.string -> bool.

Variable m_type : SearchType.

Definition getHelperDirPaths : list String.string :=
  (if negb (String.eqb binaryName "") then [myDir +++ "/../lib/" +++ binaryName] else [])
    ++ [myDir +++ "/../lib/" +++ appName; myDir +++ "/helpers"; myDir].

(** The path tried for a tag in a directory: [QDir::separator()] is a
    slash and the extension is empty. *)
Definition candidate (basename t d : String.string) : String.string :=
  d +++ "/" +++ basename +++ (if negb (String.eqb t "") then "-" +++ t else "").

(** The loop over the directories for one tag: the candidates pushed and
    the executable found, if any; the loop is left when one is found. *)
Fixpoint search_dirs (basename t : String.string) (dirs : list String.string)
    : list String.string * option HelperExec :=
  match dirs with
  | [] => ([], None)
  | d :: dirs' =>
      let path := candidate basename t d in
      if isGood path then ([path], Some (mkHelperExec path t))
      else
        let '(candidates, found) := search_dirs basename t dirs' in
        (path :: candidates, found)
  end.

(** [search]: the executables, and the candidates pushed onto the list
    passed in. *)
Definition search (basename : String.string) (candidates : list String.string)
    : list HelperExec * list String.string :=
  fold_left
    (fun state t =>
       let '(pushed, found) := search_dirs basename t getHelperDirPaths in
       (fst state ++ match found with Some e => [e] | None => [] end,
        snd state ++ pushed))
    (getTags m_type) ([], candidates).

Definition getHelperExecutables (basename : String.string) : list HelperExec :=
  fst (search basename []).

Definition getHelperExecutable (basename : String.string) : String.string :=
  match getHelperExecutables basename with
  | [] => ""
  | e :: _ => executable e
  end.

Definition getHelperCandidatePaths (basename : String.string) : list String.string :=
  snd (search basename []).

End Search.

End HelperExecPath.

(** ** plugin/FeatureExtractionPluginAdapter.h *)

Module FeatureExtractionPluginAdapter.

(** [FeatureExtractionPlugin::Feature] and [SVPFeature] *)
Record Feature := mkFeature {
  hasTimestamp : bool;
  sec : Z;
  nsec : Z;
  values : list Float32.float;
  label : String.string
}.

Record SVPFeature := mkSVPFeature {
  svp_hasTimestamp : bool;
  svp_sec : Z;
  svp_nsec : Z;
  svp_valueCount : Z;
  svp_values : list Float32.float;
  svp_label : String.string
}.

(** [SVPFeatureList]: [features] is [None] for the null pointer. *)
Record SVPFeatureList := mkSVPFeatureList {
  featureCount : Z;
  features : option (list SVPFeature)
}.

(** [FeatureExtractionPlugin::FeatureSet], a [std::map<int, FeatureList>],
    in key order. *)
Definition FeatureSet := list (Z * list Feature).

(** [features.find(i)] *)
Fixpoint find (i : Z) (fs : FeatureSet) : option (list Feature) :=
  match fs with
  | [] => None
  | (k, fl) :: fs' => if k =? i then Some fl else find i fs'
  end.

Definition convertFeature (f : Feature) : SVPFeature :=
  mkSVPFeature (hasTimestamp f) (sec f) (nsec f)
    (Z.of_nat (length (values f))) (values f) (label f).

(** Conversion of an [int] to [unsigned int], and back. *)
Definition to_unsigned (z : Z) : Z := z mod 2 ^ 32.

Definition to_int (z : Z) : Z :=
  let u := z mod 2 ^ 32 in
  if u <? 2 ^ 31 then u else u - 2 ^ 32.

(** [convertFeatures]; [None] stands for the null pointer returned.  The
    array is returned without the null entry that ends it. *)
Definition convertFeatures (fs : FeatureSet) : option (list SVPFeatureList) :=
  let n :=
    match rev fs with
    | [] => 0
    | (k, _) :: _ => to_unsigned (k + 1)
    end in
  if n =? 0 then None
  else
    Some
      (map
         (fun i =>
            match find (to_int (Z.of_nat i)) fs with
            | None => mkSVPFeatureList 0 None
            | Some fl =>
                mkSVPFeatureList (Z.of_nat (length fl)) (Some (map convertFeature fl))
            end)
         (seq 0 (Z.to_nat n))).

End FeatureExtractionPluginAdapter.

(* ====================================================================== *)
(** * Part II: the theorems *)
(* ====================================================================== *)

(** ** Machine integers *)

Module Int64Facts.

Import Int64.

Lemma to_long_small q : 0 <= q <= LONG_MAX -> to_long q = q.
Proof.
  unfold to_long, LONG_MAX, two64, two63. intros H.
  rewrite Z.mod_small by lia.
  destruct (q <? 2 ^ 63) eqn:E; [reflexivity|].
  apply Z.ltb_ge in E. lia.
Qed.

Lemma to_size_t_small z : 0 <= z < two64 -> to_size_t z = z.
Proof. intros H. unfold to_size_t. apply Z.mod_small. exact H. Qed.

End Int64Facts.

(** ** Rounding to nearest, ties to even *)

Module RoundingFacts.

(** *** Shifting a mantissa right *)

Lemma shr_1_nonneg m r s :
  0 <= m ->
  shr_1 {| shr_m := m; shr_r := r; shr_s := s |} =
    {| shr_m := Z.div2 m; shr_r := Z.odd m; shr_s := r || s |}.
Proof.
  intros Hm. destruct m as [|p|p]; [reflexivity | destruct p; reflexivity | lia].
Qed.

Lemma iter_pos_nat {A} (f : A -> A) p : forall x,
  iter_pos f p x = Nat.iter (Pos.to_nat p) f x.
Proof.
  induction p as [p IH|p IH|]; intros x; cbn [iter_pos].
  - rewrite !IH, Pos2Nat.inj_xI.
    replace (S (2 * Pos.to_nat p)) with (Pos.to_nat p + (Pos.to_nat p + 1))%nat by lia.
    rewrite !Nat.iter_add. reflexivity.
  - rewrite !IH, Pos2Nat.inj_xO.
    replace (2 * Pos.to_nat p)%nat with (Pos.to_nat p + Pos.to_nat p)%nat by lia.
    rewrite Nat.iter_add. reflexivity.
  - reflexivity.
Qed.

Lemma odd_mod2 a : Z.odd a = negb (a mod 2 =? 0).
Proof.
  rewrite Zodd_mod.
  assert (H : 0 <= a mod 2 < 2) by (apply Z.mod_pos_bound; lia).
  destruct (Z.eqb_spec (a mod 2) 1); destruct (Z.eqb_spec (a mod 2) 0);
    try reflexivity; lia.
Qed.

Lemma pow2_succ k : 0 <= k -> 2 ^ k * 2 = 2 ^ (k + 1).
Proof. intros Hk. rewrite Z.pow_add_r by lia. reflexivity. Qed.

(** The low part of [m] below bit [n]: below bit [n - 1], and that bit. *)
Lemma low_bits_split m n :
  0 < n ->
  m mod 2 ^ n = m mod 2 ^ (n - 1) + 2 ^ (n - 1) * ((m / 2 ^ (n - 1)) mod 2).
Proof.
  intros Hn. replace (2 ^ n) with (2 ^ (n - 1) * 2).
  - apply Z.rem_mul_r; [apply Z.pow_nonzero; lia | lia].
  - rewrite pow2_succ by lia. f_equal. lia.
Qed.

Lemma shift_steps m n :
  0 <= m ->
  Nat.iter (S n) shr_1 {| shr_m := m; shr_r := false; shr_s := false |} =
    {| shr_m := m / 2 ^ Z.of_nat (S n);
       shr_r := Z.odd (m / 2 ^ Z.of_nat n);
       shr_s := negb (m mod 2 ^ Z.of_nat n =? 0) |}.
Proof.
  intros Hm. induction n as [|n IH].
  - cbn [Nat.iter]. rewrite shr_1_nonneg by exact Hm.
    change (Z.of_nat 1) with 1. change (Z.of_nat 0) with 0.
    rewrite Z.pow_1_r, Z.pow_0_r, Z.div_1_r, Z.mod_1_r, Z.div2_div. reflexivity.
  - change (Nat.iter (S (S n)) shr_1 ?x) with (shr_1 (Nat.iter (S n) shr_1 x)).
    rewrite IH. rewrite shr_1_nonneg by (apply Z.div_pos; [exact Hm | apply Z.pow_pos_nonneg; lia]).
    f_equal.
    + rewrite Z.div2_div, Z.div_div by (try apply Z.pow_pos_nonneg; lia).
      f_equal. rewrite pow2_succ by lia. f_equal. lia.
    + assert (Hsplit := low_bits_split m (Z.of_nat (S n)) ltac:(lia)).
      replace (Z.of_nat (S n) - 1) with (Z.of_nat n) in Hsplit by lia.
      assert (Hlow : 0 <= m mod 2 ^ Z.of_nat n < 2 ^ Z.of_nat n)
        by (apply Z.mod_pos_bound, Z.pow_pos_nonneg; lia).
      assert (Hpow : 0 < 2 ^ Z.of_nat n) by (apply Z.pow_pos_nonneg; lia).
      rewrite odd_mod2.
      assert (Hbit : 0 <= (m / 2 ^ Z.of_nat n) mod 2 < 2) by (apply Z.mod_pos_bound; lia).
      destruct (Z.eqb_spec ((m / 2 ^ Z.of_nat n) mod 2) 0) as [E0|E0];
        destruct (Z.eqb_spec (m mod 2 ^ Z.of_nat n) 0) as [E1|E1];
        destruct (Z.eqb_spec (m mod 2 ^ Z.of_nat (S n)) 0) as [E2|E2];
        cbn; try reflexivity; exfalso; nia.
Qed.

(** Rounding [m / 2^n] to the nearest integer, ties to even. *)
Definition rne (m n : Z) : Z :=
  let q := m / 2 ^ n in
  let r := m mod 2 ^ n in
  let h := 2 ^ (n - 1) in
  if r <? h then q else if h <? r then q + 1 else if Z.even q then q else q + 1.

Lemma shift_rounds m p :
  0 <= m ->
  let mrs := iter_pos shr_1 p {| shr_m := m; shr_r := false; shr_s := false |} in
  round_nearest_even (shr_m mrs) (loc_of_shr_record mrs) = rne m (Zpos p).
Proof.
  intros Hm. cbv zeta. rewrite iter_pos_nat.
  destruct (Pos2Nat.is_succ p) as (n & Hn). rewrite Hn.
  rewrite (shift_steps m n Hm).
  assert (Hp : Zpos p = Z.of_nat (S n)) by lia.
  rewrite Hp. unfold rne.
  assert (Hsplit := low_bits_split m (Z.of_nat (S n)) ltac:(lia)).
  replace (Z.of_nat (S n) - 1) with (Z.of_nat n) in * by lia.
  assert (Hlow : 0 <= m mod 2 ^ Z.of_nat n < 2 ^ Z.of_nat n)
    by (apply Z.mod_pos_bound, Z.pow_pos_nonneg; lia).
  assert (Hbit : 0 <= (m / 2 ^ Z.of_nat n) mod 2 < 2) by (apply Z.mod_pos_bound; lia).
  rewrite odd_mod2. cbn [shr_m loc_of_shr_record].
  destruct (Z.eqb_spec ((m / 2 ^ Z.of_nat n) mod 2) 0) as [E0|E0];
    destruct (Z.eqb_spec (m mod 2 ^ Z.of_nat n) 0) as [E1|E1];
    cbn [negb round_nearest_even];
    destruct (Z.ltb_spec (m mod 2 ^ Z.of_nat (S n)) (2 ^ Z.of_nat n));
    destruct (Z.ltb_spec (2 ^ Z.of_nat n) (m mod 2 ^ Z.of_nat (S n)));
    try reflexivity; try (exfalso; nia).
Qed.

Lemma rne_cases m n :
  0 < n ->
  (rne m n = m / 2 ^ n /\ 2 * (m mod 2 ^ n) <= 2 ^ n) \/
  (rne m n = m / 2 ^ n + 1 /\ 2 ^ n <= 2 * (m mod 2 ^ n)).
Proof.
  intros Hn. unfold rne.
  assert (Hh : 2 ^ (n - 1) * 2 = 2 ^ n) by (rewrite pow2_succ by lia; f_equal; lia).
  destruct (Z.ltb_spec (m mod 2 ^ n) (2 ^ (n - 1))); [left; lia|].
  destruct (Z.ltb_spec (2 ^ (n - 1)) (m mod 2 ^ n)); [right; lia|].
  destruct (Z.even (m / 2 ^ n)); [left | right]; lia.
Qed.

(** *** The number of digits of a mantissa *)

Lemma digits_bounds p :
  2 ^ (Zpos (digits2_pos p) - 1) <= Zpos p < 2 ^ Zpos (digits2_pos p).
Proof.
  induction p as [p IH|p IH|]; cbn [digits2_pos];
    [rewrite Pos2Z.inj_succ | rewrite Pos2Z.inj_succ | cbn; lia];
    set (d := Zpos (digits2_pos p)) in *;
    assert (Hd : 0 < d) by (unfold d; lia);
    replace (Z.succ d - 1) with (d - 1 + 1) by lia;
    unfold Z.succ; rewrite <- (pow2_succ d), <- (pow2_succ (d - 1)) by lia; lia.
Qed.

Lemma digits_unique m k :
  2 ^ (k - 1) <= m < 2 ^ k -> 0 < k -> Zdigits2 m = k.
Proof.
  intros Hm Hk.
  assert (H0 : 0 < 2 ^ (k - 1)) by (apply Z.pow_pos_nonneg; lia).
  destruct m as [|p|p]; try lia. cbn [Zdigits2].
  pose proof (digits_bounds p) as Hd.
  set (d := Zpos (digits2_pos p)) in *.
  assert (Hdk : ~ d < k).
  { intros Hlt. assert (2 ^ d <= 2 ^ (k - 1)) by (apply Z.pow_le_mono_r; lia). lia. }
  assert (Hkd : ~ k < d).
  { intros Hlt. assert (2 ^ k <= 2 ^ (d - 1)) by (apply Z.pow_le_mono_r; lia). lia. }
  lia.
Qed.

Lemma digits_pos m :
  0 < m -> 0 < Zdigits2 m /\ 2 ^ (Zdigits2 m - 1) <= m < 2 ^ Zdigits2 m.
Proof.
  intros Hm. destruct m as [|p|p]; try lia. cbn [Zdigits2].
  split; [lia | apply digits_bounds].
Qed.

Lemma pow2_lt_inv a b : 0 <= b -> 2 ^ a < 2 ^ b -> a < b.
Proof.
  intros Hb H. destruct (Z_lt_ge_dec a b) as [Hlt|Hge]; [exact Hlt|].
  assert (2 ^ b <= 2 ^ a) by (apply Z.pow_le_mono_r; lia). lia.
Qed.

Lemma iter_double p n : Zpos (Pos.iter xO p n) = Zpos p * 2 ^ Zpos n.
Proof.
  apply (Pos.iter_ind _ xO p (fun n a => Zpos a = Zpos p * 2 ^ Zpos n)).
  - rewrite Z.pow_1_r. lia.
  - intros k a IH. rewrite Pos2Z.inj_succ, Z.pow_succ_r by lia.
    rewrite Pos2Z.inj_xO, IH. ring.
Qed.

(** *** The steps of [binary_round_aux] *)

Lemma shr_nonpos mrs e n : n <= 0 -> shr mrs e n = (mrs, e).
Proof. intros Hn. destruct n; [reflexivity | lia | reflexivity]. Qed.

Lemma shr_pos mrs e n :
  0 < n -> shr mrs e n = (iter_pos shr_1 (Z.to_pos n) mrs, e + n).
Proof. intros Hn. destruct n; [lia | reflexivity | lia]. Qed.

Lemma record_of_loc m l :
  shr_m (shr_record_of_loc m l) = m /\
  loc_of_shr_record (shr_record_of_loc m l) = l.
Proof. destruct l as [|[ | | ]]; split; reflexivity. Qed.

(** *** The quotient of a division, rounded *)

Lemma nearest_quotient m q r :
  0 < m -> 0 <= r < m ->
  let g := round_nearest_even q (new_location m r) in
  (g = q /\ 2 * r <= m) \/ (g = q + 1 /\ m <= 2 * r).
Proof.
  intros Hm Hr. cbv zeta. unfold new_location.
  destruct (Z.even m); unfold new_location_even, new_location_odd;
    (destruct (Z.eqb_spec r 0) as [->|Hr0]; [left; cbn; lia|]).
  - destruct (Z.compare_spec (2 * r) m); cbn [round_nearest_even].
    + destruct (Z.even q); [left | right]; lia.
    + left; lia.
    + right; lia.
  - destruct (Z.compare_spec (2 * r + 1) m); cbn [round_nearest_even];
      [left | left | right]; lia.
Qed.

(** The position [new_location] reports is exact only for a remainder of
    zero. *)
Lemma new_location_cases m r :
  0 <= r < m ->
  (r = 0 /\ new_location m r = loc_Exact) \/
  (0 < r /\ exists c, new_location m r = loc_Inexact c).
Proof.
  intros Hr. unfold new_location.
  destruct (Z.even m); unfold new_location_even, new_location_odd;
    (destruct (Z.eqb_spec r 0) as [->|Hne];
     [left; auto | right; split; [lia | eexists; reflexivity]]).
Qed.

(** A quotient with one digit too many, halved and rounded. *)
Lemma halved_quotient m q r :
  0 <= r < m -> 0 <= q ->
  let mrs := shr_1 (shr_record_of_loc q (new_location m r)) in
  let g := round_nearest_even (shr_m mrs) (loc_of_shr_record mrs) in
  (g = Z.div2 q \/ g = Z.div2 q + 1) /\
  - m <= 2 * g * m - (q * m + r) <= m.
Proof.
  intros Hr Hq. cbv zeta.
  pose proof (Z.div2_odd q) as Hqa. set (a := Z.div2 q) in *.
  destruct (new_location_cases m r Hr) as [[-> ->]|[Hpos [c ->]]].
  - cbn [shr_record_of_loc]. rewrite shr_1_nonneg by exact Hq. fold a.
    cbn [shr_m loc_of_shr_record orb].
    destruct (Z.odd q); cbn [Z.b2z round_nearest_even] in *.
    + destruct (Z.even a); [split; [left; reflexivity | nia] | split; [right; reflexivity | nia]].
    + split; [left; reflexivity | nia].
  - assert (Hrec : shr_1 (shr_record_of_loc q (loc_Inexact c)) =
                   {| shr_m := a; shr_r := Z.odd q; shr_s := true |}).
    { destruct c; cbn [shr_record_of_loc]; rewrite shr_1_nonneg by exact Hq;
        fold a; f_equal; apply orb_true_r. }
    rewrite Hrec. cbn [shr_m loc_of_shr_record].
    destruct (Z.odd q); cbn [Z.b2z round_nearest_even] in *.
    + split; [right; reflexivity | nia].
    + split; [left; reflexivity | nia].
Qed.

(** *** Rounding at a given precision *)

Section Rounding.

Variables prec emax : Z.
Hypothesis prec_pos : 0 < prec.

Definition emin_of : Z := 3 - emax - prec.

(** The second half of [binary_round_aux]: the rounded mantissa is brought
    back to [prec] digits and the exponent checked. *)
Definition round_finish (s : bool) (m1 e1 : Z) : spec_float :=
  let '(mrs, e2) := shr_fexp prec emax m1 e1 loc_Exact in
  match shr_m mrs with
  | 0 => S754_zero s
  | Zpos m => if e2 <=? emax - prec then S754_finite s m e2 else S754_infinity s
  | Zneg _ => S754_nan
  end.

Lemma fexp_unfold e : fexp prec emax e = Z.max (e - prec) emin_of.
Proof. reflexivity. Qed.

Lemma aux_noshift s mx ex lx :
  Zdigits2 mx <= prec -> emin_of <= ex ->
  binary_round_aux prec emax s mx ex lx = round_finish s (round_nearest_even mx lx) ex.
Proof.
  intros Hd He. unfold binary_round_aux, round_finish.
  unfold shr_fexp at 1. rewrite fexp_unfold, shr_nonpos by lia.
  destruct (record_of_loc mx lx) as [-> ->]. reflexivity.
Qed.

Lemma aux_shift s mx ex n :
  0 <= mx -> n = Z.max (Zdigits2 mx + ex - prec) emin_of - ex -> 0 < n ->
  binary_round_aux prec emax s mx ex loc_Exact = round_finish s (rne mx n) (ex + n).
Proof.
  intros Hm Hn Hpos. unfold binary_round_aux, round_finish.
  unfold shr_fexp at 1. rewrite fexp_unfold, <- Hn, shr_pos by exact Hpos.
  cbn [shr_record_of_loc]. rewrite (shift_rounds mx (Z.to_pos n) Hm).
  rewrite Z2Pos.id by exact Hpos. reflexivity.
Qed.

(** One digit too many, with the position of the exact value known. *)
Lemma aux_shift_one s mx ex lx :
  Zdigits2 mx = prec + 1 -> emin_of <= ex + 1 ->
  binary_round_aux prec emax s mx ex lx =
    round_finish s
      (round_nearest_even (shr_m (shr_1 (shr_record_of_loc mx lx)))
                          (loc_of_shr_record (shr_1 (shr_record_of_loc mx lx))))
      (ex + 1).
Proof.
  intros Hd He. unfold binary_round_aux, round_finish.
  unfold shr_fexp at 1. rewrite fexp_unfold, Hd.
  replace (Z.max (prec + 1 + ex - prec) emin_of - ex) with 1 by lia.
  reflexivity.
Qed.

Lemma round_finish_fits s m1 e1 :
  0 < m1 < 2 ^ prec -> emin_of <= e1 <= emax - prec ->
  round_finish s m1 e1 = S754_finite s (Z.to_pos m1) e1.
Proof.
  intros Hm He. unfold round_finish, shr_fexp.
  destruct (digits_pos m1 ltac:(lia)) as [Hd0 Hb].
  assert (Hd : Zdigits2 m1 <= prec).
  { assert (H : 2 ^ (Zdigits2 m1 - 1) < 2 ^ prec) by lia.
    apply pow2_lt_inv in H; lia. }
  rewrite fexp_unfold, shr_nonpos by lia.
  cbn [shr_record_of_loc shr_m]. destruct m1 as [|p|p]; try lia.
  destruct (Z.leb_spec e1 (emax - prec)); [reflexivity | lia].
Qed.

Lemma round_finish_carry s e1 :
  emin_of <= e1 + 1 <= emax - prec ->
  round_finish s (2 ^ prec) e1 = S754_finite s (Z.to_pos (2 ^ (prec - 1))) (e1 + 1).
Proof.
  intros He. unfold round_finish, shr_fexp. rewrite fexp_unfold.
  assert (Hp : 0 < 2 ^ (prec - 1)) by (apply Z.pow_pos_nonneg; lia).
  assert (Hpp : 2 ^ prec = 2 ^ (prec - 1) * 2) by (rewrite pow2_succ by lia; f_equal; lia).
  rewrite (digits_unique (2 ^ prec) (prec + 1));
    [| replace (prec + 1 - 1) with prec by lia; rewrite <- (pow2_succ prec) by lia; lia | lia].
  replace (Z.max (prec + 1 + e1 - prec) emin_of - e1) with 1 by lia.
  cbn [shr shr_record_of_loc iter_pos].
  rewrite shr_1_nonneg by lia. cbn [shr_m].
  assert (Hhalf : Z.div2 (2 ^ prec) = 2 ^ (prec - 1)).
  { rewrite Z.div2_div, Hpp. apply Z.div_mul. lia. }
  rewrite Hhalf. destruct (2 ^ (prec - 1)) as [|p|p] eqn:E; try lia.
  destruct (Z.leb_spec (e1 + 1) (emax - prec)); [reflexivity | lia].
Qed.


Lemma round_finish_zero s e1 : emin_of <= e1 -> round_finish s 0 e1 = S754_zero s.
Proof.
  intros He. unfold round_finish, shr_fexp. rewrite fexp_unfold.
  change (Zdigits2 0) with 0. rewrite shr_nonpos by lia. reflexivity.
Qed.

(** Rounding an exact product of at least [prec] digits: the result is a
    normal float within half a unit in its last place. *)
Lemma round_exact_error s mx ex :
  0 < mx -> prec <= Zdigits2 mx ->
  emin_of <= ex + (Zdigits2 mx - prec) -> ex + (Zdigits2 mx - prec) + 1 <= emax - prec ->
  exists H EH,
    binary_round_aux prec emax s mx ex loc_Exact = S754_finite s H EH /\
    2 ^ (prec - 1) <= Zpos H < 2 ^ prec /\ ex <= EH /\
    2 * mx - 2 ^ (EH - ex) <= 2 * Zpos H * 2 ^ (EH - ex) <= 2 * mx + 2 ^ (EH - ex).
Proof.
  intros Hmx Hd Hlo Hhi.
  destruct (digits_pos mx Hmx) as [_ Hb]. set (d := Zdigits2 mx) in *.
  assert (Hpp : 2 ^ prec = 2 ^ (prec - 1) * 2) by (rewrite pow2_succ by lia; f_equal; lia).
  assert (Hp1 : 0 < 2 ^ (prec - 1)) by (apply Z.pow_pos_nonneg; lia).
  destruct (Z.eq_dec d prec) as [E|E].
  - rewrite aux_noshift by (fold d; lia). cbn [round_nearest_even].
    rewrite E in Hb. rewrite round_finish_fits by lia.
    exists (Z.to_pos mx), ex. rewrite Z2Pos.id, Z.sub_diag by lia.
    change (2 ^ 0) with 1. repeat split; lia.
  - set (n := d - prec) in *.
    assert (Hn : 0 < n) by lia.
    assert (Hw : 0 < 2 ^ n) by (apply Z.pow_pos_nonneg; lia).
    rewrite (aux_shift s mx ex n); [| lia | fold d; lia | exact Hn].
    assert (Hdn : 2 ^ d = 2 ^ prec * 2 ^ n)
      by (rewrite <- Z.pow_add_r by lia; f_equal; lia).
    assert (Hdn1 : 2 ^ (d - 1) = 2 ^ (prec - 1) * 2 ^ n)
      by (rewrite <- Z.pow_add_r by lia; f_equal; lia).
    pose proof (Z.div_mod mx (2 ^ n) ltac:(lia)) as Hdm.
    pose proof (Z.mod_pos_bound mx (2 ^ n) Hw) as Hmod.
    set (q := mx / 2 ^ n) in *. set (r := mx mod 2 ^ n) in *.
    assert (Hq : 2 ^ (prec - 1) <= q < 2 ^ prec) by nia.
    destruct (rne_cases mx n Hn) as [[Hv Hr]|[Hv Hr]]; fold q in Hv; fold r in Hr.
    + rewrite Hv, round_finish_fits by lia.
      exists (Z.to_pos q), (ex + n). rewrite Z2Pos.id by lia.
      replace (ex + n - ex) with n by lia. repeat split; try lia; nia.
    + destruct (Z.eq_dec (q + 1) (2 ^ prec)) as [Hfull|Hnot].
      * rewrite Hv, Hfull, round_finish_carry by lia.
        exists (Z.to_pos (2 ^ (prec - 1))), (ex + n + 1). rewrite Z2Pos.id by lia.
        replace (ex + n + 1 - ex) with (n + 1) by lia.
        rewrite <- (pow2_succ n) by lia. repeat split; try lia; nia.
      * rewrite Hv, round_finish_fits by lia.
        exists (Z.to_pos (q + 1)), (ex + n). rewrite Z2Pos.id by lia.
        replace (ex + n - ex) with n by lia. repeat split; try lia; nia.
Qed.


(** Dividing one normal mantissa by another: the quotient is a normal
    float within half a unit in its last place. *)
Lemma div_error m1 e1 m2 e2 :
  2 ^ (prec - 1) <= Zpos m1 < 2 ^ prec ->
  2 ^ (prec - 1) <= Zpos m2 < 2 ^ prec ->
  emin_of <= e1 - e2 - prec -> e1 - e2 - prec + 2 <= emax - prec ->
  exists G E,
    SFdiv prec emax (S754_finite false m1 e1) (S754_finite false m2 e2) =
      S754_finite false G E /\
    2 ^ (prec - 1) <= Zpos G < 2 ^ prec /\
    e1 - e2 - prec <= E <= e1 - e2 - prec + 2 /\
    2 * (Zpos m1 * 2 ^ prec) - 2 ^ (E - (e1 - e2 - prec)) * Zpos m2
      <= 2 * Zpos G * 2 ^ (E - (e1 - e2 - prec)) * Zpos m2
      <= 2 * (Zpos m1 * 2 ^ prec) + 2 ^ (E - (e1 - e2 - prec)) * Zpos m2.
Proof.
  intros Hm1 Hm2 Hlo Hhi. set (e' := e1 - e2 - prec) in *.
  assert (Hpp : 2 ^ prec = 2 ^ (prec - 1) * 2) by (rewrite pow2_succ by lia; f_equal; lia).
  assert (Hp1 : 0 < 2 ^ (prec - 1)) by (apply Z.pow_pos_nonneg; lia).
  cbn [SFdiv xorb]. unfold SFdiv_core_binary.
  rewrite (digits_unique (Zpos m1) prec), (digits_unique (Zpos m2) prec) by lia.
  rewrite fexp_unfold. cbv zeta.
  replace (Z.min (Z.max (prec + e1 - (prec + e2) - prec) emin_of) (e1 - e2)) with e'
    by (unfold e'; lia).
  replace (e1 - e2 - e') with prec by (unfold e'; lia).
  assert (Hshift : match prec with
                   | 0 => Zpos m1
                   | Zpos _ => Z.shiftl (Zpos m1) prec
                   | Zneg _ => 0
                   end = Zpos m1 * 2 ^ prec).
  { destruct prec as [|p|p] eqn:E; try lia. rewrite Z.shiftl_mul_pow2 by lia. reflexivity. }
  rewrite Hshift. clear Hshift.
  pose proof (Z_div_mod (Zpos m1 * 2 ^ prec) (Zpos m2) ltac:(lia)) as Hdiv.
  destruct (Z.div_eucl (Zpos m1 * 2 ^ prec) (Zpos m2)) as [q r]. destruct Hdiv as [Hqr Hr].
  assert (Hq : 2 ^ (prec - 1) <= q < 2 ^ prec * 2) by nia.
  destruct (Z_lt_ge_dec q (2 ^ prec)) as [Hsmall|Hbig].
  - rewrite aux_noshift;
      [| rewrite (digits_unique q prec); lia | lia].
    destruct (nearest_quotient (Zpos m2) q r ltac:(lia) Hr) as [[Hg Hle]|[Hg Hle]]; rewrite Hg.
    + rewrite round_finish_fits by lia. exists (Z.to_pos q), e'.
      rewrite Z2Pos.id, Z.sub_diag by lia. change (2 ^ 0) with 1. repeat split; try lia; nia.
    + destruct (Z.eq_dec (q + 1) (2 ^ prec)) as [Hfull|Hnot].
      * rewrite Hfull, round_finish_carry by lia.
        exists (Z.to_pos (2 ^ (prec - 1))), (e' + 1). rewrite Z2Pos.id by lia.
        replace (e' + 1 - e') with 1 by lia. change (2 ^ 1) with 2. repeat split; try lia; nia.
      * rewrite round_finish_fits by lia. exists (Z.to_pos (q + 1)), e'.
        rewrite Z2Pos.id, Z.sub_diag by lia. change (2 ^ 0) with 1. repeat split; try lia; nia.
  - rewrite aux_shift_one;
      [| apply digits_unique; [replace (prec + 1 - 1) with prec by lia;
                               rewrite <- (pow2_succ prec) by lia; lia | lia] | lia].
    destruct (halved_quotient (Zpos m2) q r Hr ltac:(lia)) as [Hg Herr].
    pose proof (Z.div2_odd q) as Hqa.
    set (g := round_nearest_even _ _) in *. set (a := Z.div2 q) in *.
    assert (Hb : 0 <= Z.b2z (Z.odd q) <= 1) by (destruct (Z.odd q); cbn; lia).
    assert (Hgr : 2 ^ (prec - 1) <= g <= 2 ^ prec) by lia.
    destruct (Z.eq_dec g (2 ^ prec)) as [Hfull|Hnot].
    + rewrite Hfull, round_finish_carry by lia.
      exists (Z.to_pos (2 ^ (prec - 1))), (e' + 1 + 1). rewrite Z2Pos.id by lia.
      replace (e' + 1 + 1 - e') with 2 by lia. change (2 ^ 2) with 4. repeat split; try lia; nia.
    + rewrite round_finish_fits by lia. exists (Z.to_pos g), (e' + 1).
      rewrite Z2Pos.id by lia. replace (e' + 1 - e') with 1 by lia. change (2 ^ 1) with 2.
      repeat split; try lia; nia.
Qed.


(** An integer of at most [prec] digits converts exactly. *)
Lemma normalize_exact z :
  0 < z < 2 ^ prec -> emin_of <= 1 - prec -> 0 <= emax - prec ->
  exists a,
    0 <= a < prec /\ 2 ^ (prec - 1) <= z * 2 ^ a < 2 ^ prec /\
    binary_normalize prec emax z 0 false = S754_finite false (Z.to_pos (z * 2 ^ a)) (- a).
Proof.
  intros Hz Hemin Hemax. destruct z as [|p|p]; try lia.
  cbn [binary_normalize]. unfold binary_round.
  pose proof (digits_bounds p) as Hb. set (d := Zpos (digits2_pos p)) in *.
  assert (Hd : 0 < d) by (unfold d; lia).
  assert (Hdp : d <= prec).
  { assert (H : 2 ^ (d - 1) < 2 ^ prec) by lia. apply pow2_lt_inv in H; lia. }
  rewrite fexp_unfold. replace (Z.max (d + 0 - prec) emin_of) with (d - prec) by lia.
  assert (Hscale : 2 ^ (prec - 1) = 2 ^ (d - 1) * 2 ^ (prec - d))
    by (rewrite <- Z.pow_add_r by lia; f_equal; lia).
  assert (Hscale' : 2 ^ prec = 2 ^ d * 2 ^ (prec - d))
    by (rewrite <- Z.pow_add_r by lia; f_equal; lia).
  assert (Hw : 0 < 2 ^ (prec - d)) by (apply Z.pow_pos_nonneg; lia).
  assert (Hfit : 2 ^ (prec - 1) <= Zpos p * 2 ^ (prec - d) < 2 ^ prec) by nia.
  exists (prec - d). split; [lia|]. split; [exact Hfit|].
  unfold shl_align.
  destruct (d - prec - 0) as [|k|k] eqn:E; try lia.
  - replace (prec - d) with 0 in * by lia. rewrite Z.pow_0_r, Z.mul_1_r in *.
    rewrite aux_noshift; [| cbn [Zdigits2]; fold d; lia | lia].
    cbn [round_nearest_even]. rewrite round_finish_fits by lia. reflexivity.
  - assert (Hk : Zpos k = prec - d) by lia.
    rewrite iter_double, Hk.
    rewrite aux_noshift;
      [| rewrite (digits_unique _ prec); lia | lia].
    cbn [round_nearest_even]. rewrite round_finish_fits by lia.
    f_equal. lia.
Qed.

End Rounding.

End RoundingFacts.

(** ** Single-precision arithmetic *)

Module Float32Facts.

Import RoundingFacts.

(** *** Rounding to single precision *)

Definition finish (s : bool) (m1 e1 : Z) : spec_float :=
  round_finish Float32.prec Float32.emax s m1 e1.

Lemma fexp_eq e : fexp Float32.prec Float32.emax e = Z.max (e - 24) (-149).
Proof. reflexivity. Qed.

Lemma round_aux_noshift s mx ex lx :
  Zdigits2 mx <= 24 -> -149 <= ex ->
  binary_round_aux Float32.prec Float32.emax s mx ex lx =
    finish s (round_nearest_even mx lx) ex.
Proof. exact (aux_noshift Float32.prec Float32.emax s mx ex lx). Qed.

Lemma round_aux_shift s mx ex n :
  0 <= mx -> n = Z.max (Zdigits2 mx + ex - 24) (-149) - ex -> 0 < n ->
  binary_round_aux Float32.prec Float32.emax s mx ex loc_Exact =
    finish s (rne mx n) (ex + n).
Proof. exact (aux_shift Float32.prec Float32.emax s mx ex n). Qed.

Lemma finish_fits s m1 e1 :
  0 < m1 < 2 ^ 24 -> -149 <= e1 <= 104 ->
  finish s m1 e1 = S754_finite s (Z.to_pos m1) e1.
Proof. exact (round_finish_fits Float32.prec Float32.emax eq_refl s m1 e1). Qed.

Lemma finish_carry s e1 :
  -150 <= e1 <= 103 ->
  finish s (2 ^ 24) e1 = S754_finite s 8388608 (e1 + 1).
Proof.
  intros He. apply (round_finish_carry Float32.prec Float32.emax eq_refl s e1).
  unfold emin_of, Float32.prec, Float32.emax. lia.
Qed.

(** *** The reciprocal of one *)

Lemma div_core_one m e :
  2 ^ 23 <= Zpos m < 2 ^ 24 -> e <= 102 ->
  SFdiv_core_binary Float32.prec Float32.emax 8388608 (-23) (Zpos m) e =
    (2 ^ 47 / Zpos m, -47 - e, new_location (Zpos m) (2 ^ 47 mod Zpos m)).
Proof.
  intros Hm He. unfold SFdiv_core_binary.
  rewrite (digits_unique (Zpos m) 24) by (change (24 - 1) with 23; lia).
  change (Zdigits2 8388608) with 24. rewrite fexp_eq. cbv zeta.
  replace (Z.min (Z.max (24 + -23 - (24 + e) - 24) (-149)) (-23 - e)) with (-47 - e) by lia.
  replace (-23 - e - (-47 - e)) with 24 by lia.
  change (Z.shiftl 8388608 24) with (2 ^ 47).
  unfold Z.div, Z.modulo. destruct (Z.div_eucl (2 ^ 47) (Zpos m)). reflexivity.
Qed.

(** *** The reciprocal of a peak, and the peak scaled by it *)

Lemma one_eq : Float32.one = S754_finite false 8388608 (-23).
Proof. reflexivity. Qed.

(** The float just below [1.0]. *)
Definition below_one : Float32.float := S754_finite false 16777215 (-24).

Lemma gain_of_peak m e :
  2 ^ 23 < Zpos m < 2 ^ 24 -> -149 <= e <= 102 ->
  exists g,
    Float32.div Float32.one (S754_finite false m e) = S754_finite false g (-47 - e) /\
    - Zpos m <= 2 * (Zpos m * Zpos g - 2 ^ 47) <= Zpos m.
Proof.
  intros Hm He. unfold Float32.div. rewrite one_eq. cbn [SFdiv].
  rewrite div_core_one by lia. cbn [xorb].
  pose proof (Z_div_mod (2 ^ 47) (Zpos m) ltac:(lia)) as Hdiv.
  unfold Z.div, Z.modulo. destruct (Z.div_eucl (2 ^ 47) (Zpos m)) as [q r].
  destruct Hdiv as [Hqr Hr].
  assert (Hq : 2 ^ 23 <= q <= 2 ^ 24 - 2) by nia.
  rewrite round_aux_noshift;
    [| rewrite (digits_unique q 24); [lia | change (24 - 1) with 23; lia | lia] | lia].
  destruct (nearest_quotient (Zpos m) q r ltac:(lia) Hr) as [[Hg Hle]|[Hg Hle]];
    rewrite Hg, finish_fits by lia.
  - exists (Z.to_pos q). split; [reflexivity|]. rewrite Z2Pos.id by lia. lia.
  - exists (Z.to_pos (q + 1)). split; [reflexivity|]. rewrite Z2Pos.id by lia. lia.
Qed.

Lemma gain_of_power e :
  -149 <= e <= 102 ->
  Float32.div Float32.one (S754_finite false 8388608 e) =
    S754_finite false 8388608 (-46 - e).
Proof.
  intros He. unfold Float32.div. rewrite one_eq. cbn [SFdiv].
  rewrite div_core_one by (cbn; lia). cbn [xorb].
  change (2 ^ 47 / 8388608) with (2 ^ 24).
  change (new_location 8388608 (2 ^ 47 mod 8388608)) with loc_Exact.
  rewrite (round_aux_shift _ _ _ 1); [| lia | change (Zdigits2 (2 ^ 24)) with 25; lia | lia].
  change (rne (2 ^ 24) 1) with (2 ^ 23).
  rewrite finish_fits by lia. f_equal. lia.
Qed.

(** *** Rounded values at most [1.0] *)

Lemma rne_range m n :
  0 <= m < 2 ^ (n + 24) -> 0 < n -> 0 <= rne m n <= 2 ^ 24.
Proof.
  intros Hm Hn.
  assert (Hp : 0 < 2 ^ n) by (apply Z.pow_pos_nonneg; lia).
  assert (Hq : 0 <= m / 2 ^ n < 2 ^ 24).
  { split; [apply Z.div_pos; lia|]. apply Z.div_lt_upper_bound; [lia|].
    rewrite <- Z.pow_add_r by lia. lia. }
  destruct (rne_cases m n Hn) as [[-> _]|[-> _]]; lia.
Qed.

Lemma finish_zero s e1 : -149 <= e1 -> finish s 0 e1 = S754_zero s.
Proof. exact (round_finish_zero Float32.prec Float32.emax eq_refl s e1). Qed.

(** What [finish] gives for a rounded mantissa of at most 24 bits, or
    [2^24]. *)
Lemma finish_cases s m1 e1 :
  0 <= m1 <= 2 ^ 24 -> -149 <= e1 <= 103 ->
  (m1 = 0 /\ finish s m1 e1 = S754_zero s) \/
  (0 < m1 < 2 ^ 24 /\ finish s m1 e1 = S754_finite s (Z.to_pos m1) e1) \/
  (m1 = 2 ^ 24 /\ finish s m1 e1 = S754_finite s 8388608 (e1 + 1)).
Proof.
  intros Hm He.
  destruct (Z.eq_dec m1 0) as [->|H0]; [left; split; [reflexivity | apply finish_zero; lia]|].
  destruct (Z.eq_dec m1 (2 ^ 24)) as [->|H1].
  - right; right. split; [reflexivity | apply finish_carry; lia].
  - right; left. split; [lia | apply finish_fits; lia].
Qed.

Lemma ltb_finite_lower m1 e1 m2 e2 :
  e2 < e1 -> Float32.ltb (S754_finite false m1 e1) (S754_finite false m2 e2) = false.
Proof.
  intros H. unfold Float32.ltb, SFltb. cbn.
  destruct (Z.compare_spec e1 e2); try reflexivity; lia.
Qed.

Lemma ltb_finite_same m1 m2 e :
  (m2 <= m1)%positive ->
  Float32.ltb (S754_finite false m1 e) (S754_finite false m2 e) = false.
Proof.
  intros H. unfold Float32.ltb, SFltb. cbn. rewrite Z.compare_refl.
  change (Pos.compare_cont Eq) with Pos.compare.
  destruct (Pos.compare_spec m1 m2); try reflexivity; lia.
Qed.

(** A rounded value with an exponent below [-24] is below both [1.0] and
    the float below it. *)
Lemma finish_low c mc ec m1 e1 :
  c = S754_finite false mc ec -> -24 <= ec -> (8388608 <= mc)%positive ->
  0 <= m1 <= 2 ^ 24 -> -149 <= e1 <= -25 ->
  Float32.ltb c (finish false m1 e1) = false.
Proof.
  intros -> Hec Hmc Hm He.
  destruct (finish_cases false m1 e1 Hm ltac:(lia)) as [[_ ->]|[[_ ->]|[_ ->]]].
  - reflexivity.
  - apply ltb_finite_lower. lia.
  - destruct (Z.eq_dec ec (e1 + 1)) as [->|Hne].
    + apply ltb_finite_same. exact Hmc.
    + apply ltb_finite_lower. lia.
Qed.

(** The two ways a product [ms * 2^-n] is rounded. *)
Lemma round_outcome ms n :
  0 < ms -> 0 <= n ->
  let e1 := Z.max (Zdigits2 ms - n - 24) (-149) in
  (e1 <= - n /\ ms < 2 ^ 24 /\
   binary_round_aux Float32.prec Float32.emax false ms (- n) loc_Exact =
     S754_finite false (Z.to_pos ms) (- n)) \/
  (- n < e1 /\ 0 <= rne ms (e1 + n) <= 2 ^ 24 /\
   binary_round_aux Float32.prec Float32.emax false ms (- n) loc_Exact =
     finish false (rne ms (e1 + n)) e1).
Proof.
  intros Hms Hn. cbv zeta.
  destruct (digits_pos ms Hms) as [Hd Hb].
  set (ds := Zdigits2 ms) in *.
  destruct (Z_le_gt_dec (Z.max (ds - n - 24) (-149)) (- n)) as [Hle|Hgt].
  - left. split; [exact Hle|].
    assert (Hlt : ms < 2 ^ 24).
    { assert (2 ^ ds <= 2 ^ 24) by (apply Z.pow_le_mono_r; lia). lia. }
    split; [exact Hlt|].
    rewrite round_aux_noshift by (fold ds; lia).
    cbn [round_nearest_even]. apply finish_fits; lia.
  - right. split; [lia|].
    assert (Hrange : 0 <= rne ms (Z.max (ds - n - 24) (-149) + n) <= 2 ^ 24).
    { apply rne_range; [|lia]. split; [lia|].
      assert (2 ^ ds <= 2 ^ (Z.max (ds - n - 24) (-149) + n + 24))
        by (apply Z.pow_le_mono_r; lia). lia. }
    split; [exact Hrange|].
    rewrite (round_aux_shift _ _ _ (Z.max (ds - n - 24) (-149) + n)); [|lia|fold ds; lia|lia].
    f_equal. lia.
Qed.

(** A product below [1 + 2^-24] rounds to [1.0] at most. *)
Lemma round_le_one ms n :
  0 < ms -> 46 <= n -> ms * 2 ^ 24 < (2 ^ 24 + 1) * 2 ^ n ->
  Float32.ltb Float32.one
    (binary_round_aux Float32.prec Float32.emax false ms (- n) loc_Exact) = false.
Proof.
  intros Hms Hn Hbound. rewrite one_eq.
  destruct (digits_pos ms Hms) as [Hd Hb].
  assert (Hpn : 0 < 2 ^ n) by (apply Z.pow_pos_nonneg; lia).
  assert (Hds : Zdigits2 ms <= n + 1).
  { assert (2 ^ (Zdigits2 ms - 1) < 2 ^ (n + 1)) by (rewrite <- (pow2_succ n) by lia; lia).
    apply pow2_lt_inv in H; lia. }
  destruct (round_outcome ms n Hms ltac:(lia)) as [(_ & _ & ->)|(Hsh & Hrange & ->)].
  - apply ltb_finite_lower. lia.
  - set (e1 := Z.max (Zdigits2 ms - n - 24) (-149)) in *.
    destruct (Z_le_gt_dec e1 (-25)) as [Hlow|Hhigh].
    + apply (finish_low _ 8388608 (-23)); try reflexivity; lia.
    + destruct (Z.eq_dec e1 (-24)) as [E|E].
      * rewrite E in *.
        destruct (finish_cases false _ (-24) Hrange ltac:(lia)) as [[_ ->]|[[_ ->]|[_ ->]]].
        -- reflexivity.
        -- apply ltb_finite_lower. lia.
        -- apply ltb_finite_same. lia.
      * assert (E1 : e1 = -23) by lia.
        assert (Hdn : Zdigits2 ms = n + 1) by lia.
        rewrite Hdn in Hb. replace (n + 1 - 1) with n in Hb by lia.
        rewrite E1 in *.
        assert (Hsplit : 2 ^ n = 2 ^ (-23 + n) * 2 ^ 23)
          by (rewrite <- Z.pow_add_r by lia; f_equal; lia).
        assert (Hpk : 0 < 2 ^ (-23 + n)) by (apply Z.pow_pos_nonneg; lia).
        assert (Hq : ms / 2 ^ (-23 + n) = 2 ^ 23).
        { symmetry. apply (Z.div_unique ms _ (2 ^ 23) (ms - 2 ^ n)); [|lia].
          left. split; [lia|]. nia. }
        assert (Hr : ms mod 2 ^ (-23 + n) = ms - 2 ^ n).
        { symmetry. apply (Z.mod_unique ms _ (2 ^ 23)); [|lia]. left. split; [lia|]. nia. }
        destruct (rne_cases ms (-23 + n) ltac:(lia)) as [[Hv _]|[_ Hup]].
        -- rewrite Hv, Hq. rewrite finish_fits by lia. apply ltb_finite_same. cbn. lia.
        -- rewrite Hr in Hup. exfalso. nia.
Qed.

(** A product below [1 - 2^-25] rounds to the float below [1.0] at most. *)
Lemma round_le_below ms n :
  0 < ms -> 46 <= n -> ms * 2 ^ 25 < (2 ^ 25 - 1) * 2 ^ n ->
  Float32.ltb below_one
    (binary_round_aux Float32.prec Float32.emax false ms (- n) loc_Exact) = false.
Proof.
  intros Hms Hn Hbound. unfold below_one.
  destruct (digits_pos ms Hms) as [Hd Hb].
  assert (Hpn : 0 < 2 ^ n) by (apply Z.pow_pos_nonneg; lia).
  assert (Hds : Zdigits2 ms <= n).
  { assert (2 ^ (Zdigits2 ms - 1) < 2 ^ n) by lia.
    apply pow2_lt_inv in H; lia. }
  destruct (round_outcome ms n Hms ltac:(lia)) as [(_ & _ & ->)|(Hsh & Hrange & ->)].
  - apply ltb_finite_lower. lia.
  - set (e1 := Z.max (Zdigits2 ms - n - 24) (-149)) in *.
    destruct (Z_le_gt_dec e1 (-25)) as [Hlow|Hhigh].
    + apply (finish_low _ 16777215 (-24)); try reflexivity; lia.
    + assert (E1 : e1 = -24) by lia. rewrite E1 in *.
      destruct (finish_cases false _ (-24) Hrange ltac:(lia)) as [[_ ->]|[[Hfit ->]|[Hfull _]]].
      * reflexivity.
      * apply ltb_finite_same. lia.
      * exfalso.
        assert (Hsplit : 2 ^ n = 2 ^ (-24 + n) * 2 ^ 24)
          by (rewrite <- Z.pow_add_r by lia; f_equal; lia).
        assert (Hpk : 0 < 2 ^ (-24 + n)) by (apply Z.pow_pos_nonneg; lia).
        pose proof (Z.div_mod ms (2 ^ (-24 + n)) ltac:(lia)) as Hdm.
        pose proof (Z.mod_pos_bound ms (2 ^ (-24 + n)) Hpk) as Hmod.
        assert (Hq : ms / 2 ^ (-24 + n) < 2 ^ 24).
        { apply Z.div_lt_upper_bound; [lia|]. nia. }
        destruct (rne_cases ms (-24 + n) ltac:(lia)) as [[Hv _]|[Hv Hup]]; [lia|].
        assert (Hq' : ms / 2 ^ (-24 + n) = 2 ^ 24 - 1) by lia.
        rewrite Hq' in Hdm. nia.
Qed.

(** *** The peak and the samples below it, scaled *)

Lemma product_rounds_to sx mx :
  2 ^ 47 - 2 ^ 23 < mx < 2 ^ 47 + 2 ^ 23 ->
  binary_round_aux Float32.prec Float32.emax sx mx (-47) loc_Exact =
    if mx <? (2 ^ 25 - 1) * 2 ^ 22
    then S754_finite sx 16777215 (-24) else S754_finite sx 8388608 (-23).
Proof.
  intros Hmx. destruct (Z_lt_ge_dec mx (2 ^ 47)) as [Hlt|Hge].
  - rewrite (round_aux_shift _ _ _ 23);
      [| lia | rewrite (digits_unique mx 47); [reflexivity | change (47 - 1) with 46; lia | lia] | lia].
    assert (Hq : mx / 2 ^ 23 = 2 ^ 24 - 1).
    { symmetry. apply (Z.div_unique mx (2 ^ 23) (2 ^ 24 - 1) (mx - 2 ^ 23 * (2 ^ 24 - 1))); lia. }
    assert (Hr : mx mod 2 ^ 23 = mx - 2 ^ 23 * (2 ^ 24 - 1)).
    { symmetry. apply (Z.mod_unique mx (2 ^ 23) (2 ^ 24 - 1)); lia. }
    unfold rne. rewrite Hq, Hr. change (Z.even (2 ^ 24 - 1)) with false.
    change (2 ^ 24 - 1 + 1) with (2 ^ 24). change (-47 + 23) with (-24).
    change (2 ^ (23 - 1)) with (2 ^ 22).
    destruct (Z.ltb_spec (mx - 2 ^ 23 * (2 ^ 24 - 1)) (2 ^ 22));
      destruct (Z.ltb_spec mx ((2 ^ 25 - 1) * 2 ^ 22)); try lia.
    + rewrite finish_fits by lia. reflexivity.
    + destruct (_ <? _); rewrite finish_carry by lia; reflexivity.
  - rewrite (round_aux_shift _ _ _ 24);
      [| lia | rewrite (digits_unique mx 48); [reflexivity | change (48 - 1) with 47; lia | lia] | lia].
    assert (Hq : mx / 2 ^ 24 = 2 ^ 23).
    { symmetry. apply (Z.div_unique mx (2 ^ 24) (2 ^ 23) (mx - 2 ^ 47)); lia. }
    assert (Hr : mx mod 2 ^ 24 = mx - 2 ^ 47).
    { symmetry. apply (Z.mod_unique mx (2 ^ 24) (2 ^ 23)); lia. }
    unfold rne. rewrite Hq, Hr. change (2 ^ (24 - 1)) with (2 ^ 23).
    destruct (Z.ltb_spec (mx - 2 ^ 47) (2 ^ 23)); [|lia].
    destruct (Z.ltb_spec mx ((2 ^ 25 - 1) * 2 ^ 22)); [lia|].
    rewrite finish_fits by lia. reflexivity.
Qed.

(** A normal peak in [[2^-126, 2^126)], scaled by its own reciprocal, is
    [1.0] or the float just below it. *)
Lemma peak_scaled sx m e :
  2 ^ 23 <= Zpos m < 2 ^ 24 -> -149 <= e <= 102 ->
  let g := Float32.div Float32.one (S754_finite false m e) in
  Float32.mul (S754_finite sx m e) g = S754_finite sx 8388608 (-23) \/
  Float32.mul (S754_finite sx m e) g = S754_finite sx 16777215 (-24).
Proof.
  intros Hm He. cbv zeta.
  destruct (Z.eq_dec (Zpos m) (2 ^ 23)) as [Heq|Hne].
  - assert (Hm8 : m = 8388608%positive) by (change (2 ^ 23) with (Zpos 8388608) in Heq; congruence).
    subst m. rewrite gain_of_power by exact He. left.
    unfold Float32.mul. cbn [SFmul]. replace (e + (-46 - e)) with (-46) by lia.
    destruct sx; reflexivity.
  - destruct (gain_of_peak m e ltac:(lia) He) as (g & -> & Hg).
    unfold Float32.mul. cbn [SFmul]. replace (e + (-47 - e)) with (-47) by lia.
    rewrite xorb_false_r, Pos2Z.inj_mul, product_rounds_to by lia.
    destruct (_ <? _); [right | left]; reflexivity.
Qed.

Lemma valid_finite ss ms es :
  valid_binary Float32.prec Float32.emax (S754_finite ss ms es) = true ->
  Zpos ms < 2 ^ 24 /\ -149 <= es.
Proof.
  cbn [valid_binary]. unfold bounded, canonical_mantissa. intros H.
  apply andb_prop in H. destruct H as [H _]. apply Z.eqb_eq in H.
  rewrite fexp_eq in H. pose proof (digits_bounds ms) as Hb.
  assert (Hd : Zpos (digits2_pos ms) <= 24) by lia.
  assert (2 ^ Zpos (digits2_pos ms) <= 2 ^ 24) by (apply Z.pow_le_mono_r; lia). lia.
Qed.

Lemma not_above m e ss ms es :
  Float32.ltb (S754_finite false m e) (Float32.fabsf (S754_finite ss ms es)) = false ->
  es < e \/ (es = e /\ Zpos ms <= Zpos m).
Proof.
  unfold Float32.ltb, Float32.fabsf, SFltb. cbn.
  change (Pos.compare_cont Eq) with Pos.compare.
  destruct (Z.compare_spec e es); try discriminate; [|lia].
  destruct (Pos.compare_spec m ms); try discriminate; lia.
Qed.

Lemma abs_rounded s mx ex lx :
  SFabs (binary_round_aux Float32.prec Float32.emax s mx ex lx) =
    binary_round_aux Float32.prec Float32.emax false mx ex lx.
Proof.
  unfold binary_round_aux.
  destruct (shr_fexp _ _ mx ex lx) as [mrs e1].
  destruct (shr_fexp _ _ _ e1 loc_Exact) as [mrs2 e2].
  destruct (shr_m mrs2); [reflexivity | | reflexivity].
  destruct (e2 <=? _); reflexivity.
Qed.

Lemma mul_finite sx mx ex sy my ey :
  Float32.fabsf (Float32.mul (S754_finite sx mx ex) (S754_finite sy my ey)) =
    binary_round_aux Float32.prec Float32.emax false (Zpos (mx * my)) (ex + ey) loc_Exact.
Proof.
  unfold Float32.mul, Float32.fabsf. cbn [SFmul].
  apply abs_rounded.
Qed.

Lemma sample_below_peak m e ss ms es :
  2 ^ 23 <= Zpos m ->
  valid_binary Float32.prec Float32.emax (S754_finite ss ms es) = true ->
  Float32.ltb (S754_finite false m e) (Float32.fabsf (S754_finite ss ms es)) = false ->
  es <= e /\ Zpos ms <= Zpos m * 2 ^ (e - es).
Proof.
  intros Hm Hvalid Hle. destruct (valid_finite _ _ _ Hvalid) as [Hms _].
  destruct (not_above _ _ _ _ _ Hle) as [Hlt|[-> Hmm]].
  - split; [lia|].
    assert (2 ^ 1 <= 2 ^ (e - es)) by (apply Z.pow_le_mono_r; lia).
    change (2 ^ 1) with 2 in *. nia.
  - split; [lia|]. rewrite Z.sub_diag, Z.pow_0_r. lia.
Qed.

Lemma scaled_sample_le_one m e ms es gm n0 :
  46 <= n0 -> es <= e -> Zpos ms <= Zpos m * 2 ^ (e - es) ->
  Zpos m * Zpos gm * 2 ^ 24 < (2 ^ 24 + 1) * 2 ^ n0 ->
  Float32.ltb Float32.one
    (binary_round_aux Float32.prec Float32.emax false (Zpos (ms * gm)) (es + (- n0 - e))
       loc_Exact) = false.
Proof.
  intros Hn Hes Hms Hpeak.
  replace (es + (- n0 - e)) with (- (n0 + (e - es))) by lia.
  assert (Hk : 0 < 2 ^ (e - es)) by (apply Z.pow_pos_nonneg; lia).
  apply round_le_one; [lia | lia |].
  rewrite Z.pow_add_r, Pos2Z.inj_mul by lia.
  apply Z.le_lt_trans with (Zpos m * 2 ^ (e - es) * Zpos gm * 2 ^ 24); [nia|].
  replace (Zpos m * 2 ^ (e - es) * Zpos gm * 2 ^ 24)
    with (Zpos m * Zpos gm * 2 ^ 24 * 2 ^ (e - es)) by ring.
  replace ((2 ^ 24 + 1) * (2 ^ n0 * 2 ^ (e - es)))
    with ((2 ^ 24 + 1) * 2 ^ n0 * 2 ^ (e - es)) by ring.
  apply Z.mul_lt_mono_pos_r; assumption.
Qed.

Lemma scaled_sample_le_below m e ms es gm n0 :
  46 <= n0 -> es <= e -> Zpos ms <= Zpos m * 2 ^ (e - es) ->
  Zpos m * Zpos gm * 2 ^ 25 < (2 ^ 25 - 1) * 2 ^ n0 ->
  Float32.ltb below_one
    (binary_round_aux Float32.prec Float32.emax false (Zpos (ms * gm)) (es + (- n0 - e))
       loc_Exact) = false.
Proof.
  intros Hn Hes Hms Hpeak.
  replace (es + (- n0 - e)) with (- (n0 + (e - es))) by lia.
  assert (Hk : 0 < 2 ^ (e - es)) by (apply Z.pow_pos_nonneg; lia).
  apply round_le_below; [lia | lia |].
  rewrite Z.pow_add_r, Pos2Z.inj_mul by lia.
  apply Z.le_lt_trans with (Zpos m * 2 ^ (e - es) * Zpos gm * 2 ^ 25); [nia|].
  replace (Zpos m * 2 ^ (e - es) * Zpos gm * 2 ^ 25)
    with (Zpos m * Zpos gm * 2 ^ 25 * 2 ^ (e - es)) by ring.
  replace ((2 ^ 25 - 1) * (2 ^ n0 * 2 ^ (e - es)))
    with ((2 ^ 25 - 1) * 2 ^ n0 * 2 ^ (e - es)) by ring.
  apply Z.mul_lt_mono_pos_r; assumption.
Qed.

(** No valid sample at most the peak in magnitude reads back above what
    the peak reads back as. *)
Lemma scaled_below sp m e s :
  2 ^ 23 <= Zpos m < 2 ^ 24 -> -149 <= e <= 102 ->
  valid_binary Float32.prec Float32.emax s = true ->
  Float32.ltb (S754_finite false m e) (Float32.fabsf s) = false ->
  let g := Float32.div Float32.one (S754_finite false m e) in
  Float32.ltb (Float32.fabsf (Float32.mul (S754_finite sp m e) g))
              (Float32.fabsf (Float32.mul s g)) = false.
Proof.
  intros Hm He Hvalid Hle. cbv zeta.
  destruct (Z.eq_dec (Zpos m) (2 ^ 23)) as [Heq|Hne].
  - assert (Hm8 : m = 8388608%positive) by (change (2 ^ 23) with (Zpos 8388608) in Heq; congruence).
    subst m. rewrite gain_of_power by exact He.
    assert (Hp : Float32.fabsf (Float32.mul (S754_finite sp 8388608 e)
                                  (S754_finite false 8388608 (-46 - e))) = Float32.one).
    { rewrite mul_finite. replace (e + (-46 - e)) with (-46) by lia. reflexivity. }
    rewrite Hp. destruct s as [ss|ss| |ss ms es]; try reflexivity; [discriminate|].
    rewrite mul_finite.
    destruct (sample_below_peak 8388608 e ss ms es ltac:(lia) Hvalid Hle) as [Hes Hms].
    apply (scaled_sample_le_one 8388608 e ms es 8388608 46); try assumption; [lia|].
    vm_compute. reflexivity.
  - destruct (gain_of_peak m e ltac:(lia) He) as (gm & -> & Hg).
    assert (Hp : Float32.fabsf (Float32.mul (S754_finite sp m e)
                                  (S754_finite false gm (-47 - e))) =
                 if Zpos m * Zpos gm <? (2 ^ 25 - 1) * 2 ^ 22 then below_one else Float32.one).
    { rewrite mul_finite. replace (e + (-47 - e)) with (-47) by lia.
      rewrite Pos2Z.inj_mul. apply product_rounds_to. lia. }
    rewrite Hp. destruct s as [ss|ss| |ss ms es].
    + destruct (_ <? _); reflexivity.
    + discriminate.
    + destruct (_ <? _); reflexivity.
    + rewrite mul_finite.
      destruct (sample_below_peak m e ss ms es ltac:(lia) Hvalid Hle) as [Hes Hms].
      destruct (Z.ltb_spec (Zpos m * Zpos gm) ((2 ^ 25 - 1) * 2 ^ 22)) as [Hlow|Hhigh].
      * apply (scaled_sample_le_below m e ms es gm 47); try assumption; lia.
      * apply (scaled_sample_le_one m e ms es gm 47); try assumption; lia.
Qed.

End Float32Facts.

(** ** Double-precision arithmetic *)

Module Float64Facts.

Import RoundingFacts.

(** [a / b] rounded to the nearest integer (halves upwards). *)
Definition nearest (a b : Z) : Z := (2 * a + b) / (2 * b).

Lemma of_Z_exact z :
  0 < z < 2 ^ 53 ->
  exists a,
    0 <= a < 53 /\ 2 ^ 52 <= z * 2 ^ a < 2 ^ 53 /\
    Float64.of_Z z = S754_finite false (Z.to_pos (z * 2 ^ a)) (- a).
Proof.
  intros Hz. unfold Float64.of_Z.
  destruct (normalize_exact Float64.prec Float64.emax ltac:(reflexivity) z Hz)
    as (a & Ha & Hb & E); [discriminate | discriminate |].
  exists a. auto.
Qed.

Lemma scale_bounds n u v :
  0 <= n -> - u <= 2 ^ 53 * (u - v) <= u ->
  - (n * u) <= 2 ^ 53 * (n * u - n * v) <= n * u.
Proof. intros Hn H. nia. Qed.

Lemma accuracy_chain N T S A B C G H c w L :
  0 < N -> 0 < T -> 0 < S -> 0 < A -> 0 < B -> 0 < C -> 0 < c -> 0 < w ->
  2 ^ 52 <= G -> 2 ^ 52 <= H ->
  N * T < 2 ^ 50 * S ->
  2 * (T * A * 2 ^ 53) - c * (S * B) <= 2 * G * c * (S * B)
    <= 2 * (T * A * 2 ^ 53) + c * (S * B) ->
  2 * (N * C * G) - w <= 2 * H * w <= 2 * (N * C * G) + w ->
  A * 2 ^ 53 * C * L <= H * w * c * B < A * 2 ^ 53 * C * L + A * 2 ^ 53 * C ->
  2 * S * L - S <= 2 * (N * T) < 2 * S * L + 3 * S.
Proof.
  intros HN HT HS HA HB HC Hc Hw HG HH Hx Hdiv Hmul Hfloor.
  set (D := A * 2 ^ 53 * C) in *.
  assert (HD : 0 < D) by (unfold D; nia).
  (* the division, scaled *)
  set (t := c * (S * B)) in *.
  assert (Ht : 0 < t) by (unfold t; nia).
  set (u := G * t).
  set (v := T * A * 2 ^ 53) in *.
  assert (Hu : 2 * G * c * (S * B) = 2 * u) by (unfold u, t; ring).
  rewrite Hu in Hdiv.
  assert (Hut : 2 ^ 52 * t <= u) by (unfold u; nia).
  assert (H1 : - u <= 2 ^ 53 * (u - v) <= u) by lia.
  pose proof (scale_bounds (N * C) u v ltac:(nia) H1) as H1'.
  (* the product, scaled *)
  set (p := N * C * G) in *.
  set (y := H * w).
  assert (Hy : 2 * H * w = 2 * y) by (unfold y; ring).
  rewrite Hy in Hmul.
  assert (Hyw : 2 ^ 52 * w <= y) by (unfold y; nia).
  assert (H2 : - y <= 2 ^ 53 * (y - p) <= y) by lia.
  pose proof (scale_bounds (c * B * S) y p ltac:(nia) H2) as H2'.
  (* the three products to compare *)
  set (X1 := c * B * S * y) in *.
  set (X2 := N * C * u) in *.
  set (X3 := N * C * v) in *.
  assert (E2 : c * B * S * p = X2) by (unfold X2, u, t, p; ring).
  rewrite E2 in H2'.
  set (Z0 := S * D).
  assert (HZ0 : 0 < Z0) by (unfold Z0; apply Z.mul_pos_pos; assumption).
  assert (E3 : X3 = N * T * D) by (unfold X3, v, D; ring).
  assert (H3 : X3 < 2 ^ 50 * Z0).
  { rewrite E3. unfold Z0. rewrite Z.mul_assoc.
    apply Z.mul_lt_mono_pos_r; assumption. }
  assert (E1 : X1 = S * (H * w * c * B)) by (unfold X1, y; ring).
  set (V := Z0 * L).
  assert (H4 : V <= X1 < V + Z0).
  { rewrite E1. unfold V, Z0.
    replace (S * D * L) with (S * (D * L)) by ring.
    replace (S * (D * L) + S * D) with (S * (D * L + D)) by ring.
    split; [apply Z.mul_le_mono_nonneg_l | apply Z.mul_lt_mono_pos_l];
      solve [apply Hfloor | clear -HS; lia]. }
  assert (H5 : 2 * V - Z0 <= 2 * X3 < 2 * V + 3 * Z0)
    by (clear -H1' H2' H3 H4 Hut Hyw HZ0 Ht Hw; lia).
  rewrite E3 in H5. unfold V, Z0 in H5. destruct H5 as [H5 H6]. split.
  - apply (Z.mul_le_mono_pos_r _ _ D HD).
    replace ((2 * S * L - S) * D) with (2 * (S * D * L) - S * D) by ring.
    replace (2 * (N * T) * D) with (2 * (N * T * D)) by ring. exact H5.
  - apply (Z.mul_lt_mono_pos_r D _ _ HD).
    replace ((2 * S * L + 3 * S) * D) with (2 * (S * D * L) + 3 * (S * D)) by ring.
    replace (2 * (N * T) * D) with (2 * (N * T * D)) by ring. exact H6.
Qed.

(** The integer [to_frame] gives for a positive float is the integer part
    of its value. *)
Lemma frame_of_scaled H EH W D :
  0 < W -> 0 < D ->
  (0 <= EH -> W = D * 2 ^ EH) -> (EH < 0 -> D = W * 2 ^ (- EH)) ->
  let a := if 0 <=? EH then Zpos H * 2 ^ EH else Z.shiftr (Zpos H) (- EH) in
  0 <= a /\ D * a <= Zpos H * W < D * a + D.
Proof.
  intros HW HD Hpos Hneg. cbv zeta. destruct (Z.leb_spec 0 EH) as [Hle|Hlt].
  - assert (0 < 2 ^ EH) by (apply Z.pow_pos_nonneg; lia).
    rewrite (Hpos Hle). split; [nia|]. split; nia.
  - assert (Hz : 0 < 2 ^ (- EH)) by (apply Z.pow_pos_nonneg; lia).
    rewrite Z.shiftr_div_pow2 by lia. rewrite (Hneg Hlt).
    pose proof (Z.div_mod (Zpos H) (2 ^ (- EH)) ltac:(lia)) as Hdm.
    pose proof (Z.mod_pos_bound (Zpos H) (2 ^ (- EH)) Hz) as Hmod.
    set (q := Zpos H / 2 ^ (- EH)) in *. split; [nia|]. split; nia.
Qed.


(** The frame limit computed in double precision is the exact quotient
    rounded to the nearest integer, or one less. *)
Lemma limit_accurate N T S :
  0 <= N < 2 ^ 53 -> 0 < T < 2 ^ 53 -> 0 < S < 2 ^ 53 -> N * T < 2 ^ 50 * S ->
  let limit :=
    Float64.to_frame
      (Float64.mul (Float64.of_Z N) (Float64.div (Float64.of_Z T) (Float64.of_Z S))) in
  nearest (N * T) S - 1 <= limit <= nearest (N * T) S.
Proof.
  intros HN HT HS Hx. cbv zeta.
  destruct (of_Z_exact T HT) as (aT & HaT & HmT & ->).
  destruct (of_Z_exact S HS) as (aS & HaS & HmS & ->).
  unfold Float64.div.
  destruct (div_error Float64.prec Float64.emax ltac:(reflexivity)
              (Z.to_pos (T * 2 ^ aT)) (- aT) (Z.to_pos (S * 2 ^ aS)) (- aS))
    as (G & E & -> & HG & HE & Hdiv).
  { rewrite Z2Pos.id by lia. exact HmT. }
  { rewrite Z2Pos.id by lia. exact HmS. }
  { unfold emin_of, Float64.emax, Float64.prec. lia. }
  { unfold Float64.emax, Float64.prec. lia. }
  rewrite !Z2Pos.id in Hdiv by lia.
  change Float64.prec with 53 in *. change (2 ^ (53 - 1)) with (2 ^ 52) in HG.
  destruct (Z.eq_dec N 0) as [->|HN0].
  { change (Float64.of_Z 0) with (S754_zero false).
    unfold Float64.mul, Float64.to_frame, nearest. cbn [SFmul xorb].
    replace (2 * (0 * T) + S) with S by lia. rewrite Z.div_small by lia. lia. }
  destruct (of_Z_exact N ltac:(lia)) as (aN & HaN & HmN & ->).
  unfold Float64.mul. cbn [SFmul xorb].
  set (mN := Z.to_pos (N * 2 ^ aN)) in *.
  assert (EmN : Zpos mN = N * 2 ^ aN) by (unfold mN; rewrite Z2Pos.id by lia; reflexivity).
  assert (HP : 2 ^ 104 <= Zpos (mN * G) < 2 ^ 106).
  { rewrite Pos2Z.inj_mul, EmN. change (2 ^ 104) with (2 ^ 52 * 2 ^ 52).
    change (2 ^ 106) with (2 ^ 53 * 2 ^ 53). nia. }
  destruct (digits_pos (Zpos (mN * G)) ltac:(lia)) as [Hd0 Hd].
  assert (Hd1 : 105 <= Zdigits2 (Zpos (mN * G)) <= 106).
  { split.
    - assert (H : 2 ^ 104 < 2 ^ Zdigits2 (Zpos (mN * G))) by lia.
      apply pow2_lt_inv in H; lia.
    - assert (H : 2 ^ (Zdigits2 (Zpos (mN * G)) - 1) < 2 ^ 106) by lia.
      apply pow2_lt_inv in H; lia. }
  destruct (round_exact_error Float64.prec Float64.emax ltac:(reflexivity) false
              (Zpos (mN * G)) (- aN + E))
    as (H & EH & -> & HH & HEH & Hmul); try (change Float64.prec with 53; lia).
  { unfold emin_of, Float64.emax, Float64.prec. lia. }
  { unfold Float64.emax, Float64.prec. lia. }
  change Float64.prec with 53 in *. change (2 ^ (53 - 1)) with (2 ^ 52) in HH.
  rewrite Pos2Z.inj_mul, EmN in Hmul.
  set (e' := - aT - - aS - 53) in *.
  set (c := 2 ^ (E - e')) in *. set (w := 2 ^ (EH - (- aN + E))) in *.
  assert (Hc : 0 < c) by (apply Z.pow_pos_nonneg; lia).
  assert (Hw : 0 < w) by (apply Z.pow_pos_nonneg; lia).
  assert (HA : 0 < 2 ^ aT) by (apply Z.pow_pos_nonneg; lia).
  assert (HB : 0 < 2 ^ aS) by (apply Z.pow_pos_nonneg; lia).
  assert (HC : 0 < 2 ^ aN) by (apply Z.pow_pos_nonneg; lia).
  set (W := w * c * 2 ^ aS). set (D := 2 ^ aT * 2 ^ 53 * 2 ^ aN).
  assert (EW : W = 2 ^ (EH - (- aN + E) + (E - e') + aS)).
  { unfold W, w, c. rewrite !Z.pow_add_r by lia. reflexivity. }
  assert (ED : D = 2 ^ (aT + 53 + aN)).
  { unfold D. rewrite !Z.pow_add_r by lia. reflexivity. }
  destruct (frame_of_scaled H EH W D) as [Hnonneg Hfloor].
  { unfold W. nia. }
  { unfold D. nia. }
  { intros Hpos. rewrite EW, ED, <- Z.pow_add_r by lia. f_equal. unfold e'. lia. }
  { intros Hneg. rewrite EW, ED, <- Z.pow_add_r by lia. f_equal. unfold e'. lia. }
  unfold Float64.to_frame.
  set (L := if 0 <=? EH then Zpos H * 2 ^ EH else Z.shiftr (Zpos H) (- EH)) in *.
  assert (Hchain : 2 * S * L - S <= 2 * (N * T) < 2 * S * L + 3 * S).
  { apply (accuracy_chain N T S (2 ^ aT) (2 ^ aS) (2 ^ aN) (Zpos G) (Zpos H) c w L).
    all: try assumption.
    all: try (clear -HN HN0; lia).
    all: try (clear -HT; lia).
    all: try (clear -HS; lia).
    all: try (clear -HG; lia).
    all: try (clear -HH; lia).
    all: try exact Hdiv.
    all: try exact Hmul.
    fold D. replace (Zpos H * w * c * 2 ^ aS) with (Zpos H * W) by (unfold W; ring).
    exact Hfloor. }
  assert (HL : L < 2 ^ 51).
  { assert (HSL : S * L < S * 2 ^ 51) by (clear -Hchain Hx HS; lia).
    apply Z.mul_lt_mono_pos_l in HSL; lia. }
  assert (Hlong : Int64.in_long L = true).
  { unfold Int64.in_long, Int64.LONG_MIN, Int64.LONG_MAX, Int64.two63.
    apply andb_true_intro. split; [apply Z.leb_le | apply Z.leb_le]; lia. }
  rewrite Hlong. unfold nearest. split.
  - assert (Hup : (2 * (N * T) + S) / (2 * S) < L + 2).
    { apply Z.div_lt_upper_bound; lia. }
    lia.
  - apply Z.div_le_lower_bound; lia.
Qed.

Lemma rate_not_zero S :
  0 < S < 2 ^ 53 -> Float64.eqb (Float64.of_Z S) (Float64.of_Z 0) = false.
Proof.
  intros HS. destruct (of_Z_exact S HS) as (a & _ & _ & ->).
  change (Float64.of_Z 0) with (S754_zero false). reflexivity.
Qed.

Lemma unit_ratio_rates T S aT aS :
  0 < T -> 0 < S < 2 ^ 53 -> 0 <= aT -> 0 <= aS -> 0 <= 1 + aT - aS ->
  2 * (T * 2 ^ aT * 2 ^ 53) - 2 ^ (1 + aT - aS) * (S * 2 ^ aS)
    <= 2 * 2 ^ 52 * 2 ^ (1 + aT - aS) * (S * 2 ^ aS)
    <= 2 * (T * 2 ^ aT * 2 ^ 53) + 2 ^ (1 + aT - aS) * (S * 2 ^ aS) ->
  T = S.
Proof.
  intros HT HS HaT HaS Hc0 Hdiv.
  assert (HA : 0 < 2 ^ aT) by (apply Z.pow_pos_nonneg; lia).
  assert (Hc : 2 ^ (1 + aT - aS) * 2 ^ aS = 2 * 2 ^ aT).
  { rewrite <- Z.pow_add_r by lia. replace (1 + aT - aS + aS) with (aT + 1) by lia.
    rewrite <- pow2_succ by lia. ring. }
  set (c := 2 ^ (1 + aT - aS)) in *. set (A := 2 ^ aT) in *. set (B := 2 ^ aS) in *.
  assert (E1 : c * (S * B) = 2 * (A * S)).
  { replace (c * (S * B)) with (c * B * S) by ring. rewrite Hc. ring. }
  assert (E2 : 2 * 2 ^ 52 * c * (S * B) = 2 ^ 53 * (2 * (A * S))) by (rewrite <- E1; ring).
  assert (E3 : T * A * 2 ^ 53 = 2 ^ 53 * (A * T)) by ring.
  rewrite E1, E2, E3 in Hdiv.
  assert (Hdiff : - (A * S) <= 2 ^ 53 * (A * S) - 2 ^ 53 * (A * T) <= A * S)
    by (clear -Hdiv; lia).
  destruct (Z.lt_trichotomy T S) as [Hlt|[Heq|Hgt]]; [exfalso | exact Heq | exfalso].
  - assert (Hgap : A * T + A <= A * S).
    { replace (A * T + A) with (A * (T + 1)) by ring. apply Z.mul_le_mono_nonneg_l; lia. }
    assert (HAS' : A * S < A * 2 ^ 53) by (apply Z.mul_lt_mono_pos_l; lia).
    clear -Hdiff Hgap HAS' HA. lia.
  - assert (Hgap : A * S + A <= A * T).
    { replace (A * S + A) with (A * (S + 1)) by ring. apply Z.mul_le_mono_nonneg_l; lia. }
    assert (HAS' : A * S < A * 2 ^ 53) by (apply Z.mul_lt_mono_pos_l; lia).
    clear -Hdiff Hgap HAS' HA. lia.
Qed.

Lemma one_exact : Float64.of_Z 1 = S754_finite false 4503599627370496 (-52).
Proof. reflexivity. Qed.

Lemma eqb_finite G E G' E' :
  Float64.eqb (S754_finite false G E) (S754_finite false G' E') = true ->
  E = E' /\ G = G'.
Proof.
  unfold Float64.eqb, SFeqb. cbn [SFcompare].
  change (Pos.compare_cont Eq) with Pos.compare.
  destruct (Z.compare_spec E E'); try discriminate.
  destruct (Pos.compare_spec G G'); try discriminate. auto.
Qed.

(** Two different rates never give the ratio [1.0]. *)
Lemma ratio_not_one T S :
  0 < T < 2 ^ 53 -> 0 < S < 2 ^ 53 -> T <> S ->
  Float64.eqb (Float64.div (Float64.of_Z T) (Float64.of_Z S)) (Float64.of_Z 1) = false.
Proof.
  intros HT HS Hne. rewrite one_exact.
  destruct (of_Z_exact T HT) as (aT & HaT & HmT & ET).
  destruct (of_Z_exact S HS) as (aS & HaS & HmS & ES).
  rewrite ET, ES. unfold Float64.div.
  destruct (div_error Float64.prec Float64.emax ltac:(reflexivity)
              (Z.to_pos (T * 2 ^ aT)) (- aT) (Z.to_pos (S * 2 ^ aS)) (- aS))
    as (G & E & EG & HG & HE & Hdiv).
  { rewrite Z2Pos.id by lia. exact HmT. }
  { rewrite Z2Pos.id by lia. exact HmS. }
  { unfold emin_of, Float64.emax, Float64.prec. lia. }
  { unfold Float64.emax, Float64.prec. lia. }
  rewrite EG. rewrite !Z2Pos.id in Hdiv by lia.
  destruct (Float64.eqb (S754_finite false G E) _) eqn:Heq; [|reflexivity].
  exfalso. apply Hne. apply eqb_finite in Heq. destruct Heq as [-> ->].
  assert (Hprec : Float64.prec = 53) by reflexivity.
  assert (Hhalf : Zpos 4503599627370496 = 2 ^ 52) by reflexivity.
  rewrite Hprec in HE. rewrite Hprec, Hhalf in Hdiv.
  replace (-52 - (- aT - - aS - 53)) with (1 + aT - aS) in Hdiv by lia.
  apply (unit_ratio_rates T S aT aS); lia.
Qed.

End Float64Facts.

(** ** Lists *)

Module ListFacts.

Lemma ssorted_app_inv {A} (R : A -> A -> Prop) (l1 l2 : list A) :
  StronglySorted R (l1 ++ l2) ->
  StronglySorted R l1 /\ StronglySorted R l2 /\
  (forall a b, In a l1 -> In b l2 -> R a b).
Proof.
  induction l1 as [|x l1 IH]; simpl; intros Hs.
  - repeat split; [constructor | exact Hs | intros a b []].
  - inversion Hs as [|? ? Hs' Hall]; subst.
    destruct (IH Hs') as (S1 & S2 & Hcross).
    rewrite Forall_app in Hall. destruct Hall as [Hall1 Hall2].
    repeat split; [constructor; assumption | exact S2 |].
    intros a b [Ha|Ha] Hb.
    + subst a. rewrite Forall_forall in Hall2. apply Hall2, Hb.
    + apply Hcross; assumption.
Qed.

Lemma ssorted_app {A} (R : A -> A -> Prop) (l1 l2 : list A) :
  StronglySorted R l1 -> StronglySorted R l2 ->
  (forall a b, In a l1 -> In b l2 -> R a b) ->
  StronglySorted R (l1 ++ l2).
Proof.
  induction l1 as [|x l1 IH]; simpl; intros H1 H2 Hcross; [exact H2|].
  inversion H1 as [|? ? H1' Hall]; subst.
  constructor.
  - apply IH; [assumption | assumption |]. intros a b Ha Hb. apply Hcross; auto.
  - apply Forall_app. split; [exact Hall|].
    rewrite Forall_forall. intros b Hb. apply Hcross; auto.
Qed.

Lemma ssorted_head {A} (R : A -> A -> Prop) (x : A) (l : list A) :
  StronglySorted R (x :: l) -> forall y, In y l -> R x y.
Proof.
  intros Hs y Hy. inversion Hs as [|? ? _ Hall]; subst.
  rewrite Forall_forall in Hall. apply Hall, Hy.
Qed.

Lemma firstn_length_app {A} (l1 l2 : list A) : firstn (length l1) (l1 ++ l2) = l1.
Proof.
  rewrite firstn_app, Nat.sub_diag, firstn_all. simpl. apply app_nil_r.
Qed.

Lemma skipn_length_app {A} (l1 l2 : list A) : skipn (length l1) (l1 ++ l2) = l2.
Proof.
  rewrite skipn_app, Nat.sub_diag, skipn_all. reflexivity.
Qed.

Lemma nth_error_middle {A} (l1 : list A) (x : A) (l2 : list A) :
  nth_error (l1 ++ x :: l2) (length l1) = Some x.
Proof.
  rewrite nth_error_app2 by lia. rewrite Nat.sub_diag. reflexivity.
Qed.

End ListFacts.

(** ** EventSeries *)

Module EventSeriesFacts.

Import EventSeries.

Section Facts.

Context {P : Type} `{PayloadOrder P}.

(** *** The ordering of events *)

Lemma Event_compare_eq (a b : Event P) : Event_compare a b = Eq <-> a = b.
Proof.
  unfold Event_compare. destruct a as [fa da pa], b as [fb db pb]; simpl.
  destruct (fa ?= fb) eqn:Ef; [|split; [discriminate | intros E; inversion E; subst;
    rewrite Z.compare_refl in Ef; discriminate] ..].
  apply Z.compare_eq_iff in Ef. subst fb.
  destruct (da ?= db) eqn:Ed; [|split; [discriminate | intros E; inversion E; subst;
    rewrite Z.compare_refl in Ed; discriminate] ..].
  apply Z.compare_eq_iff in Ed. subst db.
  rewrite payload_compare_eq. split; [intros ->; reflexivity | intros E; inversion E; reflexivity].
Qed.

Lemma Event_compare_antisym (a b : Event P) :
  Event_compare b a = CompOpp (Event_compare a b).
Proof.
  unfold Event_compare. rewrite (Z.compare_antisym (frame a) (frame b)).
  destruct (frame a ?= frame b); simpl; try reflexivity.
  rewrite (Z.compare_antisym (duration a) (duration b)).
  destruct (duration a ?= duration b); simpl; try reflexivity.
  apply payload_compare_antisym.
Qed.

Lemma Event_compare_trans (a b c : Event P) :
  Event_compare a b = Lt -> Event_compare b c = Lt -> Event_compare a c = Lt.
Proof.
  unfold Event_compare.
  destruct (frame a ?= frame b) eqn:E1; try discriminate;
    destruct (frame b ?= frame c) eqn:E2; try discriminate;
    try apply Z.compare_eq_iff in E1; try apply Z.compare_eq_iff in E2;
    try rewrite Z.compare_lt_iff in E1; try rewrite Z.compare_lt_iff in E2.
  - rewrite E1, E2, Z.compare_refl.
    destruct (duration a ?= duration b) eqn:D1; try discriminate;
      destruct (duration b ?= duration c) eqn:D2; try discriminate;
      try apply Z.compare_eq_iff in D1; try apply Z.compare_eq_iff in D2;
      try rewrite Z.compare_lt_iff in D1; try rewrite Z.compare_lt_iff in D2.
    + rewrite D1, D2, Z.compare_refl. apply payload_compare_trans.
    + intros _ _. replace (duration a ?= duration c) with Lt; [reflexivity|].
      symmetry. apply Z.compare_lt_iff. lia.
    + intros _ _. replace (duration a ?= duration c) with Lt; [reflexivity|].
      symmetry. apply Z.compare_lt_iff. lia.
    + intros _ _. replace (duration a ?= duration c) with Lt; [reflexivity|].
      symmetry. apply Z.compare_lt_iff. lia.
  - intros _ _. replace (frame a ?= frame c) with Lt; [reflexivity|].
    symmetry. apply Z.compare_lt_iff. lia.
  - intros _ _. replace (frame a ?= frame c) with Lt; [reflexivity|].
    symmetry. apply Z.compare_lt_iff. lia.
  - intros _ _. replace (frame a ?= frame c) with Lt; [reflexivity|].
    symmetry. apply Z.compare_lt_iff. lia.
Qed.

Lemma Event_eqb_eq (a b : Event P) : Event_eqb a b = true <-> a = b.
Proof.
  unfold Event_eqb. rewrite <- Event_compare_eq.
  destruct (Event_compare a b); split; intros E; try reflexivity; discriminate.
Qed.

Lemma Event_eqb_refl (a : Event P) : Event_eqb a a = true.
Proof. apply Event_eqb_eq. reflexivity. Qed.

Lemma Event_eqb_neq (a b : Event P) : Event_eqb a b = false <-> a <> b.
Proof.
  rewrite <- Event_eqb_eq. destruct (Event_eqb a b); split; intros E;
    try reflexivity; try discriminate. exfalso. apply E. reflexivity.
Qed.

Definition Event_lt (a b : Event P) : Prop := Event_compare a b = Lt.
Definition Event_le (a b : Event P) : Prop := Event_compare a b <> Gt.

Lemma Event_ltb_lt (a b : Event P) : Event_ltb a b = true <-> Event_lt a b.
Proof.
  unfold Event_ltb, Event_lt. destruct (Event_compare a b); split; intros E;
    try reflexivity; discriminate.
Qed.

Lemma Event_ltb_ge (a b : Event P) : Event_ltb a b = false <-> Event_le b a.
Proof.
  unfold Event_ltb, Event_le. rewrite (Event_compare_antisym a b).
  destruct (Event_compare a b); simpl; split; intros E; try reflexivity;
    try discriminate. exfalso. apply E. reflexivity.
Qed.

Lemma Event_lt_irrefl (a : Event P) : ~ Event_lt a a.
Proof.
  unfold Event_lt. rewrite (proj2 (Event_compare_eq a a) eq_refl). discriminate.
Qed.

Lemma Event_lt_le (a b : Event P) : Event_lt a b -> Event_le a b.
Proof. unfold Event_lt, Event_le. intros ->. discriminate. Qed.

Lemma Event_le_refl (a : Event P) : Event_le a a.
Proof.
  unfold Event_le. rewrite (proj2 (Event_compare_eq a a) eq_refl). discriminate.
Qed.

Lemma Event_le_cases (a b : Event P) : Event_le a b -> Event_lt a b \/ a = b.
Proof.
  unfold Event_le, Event_lt. intros Hle.
  destruct (Event_compare a b) eqn:E.
  - right. apply Event_compare_eq. exact E.
  - left. reflexivity.
  - contradiction.
Qed.

Lemma Event_lt_le_trans (a b c : Event P) : Event_lt a b -> Event_le b c -> Event_lt a c.
Proof.
  intros Hab Hbc. destruct (Event_le_cases _ _ Hbc) as [Hlt| ->]; [|exact Hab].
  eapply Event_compare_trans; eassumption.
Qed.

Lemma Event_le_lt_trans (a b c : Event P) : Event_le a b -> Event_lt b c -> Event_lt a c.
Proof.
  intros Hab Hbc. destruct (Event_le_cases _ _ Hab) as [Hlt| ->]; [|exact Hbc].
  eapply Event_compare_trans; eassumption.
Qed.

Lemma Event_le_trans (a b c : Event P) : Event_le a b -> Event_le b c -> Event_le a c.
Proof.
  intros Hab Hbc. destruct (Event_le_cases _ _ Hab) as [Hlt| ->]; [|exact Hbc].
  apply Event_lt_le. eapply Event_lt_le_trans; eassumption.
Qed.

Lemma Event_le_antisym (a b : Event P) : Event_le a b -> Event_le b a -> a = b.
Proof.
  intros Hab Hba. destruct (Event_le_cases _ _ Hab) as [Hlt|Heq]; [|exact Heq].
  exfalso. unfold Event_le in Hba. rewrite (Event_compare_antisym a b) in Hba.
  unfold Event_lt in Hlt. rewrite Hlt in Hba. apply Hba. reflexivity.
Qed.

(** *** The sorted event vector *)

Definition events_sorted (l : list (Event P)) : Prop := StronglySorted Event_le l.

Lemma events_lower_bound_app (before after : list (Event P)) p :
  Forall (fun x => Event_lt x p) before ->
  match after with [] => True | x :: _ => Event_le p x end ->
  lower_bound (before ++ after) p = length before.
Proof.
  induction before as [|b before IH]; simpl; intros Hb Ha.
  - destruct after as [|x after]; simpl; [reflexivity|].
    rewrite (proj2 (Event_ltb_ge x p) Ha). reflexivity.
  - inversion Hb as [|? ? Hlt Hrest]; subst.
    rewrite (proj2 (Event_ltb_lt b p) Hlt). f_equal. apply IH; assumption.
Qed.

Lemma events_lower_bound_split (l : list (Event P)) p :
  exists before after,
    l = before ++ after /\
    Forall (fun x => Event_lt x p) before /\
    match after with [] => True | x :: _ => Event_le p x end.
Proof.
  induction l as [|x l (before & after & Heq & Hb & Ha)].
  - exists [], []. repeat split. constructor.
  - destruct (Event_ltb x p) eqn:E.
    + exists (x :: before), after. subst l. repeat split; [|exact Ha].
      constructor; [apply Event_ltb_lt, E | exact Hb].
    + exists [], (x :: l). repeat split; [constructor | apply Event_ltb_ge, E].
Qed.

(** In a sorted vector the lower bound of a member is its first instance. *)
Lemma lower_bound_found (l : list (Event P)) p :
  events_sorted l -> In p l ->
  exists before rest,
    l = before ++ p :: rest /\ Forall (fun x => Event_lt x p) before.
Proof.
  intros Hs Hin. destruct (events_lower_bound_split l p) as (before & after & Heq & Hb & Ha).
  subst l. apply in_app_or in Hin. destruct Hin as [Hin|Hin].
  - rewrite Forall_forall in Hb. exfalso. apply (Event_lt_irrefl p), Hb, Hin.
  - destruct after as [|x rest]; [destruct Hin|].
    exists before, rest. split; [|exact Hb].
    destruct (ListFacts.ssorted_app_inv _ _ _ Hs) as (_ & Sa & _).
    assert (Hxp : Event_le x p).
    { destruct Hin as [->|Hin]; [apply Event_le_refl|].
      apply (ListFacts.ssorted_head _ _ _ Sa p Hin). }
    rewrite (Event_le_antisym x p Hxp Ha). reflexivity.
Qed.

Lemma insert_at_lower_bound (before after : list (Event P)) p :
  Forall (fun x => Event_lt x p) before ->
  match after with [] => True | x :: _ => Event_le p x end ->
  insert_at (lower_bound (before ++ after) p) p (before ++ after) = before ++ p :: after.
Proof.
  intros Hb Ha. rewrite (events_lower_bound_app before after p Hb Ha). unfold insert_at.
  rewrite ListFacts.firstn_length_app, ListFacts.skipn_length_app. reflexivity.
Qed.

Lemma insert_in (l : list (Event P)) p x :
  In x (insert_at (lower_bound l p) p l) <-> x = p \/ In x l.
Proof.
  destruct (events_lower_bound_split l p) as (before & after & -> & Hb & Ha).
  rewrite (insert_at_lower_bound before after p Hb Ha).
  rewrite !in_app_iff. simpl. intuition auto.
Qed.

Lemma insert_sorted (l : list (Event P)) p :
  events_sorted l -> events_sorted (insert_at (lower_bound l p) p l).
Proof.
  intros Hs.
  destruct (events_lower_bound_split l p) as (before & after & -> & Hb & Ha).
  rewrite (insert_at_lower_bound before after p Hb Ha).
  destruct (ListFacts.ssorted_app_inv _ _ _ Hs) as (Sb & Sa & Hcross).
  assert (Hafter : forall y, In y after -> Event_le p y).
  { intros y Hy. destruct after as [|x rest]; [destruct Hy|].
    destruct Hy as [->|Hy]; [exact Ha|].
    apply (Event_le_trans p x y Ha). apply (ListFacts.ssorted_head _ _ _ Sa y Hy). }
  apply ListFacts.ssorted_app; [exact Sb | |].
  - constructor; [exact Sa|]. rewrite Forall_forall. exact Hafter.
  - intros a b Ha' [<-|Hb'].
    + apply Event_lt_le. rewrite Forall_forall in Hb. apply Hb, Ha'.
    + apply Hcross; assumption.
Qed.

(** Removing what was just added gives the vector back. *)
Lemma erase_insert (l : list (Event P)) p :
  let l' := insert_at (lower_bound l p) p l in
  nth_error l' (lower_bound l' p) = Some p /\ erase_at (lower_bound l' p) l' = l.
Proof.
  destruct (events_lower_bound_split l p) as (before & after & -> & Hb & Ha).
  cbv zeta. rewrite (insert_at_lower_bound before after p Hb Ha).
  rewrite (events_lower_bound_app before (p :: after) p Hb (Event_le_refl p)).
  split; [apply ListFacts.nth_error_middle|].
  unfold erase_at. rewrite ListFacts.firstn_length_app.
  change (S (length before)) with (1 + length before)%nat.
  rewrite <- skipn_skipn, ListFacts.skipn_length_app. reflexivity.
Qed.

Lemma erase_at_middle (before rest : list (Event P)) p :
  erase_at (length before) (before ++ p :: rest) = before ++ rest.
Proof.
  unfold erase_at. rewrite ListFacts.firstn_length_app.
  change (S (length before)) with (1 + length before)%nat.
  rewrite <- skipn_skipn, ListFacts.skipn_length_app. reflexivity.
Qed.

Lemma erase_sorted (before rest : list (Event P)) p :
  events_sorted (before ++ p :: rest) -> events_sorted (before ++ rest).
Proof.
  intros Hs. destruct (ListFacts.ssorted_app_inv _ _ _ Hs) as (Sb & Sa & Hcross).
  inversion Sa; subst.
  apply ListFacts.ssorted_app; [assumption | assumption |].
  intros a b Ha Hb. apply Hcross; [exact Ha | right; exact Hb].
Qed.

(** After the first instance of [p], another instance can only come next. *)
Lemma sorted_next_instance (before rest : list (Event P)) p :
  events_sorted (before ++ p :: rest) ->
  Forall (fun x => Event_lt x p) before ->
  In p (before ++ rest) -> exists rest', rest = p :: rest'.
Proof.
  intros Hs Hb Hin. apply in_app_or in Hin. destruct Hin as [Hin|Hin].
  - rewrite Forall_forall in Hb. exfalso. apply (Event_lt_irrefl p), Hb, Hin.
  - destruct rest as [|y rest']; [destruct Hin|].
    exists rest'. f_equal.
    destruct (ListFacts.ssorted_app_inv _ _ _ Hs) as (_ & Sa & _).
    pose proof (ListFacts.ssorted_head _ _ _ Sa y (or_introl eq_refl)) as Hpy.
    inversion Sa as [|? ? Sa' _]; subst.
    assert (Hyp : Event_le y p).
    { destruct Hin as [->|Hin]; [apply Event_le_refl|].
      apply (ListFacts.ssorted_head _ _ _ Sa' p Hin). }
    apply Event_le_antisym; assumption.
Qed.

(** *** The seam map *)

Definition keys (m : list (Z * list (Event P))) : list Z := map fst m.

Definition keys_sorted (m : list (Z * list (Event P))) : Prop :=
  StronglySorted Z.lt (keys m).

Lemma keys_sorted_tail kl (m : list (Z * list (Event P))) :
  keys_sorted (kl :: m) -> keys_sorted m.
Proof. intros Hs. inversion Hs; assumption. Qed.

Lemma keys_sorted_head kl (m : list (Z * list (Event P))) :
  keys_sorted (kl :: m) -> forall k, In k (keys m) -> fst kl < k.
Proof. intros Hs. apply (ListFacts.ssorted_head Z.lt (fst kl) (keys m) Hs). Qed.

Lemma in_keys k l (m : list (Z * list (Event P))) : In (k, l) m -> In k (keys m).
Proof. intros Hin. unfold keys. apply (in_map fst _ _ Hin). Qed.

Definition in_range (f e k : Z) : bool := (f <=? k) && (k <? e).

(** One change [g] made to the lists of the seams with keys in [f, e). *)
Definition range_map (g : list (Event P) -> list (Event P)) (f e : Z)
    (m : list (Z * list (Event P))) : list (Z * list (Event P)) :=
  map (fun kl => if in_range f e (fst kl) then (fst kl, g (snd kl)) else kl) m.

Fixpoint apply_from (g : list (Event P) -> list (Event P)) (e : Z)
    (m : list (Z * list (Event P))) : list (Z * list (Event P)) :=
  match m with
  | [] => []
  | (k, l) :: m' => if k =? e then m else (k, g l) :: apply_from g e m'
  end.

Fixpoint apply_range (g : list (Event P) -> list (Event P)) (f e : Z)
    (m : list (Z * list (Event P))) : list (Z * list (Event P)) :=
  match m with
  | [] => []
  | (k, l) :: m' => if k =? f then apply_from g e m else (k, l) :: apply_range g f e m'
  end.

Lemma push_range_apply p f e m :
  push_range p f e m = apply_range (fun l => l ++ [p]) f e m.
Proof.
  assert (Hfrom : forall m, push_from p e m = apply_from (fun l => l ++ [p]) e m).
  { intros m0. induction m0 as [|[k l] m0 IH]; simpl; [reflexivity|].
    destruct (k =? e); [reflexivity | rewrite IH; reflexivity]. }
  induction m as [|[k l] m IH]; [reflexivity|].
  cbn [push_range apply_range]. destruct (k =? f); [apply Hfrom | rewrite IH; reflexivity].
Qed.

Lemma erase_range_apply p f e m :
  erase_range p f e m = apply_range (erase_all p) f e m.
Proof.
  assert (Hfrom : forall m, erase_from p e m = apply_from (erase_all p) e m).
  { intros m0. induction m0 as [|[k l] m0 IH]; simpl; [reflexivity|].
    destruct (k =? e); [reflexivity | rewrite IH; reflexivity]. }
  induction m as [|[k l] m IH]; [reflexivity|].
  cbn [erase_range apply_range]. destruct (k =? f); [apply Hfrom | rewrite IH; reflexivity].
Qed.

Lemma range_map_keys g f e m : keys (range_map g f e m) = keys m.
Proof.
  unfold keys, range_map. rewrite map_map. apply map_ext.
  intros [k l]. simpl. destruct (in_range f e k); reflexivity.
Qed.

Lemma range_map_above g f e m :
  Forall (fun k => e <= k) (keys m) -> range_map g f e m = m.
Proof.
  induction m as [|[k l] m IH]; simpl; intros Hall; [reflexivity|].
  inversion Hall as [|? ? Hk Hrest]; subst. simpl in Hk.
  unfold in_range. replace (k <? e) with false by (symmetry; apply Z.ltb_ge; lia).
  rewrite andb_false_r. f_equal. apply IH, Hrest.
Qed.

Lemma apply_from_range g f e m :
  keys_sorted m -> Forall (fun k => f <= k) (keys m) -> In e (keys m) ->
  apply_from g e m = range_map g f e m.
Proof.
  induction m as [|[k l] m IH]; intros Hs Hall Hin; [destruct Hin|].
  cbn [apply_from]. destruct (Z.eqb_spec k e) as [->|Hne].
  - symmetry. apply range_map_above. constructor; [simpl; lia|].
    rewrite Forall_forall. intros k Hk.
    pose proof (keys_sorted_head _ _ Hs k Hk). simpl in *. lia.
  - destruct Hin as [Hin|Hin]; [simpl in Hin; lia|].
    pose proof (keys_sorted_head _ _ Hs e Hin) as Hke. simpl in Hke.
    inversion Hall as [|? ? Hk Hrest]; subst. simpl in Hk.
    cbn [range_map map fst snd]. unfold in_range at 1.
    replace (f <=? k) with true by (symmetry; apply Z.leb_le; lia).
    replace (k <? e) with true by (symmetry; apply Z.ltb_lt; lia).
    cbn [andb]. f_equal. apply IH; [eapply keys_sorted_tail, Hs | exact Hrest | exact Hin].
Qed.

Lemma apply_range_range g f e m :
  keys_sorted m -> In f (keys m) -> In e (keys m) -> f < e ->
  apply_range g f e m = range_map g f e m.
Proof.
  induction m as [|[k l] m IH]; intros Hs Hf He Hfe; [destruct Hf|].
  cbn [apply_range]. destruct (Z.eqb_spec k f) as [->|Hne].
  - apply apply_from_range; [exact Hs | | exact He].
    constructor; [simpl; lia|].
    rewrite Forall_forall. intros k Hk.
    pose proof (keys_sorted_head _ _ Hs k Hk). simpl in *. lia.
  - destruct Hf as [Hf|Hf]; [simpl in Hf; lia|].
    pose proof (keys_sorted_head _ _ Hs f Hf) as Hkf. simpl in Hkf.
    destruct He as [He|He]; [simpl in He; lia|].
    cbn [range_map map fst snd]. unfold in_range at 1.
    replace (f <=? k) with false by (symmetry; apply Z.leb_gt; lia).
    cbn [andb]. f_equal. apply IH; [eapply keys_sorted_tail, Hs | | | ]; assumption.
Qed.

Lemma position_some k (m : list (Z * list (Event P))) i :
  position k m = Some i -> In k (keys m).
Proof.
  revert i. induction m as [|[k0 l] m IH]; simpl; intros i Hp; [discriminate|].
  destruct (Z.eqb_spec k0 k) as [->|Hne]; [left; reflexivity|].
  destruct (position k m) as [i'|] eqn:E; [|discriminate].
  right. apply (IH i'). reflexivity.
Qed.

Lemma position_in k (m : list (Z * list (Event P))) :
  In k (keys m) -> exists i, position k m = Some i.
Proof.
  induction m as [|[k0 l] m IH]; simpl; intros Hin; [destruct Hin|].
  destruct (Z.eqb_spec k0 k) as [->|Hne]; [exists O; reflexivity|].
  destruct Hin as [Hin|Hin]; [contradiction|].
  destruct (IH Hin) as (i & ->). exists (S i). reflexivity.
Qed.

Lemma position_lt (m : list (Z * list (Event P))) a b i j :
  keys_sorted m -> position a m = Some i -> position b m = Some j -> a < b ->
  (i < j)%nat.
Proof.
  revert i j. induction m as [|[k l] m IH]; simpl; intros i j Hs Ha Hb Hab;
    [discriminate|].
  destruct (Z.eqb_spec k a) as [->|Hna].
  - inversion Ha; subst. destruct (Z.eqb_spec a b) as [->|Hnb]; [lia|].
    destruct (position b m); inversion Hb; subst. lia.
  - destruct (position a m) as [i'|] eqn:Ea; [|discriminate]. inversion Ha; subst.
    pose proof (keys_sorted_head _ _ Hs a (position_some _ _ _ Ea)) as Hka. simpl in Hka.
    destruct (Z.eqb_spec k b) as [->|Hnb]; [lia|].
    destruct (position b m) as [j'|] eqn:Eb; [|discriminate]. inversion Hb; subst.
    apply -> Nat.succ_lt_mono.
    apply (IH i' j'); [eapply keys_sorted_tail, Hs | reflexivity | reflexivity | exact Hab].
Qed.

Lemma reaches_end_false (m : list (Z * list (Event P))) f e :
  keys_sorted m -> In f (keys m) -> In e (keys m) -> f < e ->
  reaches_end f e m = false.
Proof.
  intros Hs Hf He Hfe. unfold reaches_end.
  destruct (position_in _ _ He) as (j & Hj). destruct (position_in _ _ Hf) as (i & Hi).
  rewrite Hj, Hi. apply Nat.ltb_ge.
  pose proof (position_lt m f e i j Hs Hi Hj Hfe). lia.
Qed.

(** *** [createSeam] *)

(** The list [createSeam] copies: the one at the greatest key below [f]. *)
Fixpoint nearest_below (below : list (Event P)) (f : Z)
    (m : list (Z * list (Event P))) : list (Event P) :=
  match m with
  | [] => below
  | (k, l) :: m' => if k <? f then nearest_below l f m' else below
  end.

Lemma createSeam_keys below f m k :
  In k (keys (createSeam_below below f m)) <-> k = f \/ In k (keys m).
Proof.
  revert below. induction m as [|[k0 l] m IH]; intros below; cbn [createSeam_below].
  - simpl. intuition auto.
  - destruct (Z.ltb_spec f k0); [simpl; intuition auto|].
    destruct (Z.eqb_spec f k0) as [->|Hne]; [simpl; intuition auto|].
    cbn [keys map fst In]. fold (keys (createSeam_below l f m)). rewrite IH.
    fold (keys m). intuition auto.
Qed.

Lemma createSeam_sorted below f m :
  keys_sorted m -> keys_sorted (createSeam_below below f m).
Proof.
  revert below. induction m as [|[k0 l] m IH]; intros below Hs; cbn [createSeam_below].
  - repeat constructor.
  - destruct (Z.ltb_spec f k0) as [Hlt|Hge].
    + constructor; [exact Hs|]. rewrite Forall_forall. intros k [<-|Hk]; [exact Hlt|].
      pose proof (keys_sorted_head _ _ Hs k Hk). simpl in *. lia.
    + destruct (Z.eqb_spec f k0) as [->|Hne]; [exact Hs|].
      constructor; [apply IH; eapply keys_sorted_tail, Hs|].
      rewrite Forall_forall. intros k Hk. apply createSeam_keys in Hk.
      destruct Hk as [->|Hk]; [simpl; lia|].
      apply (keys_sorted_head _ _ Hs k Hk).
Qed.

Lemma createSeam_entries below f m k l :
  keys_sorted m -> In (k, l) (createSeam_below below f m) ->
  In (k, l) m \/ (k = f /\ ~ In f (keys m) /\ l = nearest_below below f m).
Proof.
  revert below. induction m as [|[k0 l0] m IH]; intros below Hs; cbn [createSeam_below].
  - intros [Heq|[]]. inversion Heq; subst. right. repeat split. intros [].
  - cbn [nearest_below]. destruct (Z.ltb_spec f k0) as [Hlt|Hge].
    + intros [Heq|Hin]; [|left; exact Hin].
      inversion Heq; subst. right.
      replace (k0 <? k) with false by (symmetry; apply Z.ltb_ge; lia).
      repeat split. intros [Hk|Hk]; [simpl in Hk; lia|].
      pose proof (keys_sorted_head _ _ Hs k Hk). simpl in *. lia.
    + destruct (Z.eqb_spec f k0) as [->|Hne]; [intros Hin; left; exact Hin|].
      intros [Heq|Hin]; [left; left; exact Heq|].
      replace (k0 <? f) with true by (symmetry; apply Z.ltb_lt; lia).
      destruct (IH l0 (keys_sorted_tail _ _ Hs) Hin) as [Hold|(-> & Hnot & ->)].
      * left. right. exact Hold.
      * right. repeat split. intros [Hk|Hk]; [simpl in Hk; lia | contradiction].
Qed.

Lemma nearest_below_spec below f m :
  keys_sorted m ->
  (nearest_below below f m = below /\ forall k, In k (keys m) -> f <= k) \/
  (exists k' l', In (k', l') m /\ k' < f /\ nearest_below below f m = l' /\
                 forall k, In k (keys m) -> k <= k' \/ f <= k).
Proof.
  revert below. induction m as [|[k0 l0] m IH]; intros below Hs; cbn [nearest_below].
  - left. split; [reflexivity | intros k []].
  - destruct (Z.ltb_spec k0 f) as [Hlt|Hge].
    + right. destruct (IH l0 (keys_sorted_tail _ _ Hs)) as [[Heq Hall]|(k' & l' & Hin & Hk' & Heq & Hall)].
      * exists k0, l0. repeat split; [left; reflexivity | exact Hlt | exact Heq |].
        intros k [Hk|Hk]; [simpl in Hk; lia | right; apply Hall, Hk].
      * exists k', l'. repeat split; [right; exact Hin | exact Hk' | exact Heq |].
        intros k [Hk|Hk]; [|apply Hall, Hk].
        pose proof (keys_sorted_head _ _ Hs k' (in_keys _ _ _ Hin)). simpl in *. lia.
    + left. split; [reflexivity|]. intros k [Hk|Hk]; [simpl in Hk; lia|].
      pose proof (keys_sorted_head _ _ Hs k Hk). simpl in *. lia.
Qed.

(** The head of the map after [createSeam]. *)
Lemma createSeam_front f (m : list (Z * list (Event P))) :
  match createSeam f m with
  | [] => False
  | (k, l) :: _ => (k = f /\ l = []) \/ (k <= f /\ exists m', m = (k, l) :: m')
  end.
Proof.
  unfold createSeam. destruct m as [|[k0 l0] m]; cbn [createSeam_below].
  - left. split; reflexivity.
  - destruct (Z.ltb_spec f k0) as [Hlt|Hge].
    + left. split; reflexivity.
    + destruct (Z.eqb_spec f k0) as [->|Hne];
        right; (split; [lia | exists m; reflexivity]).
Qed.

(** *** The invariant of a series *)

(** The event [x] of the vector [evs] covers the frame [k]. *)
Definition covers (evs : list (Event P)) (x : Event P) (k : Z) : Prop :=
  In x evs /\ hasDuration x = true /\ frame x <= k < frame x + duration x.

(** A seam lists the events that cover its key. *)
Definition seam_good (evs : list (Event P)) (kl : Z * list (Event P)) : Prop :=
  forall x, In x (snd kl) <-> covers evs x (fst kl).

(** Both ends of every event with duration are seam keys. *)
Definition ends_are_keys (evs : list (Event P)) (m : list (Z * list (Event P))) : Prop :=
  forall x, In x evs -> hasDuration x = true ->
    In (frame x) (keys m) /\ In (frame x + duration x) (keys m).

Definition front_not_empty (m : list (Z * list (Event P))) : Prop :=
  match m with
  | [] => True
  | (_, l) :: _ => l <> []
  end.

Record Inv (s : EventSeries P) : Prop := mkInv {
  inv_events : events_sorted (m_events s);
  inv_keys : keys_sorted (m_seams s);
  inv_ends : ends_are_keys (m_events s) (m_seams s);
  inv_seams : Forall (seam_good (m_events s)) (m_seams s);
  inv_front : front_not_empty (m_seams s)
}.

Lemma hasDuration_pos (x : Event P) : hasDuration x = true <-> 0 < duration x.
Proof. unfold hasDuration. apply Z.ltb_lt. Qed.

Lemma createSeam_good evs f m :
  keys_sorted m -> ends_are_keys evs m -> Forall (seam_good evs) m ->
  Forall (seam_good evs) (createSeam f m).
Proof.
  intros Hs Hends Hgood. rewrite Forall_forall in *. intros [k l] Hin.
  destruct (createSeam_entries [] f m k l Hs Hin) as [Hold|(-> & Hnot & ->)];
    [apply Hgood, Hold|].
  destruct (nearest_below_spec [] f m Hs) as [[Heq Hall]|(k' & l' & Hin' & Hk' & Heq & Hall)];
    rewrite Heq; intros x; cbn [fst snd].
  - split; [intros []|]. intros (Hx & Hd & Hr).
    destruct (Hends x Hx Hd) as [Hf _]. pose proof (Hall _ Hf).
    assert (frame x = f) by lia. subst f. contradiction.
  - rewrite (Hgood (k', l') Hin' x). cbn [fst]. unfold covers.
    split; intros (Hx & Hd & Hr); (split; [exact Hx | split; [exact Hd|]]);
      destruct (Hends x Hx Hd) as [Hf He];
      pose proof (Hall _ Hf) as Hf'; pose proof (Hall _ He) as He'.
    + assert (frame x + duration x <> f) by (intros E; rewrite E in He; contradiction).
      lia.
    + assert (frame x <> f) by (intros E; rewrite E in Hf; contradiction).
      lia.
Qed.

Lemma createSeam_ends evs f m :
  ends_are_keys evs m -> ends_are_keys evs (createSeam f m).
Proof.
  intros Hends x Hx Hd. destruct (Hends x Hx Hd) as [Hf He].
  unfold createSeam. rewrite !createSeam_keys. auto.
Qed.

(** *** [add] keeps the invariant *)

Lemma seam_good_same evs evs' (kl : Z * list (Event P)) :
  (forall x, covers evs' x (fst kl) <-> covers evs x (fst kl)) ->
  seam_good evs kl -> seam_good evs' kl.
Proof. intros Hsame Hgood x. rewrite (Hgood x). symmetry. apply Hsame. Qed.

Lemma seam_good_push evs evs' p (kl : Z * list (Event P)) :
  (forall x, In x evs' <-> x = p \/ In x evs) ->
  hasDuration p = true ->
  seam_good evs kl ->
  seam_good evs'
    (if in_range (frame p) (frame p + duration p) (fst kl)
     then (fst kl, snd kl ++ [p]) else kl).
Proof.
  intros Hin Hd Hgood x. destruct kl as [k l]. cbn [fst snd] in *.
  unfold in_range.
  destruct (Z.leb_spec (frame p) k) as [H1|H1];
    destruct (Z.ltb_spec k (frame p + duration p)) as [H2|H2]; cbn [andb fst snd].
  - rewrite in_app_iff. rewrite (Hgood x). cbn [fst]. unfold covers. rewrite Hin.
    simpl. split.
    + intros [(Hx & Hdx & Hr)|[<-|[]]]; auto.
    + intros ([->|Hx] & Hdx & Hr); auto.
  - rewrite (Hgood x). cbn [fst]. unfold covers. rewrite Hin. split.
    + intros (Hx & Hdx & Hr); auto.
    + intros ([->|Hx] & Hdx & Hr); [lia | auto].
  - rewrite (Hgood x). cbn [fst]. unfold covers. rewrite Hin. split.
    + intros (Hx & Hdx & Hr); auto.
    + intros ([->|Hx] & Hdx & Hr); [lia | auto].
  - rewrite (Hgood x). cbn [fst]. unfold covers. rewrite Hin. split.
    + intros (Hx & Hdx & Hr); auto.
    + intros ([->|Hx] & Hdx & Hr); [lia | auto].
Qed.

Lemma add_inv p (s : EventSeries P) : Inv s -> Inv (add p s).
Proof.
  intros [Hev Hks Hends Hgood Hfront]. destruct s as [evs m final].
  cbn [m_events m_seams] in *. unfold add. cbn [m_events m_seams m_finalDurationlessEventFrame].
  set (evs' := insert_at (lower_bound evs p) p evs).
  assert (Hin : forall x, In x evs' <-> x = p \/ In x evs) by (intros x; apply insert_in).
  assert (Hev' : events_sorted evs') by (apply insert_sorted, Hev).
  destruct (hasDuration p &&
            match nth_error evs (lower_bound evs p) with
            | Some x => negb (Event_eqb x p)
            | None => true
            end) eqn:Ecase.
  - (* the first instance of an event with duration *)
    apply andb_true_iff in Ecase. destruct Ecase as [Hd _].
    pose proof (proj1 (hasDuration_pos p) Hd) as Hpos.
    set (f := frame p) in *. set (e := frame p + duration p) in *.
    set (m1 := createSeam f m). set (m2 := createSeam e m1).
    assert (Hs1 : keys_sorted m1) by (apply createSeam_sorted, Hks).
    assert (Hs2 : keys_sorted m2) by (apply createSeam_sorted, Hs1).
    assert (Hf2 : In f (keys m2)).
    { unfold m2, m1, createSeam. rewrite !createSeam_keys. auto. }
    assert (He2 : In e (keys m2)).
    { unfold m2, createSeam. rewrite createSeam_keys. auto. }
    assert (Hfe : f < e) by (unfold f, e; lia).
    rewrite push_range_apply, (apply_range_range _ f e m2 Hs2 Hf2 He2 Hfe).
    constructor; cbn [m_events m_seams].
    + exact Hev'.
    + unfold keys_sorted. rewrite range_map_keys. exact Hs2.
    + intros x Hx Hdx. rewrite range_map_keys. apply Hin in Hx.
      destruct Hx as [->|Hx]; [split; assumption|].
      destruct (Hends x Hx Hdx) as [H1 H2].
      unfold m2, m1, createSeam. rewrite !createSeam_keys. auto.
    + unfold range_map. rewrite Forall_map.
      assert (Hgood2 : Forall (seam_good evs) m2).
      { apply createSeam_good; [exact Hs1 | apply createSeam_ends, Hends |].
        apply createSeam_good; assumption. }
      rewrite Forall_forall in *. intros kl Hkl.
      apply (seam_good_push evs evs' p kl Hin Hd). apply Hgood2, Hkl.
    + pose proof (createSeam_front e m1) as Hfr2. fold m2 in Hfr2.
      destruct m2 as [|[k2 l2] m2'] eqn:Em2; [destruct Hfr2|].
      cbn [range_map map front_not_empty fst snd].
      assert (Hk2f : k2 <= f).
      { destruct Hf2 as [Hf2|Hf2]; [simpl in Hf2; lia|].
        pose proof (keys_sorted_head _ _ Hs2 f Hf2). simpl in *. lia. }
      destruct Hfr2 as [[Hk2 _]|[_ (m1' & Hm1)]]; [lia|].
      pose proof (createSeam_front f m) as Hfr1. fold m1 in Hfr1. rewrite Hm1 in Hfr1.
      unfold in_range.
      destruct Hfr1 as [[-> ->]|[Hle (m' & Hm)]].
      * replace (f <=? f) with true by (symmetry; apply Z.leb_le; lia).
        replace (f <? e) with true by (symmetry; apply Z.ltb_lt; lia).
        cbn [andb snd]. discriminate.
      * subst m. cbn [front_not_empty] in Hfront.
        destruct ((f <=? k2) && (k2 <? e)); cbn [snd]; [|exact Hfront].
        intros E. apply app_eq_nil in E. destruct E as [_ E]. discriminate.
  - (* a durationless event, or one more instance *)
    assert (Hknown : hasDuration p = true -> In p evs).
    { intros Hd. rewrite Hd in Ecase. cbn [andb] in Ecase.
      destruct (nth_error evs (lower_bound evs p)) as [x|] eqn:En; [|discriminate].
      apply negb_false_iff, Event_eqb_eq in Ecase. subst x.
      apply (nth_error_In _ _ En). }
    constructor; cbn [m_events m_seams].
    + exact Hev'.
    + exact Hks.
    + intros x Hx Hdx. apply Hin in Hx. destruct Hx as [->|Hx].
      * apply Hends; [apply Hknown, Hdx | exact Hdx].
      * apply Hends; assumption.
    + rewrite Forall_forall in *. intros kl Hkl.
      apply (seam_good_same evs evs' kl); [|apply Hgood, Hkl].
      intros x. unfold covers. rewrite Hin. split.
      * intros ([->|Hx] & Hdx & Hr); auto.
      * intros (Hx & Hdx & Hr); auto.
    + exact Hfront.
Qed.

(** *** The tidying steps of [remove] *)

Lemma seamsEqual_eq (s1 s2 : list (Event P)) : seamsEqual s1 s2 = true -> s1 = s2.
Proof.
  revert s2. induction s1 as [|a s1 IH]; intros [|b s2]; simpl; intros E;
    try reflexivity; try discriminate.
  apply andb_true_iff in E. destruct E as [Eab E].
  apply Event_eqb_eq in Eab. subst b. f_equal. apply IH, E.
Qed.

(** The seam of key [k] comes right after a seam with an equal list. *)
Definition adjacent_equal (m : list (Z * list (Event P))) (k : Z) : Prop :=
  exists m1 kp l m2, m = m1 ++ (kp, l) :: (k, l) :: m2.

Lemma adjacent_equal_cons kl (m : list (Z * list (Event P))) k :
  adjacent_equal m k -> adjacent_equal (kl :: m) k.
Proof.
  intros (m1 & kp & l & m2 & ->). exists (kl :: m1), kp, l, m2. reflexivity.
Qed.

Lemma redundant_from_adjacent e (m : list (Z * list (Event P))) : forall prev k,
  In k (redundant_from prev e m) ->
  (exists l m', prev = Some l /\ m = (k, l) :: m') \/ adjacent_equal m k.
Proof.
  induction m as [|[k0 l0] m IH]; intros prev k Hin; [destruct Hin|].
  cbn [redundant_from] in Hin.
  assert (Hhere :
    In k (match prev with
          | Some lp => if seamsEqual l0 lp then [k0] else []
          | None => []
          end) ->
    exists l m', prev = Some l /\ (k0, l0) :: m = (k, l) :: m').
  { destruct prev as [lp|]; [|intros []].
    destruct (seamsEqual l0 lp) eqn:E; [|intros []].
    intros [<-|[]]. apply seamsEqual_eq in E. subst lp.
    exists l0, m. split; reflexivity. }
  destruct (k0 =? e).
  - left. apply Hhere, Hin.
  - apply in_app_or in Hin. destruct Hin as [Hin|Hin]; [left; apply Hhere, Hin|].
    right. destruct (IH (Some l0) k Hin) as [(l & m' & Hl & ->)|Hadj].
    + inversion Hl; subst. exists [], k0, l, m'. reflexivity.
    + apply adjacent_equal_cons, Hadj.
Qed.

Lemma redundant_adjacent f e (m : list (Z * list (Event P))) : forall prev k,
  In k (redundant prev f e m) ->
  (exists l m', prev = Some l /\ m = (k, l) :: m') \/ adjacent_equal m k.
Proof.
  induction m as [|[k0 l0] m IH]; intros prev k Hin; [destruct Hin|].
  cbn [redundant] in Hin. destruct (k0 =? f).
  - apply (redundant_from_adjacent e _ prev k Hin).
  - right. destruct (IH (Some l0) k Hin) as [(l & m' & Hl & ->)|Hadj].
    + inversion Hl; subst. exists [], k0, l, m'. reflexivity.
    + apply adjacent_equal_cons, Hadj.
Qed.

Lemma seam_erase_sub k (m : list (Z * list (Event P))) kl :
  In kl (seam_erase k m) -> In kl m.
Proof.
  induction m as [|[k0 l0] m IH]; simpl; [auto|].
  destruct (k0 =? k); [auto|]. intros [Heq|Hin]; auto.
Qed.

Lemma seam_erase_keys k (m : list (Z * list (Event P))) k' :
  In k' (keys m) -> k' <> k -> In k' (keys (seam_erase k m)).
Proof.
  induction m as [|[k0 l0] m IH]; simpl; [auto|].
  intros [Heq|Hin] Hne.
  - subst k0. destruct (Z.eqb_spec k' k); [contradiction | left; reflexivity].
  - destruct (k0 =? k); [exact Hin | right; apply IH; assumption].
Qed.

Lemma seam_erase_sorted k (m : list (Z * list (Event P))) :
  keys_sorted m -> keys_sorted (seam_erase k m).
Proof.
  induction m as [|[k0 l0] m IH]; simpl; intros Hs; [exact Hs|].
  destruct (k0 =? k); [eapply keys_sorted_tail, Hs|].
  constructor; [apply IH; eapply keys_sorted_tail, Hs|].
  rewrite Forall_forall. intros k' Hk'.
  apply (keys_sorted_head _ _ Hs k').
  unfold keys in *. apply in_map_iff in Hk'. destruct Hk' as (kl & <- & Hkl).
  apply in_map, (seam_erase_sub _ _ _ Hkl).
Qed.

Lemma erase_keys_sub ks : forall (m : list (Z * list (Event P))) kl,
  In kl (fold_left (fun m k => seam_erase k m) ks m) -> In kl m.
Proof.
  induction ks as [|k ks IH]; intros m kl Hin; [exact Hin|].
  simpl in Hin. apply IH in Hin. apply (seam_erase_sub _ _ _ Hin).
Qed.

Lemma erase_keys_keeps ks : forall (m : list (Z * list (Event P))) k',
  In k' (keys m) -> ~ In k' ks ->
  In k' (keys (fold_left (fun m k => seam_erase k m) ks m)).
Proof.
  induction ks as [|k ks IH]; intros m k' Hin Hnot; [exact Hin|].
  simpl. apply IH.
  - apply seam_erase_keys; [exact Hin|]. intros ->. apply Hnot. left. reflexivity.
  - intros Hk. apply Hnot. right. exact Hk.
Qed.

Lemma erase_keys_sorted ks : forall (m : list (Z * list (Event P))),
  keys_sorted m -> keys_sorted (fold_left (fun m k => seam_erase k m) ks m).
Proof.
  induction ks as [|k ks IH]; intros m Hs; [exact Hs|].
  simpl. apply IH, seam_erase_sorted, Hs.
Qed.

Lemma drop_empty_front_suffix (m : list (Z * list (Event P))) :
  exists pre, m = pre ++ drop_empty_front m /\ Forall (fun kl => snd kl = []) pre.
Proof.
  induction m as [|[k l] m (pre & Heq & Hall)].
  - exists []. split; [reflexivity | constructor].
  - destruct l as [|x l].
    + exists ((k, []) :: pre). cbn [drop_empty_front]. split.
      * simpl. f_equal. exact Heq.
      * constructor; [reflexivity | exact Hall].
    + exists []. split; [reflexivity | constructor].
Qed.

Lemma drop_empty_front_front (m : list (Z * list (Event P))) :
  front_not_empty (drop_empty_front m).
Proof.
  induction m as [|[k l] m IH]; [exact I|].
  destruct l as [|x l]; [exact IH|]. simpl. discriminate.
Qed.

(** In a sorted map no key lies between two neighbours. *)
Lemma neighbours_no_between (m1 m2 : list (Z * list (Event P))) kp lp k l k0 :
  keys_sorted (m1 ++ (kp, lp) :: (k, l) :: m2) ->
  In k0 (keys (m1 ++ (kp, lp) :: (k, l) :: m2)) -> k0 < k -> k0 <= kp.
Proof.
  unfold keys_sorted, keys. rewrite map_app. cbn [map fst]. intros Hs Hin Hlt.
  destruct (ListFacts.ssorted_app_inv _ _ _ Hs) as (_ & S2 & Hcross).
  apply in_app_or in Hin. destruct Hin as [Hin|[Hin|[Hin|Hin]]].
  - specialize (Hcross k0 kp Hin (or_introl eq_refl)). lia.
  - lia.
  - lia.
  - inversion S2 as [|? ? S3 _]; subst.
    pose proof (ListFacts.ssorted_head _ _ _ S3 k0 Hin). lia.
Qed.

Lemma neighbours_ordered (m1 m2 : list (Z * list (Event P))) kp lp k l :
  keys_sorted (m1 ++ (kp, lp) :: (k, l) :: m2) -> kp < k.
Proof.
  unfold keys_sorted, keys. rewrite map_app. cbn [map fst]. intros Hs.
  destruct (ListFacts.ssorted_app_inv _ _ _ Hs) as (_ & S2 & _).
  apply (ListFacts.ssorted_head _ _ _ S2 k). left. reflexivity.
Qed.

(** *** [remove] keeps the invariant *)

Lemma seam_good_erase evs evs' p (kl : Z * list (Event P)) :
  (forall x, In x evs' <-> In x evs /\ x <> p) ->
  seam_good evs kl ->
  seam_good evs'
    (if in_range (frame p) (frame p + duration p) (fst kl)
     then (fst kl, erase_all p (snd kl)) else kl).
Proof.
  intros Hin Hgood x. destruct kl as [k l]. cbn [fst snd] in *.
  destruct (in_range (frame p) (frame p + duration p) k) eqn:Er; cbn [fst snd].
  - unfold erase_all. rewrite filter_In, (Hgood x). cbn [fst]. unfold covers.
    rewrite Hin, negb_true_iff, Event_eqb_neq. tauto.
  - rewrite (Hgood x). cbn [fst]. unfold covers. rewrite Hin. split.
    + intros (Hx & Hd & Hr). repeat split; try assumption; try lia.
      intros ->. unfold in_range in Er. apply andb_false_iff in Er.
      destruct Er as [Er|Er]; [apply Z.leb_gt in Er | apply Z.ltb_ge in Er]; lia.
    + intros ((Hx & _) & Hd & Hr). auto.
Qed.

Lemma tidy_inv evs f e (m : list (Z * list (Event P))) :
  keys_sorted m -> ends_are_keys evs m -> Forall (seam_good evs) m ->
  let tidy :=
    drop_empty_front (fold_left (fun m k => seam_erase k m) (redundant None f e m) m) in
  keys_sorted tidy /\ ends_are_keys evs tidy /\
  Forall (seam_good evs) tidy /\ front_not_empty tidy.
Proof.
  intros Hs Hends Hgood. cbv zeta.
  set (red := redundant None f e m).
  set (m2 := fold_left (fun m k => seam_erase k m) red m).
  assert (Hs2 : keys_sorted m2) by (apply erase_keys_sorted, Hs).
  assert (Hgood2 : Forall (seam_good evs) m2).
  { rewrite Forall_forall in *. intros kl Hkl. apply Hgood, (erase_keys_sub _ _ _ Hkl). }
  assert (Hred : forall k, In k red -> adjacent_equal m k).
  { intros k Hk. destruct (redundant_adjacent f e m None k Hk) as [(l & m' & Hl & _)|Hadj];
      [discriminate | exact Hadj]. }
  assert (Hends2 : ends_are_keys evs m2).
  { intros x Hx Hd. destruct (Hends x Hx Hd) as [Hf He].
    pose proof (proj1 (hasDuration_pos x) Hd) as Hpos.
    rewrite Forall_forall in Hgood.
    split; apply erase_keys_keeps; try assumption; intros Hk;
      destruct (Hred _ Hk) as (m1 & kp & l & m2' & Hm).
    - (* the start of [x]: its list holds [x], the one before does not *)
      assert (Hin1 : In (frame x, l) m) by (rewrite Hm; apply in_or_app; right; right; left; reflexivity).
      assert (Hin0 : In (kp, l) m) by (rewrite Hm; apply in_or_app; right; left; reflexivity).
      assert (Hxl : In x l).
      { apply (Hgood _ Hin1 x). cbn [fst]. unfold covers. repeat split; try assumption; lia. }
      apply (Hgood _ Hin0 x) in Hxl. cbn [fst] in Hxl. destruct Hxl as (_ & _ & Hr).
      rewrite Hm in Hs. pose proof (neighbours_ordered _ _ _ _ _ _ Hs). lia.
    - (* the end of [x]: the list before holds [x], its own does not *)
      assert (Hin1 : In (frame x + duration x, l) m)
        by (rewrite Hm; apply in_or_app; right; right; left; reflexivity).
      assert (Hin0 : In (kp, l) m) by (rewrite Hm; apply in_or_app; right; left; reflexivity).
      assert (Hkp : frame x <= kp).
      { rewrite Hm in Hs, Hf.
        apply (neighbours_no_between _ _ _ _ _ _ _ Hs Hf). lia. }
      assert (Hkp' : kp < frame x + duration x).
      { rewrite Hm in Hs. apply (neighbours_ordered _ _ _ _ _ _ Hs). }
      assert (Hxl : In x l).
      { apply (Hgood _ Hin0 x). cbn [fst]. unfold covers. repeat split; try assumption; lia. }
      apply (Hgood _ Hin1 x) in Hxl. cbn [fst] in Hxl. destruct Hxl as (_ & _ & Hr). lia. }
  destruct (drop_empty_front_suffix m2) as (pre & Heq & Hpre).
  set (m3 := drop_empty_front m2) in *.
  assert (Hs3 : keys_sorted m3).
  { unfold keys_sorted, keys in *. rewrite Heq, map_app in Hs2.
    apply (ListFacts.ssorted_app_inv _ _ _ Hs2). }
  assert (Hgood3 : Forall (seam_good evs) m3).
  { rewrite Heq in Hgood2. apply Forall_app in Hgood2. apply Hgood2. }
  split; [exact Hs3 | split; [|split; [exact Hgood3 | apply drop_empty_front_front]]].
  intros x Hx Hd. destruct (Hends2 x Hx Hd) as [Hf He].
  pose proof (proj1 (hasDuration_pos x) Hd) as Hpos.
  assert (Hnot_pre : ~ In (frame x) (keys pre)).
  { intros Hk. unfold keys in Hk. apply in_map_iff in Hk.
    destruct Hk as ([k l] & Hkeq & Hkl). cbn [fst] in Hkeq. subst k.
    rewrite Forall_forall in Hpre. pose proof (Hpre _ Hkl) as Hl. cbn [snd] in Hl. subst l.
    rewrite Forall_forall in Hgood2.
    assert (Hin2 : In (frame x, []) m2) by (rewrite Heq; apply in_or_app; left; exact Hkl).
    apply (proj2 (Hgood2 _ Hin2 x)). cbn [fst]. unfold covers.
    repeat split; try assumption; lia. }
  assert (Hf3 : In (frame x) (keys m3)).
  { unfold keys in *. rewrite Heq, map_app in Hf. apply in_app_or in Hf.
    destruct Hf as [Hf|Hf]; [contradiction | exact Hf]. }
  split; [exact Hf3|].
  unfold keys in *. rewrite Heq, map_app in He. apply in_app_or in He.
  destruct He as [He|He]; [|exact He].
  unfold keys_sorted, keys in Hs2. rewrite Heq, map_app in Hs2.
  destruct (ListFacts.ssorted_app_inv _ _ _ Hs2) as (_ & _ & Hcross).
  specialize (Hcross _ _ He Hf3). lia.
Qed.

(** [remove] never throws on a series that satisfies the invariant, keeps
    the invariant, and takes one instance of a known event out of the
    vector. *)
Lemma remove_inv p (s : EventSeries P) :
  Inv s ->
  exists s',
    remove p s = Some s' /\ Inv s' /\
    (nth_error (m_events s) (lower_bound (m_events s) p) = Some p ->
     m_events s' = erase_at (lower_bound (m_events s) p) (m_events s)).
Proof.
  intros Hinv. pose proof Hinv as [Hev Hks Hends Hgood Hfront].
  destruct s as [evs m final]. cbn [m_events m_seams] in *.
  unfold remove. cbn [m_events m_seams m_finalDurationlessEventFrame].
  destruct (nth_error evs (lower_bound evs p)) as [x|] eqn:En;
    [|exists (mkEventSeries evs m final);
      split; [reflexivity | split; [exact Hinv | discriminate]]].
  destruct (Event_eqb x p) eqn:Ex; cbn [negb];
    [|exists (mkEventSeries evs m final);
      split; [reflexivity | split; [exact Hinv|]];
      intros E; inversion E; subst; rewrite Event_eqb_refl in Ex; discriminate].
  apply Event_eqb_eq in Ex. subst x.
  destruct (events_lower_bound_split evs p) as (before & after & Heq & Hb & Ha).
  pose proof (events_lower_bound_app before after p Hb Ha) as Hlb. rewrite <- Heq in Hlb.
  rewrite Hlb in *.
  assert (Hafter : exists rest, after = p :: rest).
  { subst evs. rewrite nth_error_app2, Nat.sub_diag in En by lia.
    destruct after as [|y rest]; [discriminate|]. inversion En. exists rest. reflexivity. }
  destruct Hafter as (rest & ->). subst evs.
  rewrite erase_at_middle.
  assert (Hev' : events_sorted (before ++ rest)) by (apply (erase_sorted _ _ _ Hev)).
  replace (nth_error (before ++ p :: rest) (S (length before))) with (nth_error rest 0).
  2:{ rewrite nth_error_app2 by lia.
      replace (S (length before) - length before)%nat with 1%nat by lia. reflexivity. }
  set (isUnique := match nth_error rest 0 with
                   | Some y => negb (Event_eqb y p)
                   | None => true
                   end).
  set (final' := if negb (hasDuration p) && isUnique && (frame p =? final)
                 then last_durationless (before ++ rest) else final).
  assert (Hsub : forall x, In x (before ++ rest) -> In x (before ++ p :: rest)).
  { intros x Hx. apply in_app_or in Hx. apply in_or_app.
    destruct Hx; [left | right; right]; assumption. }
  assert (Hunique : isUnique = true ->
            forall x, In x (before ++ rest) <-> In x (before ++ p :: rest) /\ x <> p).
  { intros Hu x. split.
    - intros Hx. split; [apply Hsub, Hx|]. intros ->.
      destruct (sorted_next_instance before rest p Hev Hb Hx) as (rest' & ->).
      unfold isUnique in Hu. simpl in Hu. rewrite Event_eqb_refl in Hu. discriminate.
    - intros [Hx Hne]. apply in_app_or in Hx. apply in_or_app.
      destruct Hx as [Hx|[Hx|Hx]]; [left; exact Hx | congruence | right; exact Hx]. }
  assert (Hdup : isUnique = false ->
            forall x, In x (before ++ rest) <-> In x (before ++ p :: rest)).
  { intros Hu x. split; [apply Hsub|].
    unfold isUnique in Hu. destruct rest as [|y rest']; [discriminate|]. simpl in Hu.
    apply negb_false_iff, Event_eqb_eq in Hu. subst y.
    intros Hx. apply in_app_or in Hx. apply in_or_app.
    destruct Hx as [Hx|[Hx|Hx]]; [left; exact Hx | right; left; exact Hx | right; exact Hx]. }
  destruct (hasDuration p && isUnique) eqn:Ecase.
  - (* the last instance of an event with duration *)
    apply andb_true_iff in Ecase. destruct Ecase as [Hd Hu].
    pose proof (proj1 (hasDuration_pos p) Hd) as Hpos.
    assert (Hp : In p (before ++ p :: rest)) by (apply in_or_app; right; left; reflexivity).
    destruct (Hends p Hp Hd) as [Hf He].
    rewrite (reaches_end_false m _ _ Hks Hf He) by lia.
    rewrite erase_range_apply, (apply_range_range _ _ _ m Hks Hf He) by lia.
    set (m1 := range_map (erase_all p) (frame p) (frame p + duration p) m).
    assert (Hs1 : keys_sorted m1) by (unfold keys_sorted, m1; rewrite range_map_keys; exact Hks).
    assert (Hends1 : ends_are_keys (before ++ rest) m1).
    { intros x Hx Hdx. unfold m1. rewrite range_map_keys. apply Hends; [apply Hsub, Hx | exact Hdx]. }
    assert (Hgood1 : Forall (seam_good (before ++ rest)) m1).
    { unfold m1, range_map. rewrite Forall_map. rewrite Forall_forall in *. intros kl Hkl.
      apply (seam_good_erase (before ++ p :: rest)); [apply Hunique, Hu | apply Hgood, Hkl]. }
    destruct (tidy_inv (before ++ rest) (frame p) (frame p + duration p) m1 Hs1 Hends1 Hgood1)
      as (Hs3 & Hends3 & Hgood3 & Hfront3).
    eexists. split; [reflexivity|]. split; [|intros _; reflexivity].
    constructor; cbn [m_events m_seams]; assumption.
  - (* a durationless event, or an instance that leaves others behind *)
    eexists. split; [reflexivity|]. split; [|intros _; reflexivity].
    assert (Hsame : forall x k,
              covers (before ++ rest) x k <-> covers (before ++ p :: rest) x k).
    { intros x k. unfold covers. destruct isUnique eqn:Hu.
      - rewrite (Hunique eq_refl x). split.
        + intros ((Hx & _) & Hdx & Hr). auto.
        + intros (Hx & Hdx & Hr). repeat split; try assumption; try lia.
          intros ->. rewrite Hdx in Ecase. discriminate.
      - rewrite (Hdup eq_refl x). tauto. }
    constructor; cbn [m_events m_seams].
    + exact Hev'.
    + exact Hks.
    + intros x Hx Hdx. apply Hends; [apply Hsub, Hx | exact Hdx].
    + rewrite Forall_forall in *. intros kl Hkl.
      apply (seam_good_same (before ++ p :: rest)); [intros x; apply Hsame | apply Hgood, Hkl].
    + exact Hfront.
Qed.

(** *** Sequences of operations *)

Lemma Inv_empty : Inv (@empty P).
Proof.
  constructor; cbn.
  - constructor.
  - constructor.
  - intros x [].
  - constructor.
  - exact I.
Qed.

Lemma apply_all_app (ops1 ops2 : list (Op P)) s :
  apply_all (ops1 ++ ops2) s =
    match apply_all ops1 s with
    | Some s1 => apply_all ops2 s1
    | None => None
    end.
Proof.
  unfold apply_all. rewrite fold_left_app.
  destruct (fold_left apply ops1 (Some s)) as [s1|]; [reflexivity|].
  induction ops2 as [|op ops2 IH]; [reflexivity | exact IH].
Qed.

Lemma apply_all_inv (ops : list (Op P)) : forall s,
  Inv s -> exists s', apply_all ops s = Some s' /\ Inv s'.
Proof.
  induction ops as [|op ops IH]; intros s Hinv.
  - exists s. split; [reflexivity | exact Hinv].
  - destruct op as [e|e].
    + change (apply_all (Add e :: ops) s) with (apply_all ops (add e s)).
      apply IH, add_inv, Hinv.
    + destruct (remove_inv e s Hinv) as (s1 & Hrem & Hinv1 & _).
      unfold apply_all. cbn [fold_left apply]. rewrite Hrem.
      apply (IH s1 Hinv1).
Qed.

(** *** [getEventsCovering] *)

Lemma seam_covering_result q (m : list (Z * list (Event P))) :
  keys_sorted m -> forall prev,
  (seam_covering prev q m = prev /\ forall k, In k (keys m) -> q < k) \/
  (exists k l, In (k, l) m /\ k <= q /\ seam_covering prev q m = Some l /\
               forall k', In k' (keys m) -> k' <= k \/ q < k').
Proof.
  induction m as [|[k l] m IH]; intros Hs prev; cbn [seam_covering].
  - left. split; [reflexivity | intros k []].
  - destruct (Z.ltb_spec k q) as [Hlt|Hge].
    + right. destruct (IH (keys_sorted_tail _ _ Hs) (Some l))
        as [[Heq Hall]|(k2 & l2 & Hin & Hk2 & Heq & Hall)].
      * exists k, l. repeat split; [left; reflexivity | lia | exact Heq |].
        intros k' [Hk'|Hk']; [simpl in Hk'; lia | right; apply Hall, Hk'].
      * exists k2, l2. repeat split; [right; exact Hin | exact Hk2 | exact Heq |].
        intros k' [Hk'|Hk']; [|apply Hall, Hk'].
        pose proof (keys_sorted_head _ _ Hs k2 (in_keys _ _ _ Hin)). simpl in *. lia.
    + destruct (Z.eqb_spec k q) as [->|Hne].
      * right. exists q, l. repeat split; [left; reflexivity | lia |].
        intros k' [Hk'|Hk']; [simpl in Hk'; lia|].
        pose proof (keys_sorted_head _ _ Hs k' Hk'). simpl in *. lia.
      * left. split; [reflexivity|]. intros k' [Hk'|Hk']; [simpl in Hk'; lia|].
        pose proof (keys_sorted_head _ _ Hs k' Hk'). simpl in *. lia.
Qed.

Lemma set_insert_in p (l : list (Event P)) x :
  In x (set_insert p l) <-> x = p \/ In x l.
Proof.
  induction l as [|a l IH]; cbn [set_insert].
  - simpl. intuition auto.
  - destruct (Event_compare p a) eqn:E.
    + apply Event_compare_eq in E. subst a. simpl. intuition auto.
    + simpl. intuition auto.
    + cbn [In]. rewrite IH. intuition auto.
Qed.

Lemma set_of_in (l : list (Event P)) : forall acc x,
  In x (fold_left (fun set p => set_insert p set) l acc) <-> In x l \/ In x acc.
Proof.
  induction l as [|a l IH]; intros acc x; cbn [fold_left].
  - simpl. intuition auto.
  - rewrite IH, set_insert_in. simpl. intuition auto.
Qed.

Lemma take_while_eq p (l : list (Event P)) y :
  In y (take_while (fun e => Event_eqb e p) l) -> y = p.
Proof.
  induction l as [|a l IH]; cbn [take_while]; [intros []|].
  destruct (Event_eqb a p) eqn:E; [|intros []].
  apply Event_eqb_eq in E. subst a. intros [<-|Hin]; [reflexivity | apply IH, Hin].
Qed.

Lemma instances_found (evs : list (Event P)) p :
  events_sorted evs -> In p evs ->
  In p (take_while (fun e => Event_eqb e p) (skipn (lower_bound evs p) evs)).
Proof.
  intros Hs Hin. destruct (lower_bound_found evs p Hs Hin) as (before & rest & -> & Hb).
  rewrite (events_lower_bound_app before (p :: rest) p Hb (Event_le_refl p)).
  rewrite ListFacts.skipn_length_app. cbn [take_while].
  rewrite Event_eqb_refl. left. reflexivity.
Qed.

(** What the seam map contributes to [getEventsCovering]. *)
Definition found_at (q : Z) (s : EventSeries P) : list (Event P) :=
  match seam_covering None q (m_seams s) with
  | Some l => fold_left (fun set p => set_insert p set) l []
  | None => []
  end.

Lemma covering_in q (s : EventSeries P) x :
  events_sorted (m_events s) ->
  In x (m_events s) -> In x (found_at q s) -> In x (getEventsCovering q s).
Proof.
  intros Hs Hin Hfound. unfold getEventsCovering. fold (found_at q s).
  apply in_or_app. right. apply in_flat_map. exists x. split; [exact Hfound|].
  apply instances_found; assumption.
Qed.

Lemma covering_out q (s : EventSeries P) x :
  hasDuration x = true -> In x (getEventsCovering q s) -> In x (found_at q s).
Proof.
  intros Hd Hin. unfold getEventsCovering in Hin. fold (found_at q s) in Hin.
  apply in_app_or in Hin. destruct Hin as [Hin|Hin].
  - apply filter_In in Hin. destruct Hin as [_ Hin]. rewrite Hd in Hin. discriminate.
  - apply in_flat_map in Hin. destruct Hin as (p & Hp & Hin).
    apply take_while_eq in Hin. subst p. exact Hp.
Qed.

Lemma found_at_covers q (s : EventSeries P) x :
  Inv s -> In x (found_at q s) ->
  exists k, In k (keys (m_seams s)) /\ k <= q /\ covers (m_events s) x k /\
            forall k', In k' (keys (m_seams s)) -> k' <= k \/ q < k'.
Proof.
  intros [_ Hks _ Hgood _] Hin. unfold found_at in Hin.
  destruct (seam_covering_result q (m_seams s) Hks None)
    as [[Heq _]|(k & l & Hkl & Hkq & Heq & Hall)]; rewrite Heq in Hin; [destruct Hin|].
  apply set_of_in in Hin. destruct Hin as [Hin|[]].
  exists k. rewrite Forall_forall in Hgood. apply (Hgood _ Hkl x) in Hin.
  cbn [fst] in Hin.
  split; [apply (in_keys _ _ _ Hkl) | split; [exact Hkq | split; [exact Hin | exact Hall]]].
Qed.

Lemma covers_found_at q (s : EventSeries P) x :
  Inv s -> covers (m_events s) x q -> In x (found_at q s).
Proof.
  intros [_ Hks Hends Hgood _] (Hx & Hd & Hr). unfold found_at.
  destruct (Hends x Hx Hd) as [Hf _].
  destruct (seam_covering_result q (m_seams s) Hks None)
    as [[_ Hall]|(k & l & Hkl & Hkq & Heq & Hall)].
  - specialize (Hall _ Hf). lia.
  - rewrite Heq. apply set_of_in. left.
    rewrite Forall_forall in Hgood. apply (Hgood _ Hkl x). cbn [fst].
    unfold covers. repeat split; try assumption; try lia.
    destruct (Hall _ Hf); lia.
Qed.

(** *** Seam coherence *)

(** C1: after any sequence of [add] and [remove] on an empty series (none
    of which throws), every event [E] of the series with a duration is among
    [getEventsCovering q] for every frame [q] from [frame E] up to, but not
    including, [frame E + duration E], and is not among
    [getEventsCovering (frame E + duration E)]. *)
Theorem covering_coherent (ops : list (Op P)) :
  exists s,
    apply_all ops empty = Some s /\
    forall E, In E (m_events s) -> hasDuration E = true ->
      (forall q, frame E <= q < frame E + duration E -> In E (getEventsCovering q s)) /\
      ~ In E (getEventsCovering (frame E + duration E) s).
Proof.
  destruct (apply_all_inv ops empty Inv_empty) as (s & Hrun & Hinv).
  exists s. split; [exact Hrun|]. intros E HE Hd. split.
  - intros q Hq. apply covering_in; [apply Hinv | exact HE |].
    apply covers_found_at; [exact Hinv|]. split; [exact HE | split; [exact Hd | exact Hq]].
  - intros Hin. apply covering_out in Hin; [|exact Hd].
    destruct (found_at_covers _ _ _ Hinv Hin) as (k & _ & Hkq & (_ & _ & Hr) & Hall).
    destruct (inv_ends s Hinv E HE Hd) as [_ He].
    destruct (Hall _ He); lia.
Qed.

(** *** Adding and removing *)

Lemma add_then_remove (l : list (Event P)) : forall s,
  Inv s ->
  exists s',
    apply_all (map Add l ++ map Remove (rev l)) s = Some s' /\
    Inv s' /\ m_events s' = m_events s.
Proof.
  induction l as [|a l IH]; intros s Hinv.
  - exists s. split; [reflexivity | split; [exact Hinv | reflexivity]].
  - destruct (IH (add a s) (add_inv a s Hinv)) as (s2 & Hrun & Hinv2 & Hev2).
    destruct (remove_inv a s2 Hinv2) as (s3 & Hrem & Hinv3 & Hev3).
    exists s3. split; [|split; [exact Hinv3|]].
    + cbn [map rev]. rewrite map_app. cbn [map].
      change ((Add a :: map Add l) ++ map Remove (rev l) ++ [Remove a])
        with ([Add a] ++ (map Add l ++ (map Remove (rev l) ++ [Remove a]))).
      rewrite (app_assoc (map Add l)).
      rewrite (apply_all_app [Add a]).
      change (apply_all [Add a] s) with (Some (add a s)). cbv iota.
      rewrite (apply_all_app (map Add l ++ map Remove (rev l))).
      rewrite Hrun. unfold apply_all. cbn [fold_left apply]. exact Hrem.
    + rewrite Hev2 in Hev3. unfold add in Hev3. cbn [m_events] in Hev3.
      destruct (erase_insert (m_events s) a) as [Hnth Herase]. cbv zeta in Hnth, Herase.
      rewrite (Hev3 Hnth). exact Herase.
Qed.

(** C2: adding the events of any list, in the order of the list, to an empty
    series and removing them in the reverse order throws nowhere and leaves
    a series with no events and an empty seam map. *)
Theorem add_remove_round_trip (l : list (Event P)) :
  exists s,
    apply_all (map Add l ++ map Remove (rev l)) empty = Some s /\
    m_events s = [] /\ m_seams s = [].
Proof.
  destruct (add_then_remove l empty Inv_empty) as (s & Hrun & Hinv & Hev).
  exists s. split; [exact Hrun | split; [exact Hev|]].
  destruct Hinv as [_ _ _ Hgood Hfront]. rewrite Hev in Hgood.
  destruct (m_seams s) as [|[k seam] m]; [reflexivity|].
  cbn [front_not_empty] in Hfront.
  destruct seam as [|x seam]; [contradiction|].
  inversion Hgood as [|? ? Hk _]; subst.
  destruct (proj1 (Hk x) (or_introl eq_refl)) as ([] & _).
Qed.

End Facts.

(** *** An instance: events with an integer payload *)

#[export] Instance Z_payload : Payload Z :=
  {| payload_compare := Z.compare; payload_default := 0 |}.

#[export] Instance Z_payload_order : PayloadOrder Z.
Proof.
  constructor.
  - intros x y. apply Z.compare_eq_iff.
  - intros x y. apply Z.compare_antisym.
  - intros x y z. simpl. rewrite !Z.compare_lt_iff. lia.
Defined.

Definition E1 : Event Z := mkEvent 100 50 1.
Definition E2 : Event Z := mkEvent 120 40 2.
Definition E3 : Event Z := mkEvent 200 0 3.

Lemma covering_coherent_witness :
  exists s,
    apply_all [Add E1; Add E2; Add E3; Add E1; Remove E1] empty = Some s /\
    forall E, In E (m_events s) -> hasDuration E = true ->
      (forall q, frame E <= q < frame E + duration E -> In E (getEventsCovering q s)) /\
      ~ In E (getEventsCovering (frame E + duration E) s).
Proof.
  exact (@covering_coherent Z Z_payload Z_payload_order
           [Add E1; Add E2; Add E3; Add E1; Remove E1]).
Defined.

Lemma add_remove_round_trip_witness :
  exists s,
    apply_all (map Add [E2; E1; E3; E1] ++ map Remove (rev [E2; E1; E3; E1])) empty = Some s /\
    m_events s = [] /\ m_seams s = [].
Proof.
  exact (@add_remove_round_trip Z Z_payload Z_payload_order [E2; E1; E3; E1]).
Defined.

Example covering_scenario :
  option_map (getEventsCovering 130) (apply_all [Add E1; Add E2; Add E3] empty) = Some [E1; E2] /\
  option_map (getEventsCovering 159) (apply_all [Add E1; Add E2; Add E3] empty) = Some [E2] /\
  option_map (getEventsCovering 160) (apply_all [Add E1; Add E2; Add E3] empty) = Some [] /\
  option_map (getEventsCovering 200) (apply_all [Add E1; Add E2; Add E3] empty) = Some [E3] /\
  option_map (getEventsCovering 250) (apply_all [Add E1; Add E2; Add E3] empty) = Some [].
Proof. repeat split; vm_compute; reflexivity. Qed.

End EventSeriesFacts.

(** ** EventSeries: the queries *)

Module EventSeriesQueries.

Import EventSeries EventSeriesFacts.

Section Queries.

Context {P : Type} `{PayloadOrder P}.

(** *** Series built by [add] and [remove] *)

Lemma reached_inv (ops : list (Op P)) s : apply_all ops empty = Some s -> Inv s.
Proof.
  intros Hrun. destruct (apply_all_inv ops empty Inv_empty) as (s' & Hrun' & Hinv).
  rewrite Hrun in Hrun'. inversion Hrun'. subst s'. exact Hinv.
Qed.

(** *** The order of the vector and the frames *)

Lemma Event_le_frame (a b : Event P) : Event_le a b -> frame a <= frame b.
Proof.
  unfold Event_le, Event_compare. destruct (frame a ?= frame b) eqn:E.
  - apply Z.compare_eq_iff in E. lia.
  - rewrite Z.compare_lt_iff in E. lia.
  - intros Hne. exfalso. apply Hne. reflexivity.
Qed.

Lemma Event_lt_frame (a b : Event P) : frame a < frame b -> Event_lt a b.
Proof.
  intros Hlt. unfold Event_lt, Event_compare.
  rewrite (proj2 (Z.compare_lt_iff _ _) Hlt). reflexivity.
Qed.

(** An event with a duration does not sort before [Event(f)] at its own
    frame. *)
Lemma Event_at_le_duration (x : Event P) :
  hasDuration x = true -> Event_le (Event_at (frame x)) x.
Proof.
  intros Hd. apply hasDuration_pos in Hd. apply Event_lt_le.
  unfold Event_lt, Event_compare, Event_at. cbn [frame duration payload].
  rewrite Z.compare_refl. rewrite (proj2 (Z.compare_lt_iff 0 (duration x)) Hd). reflexivity.
Qed.

(** The events without duration at the frame [f] do not sort before
    [Event(f)]: the event [Event(f)] has duration 0 and neither value,
    level nor label. *)
Definition default_least (f : Z) (l : list (Event P)) : Prop :=
  forall e, In e l -> frame e = f -> hasDuration e = false -> Event_le (Event_at f) e.

Lemma Event_at_le (f : Z) (l : list (Event P)) (x : Event P) :
  default_least f l -> In x l -> f <= frame x -> Event_le (Event_at f) x.
Proof.
  intros Hmin Hin Hf. destruct (Z.eq_dec (frame x) f) as [E|E].
  - destruct (hasDuration x) eqn:Hd.
    + rewrite <- E. apply Event_at_le_duration, Hd.
    + apply Hmin; assumption.
  - apply Event_lt_le, Event_lt_frame. cbn. lia.
Qed.

(** The split of a sorted vector at the lower bound of [p]. *)
Lemma sorted_split (l : list (Event P)) p :
  events_sorted l ->
  exists before after,
    l = before ++ after /\ lower_bound l p = length before /\
    Forall (fun x => Event_lt x p) before /\ Forall (Event_le p) after /\
    events_sorted after.
Proof.
  intros Hs. destruct (events_lower_bound_split l p) as (before & after & -> & Hb & Ha).
  exists before, after. split; [reflexivity|].
  split; [apply events_lower_bound_app; assumption|].
  split; [exact Hb|].
  destruct (ListFacts.ssorted_app_inv _ _ _ Hs) as (_ & Sa & _).
  split; [|exact Sa].
  destruct after as [|x rest]; [constructor|].
  constructor; [exact Ha|]. rewrite Forall_forall. intros y Hy.
  apply (Event_le_trans p x y Ha). apply (ListFacts.ssorted_head _ _ _ Sa y Hy).
Qed.

Lemma take_while_filter (g : Event P -> bool) (l : list (Event P)) :
  (forall before x after, l = before ++ x :: after -> g x = false ->
     forall y, In y after -> g y = false) ->
  take_while g l = filter g l.
Proof.
  induction l as [|a l IH]; intros Hmono; [reflexivity|].
  cbn [take_while filter]. destruct (g a) eqn:Ea.
  - f_equal. apply IH. intros before x after -> Hx y Hy.
    apply (Hmono (a :: before) x after eq_refl Hx y Hy).
  - symmetry. clear IH. pose proof (Hmono [] a l eq_refl Ea) as Hall.
    induction l as [|b l IH]; [reflexivity|]. cbn [filter].
    rewrite (Hall b (or_introl eq_refl)). apply IH.
    + intros before x after E Hx y Hy.
      destruct before as [|c before]; cbn in E.
      * inversion E; subst. apply Hall. right. exact Hy.
      * inversion E; subst. apply Hall. right. apply in_or_app. right. right. exact Hy.
    + intros y Hy. apply Hall. right. exact Hy.
Qed.

Lemma take_while_frames (endFrame : Z) (l : list (Event P)) :
  events_sorted l ->
  take_while (fun e => frame e <? endFrame) l = filter (fun e => frame e <? endFrame) l.
Proof.
  intros Hs. apply take_while_filter. intros before x after -> Hx y Hy.
  destruct (ListFacts.ssorted_app_inv _ _ _ Hs) as (_ & Sa & _).
  pose proof (Event_le_frame _ _ (ListFacts.ssorted_head _ _ _ Sa y Hy)) as Hle.
  apply Z.ltb_ge in Hx. apply Z.ltb_ge. lia.
Qed.

Lemma filter_none {A} (g : A -> bool) (l : list A) :
  Forall (fun x => g x = false) l -> filter g l = [].
Proof.
  induction 1 as [|x l Hx _ IH]; [reflexivity|]. cbn. rewrite Hx. exact IH.
Qed.

Lemma filter_all {A} (g k : A -> bool) (l : list A) :
  Forall (fun x => g x = k x) l -> filter g l = filter k l.
Proof.
  induction 1 as [|x l Hx _ IH]; [reflexivity|]. cbn. rewrite Hx, IH. reflexivity.
Qed.

(** The events that start in a range are the events the scan from the
    lower bound of [Event(start)] meets. *)
Lemma starting_from_filter (f endFrame : Z) (l : list (Event P)) :
  events_sorted l -> default_least f l ->
  starting_from f endFrame l =
    filter (fun e => (f <=? frame e) && (frame e <? endFrame)) l.
Proof.
  intros Hs Hmin. unfold starting_from.
  destruct (sorted_split l (Event_at f) Hs) as (before & after & E & Hlb & Hb & Ha & Sa).
  rewrite Hlb, E, ListFacts.skipn_length_app, filter_app.
  rewrite (filter_none _ before).
  2:{ rewrite Forall_forall. intros x Hx. rewrite Forall_forall in Hb.
      specialize (Hb x Hx). apply andb_false_iff. left. apply Z.leb_gt.
      destruct (Z.lt_ge_cases (frame x) f) as [Hlt|Hge]; [exact Hlt|].
      exfalso. apply (Event_lt_irrefl x).
      apply (Event_lt_le_trans x (Event_at f) x Hb).
      apply (Event_at_le f l); [exact Hmin | rewrite E; apply in_or_app; left; exact Hx | lia]. }
  cbn [app]. rewrite (take_while_frames endFrame after Sa).
  apply filter_all. rewrite Forall_forall. intros x Hx. rewrite Forall_forall in Ha.
  pose proof (Event_le_frame _ _ (Ha x Hx)) as Hle. cbn in Hle.
  rewrite (proj2 (Z.leb_le f (frame x)) Hle). reflexivity.
Qed.


Lemma starting_from_in (f endFrame : Z) (l : list (Event P)) x :
  events_sorted l ->
  (In x (starting_from f endFrame l) <->
   In x l /\ Event_le (Event_at f) x /\ frame x < endFrame).
Proof.
  intros Hs. unfold starting_from.
  destruct (sorted_split l (Event_at f) Hs) as (before & after & E & Hlb & Hb & Ha & Sa).
  rewrite Hlb, E, ListFacts.skipn_length_app, (take_while_frames endFrame after Sa).
  rewrite filter_In, Z.ltb_lt, in_app_iff. rewrite Forall_forall in Hb, Ha. split.
  - intros [Hin Hlt]. split; [right; exact Hin|]. split; [apply Ha, Hin | exact Hlt].
  - intros ([Hin|Hin] & Hle & Hlt); [|split; assumption].
    exfalso. apply (Event_lt_irrefl x).
    apply (Event_lt_le_trans x (Event_at f) x (Hb x Hin) Hle).
Qed.

(** The events before the lower bound of [Event(f)] start before [f], the
    others do not. *)
Lemma split_at_frame (f : Z) (l : list (Event P)) :
  events_sorted l -> default_least f l ->
  exists before after,
    l = before ++ after /\ lower_bound l (Event_at f) = length before /\
    (forall x, In x before -> frame x < f) /\ (forall x, In x after -> f <= frame x).
Proof.
  intros Hs Hmin.
  destruct (sorted_split l (Event_at f) Hs) as (before & after & E & Hlb & Hb & Ha & _).
  exists before, after. split; [exact E|]. split; [exact Hlb|].
  rewrite Forall_forall in Hb, Ha. split.
  - intros x Hx. specialize (Hb x Hx).
    destruct (Z.lt_ge_cases (frame x) f) as [Hlt|Hge]; [exact Hlt|].
    exfalso. apply (Event_lt_irrefl x).
    apply (Event_lt_le_trans x (Event_at f) x Hb).
    apply (Event_at_le f l); [exact Hmin | rewrite E; apply in_or_app; left; exact Hx | lia].
  - intros x Hx. apply (Event_le_frame _ _ (Ha x Hx)).
Qed.

(** *** [contains] *)

(** X1: After any sequence of add and remove on an empty series (none of which
    throws), contains(p) is true exactly when p is one of the stored events. *)
Theorem contains_iff (ops : list (Op P)) s p :
  apply_all ops empty = Some s ->
  (contains p s = true <-> In p (m_events s)).
Proof.
  intros Hrun. pose proof (inv_events s (reached_inv ops s Hrun)) as Hs.
  unfold contains.
  destruct (sorted_split (m_events s) p Hs) as (before & after & E & Hlb & Hb & Ha & Sa).
  rewrite Hlb, E. destruct after as [|x rest].
  - rewrite app_nil_r, (proj2 (nth_error_None before (length before))) by lia.
    split; [discriminate|]. intros Hin. rewrite app_nil_r in *. rewrite Forall_forall in Hb.
    exfalso. apply (Event_lt_irrefl p), Hb, Hin.
  - rewrite ListFacts.nth_error_middle. inversion Ha as [|? ? Hpx _]; subst. split.
    + intros Hc. apply negb_true_iff, Event_ltb_ge in Hc.
      rewrite (Event_le_antisym p x Hpx Hc). apply in_or_app. right. left. reflexivity.
    + intros Hin. apply negb_true_iff, Event_ltb_ge.
      apply in_app_or in Hin. destruct Hin as [Hin|[->|Hin]].
      * rewrite Forall_forall in Hb. exfalso. apply (Event_lt_irrefl p), Hb, Hin.
      * apply Event_le_refl.
      * apply (ListFacts.ssorted_head _ _ _ Sa p Hin).
Qed.

(** *** [add] and [remove] on the vector *)

Lemma insert_at_permutation (i : nat) (p : Event P) (l : list (Event P)) :
  Permutation (insert_at i p l) (p :: l).
Proof.
  unfold insert_at. rewrite <- (firstn_skipn i l) at 3.
  symmetry. apply Permutation_middle.
Qed.

(** X2: On a series reached by adds and removes from the empty one, add(p)
    leaves the stored events in sorted order and stores exactly the events
    held before plus one copy of p, so an event that is already present is
    stored once more. *)
Theorem add_keeps_order (ops : list (Op P)) s p :
  apply_all ops empty = Some s ->
  events_sorted (m_events (add p s)) /\
  Permutation (m_events (add p s)) (p :: m_events s).
Proof.
  intros Hrun. split.
  - apply (inv_events _ (add_inv p s (reached_inv ops s Hrun))).
  - unfold add. cbn [m_events]. apply insert_at_permutation.
Qed.

(** X3: remove(p) of an event that is not stored does not throw and leaves the
    series as it was, the events and the seams alike. *)
Theorem remove_unknown (s : EventSeries P) p :
  ~ In p (m_events s) -> remove p s = Some s.
Proof.
  intros Hnot. unfold remove.
  destruct (nth_error (m_events s) (lower_bound (m_events s) p)) as [x|] eqn:En;
    [|reflexivity].
  destruct (Event_eqb x p) eqn:Ex; [|reflexivity].
  apply Event_eqb_eq in Ex. subst x. exfalso. apply Hnot.
  apply (nth_error_In _ _ En).
Qed.

(** X4: On a series reached by adds and removes from the empty one, remove(p)
    of a stored event does not throw, takes out exactly one copy of p and
    leaves the remaining events in sorted order. *)
Theorem remove_known (ops : list (Op P)) s p :
  apply_all ops empty = Some s -> In p (m_events s) ->
  exists s',
    remove p s = Some s' /\
    events_sorted (m_events s') /\
    Permutation (m_events s) (p :: m_events s').
Proof.
  intros Hrun Hin. pose proof (reached_inv ops s Hrun) as Hinv.
  destruct (remove_inv p s Hinv) as (s' & Hrem & Hinv' & Hev).
  exists s'. split; [exact Hrem|]. split; [apply Hinv'|].
  destruct (lower_bound_found (m_events s) p (inv_events s Hinv) Hin)
    as (before & rest & E & Hb).
  assert (Hlb : lower_bound (m_events s) p = length before).
  { rewrite E. apply events_lower_bound_app; [exact Hb | apply Event_le_refl]. }
  rewrite Hlb in Hev. rewrite E in Hev at 1 2. rewrite erase_at_middle in Hev.
  rewrite Hev by apply ListFacts.nth_error_middle.
  rewrite E. symmetry. apply Permutation_middle.
Qed.

(** *** [getEventsStartingWithin] and [getEventsWithin] *)

(** X5: On a series reached by adds and removes, getEventsStartingWithin(f, d)
    returns, in stored order, exactly the stored events whose frame is at
    least f and below f + d, provided no stored event without duration at
    frame f sorts before the bare event Event(f). *)
Theorem starting_within_exact (ops : list (Op P)) s f d :
  apply_all ops empty = Some s -> default_least f (m_events s) ->
  getEventsStartingWithin f d s =
    filter (fun e => (f <=? frame e) && (frame e <? f + d)) (m_events s).
Proof.
  intros Hrun Hmin. unfold getEventsStartingWithin.
  apply starting_from_filter; [apply (reached_inv ops s Hrun) | exact Hmin].
Qed.

Definition ends_by (endFrame : Z) (e : Event P) : bool :=
  negb (hasDuration e) || (frame e + duration e <=? endFrame).

Lemma within_scan_filter (endFrame : Z) (l : list (Event P)) : forall i last,
  fst (within_scan endFrame l i last) =
    filter (ends_by endFrame) (take_while (fun e => frame e <? endFrame) l).
Proof.
  induction l as [|x l IH]; intros i last; [reflexivity|].
  cbn [within_scan take_while]. destruct (frame x <? endFrame); [|reflexivity].
  cbn [filter]. unfold ends_by at 1.
  destruct (negb (hasDuration x) || (frame x + duration x <=? endFrame)).
  - specialize (IH (S i) (S i)).
    destruct (within_scan endFrame l (S i) (S i)) as [span last']. cbn [fst] in *.
    rewrite IH. reflexivity.
  - apply IH.
Qed.

(** X6: On a series reached by adds and removes, getEventsWithin(f, d,
    overspill) with overspill not above 0 returns, in stored order, exactly
    the stored events that start at or after f and before f + d and, when they
    have a duration, end at or before f + d; the proviso on events without
    duration at frame f is as for getEventsStartingWithin. *)
Theorem within_exact (ops : list (Op P)) s f d overspill :
  apply_all ops empty = Some s -> default_least f (m_events s) -> overspill <= 0 ->
  getEventsWithin f d overspill s =
    filter (fun e => (f <=? frame e) && (frame e <? f + d) && ends_by (f + d) e)
      (m_events s).
Proof.
  intros Hrun Hmin Hn. unfold getEventsWithin.
  replace (Z.to_nat overspill) with O by lia.
  rewrite Nat.sub_0_r.
  set (r := lower_bound (m_events s) (Event_at f)).
  pose proof (within_scan_filter (f + d) (skipn r (m_events s)) r r) as Hscan.
  destruct (within_scan (f + d) (skipn r (m_events s)) r r) as [span last].
  cbn [fst] in Hscan. cbn [firstn]. rewrite app_nil_r.
  assert (Hbefore : skipn r (firstn r (m_events s)) = []).
  { apply skipn_all2. rewrite length_firstn. lia. }
  rewrite Hbefore. cbn [app]. rewrite Hscan.
  subst r.
  change (take_while (fun e => frame e <? f + d)
            (skipn (lower_bound (m_events s) (Event_at f)) (m_events s)))
    with (starting_from f (f + d) (m_events s)).
  rewrite (starting_from_filter f (f + d) (m_events s));
    [|apply (reached_inv ops s Hrun) | exact Hmin].
  generalize (m_events s). intros l. induction l as [|x l IH]; [reflexivity|].
  cbn [filter]. destruct ((f <=? frame x) && (frame x <? f + d)); cbn [filter andb].
  - destruct (ends_by (f + d) x); [f_equal|]; exact IH.
  - exact IH.
Qed.


(** *** [getEventsCovering], for every event *)

Lemma take_while_in (g : Event P -> bool) (l : list (Event P)) y :
  In y (take_while g l) -> In y l /\ g y = true.
Proof.
  induction l as [|a l IH]; cbn [take_while]; [intros []|].
  destruct (g a) eqn:Ea; [|intros []].
  intros [<-|Hin]; [split; [left; reflexivity | exact Ea]|].
  destruct (IH Hin) as [Hl Hg]. split; [right; exact Hl | exact Hg].
Qed.

Lemma in_skipn {A} (n : nat) (l : list A) y : In y (skipn n l) -> In y l.
Proof.
  intros Hin. rewrite <- (firstn_skipn n l). apply in_or_app. right. exact Hin.
Qed.

Lemma instances_in (evs : list (Event P)) p y :
  In y (instances p evs) -> y = p /\ In y evs.
Proof.
  intros Hin. unfold instances in Hin. split; [apply (take_while_eq p _ y Hin)|].
  apply take_while_in in Hin. apply (in_skipn _ _ _ (proj1 Hin)).
Qed.

Lemma at_frame_filter (f : Z) (l : list (Event P)) :
  events_sorted l -> default_least f l ->
  take_while (fun e => frame e =? f) (skipn (lower_bound l (Event_at f)) l) =
    filter (fun e => frame e =? f) l.
Proof.
  intros Hs Hmin.
  destruct (sorted_split l (Event_at f) Hs) as (before & after & E & Hlb & Hb & Ha & Sa).
  rewrite Hlb, E, ListFacts.skipn_length_app, filter_app.
  rewrite (filter_none _ before).
  2:{ rewrite Forall_forall. intros x Hx. rewrite Forall_forall in Hb.
      specialize (Hb x Hx). apply Z.eqb_neq. intros Hf.
      apply (Event_lt_irrefl x).
      apply (Event_lt_le_trans x (Event_at f) x Hb).
      apply (Event_at_le f l); [exact Hmin | rewrite E; apply in_or_app; left; exact Hx | lia]. }
  cbn [app]. apply take_while_filter. intros b x a -> Hx y Hy.
  destruct (ListFacts.ssorted_app_inv _ _ _ Sa) as (_ & Sx & _).
  pose proof (Event_le_frame _ _ (ListFacts.ssorted_head _ _ _ Sx y Hy)) as Hle.
  rewrite Forall_forall in Ha.
  assert (Hxin : In x (b ++ x :: a)) by (apply in_or_app; right; left; reflexivity).
  pose proof (Event_le_frame _ _ (Ha x Hxin)) as Hfx.
  cbn in Hfx. apply Z.eqb_neq in Hx. apply Z.eqb_neq. lia.
Qed.

(** X7: On a series reached by adds and removes, an event is among
    getEventsCovering(f) exactly when it is stored and either has a duration
    and f lies in [frame, frame + duration), or has no duration and its frame
    is f; the proviso on events without duration at frame f is as for
    getEventsStartingWithin. *)
Theorem covering_exact (ops : list (Op P)) s f x :
  apply_all ops empty = Some s -> default_least f (m_events s) ->
  (In x (getEventsCovering f s) <->
   In x (m_events s) /\
   if hasDuration x then frame x <= f < frame x + duration x else frame x = f).
Proof.
  intros Hrun Hmin. pose proof (reached_inv ops s Hrun) as Hinv.
  unfold getEventsCovering. fold (found_at f s).
  rewrite (at_frame_filter f (m_events s) (inv_events s Hinv) Hmin).
  rewrite in_app_iff, filter_In, filter_In, in_flat_map. split.
  - intros [((Hin & Hf) & Hd)|(p & Hp & Hx)].
    + apply negb_true_iff in Hd. rewrite Hd. apply Z.eqb_eq in Hf. auto.
    + destruct (instances_in _ _ _ Hx) as [-> Hin]. split; [exact Hin|].
      destruct (found_at_covers _ _ _ Hinv Hp) as (k & _ & Hkq & (_ & Hd & Hr) & Hall).
      rewrite Hd. destruct (inv_ends s Hinv p Hin Hd) as [_ He].
      destruct (Hall _ He); lia.
  - intros [Hin Hx]. destruct (hasDuration x) eqn:Hd.
    + right. exists x. split; [|apply instances_found; [apply Hinv | exact Hin]].
      apply covers_found_at; [exact Hinv|]. split; [exact Hin | split; [exact Hd | exact Hx]].
    + left. split; [split; [exact Hin | apply Z.eqb_eq, Hx] | reflexivity].
Qed.

(** *** [getEventsSpanning] *)

Lemma seam_split (f : Z) (m : list (Z * list (Event P))) :
  exists m1 m2,
    m = m1 ++ m2 /\ seam_lower_bound f m = length m1 /\
    Forall (fun kl => fst kl < f) m1 /\
    match m2 with [] => True | kl :: _ => f <= fst kl end.
Proof.
  induction m as [|[k l] m (m1 & m2 & E & Hlb & H1 & H2)].
  - exists [], []. repeat split. constructor.
  - cbn [seam_lower_bound]. destruct (Z.ltb_spec k f) as [Hlt|Hge].
    + exists ((k, l) :: m1), m2. subst m. repeat split; [cbn; f_equal; exact Hlb | | exact H2].
      constructor; [exact Hlt | exact H1].
    + exists [], ((k, l) :: m). repeat split; [constructor | exact Hge].
Qed.

Lemma keys_sorted_app (m1 m2 : list (Z * list (Event P))) :
  keys_sorted (m1 ++ m2) ->
  keys_sorted m1 /\ keys_sorted m2 /\
  forall a b, In a (keys m1) -> In b (keys m2) -> a < b.
Proof.
  unfold keys_sorted, keys. rewrite map_app. apply ListFacts.ssorted_app_inv.
Qed.

Lemma seams_until_in (endFrame : Z) (m : list (Z * list (Event P))) x :
  keys_sorted m ->
  (In x (seams_until endFrame m) <->
   exists k l, In (k, l) m /\ k < endFrame /\ In x l).
Proof.
  induction m as [|[k l] m IH]; intros Hs; cbn [seams_until].
  - split; [intros [] | intros (k & l & [] & _)].
  - destruct (Z.ltb_spec k endFrame) as [Hlt|Hge].
    + rewrite in_app_iff, (IH (keys_sorted_tail _ _ Hs)). split.
      * intros [Hx|(k' & l' & Hin & Hk & Hx)].
        -- exists k, l. repeat split; [left; reflexivity | exact Hlt | exact Hx].
        -- exists k', l'. repeat split; [right; exact Hin | exact Hk | exact Hx].
      * intros (k' & l' & [E|Hin] & Hk & Hx).
        -- inversion E; subst. left. exact Hx.
        -- right. exists k', l'. repeat split; assumption.
    + split; [intros []|]. intros (k' & l' & [E|Hin] & Hk & Hx).
      * inversion E; subst. lia.
      * pose proof (keys_sorted_head _ _ Hs k' (in_keys _ _ _ Hin)) as Hh. cbn in Hh. lia.
Qed.

Lemma last_cases {A} (l : list A) : l = [] \/ exists l' a, l = l' ++ [a].
Proof.
  induction l as [|a l' _] using rev_ind; [left; reflexivity|].
  right. exists l', a. reflexivity.
Qed.

(** The seams the scan of [getEventsSpanning] starts from. *)
Lemma seam_start_suffix (f : Z) (m : list (Z * list (Event P))) :
  keys_sorted m ->
  forall k l,
    In (k, l) (skipn (seam_start f m) m) <->
    In (k, l) m /\ (f <= k \/ forall k', In k' (keys m) -> k' <= k \/ f < k').
Proof.
  intros Hs k l. destruct (seam_split f m) as (m1 & m2 & E & Hlb & H1 & H2).
  unfold seam_start. rewrite Hlb. subst m. unfold EventVector in *.
  destruct (keys_sorted_app _ _ Hs) as (S1 & S2 & Hcross).
  assert (Hm2 : forall k0 l0 rest, m2 = (k0, l0) :: rest ->
            forall k', In k' (keys m2) -> k0 <= k').
  { intros k0 l0 rest -> k' [<-|Hk']; [cbn; lia|].
    pose proof (keys_sorted_head _ _ S2 k' Hk') as Hh. cbn in Hh. lia. }
  assert (Hlow : forall k', In k' (keys m1) -> k' < f).
  { intros k' Hk'. unfold keys in Hk'. apply in_map_iff in Hk'.
    destruct Hk' as (kl & <- & Hkl). rewrite Forall_forall in H1. apply H1, Hkl. }
  assert (Hstay : forall rest, m2 = (f, rest) :: tl m2 ->
            (In (k, l) m2 <->
             In (k, l) (m1 ++ m2) /\
             (f <= k \/ forall k', In k' (keys (m1 ++ m2)) -> k' <= k \/ f < k'))).
  { intros rest E2. split.
    - intros Hin. split; [apply in_or_app; right; exact Hin|]. left.
      apply (Hm2 f rest (tl m2) E2), (in_keys _ _ _ Hin).
    - intros [Hin [Hfk|Hall]].
      + apply in_app_or in Hin. destruct Hin as [Hin|Hin]; [|exact Hin].
        specialize (Hlow k (in_keys _ _ _ Hin)). lia.
      + apply in_app_or in Hin. destruct Hin as [Hin|Hin]; [|exact Hin].
        specialize (Hlow k (in_keys _ _ _ Hin)).
        assert (Hf : In f (keys (m1 ++ m2))).
        { unfold keys. rewrite map_app. apply in_or_app. right. rewrite E2. left. reflexivity. }
        destruct (Hall f Hf); lia. }
  assert (Hback : (forall k', In k' (keys m2) -> f < k') ->
            (In (k, l) (skipn (Nat.pred (length m1)) (m1 ++ m2)) <->
             In (k, l) (m1 ++ m2) /\
             (f <= k \/ forall k', In k' (keys (m1 ++ m2)) -> k' <= k \/ f < k'))).
  { intros Hup. destruct (last_cases m1) as [->|(m1' & [kp lp] & ->)].
    - cbn [length Nat.pred skipn app]. split.
      + intros Hin. split; [exact Hin|]. left. specialize (Hup k (in_keys _ _ _ Hin)). lia.
      + intros [Hin _]. exact Hin.
    - rewrite length_app. cbn [length]. replace (Nat.pred (length m1' + 1)) with (length m1') by lia.
      rewrite <- app_assoc. rewrite ListFacts.skipn_length_app. cbn [app].
      destruct (keys_sorted_app _ _ S1) as (_ & _ & Hc1).
      split.
      + intros [E|Hin].
        * inversion E; subst kp lp. split; [apply in_or_app; right; left; reflexivity|].
          right. intros k' Hk'. unfold keys in Hk'. rewrite map_app in Hk'.
          apply in_app_or in Hk'. destruct Hk' as [Hk'|[Hk'|Hk']].
          -- left. apply Z.lt_le_incl. apply Hc1; [exact Hk' | left; reflexivity].
          -- cbn in Hk'. lia.
          -- right. apply Hup, Hk'.
        * split; [apply in_or_app; right; right; exact Hin|]. left.
          specialize (Hup k (in_keys _ _ _ Hin)). lia.
      + intros [Hin Hcond]. apply in_app_or in Hin. destruct Hin as [Hin|[Hin|Hin]].
        * exfalso. pose proof (Hc1 k kp (in_keys _ _ _ Hin) (or_introl eq_refl)) as Hkp.
          assert (Hkpf : kp < f).
          { apply Hlow. unfold keys. rewrite map_app. apply in_or_app. right. left. reflexivity. }
          destruct Hcond as [Hfk|Hall]; [lia|].
          assert (Hkey : In kp (keys (m1' ++ (kp, lp) :: m2))).
          { unfold keys. rewrite map_app. apply in_or_app. right. left. reflexivity. }
          destruct (Hall kp Hkey); lia.
        * left. exact Hin.
        * right. exact Hin. }
  destruct m2 as [|[k0 l0] m2'].
  - rewrite !app_nil_r in *.
    rewrite (proj2 (nth_error_None m1 (length m1))) by lia.
    apply Hback. intros k' [].
  - rewrite ListFacts.nth_error_middle. destruct (Z.gtb_spec k0 f) as [Hgt|Hle].
    + apply Hback. intros k' Hk'. specialize (Hm2 k0 l0 m2' eq_refl k' Hk'). lia.
    + cbn in H2. assert (k0 = f) by lia. subst k0.
      rewrite ListFacts.skipn_length_app. apply (Hstay l0). reflexivity.
Qed.

(** What the scan of the seam map finds. *)
Lemma spanning_found (s : EventSeries P) (f endFrame : Z) p :
  Inv s ->
  (In p (fold_left (fun set q => set_insert q set)
           (seams_until endFrame (skipn (seam_start f (m_seams s)) (m_seams s))) []) <->
   exists k, In k (keys (m_seams s)) /\ covers (m_events s) p k /\ k < endFrame /\
             (f <= k \/ forall k', In k' (keys (m_seams s)) -> k' <= k \/ f < k')).
Proof.
  intros [_ Hks _ Hgood _]. rewrite set_of_in.
  assert (Hsuffix : keys_sorted (skipn (seam_start f (m_seams s)) (m_seams s))).
  { rewrite <- (firstn_skipn (seam_start f (m_seams s)) (m_seams s)) in Hks.
    apply (keys_sorted_app _ _ Hks). }
  rewrite (seams_until_in _ _ _ Hsuffix). rewrite Forall_forall in Hgood. split.
  - intros [(k & l & Hkl & Hk & Hp)|[]].
    apply (seam_start_suffix f (m_seams s) Hks) in Hkl. destruct Hkl as [Hkl Hcond].
    exists k. split; [apply (in_keys _ _ _ Hkl)|].
    split; [apply (Hgood _ Hkl p), Hp | split; [exact Hk | exact Hcond]].
  - intros (k & Hk & Hc & Hlt & Hcond). left.
    unfold keys in Hk. apply in_map_iff in Hk. destruct Hk as ([k1 l] & E & Hkl).
    cbn in E. subst k1. exists k, l. split; [|split; [exact Hlt|]].
    + apply (seam_start_suffix f (m_seams s) Hks). split; assumption.
    + apply (Hgood _ Hkl p). exact Hc.
Qed.

(** X8: On a series reached by adds and removes, for a duration d above 0 an
    event is among getEventsSpanning(f, d) exactly when it is stored, starts
    before f + d and either has a duration and ends after f, or has no
    duration and starts at or after f; the proviso on events without duration
    at frame f is as for getEventsStartingWithin. *)
Theorem spanning_exact (ops : list (Op P)) s f d x :
  apply_all ops empty = Some s -> default_least f (m_events s) -> 0 < d ->
  (In x (getEventsSpanning f d s) <->
   In x (m_events s) /\ frame x < f + d /\
   if hasDuration x then f < frame x + duration x else f <= frame x).
Proof.
  intros Hrun Hmin Hd0. pose proof (reached_inv ops s Hrun) as Hinv.
  pose proof Hinv as [Hev Hks Hends Hgood _].
  unfold getEventsSpanning.
  rewrite (starting_from_filter f (f + d) (m_events s) Hev Hmin).
  rewrite in_app_iff, filter_In, filter_In, in_flat_map.
  split.
  - intros [((Hin & Hf) & Hdur)|(p & Hp & Hx)].
    + apply negb_true_iff in Hdur. rewrite Hdur.
      apply andb_true_iff in Hf. destruct Hf as [Hf1 Hf2].
      apply Z.leb_le in Hf1. apply Z.ltb_lt in Hf2. auto.
    + destruct (instances_in _ _ _ Hx) as [-> Hin].
      apply (spanning_found s f (f + d) p Hinv) in Hp.
      destruct Hp as (k & Hk & (_ & Hdur & Hr) & Hlt & Hcond).
      rewrite Hdur. split; [exact Hin|]. split; [lia|].
      destruct Hcond as [Hfk|Hall]; [lia|].
      destruct (Hends p Hin Hdur) as [_ He]. destruct (Hall _ He); lia.
  - intros (Hin & Hlt & Hx). destruct (hasDuration x) eqn:Hdur.
    + right. exists x. split; [|apply instances_found; assumption].
      apply (spanning_found s f (f + d) x Hinv). destruct (Hends x Hin Hdur) as [Hf He].
      pose proof (proj1 (hasDuration_pos x) Hdur) as Hpos.
      destruct (Z.le_gt_cases f (frame x)) as [Hle|Hgt].
      * exists (frame x). split; [exact Hf|]. split; [|split; [exact Hlt | left; exact Hle]].
        split; [exact Hin | split; [exact Hdur | lia]].
      * destruct (seam_covering_result f (m_seams s) Hks None)
          as [[_ Hall]|(k & l & Hkl & Hkf & _ & Hall)].
        -- specialize (Hall _ Hf). lia.
        -- exists k. split; [apply (in_keys _ _ _ Hkl)|].
           assert (Hfk : frame x <= k) by (destruct (Hall _ Hf); lia).
           split; [split; [exact Hin | split; [exact Hdur | lia]]|].
           split; [lia|]. right. exact Hall.
    + left. split; [|reflexivity]. split; [exact Hin|].
      apply andb_true_iff. split; [apply Z.leb_le | apply Z.ltb_lt]; lia.
Qed.

(** X9: With duration 0, getEventsSpanning(f, 0) returns only stored events
    with a duration that start before f and end after f, and it returns
    nothing at all when some stored event with a duration starts or ends
    exactly at f, even if other events extend over f. *)
Theorem spanning_empty_range (ops : list (Op P)) s f :
  apply_all ops empty = Some s ->
  (forall x, In x (getEventsSpanning f 0 s) ->
     In x (m_events s) /\ hasDuration x = true /\ frame x < f < frame x + duration x) /\
  ((exists y, In y (m_events s) /\ hasDuration y = true /\
              (frame y = f \/ frame y + duration y = f)) ->
   getEventsSpanning f 0 s = []).
Proof.
  intros Hrun. pose proof (reached_inv ops s Hrun) as Hinv.
  pose proof Hinv as [Hev Hks Hends Hgood _].
  assert (Hnone : starting_from f (f + 0) (m_events s) = []).
  { unfold starting_from.
    destruct (sorted_split (m_events s) (Event_at f) Hev) as (before & after & E & Hlb & _ & Ha & _).
    rewrite Hlb, E, ListFacts.skipn_length_app.
    destruct after as [|a after]; [reflexivity|]. cbn [take_while].
    inversion Ha as [|? ? Hfa _]; subst. apply Event_le_frame in Hfa. cbn in Hfa.
    rewrite (proj2 (Z.ltb_ge (frame a) (f + 0))) by lia. reflexivity. }
  assert (Hfound : forall p,
            In p (fold_left (fun set q => set_insert q set)
                    (seams_until (f + 0) (skipn (seam_start f (m_seams s)) (m_seams s))) []) ->
            In p (m_events s) /\ hasDuration p = true /\
            frame p < f < frame p + duration p /\ ~ In f (keys (m_seams s))).
  { intros p Hp. apply (spanning_found s f (f + 0) p Hinv) in Hp.
    destruct Hp as (k & Hk & (Hin & Hdur & Hr) & Hlt & Hcond).
    destruct Hcond as [Hfk|Hall]; [lia|].
    destruct (Hends p Hin Hdur) as [_ He].
    split; [exact Hin|]. split; [exact Hdur|]. split; [destruct (Hall _ He); lia|].
    intros Hf. destruct (Hall _ Hf); lia. }
  unfold getEventsSpanning. rewrite Hnone. cbn [filter app]. split.
  - intros x Hx. apply in_flat_map in Hx. destruct Hx as (p & Hp & Hx).
    destruct (instances_in _ _ _ Hx) as [-> Hin].
    destruct (Hfound p Hp) as (_ & Hdur & Hr & _). auto.
  - intros (y & Hy & Hdur & Hf).
    destruct (fold_left (fun set q => set_insert q set)
                (seams_until (f + 0) (skipn (seam_start f (m_seams s)) (m_seams s))) [])
      as [|p found] eqn:Ef; [reflexivity|].
    exfalso. destruct (Hfound p (or_introl eq_refl)) as (_ & _ & _ & Hnot).
    apply Hnot. destruct (Hends y Hy Hdur) as [H1 H2].
    destruct Hf as [<-| <-]; assumption.
Qed.


(** *** [getEventPreceding] and [getEventFollowing] *)

(** X10: On a series reached by adds and removes, getEventPreceding(e)
    succeeds only for a stored e and then gives the greatest stored event that
    sorts strictly before e; it fails exactly when e is not stored or no
    stored event sorts before it. *)
Theorem preceding_spec (ops : list (Op P)) s e :
  apply_all ops empty = Some s ->
  match getEventPreceding e s with
  | Some x =>
      In e (m_events s) /\ In x (m_events s) /\ Event_lt x e /\
      forall y, In y (m_events s) -> Event_lt y e -> Event_le y x
  | None =>
      ~ In e (m_events s) \/ forall y, In y (m_events s) -> ~ Event_lt y e
  end.
Proof.
  intros Hrun. pose proof (inv_events s (reached_inv ops s Hrun)) as Hs.
  unfold getEventPreceding.
  destruct (sorted_split (m_events s) e Hs) as (before & after & E & Hlb & Hb & Ha & Sa).
  rewrite Hlb, E. rewrite E in Hs. rewrite Forall_forall in Hb, Ha.
  assert (Hout : (forall x, In x after -> x <> e) -> ~ In e (before ++ after)).
  { intros Hne Hin. apply in_app_or in Hin. destruct Hin as [Hin|Hin].
    - apply (Event_lt_irrefl e), Hb, Hin.
    - apply (Hne e Hin). reflexivity. }
  destruct after as [|x rest].
  - rewrite app_nil_r, (proj2 (nth_error_None before (length before))) by lia.
    left. rewrite <- (app_nil_r before) at 1. apply Hout. intros x [].
  - rewrite ListFacts.nth_error_middle. destruct (Event_eqb x e) eqn:Ex; cbn [negb].
    + apply Event_eqb_eq in Ex. subst x.
      destruct (last_cases before) as [->|(b' & y & ->)].
      * cbn [length]. right. intros y Hy Hlt. cbn [app] in Hy.
        apply (Event_lt_irrefl y). apply (Event_lt_le_trans y e y Hlt). apply Ha, Hy.
      * rewrite length_app. cbn [length]. replace (length b' + 1)%nat with (S (length b')) by lia.
        rewrite <- app_assoc. cbv iota. change ([y] ++ e :: rest) with (y :: e :: rest).
        rewrite ListFacts.nth_error_middle.
        split; [apply in_or_app; right; right; left; reflexivity|].
        split; [apply in_or_app; right; left; reflexivity|].
        split; [apply Hb, in_or_app; right; left; reflexivity|].
        intros z Hz Hlt. rewrite <- app_assoc in Hs.
        change ([y] ++ e :: rest) with (y :: e :: rest) in Hs.
        destruct (ListFacts.ssorted_app_inv _ _ _ Hs) as (_ & _ & Hcross).
        apply in_app_or in Hz. destruct Hz as [Hz|[<-|Hz]].
        -- apply Hcross; [exact Hz | left; reflexivity].
        -- apply Event_le_refl.
        -- exfalso. apply (Event_lt_irrefl z). apply (Event_lt_le_trans z e z Hlt). apply Ha, Hz.
    + left. apply Hout. intros z Hz ->. apply Event_eqb_neq in Ex.
      destruct Hz as [Hz|Hz]; [exact (Ex Hz)|].
      destruct (ListFacts.ssorted_app_inv _ _ _ Hs) as (_ & Sx & _).
      pose proof (ListFacts.ssorted_head _ _ _ Sx e Hz) as Hxe.
      apply Ex. apply Event_le_antisym; [exact Hxe | apply Ha; left; reflexivity].
Qed.

Lemma skip_instances_spec e (l : list (Event P)) :
  events_sorted l -> Forall (Event_le e) l ->
  match skip_instances e l with
  | Some x => In x l /\ Event_lt e x /\ forall y, In y l -> Event_lt e y -> Event_le x y
  | None => forall y, In y l -> y = e
  end.
Proof.
  induction l as [|a l IH]; intros Hs Ha; cbn [skip_instances]; [intros y []|].
  inversion Ha as [|? ? Hea Hrest]; subst. inversion Hs as [|? ? Hs' Hall]; subst.
  destruct (Event_eqb a e) eqn:Ea.
  - apply Event_eqb_eq in Ea. subst a. specialize (IH Hs' Hrest).
    destruct (skip_instances e l) as [x|].
    + destruct IH as (Hin & Hlt & Hleast). split; [right; exact Hin|]. split; [exact Hlt|].
      intros y [<-|Hy] Hey; [exfalso; apply (Event_lt_irrefl _ Hey) | apply Hleast; assumption].
    + intros y [<-|Hy]; [reflexivity | apply IH, Hy].
  - apply Event_eqb_neq in Ea. split; [left; reflexivity|]. split.
    + destruct (Event_le_cases _ _ Hea) as [Hlt|Heq]; [exact Hlt | congruence].
    + intros y [<-|Hy] _; [apply Event_le_refl|].
      rewrite Forall_forall in Hall. apply Hall, Hy.
Qed.

(** X11: On a series reached by adds and removes, getEventFollowing(e)
    succeeds only for a stored e and then gives the least stored event that
    sorts strictly after e, passing over the further copies of e; it fails
    exactly when e is not stored or no stored event sorts after it. *)
Theorem following_spec (ops : list (Op P)) s e :
  apply_all ops empty = Some s ->
  match getEventFollowing e s with
  | Some x =>
      In e (m_events s) /\ In x (m_events s) /\ Event_lt e x /\
      forall y, In y (m_events s) -> Event_lt e y -> Event_le x y
  | None =>
      ~ In e (m_events s) \/ forall y, In y (m_events s) -> ~ Event_lt e y
  end.
Proof.
  intros Hrun. pose proof (inv_events s (reached_inv ops s Hrun)) as Hs.
  unfold getEventFollowing.
  destruct (sorted_split (m_events s) e Hs) as (before & after & E & Hlb & Hb & Ha & Sa).
  rewrite Hlb, E. rewrite E in Hs. rewrite ListFacts.skipn_length_app.
  pose proof (skip_instances_spec e after Sa Ha) as Hskip.
  rewrite Forall_forall in Hb, Ha.
  assert (Hlow : forall y, In y before -> ~ Event_lt e y).
  { intros y Hy Hlt. apply (Event_lt_irrefl y).
    apply (Event_compare_trans y e y (Hb y Hy) Hlt). }
  destruct after as [|x rest].
  - rewrite app_nil_r, (proj2 (nth_error_None before (length before))) by lia.
    left. intros Hin. apply (Event_lt_irrefl e), Hb, Hin.
  - rewrite ListFacts.nth_error_middle. destruct (Event_eqb x e) eqn:Ex; cbn [negb].
    + apply Event_eqb_eq in Ex. subst x.
      destruct (skip_instances e (e :: rest)) as [x|].
      * destruct Hskip as (Hin & Hlt & Hleast).
        split; [apply in_or_app; right; left; reflexivity|].
        split; [apply in_or_app; right; exact Hin|]. split; [exact Hlt|].
        intros y Hy Hey. apply in_app_or in Hy. destruct Hy as [Hy|Hy].
        -- exfalso. apply (Hlow y Hy Hey).
        -- apply Hleast; assumption.
      * right. intros y Hy Hey. apply in_app_or in Hy. destruct Hy as [Hy|Hy].
        -- apply (Hlow y Hy Hey).
        -- rewrite (Hskip y Hy) in Hey. apply (Event_lt_irrefl _ Hey).
    + left. apply Event_eqb_neq in Ex. intros Hin. apply in_app_or in Hin.
      destruct Hin as [Hin|[Hin|Hin]].
      * apply (Event_lt_irrefl e), Hb, Hin.
      * exact (Ex Hin).
      * pose proof (ListFacts.ssorted_head _ _ _ Sa e Hin) as Hxe.
        apply Ex. apply Event_le_antisym; [exact Hxe | apply Ha; left; reflexivity].
Qed.

(** *** [getEventByIndex] and [getIndexForEvent] *)

Lemma filter_below (e : Event P) (before after : list (Event P)) :
  Forall (fun x => Event_lt x e) before -> Forall (Event_le e) after ->
  filter (fun x => Event_ltb x e) (before ++ after) = before.
Proof.
  intros Hb Ha. rewrite filter_app. rewrite (filter_none _ after).
  2:{ rewrite Forall_forall in *. intros x Hx. apply Event_ltb_ge, Ha, Hx. }
  rewrite app_nil_r. induction Hb as [|x l Hx _ IH]; [reflexivity|].
  cbn [filter]. rewrite (proj2 (Event_ltb_lt x e) Hx), IH. reflexivity.
Qed.

(** X12: On a series reached by adds and removes that holds no more than
    INT_MAX events, getIndexForEvent(e) is the number of stored events that
    sort strictly before e, and for a stored e
    getEventByIndex(getIndexForEvent(e)) is e. *)
Theorem index_round_trip (ops : list (Op P)) s e :
  apply_all ops empty = Some s ->
  Z.of_nat (length (m_events s)) <= INT_MAX ->
  getIndexForEvent e s =
    Z.of_nat (length (filter (fun x => Event_ltb x e) (m_events s))) /\
  (In e (m_events s) -> getEventByIndex (getIndexForEvent e s) s = Some e).
Proof.
  intros Hrun Hlen. pose proof (inv_events s (reached_inv ops s Hrun)) as Hs.
  unfold getEventByIndex, getIndexForEvent, count.
  destruct (sorted_split (m_events s) e Hs) as (before & after & E & Hlb & Hb & Ha & Sa).
  rewrite Hlb. rewrite E in Hlen |- *. rewrite (filter_below e before after Hb Ha).
  rewrite length_app in Hlen |- *.
  assert (Hd : (Z.of_nat (length before) <? 0) || (Z.of_nat (length before) >? INT_MAX) = false).
  { apply orb_false_iff. split; [apply Z.ltb_ge | rewrite Z.gtb_ltb; apply Z.ltb_ge]; lia. }
  rewrite Hd. split; [reflexivity|]. intros Hin.
  replace (Z.of_nat (length before + length after) >? INT_MAX) with false
    by (symmetry; rewrite Z.gtb_ltb; apply Z.ltb_ge; lia).
  rewrite Forall_forall in Hb, Ha.
  apply in_app_or in Hin. destruct Hin as [Hin|Hin];
    [exfalso; apply (Event_lt_irrefl e), Hb, Hin|].
  destruct after as [|x rest]; [destruct Hin|].
  assert (Hxe : x = e).
  { apply Event_le_antisym; [|apply Ha; left; reflexivity].
    destruct Hin as [->|Hin]; [apply Event_le_refl|].
    apply (ListFacts.ssorted_head _ _ _ Sa e Hin). }
  subst x. cbn [length] in *.
  replace ((Z.of_nat (length before) <? 0)
           || (Z.of_nat (length before) >=? Z.of_nat (length before + S (length rest))))
    with false.
  2:{ symmetry. apply orb_false_iff. split; [apply Z.ltb_ge | rewrite Z.geb_leb; apply Z.leb_gt]; lia. }
  rewrite Nat2Z.id. apply ListFacts.nth_error_middle.
Qed.

(** *** [getNearestEventMatching] *)

(** X13: On a series reached by adds and removes, getNearestEventMatching
    searching forward from f gives the first stored event at or after frame f
    that satisfies the predicate, and searching backward the last stored event
    before frame f that satisfies it (none when there is no such event); the
    proviso on events without duration at frame f is as for
    getEventsStartingWithin. *)
Theorem nearest_matching_exact (ops : list (Op P)) s f (predicate : Event P -> bool) :
  apply_all ops empty = Some s -> default_least f (m_events s) ->
  getNearestEventMatching f predicate Forward s =
    find predicate (filter (fun e => f <=? frame e) (m_events s)) /\
  getNearestEventMatching f predicate Backward s =
    find predicate (rev (filter (fun e => frame e <? f) (m_events s))).
Proof.
  intros Hrun Hmin. pose proof (inv_events s (reached_inv ops s Hrun)) as Hs.
  unfold getNearestEventMatching.
  destruct (sorted_split (m_events s) (Event_at f) Hs)
    as (before & after & E & Hlb & Hb & Ha & Sa).
  rewrite Hlb. rewrite E at 1 2 3 4.
  rewrite ListFacts.skipn_length_app, ListFacts.firstn_length_app, !filter_app.
  assert (Hbelow : forall x, In x before -> frame x < f).
  { intros x Hx. rewrite Forall_forall in Hb. specialize (Hb x Hx).
    destruct (Z.lt_ge_cases (frame x) f) as [Hlt|Hge]; [exact Hlt|].
    exfalso. apply (Event_lt_irrefl x).
    apply (Event_lt_le_trans x (Event_at f) x Hb).
    apply (Event_at_le f (m_events s));
      [exact Hmin | rewrite E; apply in_or_app; left; exact Hx | lia]. }
  assert (Habove : forall x, In x after -> f <= frame x).
  { intros x Hx. rewrite Forall_forall in Ha.
    apply (Event_le_frame _ _ (Ha x Hx)). }
  assert (H1 : filter (fun e => f <=? frame e) before = []).
  { apply filter_none. rewrite Forall_forall. intros x Hx. apply Z.leb_gt, Hbelow, Hx. }
  assert (H2 : filter (fun e => f <=? frame e) after = after).
  { clear -Habove. induction after as [|a l IH]; [reflexivity|]. cbn [filter].
    rewrite (proj2 (Z.leb_le f (frame a))) by (apply Habove; left; reflexivity).
    f_equal. apply IH. intros x Hx. apply Habove. right. exact Hx. }
  assert (H3 : filter (fun e => frame e <? f) before = before).
  { clear -Hbelow. induction before as [|a l IH]; [reflexivity|]. cbn [filter].
    rewrite (proj2 (Z.ltb_lt (frame a) f)) by (apply Hbelow; left; reflexivity).
    f_equal. apply IH. intros x Hx. apply Hbelow. right. exact Hx. }
  assert (H4 : filter (fun e => frame e <? f) after = []).
  { apply filter_none. rewrite Forall_forall. intros x Hx. apply Z.ltb_ge, Habove, Hx. }
  rewrite H1, H2, H3, H4, app_nil_r. split; reflexivity.
Qed.


(** *** [getStartFrame] and [getEndFrame] *)

(** No event without duration lies after [m_finalDurationlessEventFrame]. *)
Definition final_covers (s : EventSeries P) : Prop :=
  forall e, In e (m_events s) -> hasDuration e = false ->
    frame e <= m_finalDurationlessEventFrame s.

Lemma add_final_covers p (s : EventSeries P) : final_covers s -> final_covers (add p s).
Proof.
  intros Hq e Hin Hd. unfold add in *. cbn [m_events m_finalDurationlessEventFrame] in *.
  apply insert_in in Hin.
  destruct Hin as [->|Hin].
  - rewrite Hd. cbn [negb andb]. destruct (Z.gtb_spec (frame p) (m_finalDurationlessEventFrame s)); lia.
  - specialize (Hq e Hin Hd).
    destruct (negb (hasDuration p) && (frame p >? m_finalDurationlessEventFrame s)) eqn:Ec; [|exact Hq].
    apply andb_true_iff in Ec. destruct Ec as [_ Ec]. rewrite Z.gtb_ltb in Ec.
    apply Z.ltb_lt in Ec. lia.
Qed.

Lemma in_firstn {A} (n : nat) (l : list A) y : In y (firstn n l) -> In y l.
Proof.
  intros Hin. rewrite <- (firstn_skipn n l). apply in_or_app. left. exact Hin.
Qed.

Lemma in_erase_at (i : nat) (l : list (Event P)) y : In y (erase_at i l) -> In y l.
Proof.
  unfold erase_at. intros Hin. apply in_app_or in Hin.
  destruct Hin as [Hin|Hin]; [apply (in_firstn _ _ _ Hin) | apply (in_skipn _ _ _ Hin)].
Qed.

Lemma last_durationless_max (l : list (Event P)) :
  events_sorted l ->
  forall e, In e l -> hasDuration e = false -> frame e <= last_durationless l.
Proof.
  unfold last_durationless.
  induction l as [|a l IH] using rev_ind; intros Hs e Hin Hd; [destruct Hin|].
  rewrite rev_app_distr. cbn [rev app find].
  destruct (ListFacts.ssorted_app_inv _ _ _ Hs) as (Sl & _ & Hcross).
  destruct (hasDuration a) eqn:Ha; cbn [negb].
  - apply in_app_or in Hin. destruct Hin as [Hin|[->|[]]]; [|congruence].
    apply IH; assumption.
  - apply in_app_or in Hin. destruct Hin as [Hin|[->|[]]]; [|lia].
    apply Event_le_frame. apply Hcross; [exact Hin | left; reflexivity].
Qed.

Lemma remove_cases p (s s' : EventSeries P) :
  remove p s = Some s' ->
  s' = s \/
  (m_events s' = erase_at (lower_bound (m_events s) p) (m_events s) /\
   (m_finalDurationlessEventFrame s' = m_finalDurationlessEventFrame s \/
    m_finalDurationlessEventFrame s' = last_durationless (m_events s'))).
Proof.
  unfold remove.
  destruct (nth_error (m_events s) (lower_bound (m_events s) p)) as [x|];
    [|intros E; inversion E; left; reflexivity].
  destruct (negb (Event_eqb x p)); [intros E; inversion E; left; reflexivity|].
  set (isUnique := match nth_error (m_events s) (S (lower_bound (m_events s) p)) with
                   | Some y => negb (Event_eqb y p)
                   | None => true
                   end).
  destruct (hasDuration p && isUnique).
  - destruct (reaches_end (frame p) (frame p + duration p) (m_seams s)); [discriminate|].
    intros E. inversion E. right. cbn [m_events m_finalDurationlessEventFrame].
    split; [reflexivity|].
    destruct (negb (hasDuration p) && isUnique && (frame p =? m_finalDurationlessEventFrame s));
      [right | left]; reflexivity.
  - intros E. inversion E. right. cbn [m_events m_finalDurationlessEventFrame].
    split; [reflexivity|].
    destruct (negb (hasDuration p) && isUnique && (frame p =? m_finalDurationlessEventFrame s));
      [right | left]; reflexivity.
Qed.

Lemma remove_final_covers p (s s' : EventSeries P) :
  Inv s -> final_covers s -> remove p s = Some s' -> final_covers s'.
Proof.
  intros Hinv Hq Hrem.
  destruct (remove_inv p s Hinv) as (s1 & Hrem1 & Hinv1 & _).
  rewrite Hrem in Hrem1. inversion Hrem1. subst s1.
  destruct (remove_cases p s s' Hrem) as [->|(Hev & [Hf|Hf])]; [exact Hq | |].
  - intros e Hin Hd. rewrite Hf. apply Hq; [|exact Hd].
    rewrite Hev in Hin. apply (in_erase_at _ _ _ Hin).
  - intros e Hin Hd. rewrite Hf. apply last_durationless_max; [apply Hinv1 | exact Hin | exact Hd].
Qed.

Lemma apply_all_final_covers (ops : list (Op P)) : forall s0 s,
  Inv s0 -> final_covers s0 -> apply_all ops s0 = Some s -> final_covers s.
Proof.
  induction ops as [|op ops IH]; intros s0 s Hinv Hq Hrun.
  - inversion Hrun. subst s. exact Hq.
  - destruct op as [e|e].
    + change (apply_all (Add e :: ops) s0) with (apply_all ops (add e s0)) in Hrun.
      apply (IH (add e s0) s); [apply add_inv, Hinv | apply add_final_covers, Hq | exact Hrun].
    + destruct (remove_inv e s0 Hinv) as (s1 & Hrem & Hinv1 & _).
      unfold apply_all in Hrun. cbn [fold_left apply] in Hrun. rewrite Hrem in Hrun.
      apply (IH s1 s); [exact Hinv1 | apply (remove_final_covers e s0 s1 Hinv Hq Hrem) | exact Hrun].
Qed.

Lemma last_key_greatest (m : list (Z * list (Event P))) k l rest :
  keys_sorted m -> rev m = (k, l) :: rest -> forall k', In k' (keys m) -> k' <= k.
Proof.
  intros Hs E k' Hk'. assert (Hm : m = rev rest ++ [(k, l)]).
  { rewrite <- (rev_involutive m), E. reflexivity. }
  subst m. destruct (keys_sorted_app _ _ Hs) as (_ & _ & Hcross).
  unfold keys in Hk'. rewrite map_app in Hk'. apply in_app_or in Hk'.
  destruct Hk' as [Hk'|[<-|[]]]; [|cbn; lia].
  apply Z.lt_le_incl. apply Hcross; [exact Hk' | left; reflexivity].
Qed.

Lemma within_extent (s : EventSeries P) e :
  Inv s -> final_covers s -> In e (m_events s) ->
  getStartFrame s <= frame e <= getEndFrame s /\
  (hasDuration e = true -> frame e + duration e <= getEndFrame s).
Proof.
  intros Hinv Hq Hin. pose proof Hinv as [Hev Hks Hends _ _].
  assert (Hstart : getStartFrame s <= frame e).
  { unfold getStartFrame. destruct (m_events s) as [|a l]; [destruct Hin|].
    destruct Hin as [->|Hin]; [lia|].
    apply Event_le_frame. apply (ListFacts.ssorted_head _ _ _ Hev e Hin). }
  assert (Hend : frame e <= getEndFrame s /\
                 (hasDuration e = true -> frame e + duration e <= getEndFrame s)).
  { unfold getEndFrame. destruct (m_events s) as [|a l] eqn:El; [destruct Hin|].
    rewrite <- El in *. destruct (hasDuration e) eqn:Hd.
    - destruct (Hends e Hin Hd) as [_ He].
      pose proof (proj1 (hasDuration_pos e) Hd) as Hpos.
      destruct (rev (m_seams s)) as [|[k ls] rest] eqn:Er.
      + assert (Hnil : m_seams s = []).
        { rewrite <- (rev_involutive (m_seams s)), Er. reflexivity. }
        rewrite Hnil in He. destruct He.
      + pose proof (last_key_greatest (m_seams s) k ls rest Hks Er _ He) as Hk.
        destruct (Z.gtb_spec k (m_finalDurationlessEventFrame s)); split; intros; lia.
    - specialize (Hq e Hin Hd). split; [|discriminate].
      destruct (rev (m_seams s)) as [|[k ls] rest]; [exact Hq|].
      destruct (Z.gtb_spec k (m_finalDurationlessEventFrame s)); lia. }
  split; [split; [exact Hstart | apply Hend] | apply Hend].
Qed.

Lemma reached_final_covers (ops : list (Op P)) s :
  apply_all ops empty = Some s -> final_covers s.
Proof.
  intros Hrun. apply (apply_all_final_covers ops empty s Inv_empty); [intros x []|exact Hrun].
Qed.

(** X14: On a series reached by adds and removes, every stored event starts
    between getStartFrame() and getEndFrame(), and every stored event with a
    duration ends at or before getEndFrame(). *)
Theorem extent_bounds (ops : list (Op P)) s e :
  apply_all ops empty = Some s -> In e (m_events s) ->
  getStartFrame s <= frame e <= getEndFrame s /\
  (hasDuration e = true -> frame e + duration e <= getEndFrame s).
Proof.
  intros Hrun Hin.
  apply within_extent; [apply (reached_inv ops s Hrun) | apply (reached_final_covers ops s Hrun) | exact Hin].
Qed.

End Queries.

(** *** An instance: a series of two notes and two instants *)

Definition tick : Event Z := mkEvent 100 0 5.

Definition sample_ops : list (Op Z) := [Add E1; Add E2; Add E3; Add tick].

Definition sample : EventSeries Z := add tick (add E3 (add E2 (add E1 empty))).

Ltac least_by_cases :=
  let e := fresh "e" in
  let Hin := fresh "Hin" in
  let Hf := fresh "Hf" in
  let Hd := fresh "Hd" in
  intros e Hin Hf Hd; cbn in Hin;
  repeat (destruct Hin as [<-|Hin];
          [first [discriminate Hd | discriminate Hf | (vm_compute; discriminate)]|]);
  destruct Hin.

Lemma contains_iff_witness :
  contains E2 sample = true <-> In E2 (m_events sample).
Proof. exact (contains_iff sample_ops sample E2 eq_refl). Defined.

Lemma add_keeps_order_witness :
  events_sorted (m_events (add E1 sample)) /\
  Permutation (m_events (add E1 sample)) (E1 :: m_events sample).
Proof. exact (add_keeps_order sample_ops sample E1 eq_refl). Defined.

Lemma remove_unknown_witness : remove (mkEvent 100 50 2) sample = Some sample.
Proof.
  apply remove_unknown. cbn. intros Hin.
  repeat (destruct Hin as [Hin|Hin]; [discriminate Hin|]). exact Hin.
Defined.

Lemma remove_known_witness :
  exists s',
    remove E2 sample = Some s' /\
    events_sorted (m_events s') /\
    Permutation (m_events sample) (E2 :: m_events s').
Proof.
  apply (remove_known sample_ops sample E2 eq_refl). cbn. auto.
Defined.

Lemma starting_within_exact_witness :
  getEventsStartingWithin 100 50 sample =
    filter (fun e => (100 <=? frame e) && (frame e <? 100 + 50)) (m_events sample).
Proof.
  apply (starting_within_exact sample_ops sample 100 50 eq_refl). least_by_cases.
Defined.

Lemma within_exact_witness :
  getEventsWithin 100 60 0 sample =
    filter (fun e => (100 <=? frame e) && (frame e <? 100 + 60) && ends_by (100 + 60) e)
      (m_events sample).
Proof.
  apply (within_exact sample_ops sample 100 60 0 eq_refl); [least_by_cases | lia].
Defined.

Lemma covering_exact_witness :
  In E1 (getEventsCovering 120 sample) <->
  In E1 (m_events sample) /\
  if hasDuration E1 then frame E1 <= 120 < frame E1 + duration E1 else frame E1 = 120.
Proof.
  apply (covering_exact sample_ops sample 120 E1 eq_refl). least_by_cases.
Defined.

Lemma spanning_exact_witness :
  In E1 (getEventsSpanning 140 100 sample) <->
  In E1 (m_events sample) /\ frame E1 < 140 + 100 /\
  if hasDuration E1 then 140 < frame E1 + duration E1 else 140 <= frame E1.
Proof.
  apply (spanning_exact sample_ops sample 140 100 E1 eq_refl); [least_by_cases | lia].
Defined.

Lemma preceding_spec_witness :
  match getEventPreceding E2 sample with
  | Some x =>
      In E2 (m_events sample) /\ In x (m_events sample) /\ Event_lt x E2 /\
      forall y, In y (m_events sample) -> Event_lt y E2 -> Event_le y x
  | None =>
      ~ In E2 (m_events sample) \/ forall y, In y (m_events sample) -> ~ Event_lt y E2
  end.
Proof. exact (preceding_spec sample_ops sample E2 eq_refl). Defined.

Lemma following_spec_witness :
  match getEventFollowing E1 sample with
  | Some x =>
      In E1 (m_events sample) /\ In x (m_events sample) /\ Event_lt E1 x /\
      forall y, In y (m_events sample) -> Event_lt E1 y -> Event_le x y
  | None =>
      ~ In E1 (m_events sample) \/ forall y, In y (m_events sample) -> ~ Event_lt E1 y
  end.
Proof. exact (following_spec sample_ops sample E1 eq_refl). Defined.

Lemma index_round_trip_witness :
  getIndexForEvent E2 sample =
    Z.of_nat (length (filter (fun x => Event_ltb x E2) (m_events sample))) /\
  (In E2 (m_events sample) -> getEventByIndex (getIndexForEvent E2 sample) sample = Some E2).
Proof.
  apply (index_round_trip sample_ops sample E2 eq_refl). vm_compute. discriminate.
Defined.

Lemma nearest_matching_exact_witness :
  getNearestEventMatching 120 hasDuration Forward sample =
    find hasDuration (filter (fun e => 120 <=? frame e) (m_events sample)) /\
  getNearestEventMatching 120 hasDuration Backward sample =
    find hasDuration (rev (filter (fun e => frame e <? 120) (m_events sample))).
Proof.
  apply (nearest_matching_exact sample_ops sample 120 hasDuration eq_refl). least_by_cases.
Defined.

Lemma spanning_empty_range_witness :
  (forall x, In x (getEventsSpanning 130 0 sample) ->
     In x (m_events sample) /\ hasDuration x = true /\ frame x < 130 < frame x + duration x) /\
  ((exists y, In y (m_events sample) /\ hasDuration y = true /\
              (frame y = 130 \/ frame y + duration y = 130)) ->
   getEventsSpanning 130 0 sample = []).
Proof. exact (spanning_empty_range sample_ops sample 130 eq_refl). Defined.

Lemma extent_bounds_witness :
  getStartFrame sample <= frame E2 <= getEndFrame sample /\
  (hasDuration E2 = true -> frame E2 + duration E2 <= getEndFrame sample).
Proof.
  apply (extent_bounds sample_ops sample E2 eq_refl). cbn. auto.
Defined.

Example queries_scenario :
  m_events sample = [tick; E1; E2; E3] /\
  getEventsSpanning 140 100 sample = [E3; E1; E2] /\
  getEventsSpanning 130 0 sample = [E1; E2] /\
  getEventsSpanning 120 0 sample = [] /\
  getEventsWithin 100 60 0 sample = [tick; E1; E2] /\
  getEventsWithin 120 40 1 sample = [E1; E2; E3] /\
  getEventsCovering 100 sample = [tick; E1] /\
  getEventPreceding E1 sample = Some tick /\
  getEventFollowing E3 sample = None /\
  getStartFrame sample = 100 /\ getEndFrame sample = 200.
Proof. repeat split; vm_compute; reflexivity. Qed.

End EventSeriesQueries.

(** ** AlignmentModel *)

Module AlignmentFacts.

Import Int64 Int64Facts AlignmentModel.

(** *** Paths without points: the identity mapping *)

Definition no_path (m : AlignmentModel) : Prop :=
  m_rawPath m = None /\ m_path m = None /\ m_reversePath m = None.

Lemma no_path_construct rate input : no_path (construct rate input None).
Proof. repeat split. Qed.

Lemma no_path_deliver m s : no_path m -> no_path (deliver m s).
Proof.
  intros (Hr & Hp & Hv). destruct m as [rate inp raw path rev begun complete].
  simpl in *. subst.
  destruct s; unfold deliver, pathChanged, pathChangedWithin,
    pathCompletionChanged, rawPathWritten, constructReversePath, constructPath;
    simpl; destruct complete; repeat split.
Qed.

Lemma no_path_deliver_all l : forall m, no_path m -> no_path (deliver_all m l).
Proof.
  induction l as [|s l IH]; intros m Hm; simpl; [exact Hm|].
  apply IH, no_path_deliver, Hm.
Qed.

Lemma no_path_not_begun_construct rate input :
  m_pathBegun (construct rate input None) = false.
Proof. reflexivity. Qed.

Lemma not_begun_deliver m s :
  no_path m -> m_pathBegun m = false -> m_pathBegun (deliver m s) = false.
Proof.
  intros (Hr & Hp & Hv) Hb. destruct m as [rate inp raw path rev begun complete].
  simpl in *. subst.
  destruct s; unfold deliver, pathChanged, pathChangedWithin,
    pathCompletionChanged, rawPathWritten, constructReversePath, constructPath;
    simpl; destruct complete; reflexivity.
Qed.

Lemma not_begun_deliver_all l : forall m,
  no_path m -> m_pathBegun m = false -> m_pathBegun (deliver_all m l) = false.
Proof.
  induction l as [|s l IH]; intros m Hm Hb; simpl; [exact Hb|].
  apply IH; [apply no_path_deliver, Hm | apply not_begun_deliver; assumption].
Qed.

(** *** The search in [align] *)

Definition clamp_mapped (p : PathPoint) : Z :=
  if mapframe p <? 0 then 0 else mapframe p.

(** The interpolated value between [p0] and [p1], in single precision. *)
Definition interpolate (p0 p1 : PathPoint) (q : Z) : Z :=
  mapframe p0 +
  Float32.lrintf
    (Float32.mul (Float32.of_Z (mapframe p1 - mapframe p0))
       (Float32.div (Float32.of_Z (q - frame p0))
                    (Float32.of_Z (frame p1 - frame p0)))).

Definition by_frame (a b : PathPoint) : Prop := frame a <= frame b.

Lemma lower_bound_app before after q :
  Forall (fun p => frame p < q) before ->
  match after with [] => True | x :: _ => q <= frame x end ->
  lower_bound (before ++ after) q = length before.
Proof.
  induction before as [|b before IH]; simpl; intros Hb Ha.
  - destruct after as [|x after]; simpl; [reflexivity|].
    destruct (frame x <? q) eqn:E; [|reflexivity].
    apply Z.ltb_lt in E. lia.
  - inversion Hb as [|? ? Hlt Hrest]; subst.
    apply Z.ltb_lt in Hlt. rewrite Hlt. f_equal. apply IH; assumption.
Qed.

Lemma lower_bound_split points q :
  exists before after,
    points = before ++ after /\
    Forall (fun p => frame p < q) before /\
    match after with [] => True | x :: _ => q <= frame x end.
Proof.
  induction points as [|x l (before & after & Heq & Hb & Ha)].
  - exists [], []. repeat split. constructor.
  - destruct (Z_lt_le_dec (frame x) q) as [Hlt|Hge].
    + exists (x :: before), after. subst l. repeat split; [|exact Ha].
      constructor; assumption.
    + exists [], (x :: l). repeat split; [constructor | exact Hge].
Qed.

Lemma at_middle before x rest : at_ (before ++ x :: rest) (length before) = x.
Proof. unfold at_. apply nth_middle. Qed.

Lemma at_after before x y rest :
  at_ (before ++ x :: y :: rest) (S (length before)) = y.
Proof.
  unfold at_. replace (before ++ x :: y :: rest) with ((before ++ [x]) ++ y :: rest)
    by (rewrite <- app_assoc; reflexivity).
  replace (S (length before)) with (length (before ++ [x]))
    by (rewrite length_app; simpl; lia).
  apply nth_middle.
Qed.

Lemma step_back_stay points i q :
  frame (at_ points i) <= q -> step_back points i q = i.
Proof.
  intros H. destruct i as [|j]; simpl; [reflexivity|].
  destruct (frame (at_ points (S j)) >? q) eqn:E; [|reflexivity].
  apply Z.gtb_lt in E. lia.
Qed.

Lemma step_back_once points j q :
  q < frame (at_ points (S j)) -> frame (at_ points j) <= q ->
  step_back points (S j) q = j.
Proof.
  intros H1 H2. simpl.
  destruct (frame (at_ points (S j)) >? q) eqn:E.
  - apply step_back_stay. exact H2.
  - rewrite Z.gtb_ltb in E. apply Z.ltb_ge in E. lia.
Qed.

Lemma eqb_length_middle {A} (before : list A) x rest :
  Nat.eqb (length before) (length (before ++ x :: rest)) = false.
Proof. apply Nat.eqb_neq. rewrite length_app. simpl. lia. Qed.

(** The query meets a vertex: the first point with that frame answers. *)
Lemma align_points_hit before x rest q :
  Forall (fun p => frame p < q) before -> frame x = q ->
  0 <= q <= LONG_MAX ->
  align_points (before ++ x :: rest) q = clamp_mapped x.
Proof.
  intros Hb Hx Hq. unfold align_points, clamp_mapped.
  rewrite (to_long_small q Hq).
  rewrite (lower_bound_app before (x :: rest) q Hb) by (simpl; lia).
  rewrite eqb_length_middle.
  rewrite step_back_stay by (rewrite at_middle; lia).
  rewrite at_middle.
  destruct (mapframe x <? 0); [reflexivity|].
  replace (q >? frame x) with false
    by (symmetry; rewrite Z.gtb_ltb; apply Z.ltb_ge; lia).
  rewrite andb_false_r. reflexivity.
Qed.

(** The query is past every point: the last point answers. *)
Lemma align_points_past before y q :
  Forall (fun p => frame p < q) (before ++ [y]) ->
  0 <= q <= LONG_MAX ->
  align_points (before ++ [y]) q = clamp_mapped y.
Proof.
  intros Hb Hq. unfold align_points, clamp_mapped.
  rewrite (to_long_small q Hq).
  assert (Hy : frame y < q).
  { apply Forall_app in Hb. destruct Hb as [_ Hy]. inversion Hy; assumption. }
  replace (lower_bound (before ++ [y]) q) with (length (before ++ [y])).
  2:{ rewrite <- (app_nil_r (before ++ [y])) at 2.
      symmetry. apply lower_bound_app; [exact Hb | exact I]. }
  rewrite Nat.eqb_refl.
  replace (Nat.pred (length (before ++ [y]))) with (length before)
    by (rewrite length_app; simpl; lia).
  rewrite step_back_stay by (rewrite at_middle; lia).
  rewrite at_middle.
  replace (Nat.eqb (S (length before)) (length (before ++ [y]))) with true
    by (symmetry; apply Nat.eqb_eq; rewrite length_app; simpl; lia).
  destruct (mapframe y <? 0); [reflexivity|].
  rewrite Z.eqb_refl. reflexivity.
Qed.

(** The query lies strictly between two neighbours: interpolation. *)
Lemma align_points_between before y x rest q :
  Forall (fun p => frame p < q) (before ++ [y]) -> q < frame x ->
  0 <= q <= LONG_MAX -> LONG_MIN <= frame y ->
  align_points (before ++ y :: x :: rest) q =
    if mapframe y <? 0 then 0 else to_size_t (interpolate y x q).
Proof.
  intros Hb Hx Hq Hy0. unfold align_points, interpolate.
  rewrite (to_long_small q Hq).
  assert (Hy : frame y < q).
  { apply Forall_app in Hb. destruct Hb as [_ Hy]. inversion Hy; assumption. }
  replace (before ++ y :: x :: rest) with ((before ++ [y]) ++ x :: rest)
    by (rewrite <- app_assoc; reflexivity).
  rewrite (lower_bound_app (before ++ [y]) (x :: rest) q Hb) by (simpl; lia).
  rewrite eqb_length_middle.
  replace (length (before ++ [y])) with (S (length before))
    by (rewrite length_app; simpl; lia).
  replace ((before ++ [y]) ++ x :: rest) with (before ++ y :: x :: rest)
    by (rewrite <- app_assoc; reflexivity).
  rewrite step_back_once;
    [| rewrite at_after; lia | rewrite at_middle; lia].
  rewrite at_middle.
  replace (Nat.eqb (S (length before)) (length (before ++ y :: x :: rest))) with false
    by (symmetry; apply Nat.eqb_neq; rewrite length_app; simpl; lia).
  rewrite at_after.
  destruct (mapframe y <? 0); [reflexivity|].
  replace (frame x =? frame y) with false
    by (symmetry; apply Z.eqb_neq; lia).
  replace (q >? frame y) with true
    by (symmetry; rewrite Z.gtb_ltb; apply Z.ltb_lt; lia).
  simpl negb. simpl andb. cbv iota.
  rewrite (to_size_t_small (q - frame y))
    by (unfold LONG_MAX, LONG_MIN, two64, two63 in *; lia).
  reflexivity.
Qed.

(** The query lies before every point: the first point answers. *)
Lemma align_points_before x rest q :
  q < frame x -> 0 <= q <= LONG_MAX ->
  align_points (x :: rest) q = clamp_mapped x.
Proof.
  intros Hx Hq. unfold align_points, clamp_mapped.
  rewrite (to_long_small q Hq).
  assert (Hlb : lower_bound (x :: rest) q = O).
  { simpl. destruct (frame x <? q) eqn:E; [|reflexivity].
    apply Z.ltb_lt in E. lia. }
  rewrite Hlb. simpl length. simpl Nat.eqb. simpl step_back.
  unfold at_. simpl nth.
  destruct (mapframe x <? 0); [reflexivity|].
  replace (q >? frame x) with false
    by (symmetry; rewrite Z.gtb_ltb; apply Z.ltb_ge; lia).
  rewrite andb_false_r. reflexivity.
Qed.

Lemma align_nonempty before x after q :
  align (Some (before ++ x :: after)) q = align_points (before ++ x :: after) q.
Proof. unfold align. destruct before; reflexivity. Qed.

Lemma sorted_app (l1 l2 : PointList) :
  StronglySorted by_frame (l1 ++ l2) ->
  StronglySorted by_frame l1 /\ StronglySorted by_frame l2 /\
  (forall a b, In a l1 -> In b l2 -> frame a <= frame b).
Proof.
  induction l1 as [|x l1 IH]; simpl; intros H.
  - repeat split; [constructor | exact H | intros a b []].
  - inversion H as [|? ? Hs Hall]; subst.
    destruct (IH Hs) as (S1 & S2 & Hcross).
    rewrite Forall_app in Hall. destruct Hall as [Hall1 Hall2].
    repeat split; [constructor; assumption | exact S2 |].
    intros a b [Ha|Ha] Hb.
    + subst a. rewrite Forall_forall in Hall2. apply Hall2, Hb.
    + apply Hcross; assumption.
Qed.

Lemma sorted_head_least x (l : PointList) :
  StronglySorted by_frame (x :: l) -> forall p, In p (x :: l) -> frame x <= frame p.
Proof.
  intros H p [Hp|Hp].
  - subst. lia.
  - inversion H as [|? ? _ Hall]; subst. rewrite Forall_forall in Hall.
    apply Hall, Hp.
Qed.

Lemma sorted_last_greatest (l : PointList) y :
  StronglySorted by_frame (l ++ [y]) -> forall p, In p (l ++ [y]) -> frame p <= frame y.
Proof.
  intros H p Hp. destruct (sorted_app _ _ H) as (_ & _ & Hcross).
  apply in_app_or in Hp. destruct Hp as [Hp|[Hp|[]]].
  - apply Hcross; [exact Hp | left; reflexivity].
  - subst. lia.
Qed.

Lemma lrintf_in_long x : LONG_MIN <= Float32.lrintf x <= LONG_MAX.
Proof.
  assert (Hmin : LONG_MIN <= LONG_MIN <= LONG_MAX)
    by (unfold LONG_MIN, LONG_MAX, two63; lia).
  unfold Float32.lrintf. destruct x as [s|s| |s m e]; try exact Hmin.
  - unfold LONG_MIN, LONG_MAX, two63; lia.
  - match goal with |- context [in_long ?z] => destruct (in_long z) eqn:E end;
      [|exact Hmin].
    unfold in_long in E. apply andb_true_iff in E. destruct E as [E1 E2].
    apply Z.leb_le in E1, E2. lia.
Qed.

(** *** Stable insertion into the path *)

Definition first_at (k : Z) (l : PointList) : option PathPoint :=
  find (fun p => frame p =? k) l.

Lemma addPoint_sorted p l :
  StronglySorted by_frame l -> StronglySorted by_frame (addPoint p l).
Proof.
  induction l as [|x l IH]; simpl; intros H.
  - repeat constructor.
  - destruct (frame p <? frame x) eqn:E.
    + apply Z.ltb_lt in E. constructor; [exact H|].
      rewrite Forall_forall. intros y Hy.
      pose proof (sorted_head_least _ _ H y Hy). unfold by_frame. lia.
    + apply Z.ltb_ge in E. inversion H as [|? ? Hs Hall]; subst.
      constructor; [apply IH, Hs|].
      rewrite Forall_forall in *. intros y Hy.
      assert (Hin : In y (p :: l)).
      { clear - Hy. induction l as [|z l IH]; simpl in *.
        - destruct Hy as [Hy|[]]; auto.
        - destruct (frame p <? frame z); simpl in Hy.
          + destruct Hy as [Hy|[Hy|Hy]]; auto.
          + destruct Hy as [Hy|Hy]; auto. destruct (IH Hy); auto. }
      destruct Hin as [Hin|Hin]; [subst; exact E | apply Hall, Hin].
Qed.

Lemma first_at_none_above k (l : PointList) :
  (forall p, In p l -> k < frame p) -> first_at k l = None.
Proof.
  intros H. unfold first_at. destruct (find _ l) as [p|] eqn:E; [|reflexivity].
  apply find_some in E. destruct E as [Hin Heq]. apply Z.eqb_eq in Heq.
  specialize (H p Hin). lia.
Qed.

Lemma first_at_addPoint k p l :
  StronglySorted by_frame l ->
  first_at k (addPoint p l) =
    match first_at k l with
    | Some x => Some x
    | None => if frame p =? k then Some p else None
    end.
Proof.
  induction l as [|x l IH]; intros H.
  - reflexivity.
  - simpl addPoint. destruct (frame p <? frame x) eqn:E.
    + apply Z.ltb_lt in E.
      change (first_at k (p :: x :: l)) with
        (if frame p =? k then Some p else first_at k (x :: l)).
      destruct (frame p =? k) eqn:Ek.
      * apply Z.eqb_eq in Ek. rewrite first_at_none_above; [reflexivity|].
        intros y Hy. pose proof (sorted_head_least _ _ H y Hy). lia.
      * destruct (first_at k (x :: l)); reflexivity.
    + change (first_at k (x :: addPoint p l)) with
        (if frame x =? k then Some x else first_at k (addPoint p l)).
      change (first_at k (x :: l)) with
        (if frame x =? k then Some x else first_at k l).
      destruct (frame x =? k); [reflexivity|].
      apply IH. inversion H; assumption.
Qed.

Section Build.
Variable mk : TimeValuePoint -> PathPoint.

Definition build (points : list TimeValuePoint) (acc : PointList) : PointList :=
  fold_left (fun path p => addPoint (mk p) path) points acc.

Lemma build_sorted points : forall acc,
  StronglySorted by_frame acc -> StronglySorted by_frame (build points acc).
Proof.
  induction points as [|p points IH]; intros acc H; simpl; [exact H|].
  apply IH, addPoint_sorted, H.
Qed.

Lemma first_at_build k points : forall acc,
  StronglySorted by_frame acc ->
  first_at k (build points acc) =
    match first_at k acc with
    | Some x => Some x
    | None => first_at k (map mk points)
    end.
Proof.
  induction points as [|p points IH]; intros acc H; simpl.
  - destruct (first_at k acc); reflexivity.
  - change (fold_left (fun path p0 => addPoint (mk p0) path) points (addPoint (mk p) acc))
      with (build points (addPoint (mk p) acc)).
    rewrite IH by (apply addPoint_sorted, H).
    rewrite first_at_addPoint by exact H.
    change (first_at k (mk p :: map mk points)) with
      (if frame (mk p) =? k then Some (mk p) else first_at k (map mk points)).
    destruct (first_at k acc); [reflexivity|].
    destruct (frame (mk p) =? k); reflexivity.
Qed.

Lemma first_at_map_middle k pre pt post :
  Forall (fun p => frame (mk p) <> k) pre -> frame (mk pt) = k ->
  first_at k (map mk (pre ++ pt :: post)) = Some (mk pt).
Proof.
  intros Hpre Hpt. induction pre as [|x pre IH]; simpl.
  - unfold first_at. simpl. rewrite (proj2 (Z.eqb_eq _ _) Hpt). reflexivity.
  - inversion Hpre as [|? ? Hx Hrest]; subst.
    unfold first_at. simpl. rewrite (proj2 (Z.eqb_neq _ _) Hx).
    apply IH, Hrest.
Qed.
End Build.

Lemma find_split {A} (f : A -> bool) l p :
  find f l = Some p ->
  exists l1 l2, l = l1 ++ p :: l2 /\ Forall (fun x => f x = false) l1 /\ f p = true.
Proof.
  induction l as [|x l IH]; simpl; intros H; [discriminate|].
  destruct (f x) eqn:E.
  - inversion H; subst. exists [], l. repeat split; [constructor | exact E].
  - destruct (IH H) as (l1 & l2 & Heq & Hall & Hp).
    exists (x :: l1), l2. subst l. repeat split; [|exact Hp].
    constructor; assumption.
Qed.

(** A query at a vertex frame is answered by the first point of that frame. *)
Lemma align_at_first l s p :
  StronglySorted by_frame l -> first_at s l = Some p ->
  0 <= s <= LONG_MAX ->
  align (Some l) s = clamp_mapped p.
Proof.
  intros Hs Hf Hq. unfold first_at in Hf.
  destruct (find_split _ _ _ Hf) as (l1 & l2 & Heq & Hall & Hp).
  apply Z.eqb_eq in Hp. subst l.
  rewrite align_nonempty. apply align_points_hit; [|exact Hp|exact Hq].
  destruct (sorted_app _ _ Hs) as (_ & _ & Hcross).
  rewrite Forall_forall in *. intros x Hx.
  specialize (Hall x Hx). simpl in Hall. apply Z.eqb_neq in Hall.
  specialize (Hcross x p Hx (or_introl eq_refl)). lia.
Qed.

(** *** The mapping algorithm *)

(** The mapping as the specification words it: the greatest entry
    [(q0, m0)] with [q0 <= q], the next entry [(q1, m1)] (the entry itself
    when there is none), [m0] when [q = q0] or [q1 = q0], the interpolated
    value otherwise, and the outcome clamped to 0 from below. *)
Fixpoint greatest_le (points : PointList) (q : Z) : option (PathPoint * PathPoint) :=
  match points with
  | [] => None
  | x :: l =>
      if frame x <=? q then
        match greatest_le l q with
        | Some r => Some r
        | None => Some (x, hd x l)
        end
      else None
  end.

Definition described_mapping (points : PointList) (q : Z) : option Z :=
  match greatest_le points q with
  | None => None
  | Some (p0, p1) =>
      Some (Z.max 0 (if (q =? frame p0) || (frame p1 =? frame p0)
                     then mapframe p0
                     else interpolate p0 p1 q))
  end.

Definition rising_path : PointList := [mkPathPoint 0 (-10); mkPathPoint 10 10].



Definition scenario_path : PointList := [mkPathPoint 0 0; mkPathPoint 1000 500].


Example align_scenario :
  align (Some scenario_path) 500 = 250 /\ align (Some scenario_path) 1500 = 500.
Proof. split; vm_compute; reflexivity. Qed.

(** *** Round trip at the vertices *)

Definition half : Float32.float := S754_finite false 8388608 (-24).

(** Two raw points with the same value: the aligned timeline stands still
    at 0.5 s while the source moves from frame 1 to frame 2. *)
Definition plateau : RawPath :=
  mkRawPath [mkTimeValuePoint 1 half String.EmptyString;
             mkTimeValuePoint 2 half String.EmptyString] 100 true.

Definition plateau_model : AlignmentModel := construct 10 false (Some plateau).

(** C4, counterexample: both raw points of [plateau] map to target frame 5,
    [fromReference 5] is 1, and the vertex (2, 5) does not make the round
    trip. *)
Lemma roundtrip_fails_on_plateau :
  ~ (forall p, In p (raw_points plateau) ->
       let s := tv_frame p in
       let t := rframe_of (tv_value p) 10 in
       toReference plateau_model s = t /\ fromReference plateau_model t = s).
Proof.
  intros H.
  destruct (H (mkTimeValuePoint 2 half String.EmptyString)) as [_ Hback].
  - right. left. reflexivity.
  - vm_compute in Hback. discriminate.
Qed.

(** C4, as amended: for a path point giving the pair [(s, t)] with [s] and
    [t] not negative, [toReference s = t] when no earlier raw point has
    source frame [s], and [fromReference t = s] when no earlier raw point
    gives target frame [t]. *)
Theorem roundtrip_at_first_vertices (m : AlignmentModel) (rate : Z)
    (pre post : list TimeValuePoint) (pt : TimeValuePoint) :
  let raw := pre ++ pt :: post in
  let s := tv_frame pt in
  let t := rframe_of (tv_value pt) rate in
  m_path m = Some (forward_points rate raw) ->
  m_reversePath m = Some (reverse_points rate raw) ->
  0 <= s <= LONG_MAX -> 0 <= t ->
  (Forall (fun p => tv_frame p <> s) pre -> toReference m s = t) /\
  (Forall (fun p => rframe_of (tv_value p) rate <> t) pre -> fromReference m t = s).
Proof.
  intros raw s t Hpath Hrev Hs Ht. split; intros Hpre.
  - unfold toReference. rewrite Hpath. cbv iota.
    set (mk := fun p => mkPathPoint (tv_frame p) (rframe_of (tv_value p) rate)).
    assert (Hfb : forward_points rate raw = build mk raw []) by reflexivity.
    rewrite Hfb.
    transitivity (clamp_mapped (mk pt)); [apply align_at_first|].
    4:{ unfold clamp_mapped. simpl mapframe. fold t.
        destruct (t <? 0) eqn:E; [|reflexivity]. apply Z.ltb_lt in E. lia. }
    + apply build_sorted. constructor.
    + rewrite first_at_build by constructor. simpl first_at at 1.
      apply first_at_map_middle; [exact Hpre | reflexivity].
    + exact Hs.
  - unfold fromReference. rewrite Hrev. cbv iota.
    set (mk := fun p => mkPathPoint (rframe_of (tv_value p) rate) (tv_frame p)).
    assert (Hfb : reverse_points rate raw = build mk raw []) by reflexivity.
    rewrite Hfb.
    transitivity (clamp_mapped (mk pt)); [apply align_at_first|].
    4:{ unfold clamp_mapped. simpl mapframe. fold s.
        destruct (s <? 0) eqn:E; [|reflexivity]. apply Z.ltb_lt in E. lia. }
    + apply build_sorted. constructor.
    + rewrite first_at_build by constructor. simpl first_at at 1.
      apply first_at_map_middle; [exact Hpre | reflexivity].
    + split; [exact Ht|]. unfold t, rframe_of. apply lrintf_in_long.
Qed.

Definition scenario_raw : list TimeValuePoint :=
  [mkTimeValuePoint 0 Float32.zero String.EmptyString;
   mkTimeValuePoint 1000 half String.EmptyString].

Definition scenario_model : AlignmentModel :=
  construct 1000 false (Some (mkRawPath scenario_raw 100 true)).

Lemma roundtrip_at_first_vertices_witness :
  toReference scenario_model 1000 = 500 /\ fromReference scenario_model 500 = 1000.
Proof.
  pose proof (roundtrip_at_first_vertices scenario_model 1000
                [mkTimeValuePoint 0 Float32.zero String.EmptyString] []
                (mkTimeValuePoint 1000 half String.EmptyString)) as H.
  cbv zeta in H.
  destruct H as [Hto Hfrom].
  - reflexivity.
  - reflexivity.
  - simpl. unfold LONG_MAX, two63. lia.
  - vm_compute. discriminate.
  - split.
    + apply Hto. repeat constructor. simpl. lia.
    + apply Hfrom. repeat constructor. vm_compute. discriminate.
Defined.

(** *** Readiness *)

(** C5, the failing input: a model constructed without a raw path never
    reports ready, whatever signals it is sent.  [m_pathBegun] is set only
    by [pathCompletionChanged], which returns at once when there is no raw
    path, and [isReady] tests [m_pathBegun] before it looks at
    [m_rawPath]. *)
Theorem isReady_without_raw_path (rate : Z) (input : bool) (signals : list Signal) :
  isReady (deliver_all (construct rate input None) signals) = (0, false).
Proof.
  unfold isReady.
  rewrite not_begun_deliver_all; [reflexivity | apply no_path_construct | reflexivity].
Qed.

(** With a raw path, the model is ready once [pathCompletionChanged] has
    seen completion 100. *)
Lemma isReady_after_completion (rate : Z) (input : bool) (raw : RawPath) :
  raw_completion raw = 100 ->
  isReady (pathCompletionChanged (construct rate input (Some raw))) = (100, true).
Proof.
  intros H. unfold isReady, pathCompletionChanged, construct, constructReversePath,
    constructPath, raw_isReady. simpl. rewrite H. reflexivity.
Qed.

(** *** The identity mapping *)

(** C10: a model constructed without a raw path, whatever signals it has
    been sent since, and a model whose derived paths hold no points, map
    every frame to itself in both directions. *)
Theorem identity_without_points (m : AlignmentModel) (q : Z) :
  (exists rate input signals, m = deliver_all (construct rate input None) signals) \/
  (m_path m = Some [] /\ m_reversePath m = Some []) ->
  toReference m q = q /\ fromReference m q = q.
Proof.
  intros [(rate & input & signals & ->) | [Hp Hr]].
  - destruct (no_path_deliver_all signals _ (no_path_construct rate input))
      as (Hraw & Hpath & Hrev).
    unfold toReference, fromReference. rewrite Hraw, Hpath, Hrev. split; reflexivity.
  - unfold toReference, fromReference. rewrite Hp, Hr. split; reflexivity.
Qed.

Lemma identity_without_points_witness :
  toReference (deliver_all (construct 44100 true None) [SigPathCompletionChanged]) 7 = 7 /\
  fromReference (deliver_all (construct 44100 true None) [SigPathCompletionChanged]) 7 = 7.
Proof.
  apply identity_without_points. left.
  exists 44100, true, [SigPathCompletionChanged]. reflexivity.
Defined.

End AlignmentFacts.

(** ** FeatureExtractionModelTransformer *)

Module TransformerFacts.

Import Int64 Int64Facts Transformer.

(** *** Features routed to a NoteModel *)

Lemma next_value_nth vs index default :
  fst (next_value vs index default) = nth index vs default.
Proof.
  unfold next_value. destruct (nth_error vs index) as [v|] eqn:E; simpl.
  - symmetry. apply nth_error_nth. exact E.
  - symmetry. apply nth_overflow. apply nth_error_None. exact E.
Qed.

Definition frames_of_seconds (t : RealTime) (rate : Z) : Z := sec t * rate.
Definition index_of_seconds (t : RealTime) (r : Float32.float) : Z :=
  Float32.lrintf (Float32.mul (Float32.of_Z (sec t)) r).

Definition note_output : Output :=
  mkOutput OneSamplePerStep (Float32.of_Z 0) NoteModel 0.

(** A note with a duration of its own: pitch 60, then 80 and 30. *)
Definition timed_note : Feature :=
  mkFeature false (mkRealTime 0 0) true (mkRealTime 1 0)
    [Float32.of_Z 60; Float32.of_Z 80; Float32.of_Z 30] String.EmptyString.

(** The note as the specification describes it: [values[0]], the duration,
    and [values[2]] limited to 0..127 and divided by 127. *)
Definition described_velocity (f : Feature) : Float32.float :=
  let v := nth 2 (values f) (Float32.of_Z 100) in
  let v := if Float32.ltb v (Float32.of_Z 0) then Float32.of_Z 0 else v in
  let v := if Float32.ltb (Float32.of_Z 127) v then Float32.of_Z 127 else v in
  Float32.div v (Float32.of_Z 127).

(** C9, counterexample: the feature has a duration of its own, so
    [values[1]] is not consumed as a duration and the velocity is read from
    it: the note is stored with level 80/127, not 30/127. *)
Lemma velocity_read_after_consumed_values :
  fst (addFeature frames_of_seconds index_of_seconds 44100 note_output 0 timed_note) =
    [AddNote 0 (Float32.of_Z 60) 44100
       (Float32.div (Float32.of_Z 80) (Float32.of_Z 127)) (Plain String.EmptyString)] /\
  described_velocity timed_note = Float32.div (Float32.of_Z 30) (Float32.of_Z 127) /\
  Float32.div (Float32.of_Z 80) (Float32.of_Z 127) <> described_velocity timed_note.
Proof. repeat split; vm_compute; discriminate. Qed.

(** C9, as amended: a feature routed to a NoteModel is stored with value
    [values[0]] (0 when absent); with duration
    [lrintf (realTime2Frame (duration, inputRate))] when it has a duration
    of its own, else [lrintf (values[1])], else 1; and with level
    [velocity / 127], where the velocity is the value after the ones
    consumed so far ([values[1]] when the feature has a duration of its
    own, [values[2]] otherwise, 100 when absent) and a velocity above 127
    counts as 127.  Velocities below 0 are left out of the statement. *)
Theorem note_fields (realTime2Frame : RealTime -> Z -> Z)
    (timestampIndex : RealTime -> Float32.float -> Z)
    (inputRate : Z) (o : Output) (blockFrame : Z) (f : Feature) (frame no : Z) :
  model o = NoteModel ->
  featureFrame realTime2Frame timestampIndex inputRate o blockFrame f = Some (frame, no) ->
  let velocity := nth (if hasDuration f then 1 else 2)%nat (values f) (Float32.of_Z 100) in
  Float32.ltb velocity (Float32.of_Z 0) = false ->
  fst (addFeature realTime2Frame timestampIndex inputRate o blockFrame f) =
    [AddNote frame
       (nth 0 (values f) (Float32.of_Z 0))
       (Float32.lrintf
          (if hasDuration f
           then Float32.of_Z (realTime2Frame (duration f) inputRate)
           else nth 1 (values f) (Float32.of_Z 1)))
       (Float32.div
          (if Float32.ltb (Float32.of_Z 127) velocity then Float32.of_Z 127 else velocity)
          (Float32.of_Z 127))
       (Plain (label f))].
Proof.
  intros Hmodel Hframe velocity Hpos.
  unfold addFeature. rewrite Hframe. unfold routeFeature. rewrite Hmodel.
  unfold velocity in *. clear velocity.
  destruct f as [hts ts hd d vs lbl]. simpl in *.
  destruct vs as [|a [|b [|c rest]]]; destruct hd; simpl in *;
    unfold limit_velocity; rewrite Hpos; reflexivity.
Qed.

Lemma note_fields_witness :
  fst (addFeature frames_of_seconds index_of_seconds 44100 note_output 0 timed_note) =
    [AddNote 0 (Float32.of_Z 60) (Float32.lrintf (Float32.of_Z 44100))
       (Float32.div
          (if Float32.ltb (Float32.of_Z 127) (Float32.of_Z 80)
           then Float32.of_Z 127 else Float32.of_Z 80)
          (Float32.of_Z 127))
       (Plain String.EmptyString)].
Proof.
  apply (note_fields frames_of_seconds index_of_seconds 44100 note_output 0 timed_note 0 0).
  - reflexivity.
  - reflexivity.
  - vm_compute. reflexivity.
Defined.

(** *** Completion over a run *)

Lemma sorted_lt_snoc a l c :
  StronglySorted Z.lt (a :: l) -> last (a :: l) 0 < c ->
  StronglySorted Z.lt ((a :: l) ++ [c]) /\ last ((a :: l) ++ [c]) 0 = c.
Proof.
  revert a. induction l as [|b l IH]; intros a Hs Hlast.
  - simpl in *. split; [|reflexivity]. repeat constructor. exact Hlast.
  - inversion Hs as [|? ? Hs' Hall]; subst.
    change (last (a :: b :: l) 0) with (last (b :: l) 0) in Hlast.
    destruct (IH b Hs' Hlast) as [Hs'' Hl''].
    split.
    + change ((a :: b :: l) ++ [c]) with (a :: ((b :: l) ++ [c])).
      constructor; [exact Hs''|].
      apply Forall_app. split; [exact Hall|].
      constructor; [|constructor].
      inversion Hall as [|? ? Hab _]; subst.
      assert (Hb : b <= last (b :: l) 0).
      { clear - Hs'. revert b Hs'. induction l as [|x l IHl]; intros b Hs'.
        - simpl. lia.
        - inversion Hs' as [|? ? Hs2 Hall2]; subst.
          inversion Hall2 as [|? ? Hbx _]; subst.
          change (last (b :: x :: l) 0) with (last (x :: l) 0).
          specialize (IHl x Hs2). lia. }
      lia.
    + change ((a :: b :: l) ++ [c]) with (a :: ((b :: l) ++ [c])).
      change (last (a :: (b :: l) ++ [c]) 0) with (last ((b :: l) ++ [c]) 0).
      exact Hl''.
Qed.

Lemma sorted_le_close l :
  StronglySorted Z.lt l -> Forall (fun c => c <= 99) l ->
  StronglySorted Z.le (l ++ [100]).
Proof.
  induction l as [|a l IH]; intros Hs Hall; simpl.
  - repeat constructor.
  - inversion Hs as [|? ? Hs' Hlt]; subst. inversion Hall as [|? ? Ha Hall']; subst.
    constructor; [apply IH; assumption|].
    apply Forall_app. split.
    + rewrite Forall_forall in *. intros x Hx. specialize (Hlt x Hx). lia.
    + constructor; [lia | constructor].
Qed.

Lemma reported_one j c a n :
  filter (fun jc : nat * Z => Nat.eqb (fst jc) j) (map (fun j' => (j', c)) (seq a n)) =
    if (Nat.leb a j && Nat.leb (S j) (a + n))%bool then [(j, c)] else [].
Proof.
  revert a. induction n as [|n IH]; intros a.
  - cbn [seq map filter].
    destruct (Nat.leb_spec a j); destruct (Nat.leb_spec (S j) (a + 0));
      try reflexivity; lia.
  - cbn [seq map filter fst]. rewrite IH.
    destruct (Nat.eqb_spec a j) as [->|Hne].
    + destruct (Nat.leb_spec (S j) j); [lia|].
      destruct (Nat.leb_spec j j); [|lia].
      destruct (Nat.leb_spec (S j) (j + S n)); [|lia]. reflexivity.
    + destruct (Nat.leb_spec (S a) j); destruct (Nat.leb_spec a j); try lia;
        [|reflexivity].
      cbn [andb].
      destruct (Nat.leb_spec (S j) (S a + n));
        destruct (Nat.leb_spec (S j) (a + S n)); try lia; reflexivity.
Qed.

Lemma reported_all e j values :
  (j < outputs e)%nat ->
  reported_to j (setCompletion_calls e values) = values.
Proof.
  intros Hj. unfold reported_to, setCompletion_calls.
  induction values as [|c values IH]; simpl; [reflexivity|].
  rewrite filter_app, map_app, IH, reported_one.
  replace (Nat.leb 0 j && Nat.leb (S j) (0 + outputs e))%bool with true.
  - reflexivity.
  - symmetry. apply andb_true_iff. split; apply Nat.leb_le; lia.
Qed.

Definition half_block (e : RunEnv) : Z := Z.quot (to_int (blockSize e)) 2.

(** The calls made before the closing 100: a single 0 before the first
    block; afterwards 0, the first block's 0, and strictly rising values. *)
Definition shape (calls : list Z) (prev : Z) (i : nat) : Prop :=
  match i with
  | O => calls = [0] /\ prev = 0
  | S _ =>
      exists inc, calls = 0 :: 0 :: inc /\ StronglySorted Z.lt (0 :: inc) /\
                  last (0 :: inc) 0 = prev /\ Forall (fun c => c <= 99) inc
  end.

Definition settled (trace : list Z) : Prop :=
  exists mid,
    trace = 0 :: mid ++ [100] /\
    (mid = [] \/ exists inc, mid = 0 :: inc /\ StronglySorted Z.lt (0 :: inc)) /\
    Forall (fun c => 0 <= c <= 99) mid.

Lemma shape_settled calls prev i : shape calls prev i -> settled (calls ++ [100]).
Proof.
  destruct i as [|i]; simpl.
  - intros [-> _]. exists []. repeat split; [left; reflexivity | constructor].
  - intros (inc & -> & Hs & _ & Hall). exists (0 :: inc). repeat split.
    + right. exists inc. split; [reflexivity | exact Hs].
    + constructor; [lia|]. inversion Hs as [|? ? _ Hlt]; subst.
      rewrite Forall_forall in *. intros c Hc.
      specialize (Hlt c Hc). specialize (Hall c Hc). lia.
Qed.

Section Completion.

Variable e : RunEnv.

Hypothesis Hstep : 0 < stepSize e.
Hypothesis Hduration : 0 <= contextDuration e.
Hypothesis Hblock : 0 <= blockSize e < 2 ^ 31.
Hypothesis Hsmall : contextDuration e + blockSize e < 2 ^ 56.
Hypothesis Hdomain : frequencyDomain e = false \/ half_block e <= stepSize e.

Lemma half_block_range : 0 <= half_block e <= blockSize e.
Proof.
  unfold half_block, to_int. rewrite Z.mod_small by lia.
  destruct (blockSize e <? 2 ^ 31) eqn:E; [|apply Z.ltb_ge in E; lia].
  split; [apply Z.quot_pos; lia|].
  rewrite Z.quot_div_nonneg by lia.
  apply Z.div_le_upper_bound; lia.
Qed.

Lemma not_past_end i :
  0 <= i ->
  past_end e (contextStart e + i * stepSize e) = false ->
  i * stepSize e <= contextDuration e + half_block e /\
  (i - 1) * stepSize e <= contextDuration e.
Proof.
  intros Hi. unfold past_end. fold (half_block e).
  pose proof half_block_range as Hh.
  destruct (frequencyDomain e) eqn:Ef; intros H.
  - rewrite Z.gtb_ltb in H. apply Z.ltb_ge in H.
    destruct Hdomain as [Hd|Hd]; [discriminate|]. lia.
  - rewrite Z.geb_leb in H. apply Z.leb_gt in H. lia.
Qed.

Lemma completion_at_exact i :
  0 <= i -> i * stepSize e <= contextDuration e + half_block e ->
  completion_at e (contextStart e + i * stepSize e) =
    (i * 99) / (contextDuration e / stepSize e + 1).
Proof.
  intros Hi Hbound. pose proof half_block_range as Hh.
  assert (Hi56 : i < 2 ^ 56) by nia.
  assert (HD : 0 <= contextDuration e / stepSize e <= contextDuration e).
  { split; [apply Z.div_pos; lia|].
    apply Z.div_le_upper_bound; nia. }
  unfold completion_at.
  replace (contextStart e + i * stepSize e - contextStart e) with (i * stepSize e) by lia.
  rewrite (to_size_t_small (i * stepSize e)) by (unfold two64; nia).
  rewrite Z.div_mul by lia.
  rewrite (to_size_t_small (i * 99)) by (unfold two64; lia).
  rewrite (to_size_t_small (contextDuration e)) by (unfold two64; lia).
  rewrite (to_size_t_small (contextDuration e / stepSize e + 1)) by (unfold two64; lia).
  apply to_long_small. unfold LONG_MAX, two63.
  split; [apply Z.div_pos; lia|].
  transitivity (i * 99); [|lia].
  apply Z.div_le_upper_bound; nia.
Qed.

Lemma completion_bound i :
  0 <= i -> (i - 1) * stepSize e <= contextDuration e ->
  0 <= (i * 99) / (contextDuration e / stepSize e + 1) <= 99.
Proof.
  intros Hi Hbound.
  assert (HD : i - 1 <= contextDuration e / stepSize e).
  { apply Z.div_le_lower_bound; lia. }
  assert (HD0 : 0 <= contextDuration e / stepSize e) by (apply Z.div_pos; lia).
  split; [apply Z.div_pos; lia|].
  apply Z.div_le_upper_bound; nia.
Qed.

Lemma block_loop_settles : forall fuel i prev clock calls,
  (Z.to_nat (contextDuration e + half_block e + 1 - Z.of_nat i * stepSize e) + 1 <= fuel)%nat ->
  shape calls prev i ->
  exists trace,
    block_loop fuel e i (contextStart e + Z.of_nat i * stepSize e) prev clock calls
      = Some trace /\
    settled trace.
Proof.
  induction fuel as [|fuel IH]; intros i prev clock calls Hfuel Hshape; [lia|].
  cbn [block_loop].
  destruct (abandoned e clock);
    [eexists; split; [reflexivity | eapply shape_settled; eassumption]|].
  destruct (past_end e (contextStart e + Z.of_nat i * stepSize e)) eqn:Epast;
    [eexists; split; [reflexivity | eapply shape_settled; eassumption]|].
  destruct (not_past_end (Z.of_nat i) (Nat2Z.is_nonneg i) Epast) as [Hb1 Hb2].
  rewrite (completion_at_exact (Z.of_nat i) (Nat2Z.is_nonneg i) Hb1).
  pose proof (completion_bound (Z.of_nat i) (Nat2Z.is_nonneg i) Hb2) as Hc.
  set (completion := Z.of_nat i * 99 / (contextDuration e / stepSize e + 1)) in *.
  destruct (frequencyDomain e && fft_error e i || abandoned e (S clock));
    [eexists; split; [reflexivity | eapply shape_settled; eassumption]|].
  destruct (abandoned e (S (S clock)));
    [eexists; split; [reflexivity | eapply shape_settled; eassumption]|].
  replace (contextStart e + Z.of_nat i * stepSize e + stepSize e)
    with (contextStart e + Z.of_nat (S i) * stepSize e) by lia.
  assert (Hfuel' :
    (Z.to_nat (contextDuration e + half_block e + 1 - Z.of_nat (S i) * stepSize e) + 1
       <= fuel)%nat) by lia.
  destruct i as [|k].
  - (* the first block *)
    replace (contextStart e + Z.of_nat 0 * stepSize e =? contextStart e) with true
      by (symmetry; apply Z.eqb_eq; lia).
    cbn [orb]. apply IH; [exact Hfuel'|].
    destruct Hshape as [-> ->]. exists []. repeat split.
    + repeat constructor.
    + constructor.
  - replace (contextStart e + Z.of_nat (S k) * stepSize e =? contextStart e) with false
      by (symmetry; apply Z.eqb_neq; nia).
    cbn [orb].
    destruct (completion >? prev) eqn:Egt.
    + apply IH; [exact Hfuel'|].
      rewrite Z.gtb_ltb in Egt. apply Z.ltb_lt in Egt.
      destruct Hshape as (inc & -> & Hs & Hlast & Hall).
      rewrite <- Hlast in Egt.
      destruct (sorted_lt_snoc 0 inc completion Hs Egt) as [Hs' Hl'].
      exists (inc ++ [completion]). repeat split.
      * exact Hs'.
      * exact Hl'.
      * apply Forall_app. split; [exact Hall|]. constructor; [lia | constructor].
    + apply IH; [exact Hfuel'|]. exact Hshape.
Qed.

End Completion.

(** A time-domain run over 8192 frames in steps of 1024. *)
Definition plain_run : RunEnv :=
  mkRunEnv true 1 (fun _ => true) (fun _ => false) false true (fun _ => false)
    1024 1024 0 8192 0 0.

(** The flag is set while [run] still waits for its input. *)
Definition cancelled_run : RunEnv :=
  mkRunEnv true 1 (fun _ => false) (fun _ => true) false true (fun _ => false)
    1024 1024 0 8192 0 0.

(** A frequency-domain run over 1000 frames, blocks of 2048 in steps of 512. *)
Definition overlapping_run : RunEnv :=
  mkRunEnv true 1 (fun _ => true) (fun _ => false) true true (fun _ => false)
    512 2048 0 1000 0 0.




End TransformerFacts.

(** ** FeatureExtractionModelTransformer: filing the features of a block *)

Module AddFeatureFacts.

Import Int64 Transformer.

Section Routing.

Variable realTime2Frame : RealTime -> Z -> Z.
Variable timestampIndex : RealTime -> Float32.float -> Z.

(** *** The velocity of a note *)

Lemma limit_velocity_range v :
  Float32.ltb (limit_velocity v) (Float32.of_Z 0) = false /\
  Float32.ltb (Float32.of_Z 127) (limit_velocity v) = false.
Proof.
  unfold limit_velocity.
  destruct (Float32.ltb v (Float32.of_Z 0)) eqn:E1.
  - replace (Float32.ltb (Float32.of_Z 127) (Float32.of_Z 127)) with false by reflexivity.
    split; reflexivity.
  - destruct (Float32.ltb (Float32.of_Z 127) v) eqn:E2.
    + split; reflexivity.
    + split; assumption.
Qed.

(** The call that files a note. *)
Definition note_call (m : OutputModel) :
    Z -> Float32.float -> Z -> Float32.float -> Label -> ModelCall :=
  match m with
  | FlexiNoteModel => AddFlexiNote
  | _ => AddNote
  end.

(** X19: When addFeature files a feature in a NoteModel or FlexiNoteModel, it
    adds one note whose level is a velocity divided by 127, where that
    velocity is neither below 0 nor above 127; a velocity value below 0 is
    replaced by 127, so the note gets level 1.0. *)
Theorem note_level_limited (inputRate : Z) (o : Output) (blockFrame : Z)
    (f : Feature) (frame no : Z) :
  model o = NoteModel \/ model o = FlexiNoteModel ->
  featureFrame realTime2Frame timestampIndex inputRate o blockFrame f = Some (frame, no) ->
  let velocity := nth (if hasDuration f then 1 else 2)%nat (values f) (Float32.of_Z 100) in
  exists value dur limited,
    fst (addFeature realTime2Frame timestampIndex inputRate o blockFrame f) =
      [note_call (model o) frame value dur
         (Float32.div limited (Float32.of_Z 127)) (Plain (label f))] /\
    Float32.ltb limited (Float32.of_Z 0) = false /\
    Float32.ltb (Float32.of_Z 127) limited = false /\
    (Float32.ltb velocity (Float32.of_Z 0) = true ->
     Float32.div limited (Float32.of_Z 127) = Float32.one).
Proof.
  intros Hmodel Hframe velocity.
  unfold addFeature. rewrite Hframe. unfold routeFeature.
  assert (Hv : forall vs hd,
            fst (next_value vs
                   (snd (if hd : bool
                         then (Float32.of_Z 0, snd (next_value vs 0 (Float32.of_Z 0)))
                         else next_value vs (snd (next_value vs 0 (Float32.of_Z 0)))
                                (Float32.of_Z 1)))
                   (Float32.of_Z 100)) =
            nth (if hd then 1 else 2)%nat vs (Float32.of_Z 100)).
  { intros vs hd. destruct vs as [|a [|b [|c rest]]]; destruct hd; reflexivity. }
  assert (Hneg : Float32.ltb velocity (Float32.of_Z 0) = true ->
                 Float32.div (limit_velocity velocity) (Float32.of_Z 127) = Float32.one).
  { intros Hlt. unfold limit_velocity. rewrite Hlt. reflexivity. }
  destruct (limit_velocity_range velocity) as [H0 H127].
  destruct f as [hts ts hd d vs lbl]. cbn [values hasDuration label duration] in *.
  specialize (Hv vs hd). fold velocity in Hv.
  destruct Hmodel as [Hm|Hm]; rewrite Hm; cbn [note_call fst];
    destruct (next_value vs 0 (Float32.of_Z 0)) as [value index] eqn:E0;
    cbn [snd] in Hv.
  - destruct hd.
    + cbn [snd] in Hv. destruct (next_value vs index (Float32.of_Z 100)) as [v ix] eqn:E2.
      cbn [fst] in Hv. subst v. eexists _, _, _. split; [reflexivity|]. auto.
    + destruct (next_value vs index (Float32.of_Z 1)) as [dur index1] eqn:E1.
      cbn [snd] in Hv. destruct (next_value vs index1 (Float32.of_Z 100)) as [v ix] eqn:E2.
      cbn [fst] in Hv. subst v. eexists _, _, _. split; [reflexivity|]. auto.
  - destruct hd.
    + cbn [snd] in Hv. destruct (next_value vs index (Float32.of_Z 100)) as [v ix] eqn:E2.
      cbn [fst] in Hv. subst v. eexists _, _, _. split; [reflexivity|]. auto.
    + destruct (next_value vs index (Float32.of_Z 1)) as [dur index1] eqn:E1.
      cbn [snd] in Hv. destruct (next_value vs index1 (Float32.of_Z 100)) as [v ix] eqn:E2.
      cbn [fst] in Hv. subst v. eexists _, _, _. split; [reflexivity|]. auto.
Qed.


(** *** One point per value *)

Lemma numbered_points_nth mk sev text (vs : list Float32.float) : forall i0 i v,
  nth_error vs i = Some v ->
  nth_error (numbered_points mk sev text i0 vs) i =
    Some (mk v (if sev then Numbered (i0 + Z.of_nat i + 1) text else Plain text)).
Proof.
  induction vs as [|a vs IH]; intros i0 i v Hi; [destruct i; discriminate|].
  destruct i as [|i]; cbn [numbered_points nth_error] in *.
  - inversion Hi. subst a. rewrite Z.add_0_r. reflexivity.
  - rewrite (IH (i0 + 1) i v Hi).
    replace (i0 + 1 + Z.of_nat i + 1) with (i0 + Z.of_nat (S i) + 1) by lia. reflexivity.
Qed.

Lemma numbered_points_length mk sev text (vs : list Float32.float) : forall i0,
  length (numbered_points mk sev text i0 vs) = length vs.
Proof.
  induction vs as [|a vs IH]; intros i0; [reflexivity|].
  cbn [numbered_points length]. rewrite IH. reflexivity.
Qed.

(** X20: When addFeature files a feature in a SparseTimeValueModel, it adds
    one point per value of the feature, in order, all at the feature's frame;
    the i-th value (counted from 1) gets the label with the number i in front
    when the feature has more than one value, and the plain label otherwise; a
    feature without values adds nothing. *)
Theorem time_value_points (inputRate : Z) (o : Output) (blockFrame : Z)
    (f : Feature) (frame no : Z) :
  model o = SparseTimeValueModel ->
  featureFrame realTime2Frame timestampIndex inputRate o blockFrame f = Some (frame, no) ->
  let calls := fst (addFeature realTime2Frame timestampIndex inputRate o blockFrame f) in
  length calls = length (values f) /\
  forall i v, nth_error (values f) i = Some v ->
    nth_error calls i =
      Some (AddTimeValue frame v
              (if 1 <? Z.of_nat (length (values f))
               then Numbered (Z.of_nat i + 1) (label f) else Plain (label f))).
Proof.
  intros Hmodel Hframe. cbv zeta. unfold addFeature. rewrite Hframe. cbn [fst].
  unfold routeFeature. rewrite Hmodel. split.
  - apply numbered_points_length.
  - intros i v Hi. rewrite (numbered_points_nth _ _ _ _ 0 i v Hi). reflexivity.
Qed.

(** *** Features without a timestamp on an output of fixed rate *)

(** The frame the feature with number [no] is filed under. *)
Definition fixed_frame (inputRate : Z) (o : Output) (no : Z) : Z :=
  to_size_t
    (Float32.lrintf
       (Float32.mul (Float32.div (Float32.of_Z no) (sampleRate o))
          (Float32.of_Z inputRate))).

Lemma addFeatures_snoc inputRate o blockFrame fs f :
  addFeatures realTime2Frame timestampIndex inputRate o blockFrame (fs ++ [f]) =
    let state := addFeatures realTime2Frame timestampIndex inputRate o blockFrame fs in
    let '(calls, o') :=
      addFeature realTime2Frame timestampIndex inputRate (snd state) blockFrame f in
    (fst state ++ calls, o').
Proof. unfold addFeatures. rewrite fold_left_app. reflexivity. Qed.

(** The calls for features numbered from [no + 1] on. *)
Fixpoint filed (inputRate : Z) (o : Output) (no : Z) (fs : list Feature) : list ModelCall :=
  match fs with
  | [] => []
  | f :: fs' =>
      routeFeature realTime2Frame inputRate o (fixed_frame inputRate o (no + 1)) f
        ++ filed inputRate o (no + 1) fs'
  end.

Lemma filed_snoc inputRate o fs f : forall no,
  filed inputRate o no (fs ++ [f]) =
    filed inputRate o no fs ++
    routeFeature realTime2Frame inputRate o
      (fixed_frame inputRate o (no + Z.of_nat (length fs) + 1)) f.
Proof.
  induction fs as [|a fs IH]; intros no.
  - cbn. rewrite Z.add_0_r, app_nil_r. reflexivity.
  - cbn [app filed length]. rewrite IH, <- app_assoc.
    replace (no + 1 + Z.of_nat (length fs) + 1) with (no + Z.of_nat (S (length fs)) + 1) by lia.
    reflexivity.
Qed.

Lemma to_int_in_range z : - 2 ^ 31 <= z < 2 ^ 31 -> to_int z = z.
Proof.
  intros Hz. unfold to_int.
  destruct (Z.ltb_spec z 0) as [Hneg|Hpos].
  - replace (z mod 2 ^ 32) with (z + 2 ^ 32)
      by (apply (Z.mod_unique_pos z (2 ^ 32) (-1) (z + 2 ^ 32)); lia).
    destruct (Z.ltb_spec (z + 2 ^ 32) (2 ^ 31)); lia.
  - rewrite Z.mod_small by lia.
    destruct (Z.ltb_spec z (2 ^ 31)); lia.
Qed.

(** X21: On an output of fixed sample rate, filing a list of features without
    timestamps raises the output's feature number by one per feature, and the
    k-th feature is filed at the frame lrintf((number + k) / outputRate *
    inputRate) computed from the number before the list, as long as the
    number, an int, is at least -2^31 before the list and stays below 2^31. *)
Theorem fixed_rate_numbering (inputRate : Z) (o : Output) (blockFrame : Z)
    (fs : list Feature) :
  sampleType o = FixedSampleRate ->
  Forall (fun f => hasTimestamp f = false) fs ->
  - 2 ^ 31 <= fixedRateFeatureNo o ->
  fixedRateFeatureNo o + Z.of_nat (length fs) < 2 ^ 31 ->
  let result := addFeatures realTime2Frame timestampIndex inputRate o blockFrame fs in
  fixedRateFeatureNo (snd result) = fixedRateFeatureNo o + Z.of_nat (length fs) /\
  fst result = filed inputRate o (fixedRateFeatureNo o) fs.
Proof.
  intros Htype Hts Hlow Hhigh. cbv zeta.
  assert (Hall : let result := addFeatures realTime2Frame timestampIndex inputRate o blockFrame fs in
                 snd result =
                   mkOutput (sampleType o) (sampleRate o) (model o)
                     (fixedRateFeatureNo o + Z.of_nat (length fs)) /\
                 fst result = filed inputRate o (fixedRateFeatureNo o) fs).
  { revert Hhigh. induction fs as [|f fs IH] using rev_ind; intros Hhigh; cbv zeta.
    - cbn. rewrite Z.add_0_r. destruct o; split; reflexivity.
    - apply Forall_app in Hts. destruct Hts as [Hfs Hf].
      inversion Hf as [|? ? Hf1 _]; subst.
      rewrite length_app in Hhigh. cbn [length] in Hhigh.
      destruct (IH Hfs ltac:(lia)) as [Eo Ec]. clear IH.
      rewrite addFeatures_snoc. cbv zeta. rewrite Eo, Ec.
      unfold addFeature, featureFrame. cbn [sampleType sampleRate model fixedRateFeatureNo].
      rewrite Htype, Hf1. cbn [negb].
      rewrite (to_int_in_range (fixedRateFeatureNo o + Z.of_nat (length fs) + 1)) by lia.
      rewrite length_app. cbn [length]. split.
      + cbn [snd]. f_equal. lia.
      + cbn [fst]. rewrite filed_snoc. reflexivity. }
  destruct Hall as [Eo Ec]. rewrite Eo, Ec. split; reflexivity.
Qed.

End Routing.

(** *** Instances *)

Definition seconds_to_frames (t : RealTime) (rate : Z) : Z := sec t * rate.
Definition seconds_to_index (t : RealTime) (r : Float32.float) : Z :=
  Float32.lrintf (Float32.mul (Float32.of_Z (sec t)) r).

Definition flexi_output : Output :=
  mkOutput OneSamplePerStep (Float32.of_Z 0) FlexiNoteModel 0.

(** A note of pitch 60 and duration 10 with velocity -5. *)
Definition negative_velocity : Feature :=
  mkFeature false (mkRealTime 0 0) false (mkRealTime 0 0)
    [Float32.of_Z 60; Float32.of_Z 10; Float32.of_Z (-5)] String.EmptyString.

Lemma note_level_limited_witness :
  exists value dur limited,
    fst (addFeature seconds_to_frames seconds_to_index 44100 flexi_output 512
           negative_velocity) =
      [note_call (model flexi_output) 512 value dur
         (Float32.div limited (Float32.of_Z 127)) (Plain (label negative_velocity))] /\
    Float32.ltb limited (Float32.of_Z 0) = false /\
    Float32.ltb (Float32.of_Z 127) limited = false /\
    (Float32.ltb
       (nth (if hasDuration negative_velocity then 1 else 2)%nat (values negative_velocity)
          (Float32.of_Z 100))
       (Float32.of_Z 0) = true ->
     Float32.div limited (Float32.of_Z 127) = Float32.one).
Proof.
  apply (note_level_limited seconds_to_frames seconds_to_index 44100 flexi_output 512
           negative_velocity 512 0); [right; reflexivity | reflexivity].
Defined.

Definition curve_output : Output :=
  mkOutput OneSamplePerStep (Float32.of_Z 0) SparseTimeValueModel 0.

Definition two_values : Feature :=
  mkFeature false (mkRealTime 0 0) false (mkRealTime 0 0)
    [Float32.of_Z 3; Float32.of_Z 4] String.EmptyString.

Lemma time_value_points_witness :
  let calls :=
    fst (addFeature seconds_to_frames seconds_to_index 44100 curve_output 512 two_values) in
  length calls = length (values two_values) /\
  forall i v, nth_error (values two_values) i = Some v ->
    nth_error calls i =
      Some (AddTimeValue 512 v
              (if 1 <? Z.of_nat (length (values two_values))
               then Numbered (Z.of_nat i + 1) (label two_values)
               else Plain (label two_values))).
Proof.
  apply (time_value_points seconds_to_frames seconds_to_index 44100 curve_output 512
           two_values 512 0); reflexivity.
Defined.

Definition fixed_output : Output :=
  mkOutput FixedSampleRate (Float32.of_Z 100) SparseOneDimensionalModel (-1).

Definition untimed : Feature :=
  mkFeature false (mkRealTime 0 0) false (mkRealTime 0 0) [] String.EmptyString.

Lemma fixed_rate_numbering_witness :
  let result :=
    addFeatures seconds_to_frames seconds_to_index 44100 fixed_output 0
      [untimed; untimed; untimed] in
  fixedRateFeatureNo (snd result) =
    fixedRateFeatureNo fixed_output + Z.of_nat (length [untimed; untimed; untimed]) /\
  fst result =
    filed seconds_to_frames 44100 fixed_output (fixedRateFeatureNo fixed_output)
      [untimed; untimed; untimed].
Proof.
  apply (fixed_rate_numbering seconds_to_frames seconds_to_index 44100 fixed_output 0
           [untimed; untimed; untimed]);
    [reflexivity | repeat constructor | vm_compute; discriminate | reflexivity].
Defined.

Example routing_scenario :
  fst (addFeatures seconds_to_frames seconds_to_index 44100 fixed_output 0
         [untimed; untimed; untimed]) =
    [AddInstant 0 (Plain String.EmptyString); AddInstant 441 (Plain String.EmptyString);
     AddInstant 882 (Plain String.EmptyString)] /\
  fst (addFeature seconds_to_frames seconds_to_index 44100 flexi_output 512 negative_velocity) =
    [AddFlexiNote 512 (Float32.of_Z 60) 10 Float32.one (Plain String.EmptyString)].
Proof. split; vm_compute; reflexivity. Qed.

End AddFeatureFacts.

(** ** FeatureExtractionModelTransformer: the frames handed to the plugin *)

Module GetFramesFacts.

Import Transformer.

(** A block written over a part of the same length. *)
Lemma write_middle (before old data rest : list Float32.float) :
  length data = length old ->
  write (length before) data (before ++ old ++ rest) = before ++ data ++ rest.
Proof.
  intros Hlen. induction before as [|a before IH]; cbn [length app write].
  - revert old Hlen. induction data as [|v data IH]; intros old Hlen.
    + destruct old; [|discriminate]. cbn [app]. destruct rest; reflexivity.
    + destruct old as [|b old]; [discriminate|]. cbn [app write]. f_equal.
      apply IH. cbn in Hlen. lia.
  - f_equal. exact IH.
Qed.

(** A buffer cut at two positions. *)
Lemma cut_twice (i j : nat) (b : list Float32.float) :
  (i <= j)%nat -> (j <= length b)%nat ->
  exists before old rest,
    b = before ++ old ++ rest /\ length before = i /\ length old = (j - i)%nat /\
    before = firstn i b /\ rest = skipn j b.
Proof.
  intros Hij Hj. exists (firstn i b), (firstn (j - i) (skipn i b)), (skipn j b).
  split; [|split; [|split; [|split; reflexivity]]].
  - rewrite <- (firstn_skipn i b) at 1. f_equal.
    rewrite <- (firstn_skipn (j - i) (skipn i b)) at 1. f_equal.
    rewrite skipn_skipn. f_equal. lia.
  - rewrite length_firstn. lia.
  - rewrite length_firstn, length_skipn. lia.
Qed.

Section Single.

Variable getData : Z -> Z -> Z -> list Float32.float.
Variable getDataRange : Z -> Z -> Z -> Z -> Z * list (list Float32.float).

(** What the mixdown of several channels is divided by. *)
Definition scaled (inputChannel inputChannelCount : Z) (data : list Float32.float)
    : list Float32.float :=
  if (inputChannel =? -1) && (inputChannelCount >? 1)
  then map (fun x => Float32.div x (Float32.of_Z inputChannelCount)) data
  else data.

(** The writes after the leading zeros: the data, the division and the
    zeros behind the data. *)
Lemma filled (inputChannel inputChannelCount : Z)
    (before old stale rest data : list Float32.float) :
  length data = length old ->
  let offset := Z.of_nat (length before) in
  let size := Z.of_nat (length old + length stale) in
  let b0 := before ++ old ++ stale ++ rest in
  let b1 := write (Z.to_nat offset) data b0 in
  let b2 :=
    if (inputChannel =? -1) && (inputChannelCount >? 1)
    then divide offset size (Float32.of_Z inputChannelCount) b1 else b1 in
  write (Z.to_nat (Z.of_nat (length data) + offset)) (zeros (size - Z.of_nat (length data))) b2 =
    before ++ scaled inputChannel inputChannelCount data ++
    zeros (size - Z.of_nat (length data)) ++ rest.
Proof.
  intros Hlen. cbv zeta. rewrite Nat2Z.id.
  rewrite (write_middle before old data (stale ++ rest) Hlen).
  assert (Hzeros : length (zeros (Z.of_nat (length old + length stale) - Z.of_nat (length data)))
                   = length stale).
  { unfold zeros. rewrite repeat_length. lia. }
  assert (Hfinal : forall d', length d' = length data -> forall stale',
            length stale' = length stale ->
            write (Z.to_nat (Z.of_nat (length data) + Z.of_nat (length before)))
              (zeros (Z.of_nat (length old + length stale) - Z.of_nat (length data)))
              (before ++ d' ++ stale' ++ rest) =
            before ++ d' ++
            zeros (Z.of_nat (length old + length stale) - Z.of_nat (length data)) ++ rest).
  { intros d' Hd' stale' Hs'.
    replace (Z.to_nat (Z.of_nat (length data) + Z.of_nat (length before)))
      with (length (before ++ d')) by (rewrite length_app; lia).
    rewrite (app_assoc before d'), (write_middle (before ++ d') stale' _ rest)
      by (rewrite Hzeros; symmetry; exact Hs').
    rewrite <- app_assoc. reflexivity. }
  unfold scaled. destruct ((inputChannel =? -1) && (inputChannelCount >? 1)).
  - unfold divide. rewrite !Nat2Z.id.
    rewrite ListFacts.skipn_length_app.
    replace (firstn (length old + length stale) (data ++ stale ++ rest))
      with (data ++ stale).
    2:{ rewrite app_assoc. rewrite <- Hlen.
        replace (length data + length stale)%nat with (length (data ++ stale))
          by apply length_app.
        symmetry. apply ListFacts.firstn_length_app. }
    rewrite (app_assoc data stale rest).
    rewrite (write_middle before (data ++ stale) _ rest) by apply length_map.
    rewrite map_app, <- app_assoc.
    apply Hfinal; apply length_map.
  - apply Hfinal; reflexivity.
Qed.

(** [getData] writes no more samples than it is asked for. *)
Hypothesis getData_bound :
  forall channel start count,
    Z.of_nat (length (getData channel start count)) <= Z.max 0 count.

(** X22: For one channel with an input model, and a buffer of at least size
    samples, getFrames fills the first size samples: zeros for the frames
    before frame 0, then the samples getData delivers from frame max(0,
    startFrame) (each divided by the input's channel count when the mix of
    more than one channel is read), then zeros for what getData did not
    deliver; the division does not leave stale values there, and the buffer
    beyond size is untouched. getData is assumed to deliver no more samples
    than asked for. *)
Theorem getFrames_pads_with_zeros (inputChannel inputChannelCount startFrame size : Z)
    (b : list Float32.float) :
  0 <= size <= Z.of_nat (length b) ->
  let lead := Z.min size (Z.max 0 (- startFrame)) in
  let data := getData inputChannel (Z.max 0 startFrame) (size - lead) in
  getFrames getData getDataRange true inputChannel inputChannelCount 1 startFrame size [b] =
    [zeros lead ++ scaled inputChannel inputChannelCount data ++
     zeros (size - lead - Z.of_nat (length data)) ++ skipn (Z.to_nat size) b].
Proof.
  intros Hsize. cbv zeta. unfold getFrames.
  change (1 =? 1) with true. cbv iota. cbn [negb].
  change (Z.to_nat 1) with 1%nat.
  assert (Hon : forall f x, on_channels 1 f [x] = [f x]) by reflexivity.
  destruct (Z.ltb_spec startFrame 0) as [Hneg|Hpos]; cbn [andb].
  - (* frames before the start of the input *)
    rewrite Hon.
    destruct (Z.leb_spec (size - - startFrame) 0) as [Hnone|Hsome].
    + replace (Z.min size (Z.max 0 (- startFrame))) with size by lia.
      replace (Z.min size (- startFrame)) with size by lia.
      pose proof (getData_bound inputChannel (Z.max 0 startFrame) (size - size)) as Hb.
      destruct (getData inputChannel (Z.max 0 startFrame) (size - size)) as [|x data];
        [|cbn [length] in Hb; lia].
      unfold scaled. destruct (_ && _); cbn [map app length].
      all: replace (size - size - Z.of_nat 0) with 0 by lia.
      all: change (zeros 0) with (@nil Float32.float); cbn [app].
      all: destruct (cut_twice 0 (Z.to_nat size) b ltac:(lia) ltac:(lia))
             as (before & old & rest & E & Hb0 & Hold & _ & Hrest).
      all: destruct before; [|discriminate]; cbn [app] in E.
      all: rewrite <- Hrest; rewrite E at 1.
      all: apply (f_equal (fun x => [x])).
      all: apply (write_middle [] old (zeros size) rest).
      all: unfold zeros; rewrite repeat_length; lia.
    + replace (Z.min size (Z.max 0 (- startFrame))) with (- startFrame) by lia.
      replace (Z.min size (- startFrame)) with (- startFrame) by lia.
      replace (Z.max 0 startFrame) with 0 by lia.
      set (data := getData inputChannel 0 (size - - startFrame)).
      pose proof (getData_bound inputChannel 0 (size - - startFrame)) as Hb. fold data in Hb.
      cbn [on_first].
      set (o := Z.to_nat (- startFrame)). set (g := length data) in *.
      destruct (cut_twice o (o + g) b ltac:(lia) ltac:(lia))
        as (before & old & rest1 & E1 & Hbefore & Hold & _ & Hrest1).
      destruct (cut_twice 0 (Z.to_nat size - (o + g)) rest1 ltac:(lia)
                  ltac:(rewrite Hrest1, length_skipn; lia))
        as (nil' & stale & rest & E2 & Hnil & Hstale & _ & Hrest).
      destruct nil'; [|discriminate]. cbn [app] in E2.
      assert (Hzb : write 0 (zeros (- startFrame)) b = zeros (- startFrame) ++ old ++ stale ++ rest).
      { rewrite E1, E2.
        apply (write_middle [] before (zeros (- startFrame)) (old ++ stale ++ rest)).
        unfold zeros; rewrite repeat_length; lia. }
      rewrite Hzb.
      assert (Hzl : length (zeros (- startFrame)) = o)
        by (unfold zeros; apply repeat_length).
      pose proof (filled inputChannel inputChannelCount (zeros (- startFrame)) old stale rest
                    data ltac:(fold g; lia)) as Hfill.
      cbv zeta in Hfill. rewrite Hzl in Hfill.
      replace (Z.of_nat o) with (- startFrame) in Hfill by lia.
      replace (Z.of_nat (length old + length stale)) with (size - - startFrame) in Hfill by lia.
      fold g in Hfill.
      assert (Hrest' : rest = skipn (Z.to_nat size) b).
      { rewrite Hrest, Hrest1, skipn_skipn. f_equal. lia. }
      rewrite <- Hrest'.
      destruct ((inputChannel =? -1) && (inputChannelCount >? 1)); cbn [on_first];
        rewrite Hon; exact (f_equal (fun x => [x]) Hfill).
  - (* frames of the input *)
    replace (Z.min size (Z.max 0 (- startFrame))) with 0 by lia.
    replace (Z.max 0 startFrame) with startFrame by lia.
    rewrite !Z.sub_0_r. change (zeros 0) with (@nil Float32.float). cbn [app].
    set (data := getData inputChannel startFrame size).
    pose proof (getData_bound inputChannel startFrame size) as Hb. fold data in Hb.
    cbn [on_first]. set (g := length data) in *.
    destruct (cut_twice g (Z.to_nat size) b ltac:(lia) ltac:(lia))
      as (old & stale & rest & E & Hold & Hstale & _ & Hrest).
    pose proof (filled inputChannel inputChannelCount [] old stale rest data
                  ltac:(fold g; lia)) as Hfill.
    cbv zeta in Hfill. cbn [length app] in Hfill. change (Z.of_nat 0) with 0 in Hfill.
    replace (Z.of_nat (length old + length stale)) with size in Hfill by lia.
    fold g in Hfill. rewrite <- E in Hfill. rewrite <- Hrest.
    destruct ((inputChannel =? -1) && (inputChannelCount >? 1)); cbn [on_first];
      rewrite Hon; exact (f_equal (fun x => [x]) Hfill).
Qed.

End Single.

(** An input of three samples, read by position. *)
Definition signal : list Float32.float :=
  [Float32.of_Z 2; Float32.of_Z 4; Float32.of_Z 6].

Definition signal_data (channel start count : Z) : list Float32.float :=
  firstn (Z.to_nat count) (skipn (Z.to_nat start) signal).

Definition no_range (minchannel maxchannel start count : Z)
    : Z * list (list Float32.float) := (0, []).

Definition stale_block : list Float32.float :=
  repeat (Float32.of_Z 9) 7.

Lemma signal_data_bound (channel start count : Z) :
  Z.of_nat (length (signal_data channel start count)) <= Z.max 0 count.
Proof.
  unfold signal_data. rewrite length_firstn. lia.
Qed.

Lemma getFrames_pads_with_zeros_witness :
  getFrames signal_data no_range true (-1) 2 1 (-2) 6 [stale_block] =
    [zeros 2 ++ scaled (-1) 2 (signal_data (-1) 0 4) ++
     zeros (6 - 2 - 3) ++ skipn 6 stale_block].
Proof.
  apply (getFrames_pads_with_zeros signal_data no_range signal_data_bound (-1) 2 (-2) 6
           stale_block).
  vm_compute. split; discriminate.
Defined.

(** Two frames before the start are zeros, the three samples of the input
    are halved for the mean of two channels, the frame the input does not
    have is zero although the division went over it, and the seventh
    sample of the buffer is not touched. *)
Example getFrames_scenario :
  getFrames signal_data no_range true (-1) 2 1 (-2) 6 [stale_block] =
    [[Float32.zero; Float32.zero; Float32.of_Z 1; Float32.of_Z 2; Float32.of_Z 3;
      Float32.zero; Float32.of_Z 9]].
Proof. vm_compute. reflexivity. Qed.

End GetFramesFacts.

(** ** CodedAudioFileReader *)

Module ReaderFacts.

Import CodedAudioFileReader.
Import Float32Facts.

(** *** Results *)

Lemma bind_ok {A B} (x : Result A) (k : A -> Result B) b :
  bind x k = Ok b -> exists a, x = Ok a /\ k a = Ok b.
Proof. destruct x as [a|f]; cbn; [eauto | discriminate]. Qed.

Lemma bind_same {A B} (x : Result A) (k1 k2 : A -> Result B) :
  (forall a, x = Ok a -> k1 a = k2 a) -> bind x k1 = bind x k2.
Proof. destruct x as [a|f]; cbn; [auto | reflexivity]. Qed.

Lemma foldM_app {A B} (f : B -> A -> Result B) l1 l2 : forall b,
  foldM f (l1 ++ l2) b = bind (foldM f l1 b) (foldM f l2).
Proof.
  induction l1 as [|a l1 IH]; intros b; [reflexivity|].
  cbn [app foldM]. destruct (f b a) as [b'|e]; cbn [bind]; [apply IH | reflexivity].
Qed.

(** A property that every step keeps holds at the end of a loop. *)
Lemma foldM_keeps {A B} (P : B -> Prop) (f : B -> A -> Result B) :
  (forall b a b', P b -> f b a = Ok b' -> P b') ->
  forall l b b', P b -> foldM f l b = Ok b' -> P b'.
Proof.
  intros Hstep. induction l as [|a l IH]; intros b b' Hb H; cbn [foldM] in H.
  - inversion H. subst. exact Hb.
  - destruct (bind_ok _ _ _ H) as (b1 & H1 & H2). exact (IH _ _ (Hstep _ _ _ Hb H1) H2).
Qed.

(** *** The peak tracked by the normalising loop *)

(** A sample the loop can take as a new peak of a silent signal:
    [fabsf(sample) > 0.f]. *)
Definition audible (s : Float32.float) : bool :=
  Float32.ltb Float32.zero (Float32.fabsf s).

Lemma abs_idempotent x : SFabs (SFabs x) = SFabs x.
Proof. destruct x; reflexivity. Qed.

Lemma ltb_abs_trans a v b :
  SFltb (SFabs a) (SFabs v) = true ->
  SFltb (SFabs a) (SFabs b) = false ->
  SFltb (SFabs v) (SFabs b) = false.
Proof.
  destruct a as [sa|sa| |sa ma ea], v as [sv|sv| |sv mv ev], b as [sb|sb| |sb mb eb];
    cbn; try reflexivity; try discriminate.
  unfold SFltb; cbn.
  change (Pos.compare_cont Eq) with Pos.compare.
  destruct (Z.compare_spec ea ev); destruct (Z.compare_spec ea eb);
    destruct (Z.compare_spec ev eb); try discriminate; try reflexivity; try lia;
    destruct (Pos.compare_spec ma mv); destruct (Pos.compare_spec ma mb);
    destruct (Pos.compare_spec mv mb); try discriminate; try reflexivity; lia.
Qed.

Lemma ltb_abs_irrefl x : SFltb (SFabs x) (SFabs x) = false.
Proof.
  destruct x as [s|s| |s m e]; try reflexivity.
  unfold SFltb; cbn. rewrite Z.compare_refl.
  change (Pos.compare_cont Eq) with Pos.compare. rewrite Pos.compare_refl. reflexivity.
Qed.

(** What the loop has established once it has run over [seen]. *)
Definition tracked (seen : list Float32.float) (mg : Float32.float * Float32.float) : Prop :=
  Forall (fun s => Float32.ltb (fst mg) (Float32.fabsf s) = false) seen /\
  ((mg = (Float32.zero, Float32.one) /\ Forall (fun s => audible s = false) seen) \/
   (exists p, In p seen /\ audible p = true /\ fst mg = Float32.fabsf p /\
              snd mg = Float32.div Float32.one (fst mg))).

Lemma tracked_step seen mg s :
  tracked seen mg -> tracked (seen ++ [s]) (track_peak mg s).
Proof.
  intros [Hall Hcases]. unfold track_peak.
  assert (Habs : exists a, fst mg = SFabs a).
  { destruct Hcases as [[-> _]|(p & _ & _ & -> & _)];
      [exists Float32.zero; reflexivity | exists p; reflexivity]. }
  destruct Habs as [a Ha].
  destruct (Float32.ltb (fst mg) (Float32.fabsf s)) eqn:Hlt.
  - split; cbn [fst snd].
    + apply Forall_app; split.
      * revert Hall. apply Forall_impl. intros b Hb.
        unfold Float32.ltb, Float32.fabsf in *. rewrite Ha in *.
        apply (ltb_abs_trans a s b); assumption.
      * constructor; [apply ltb_abs_irrefl | constructor].
    + right. exists s. split; [apply in_or_app; right; left; reflexivity|].
      split; [|split; reflexivity].
      destruct Hcases as [[-> _]|(p & _ & Hp & Hfst & _)]; [exact Hlt|].
      unfold audible, Float32.ltb, Float32.fabsf, Float32.zero in *.
      rewrite Hfst in Hlt.
      destruct (SFltb (S754_zero false) (SFabs s)) eqn:E; [reflexivity|].
      change (S754_zero false) with (SFabs (S754_zero false)) in Hp, E.
      rewrite (ltb_abs_trans _ _ _ Hp E) in Hlt. discriminate.
  - split.
    + apply Forall_app; split; [exact Hall | constructor; [exact Hlt | constructor]].
    + destruct Hcases as [[-> Hsil]|(p & Hin & Hp & Hfst & Hsnd)].
      * left. split; [reflexivity|]. apply Forall_app; split; [exact Hsil|].
        constructor; [exact Hlt | constructor].
      * right. exists p. split; [apply in_or_app; left; exact Hin|]. auto.
Qed.

Lemma tracked_fold samples : forall seen mg,
  tracked seen mg -> tracked (seen ++ samples) (fold_left track_peak samples mg).
Proof.
  induction samples as [|s samples IH]; intros seen mg H; cbn [fold_left].
  - rewrite app_nil_r. exact H.
  - replace (seen ++ s :: samples) with ((seen ++ [s]) ++ samples)
      by (rewrite <- app_assoc; reflexivity).
    apply IH, tracked_step, H.
Qed.

Lemma tracked_start : tracked [] (Float32.zero, Float32.one).
Proof. split; [constructor | left; split; [reflexivity | constructor]]. Qed.


(** *** What a push leaves *)

(** What [pushBufferNonResampling] stores of the samples. *)
Definition store (normalised : bool) (samples : list Float32.float) : list Float32.float :=
  if normalised then samples else map clip_sample samples.

Lemma store_app normalised l1 l2 :
  store normalised (l1 ++ l2) = store normalised l1 ++ store normalised l2.
Proof. unfold store. destruct normalised; [reflexivity | apply map_app]. Qed.

Lemma store_length normalised l : length (store normalised l) = length l.
Proof. unfold store. destruct normalised; [reflexivity | apply length_map]. Qed.

Section Pushes.

Context {R F : Type}.
Variable lib : External R F.

(** The fields no push changes. *)
Definition shape (r : Reader R F) :=
  (m_cacheMode r, m_initialised r, isOK r, m_channelCount r, m_fileRate r,
   m_sampleRate r, m_normalised r, m_cacheFileWritePtr r, m_cacheFileReader r).

Lemma shape_fields (r r' : Reader R F) :
  shape r' = shape r ->
  m_cacheMode r' = m_cacheMode r /\ m_initialised r' = m_initialised r /\
  isOK r' = isOK r /\ m_channelCount r' = m_channelCount r /\
  m_fileRate r' = m_fileRate r /\ m_sampleRate r' = m_sampleRate r /\
  m_normalised r' = m_normalised r /\ m_cacheFileWritePtr r' = m_cacheFileWritePtr r /\
  m_cacheFileReader r' = m_cacheFileReader r.
Proof. unfold shape. intros H. inversion H. auto 10. Qed.

Lemma pushBufferNonResampling_inv buffer sz (r r' : Reader R F) :
  pushBufferNonResampling lib buffer sz r = Ok r' ->
  let count := sz * m_channelCount r in
  let samples := buffer_prefix buffer count in
  count <= Z.of_nat (length buffer) /\
  shape r' = shape r /\ m_resampler r' = m_resampler r /\
  m_fileFrameCount r' = m_fileFrameCount r /\
  m_frameCount r' = m_frameCount r + sz /\
  (m_max r', m_gain r') =
    (if m_normalised r then fold_left track_peak samples (m_max r, m_gain r)
     else (m_max r, m_gain r)) /\
  match m_cacheMode r with
  | CacheInMemory =>
      0 <= count /\ m_data r' = m_data r ++ store (m_normalised r) samples /\
      m_cacheFile r' = m_cacheFile r
  | CacheInTemporaryFile =>
      m_data r' = m_data r /\
      exists written,
        sz <= written /\
        sf_writef_float lib (m_cacheFileWritePtr r) (m_cacheFile r)
          (store (m_normalised r) samples ++ skipn (Z.to_nat count) buffer) sz =
          (m_cacheFile r', written)
  end.
Proof.
  intros H. cbv zeta. unfold pushBufferNonResampling in H.
  destruct (Z.ltb_spec (Z.of_nat (length buffer)) (sz * m_channelCount r)) as [|Hlen];
    [discriminate|].
  split; [exact Hlen|].
  destruct (if m_normalised r
            then fold_left track_peak (buffer_prefix buffer (sz * m_channelCount r))
                   (m_max r, m_gain r)
            else (m_max r, m_gain r)) as [mx gn] eqn:Epeak.
  cbn [counted m_cacheMode m_cacheFileWritePtr m_cacheFile m_data] in H.
  unfold store.
  destruct (m_cacheMode r) eqn:Emode.
  - destruct (sf_writef_float lib _ _ _ sz) as [file written] eqn:Ew.
    destruct (Z.ltb_spec written sz); [discriminate|].
    inversion H. subst r'. unfold shape. cbn. rewrite Emode.
    repeat split; try reflexivity. exists written. split; [assumption | reflexivity].
  - destruct (Z.ltb_spec (sz * m_channelCount r) 0); [discriminate|].
    inversion H. subst r'. unfold shape. cbn. rewrite Emode.
    repeat split; try reflexivity. assumption.
Qed.

(** A property of the reader that holds after every push that returns,
    once it withstands the store of samples and the changes of the
    resampler and of the count of file frames. *)
Section Lifting.

Variable P : Reader R F -> Prop.
Hypothesis P_store : forall buffer sz r r',
  P r -> pushBufferNonResampling lib buffer sz r = Ok r' -> P r'.
Hypothesis P_resampler : forall rs r, P r -> P (with_resampler (Some rs) r).

Lemma pushBuffer_keeps_counted buffer sz final r r' :
  P (countFileFrames sz r) -> pushBuffer lib buffer sz final r = Ok r' -> P r'.
Proof.
  intros Hc H. unfold pushBuffer in H.
  set (r1 := countFileFrames sz r) in *.
  destruct (m_resampler r1) as [rs|]; [|exact (P_store _ _ _ _ Hc H)].
  destruct (negb (Float64.eqb (ratioOf r1) (Float64.of_Z 1)));
    [|exact (P_store _ _ _ _ Hc H)].
  unfold pushBufferResampling in H.
  destruct (bind_ok _ _ _ H) as ([rs2 r2] & H1 & H2). cbn [fst snd] in H2.
  assert (P2 : P r2).
  { unfold resampleBlock in H1. destruct (0 <? sz).
    - destruct (resampleInterleaved lib rs buffer sz (ratioOf r1) false)
        as [[rs' out] resampled].
      destruct (bind_ok _ _ _ H1) as (r3 & H3 & H4). inversion H4. subst.
      exact (P_store _ _ _ _ (P_resampler _ _ Hc) H3).
    - inversion H1. subst. exact Hc. }
  destruct final.
  - unfold flushClipped in H2.
    destruct (flushResampler lib rs2 (ratioOf r1) r2) as [[rs3 out] resampled].
    exact (P_store _ _ _ _ (P_resampler _ _ P2) H2).
  - inversion H2. subst. exact P2.
Qed.

Hypothesis P_count : forall sz r, P r -> P (countFileFrames sz r).

Lemma pushBuffer_keeps buffer sz final r r' :
  P r -> pushBuffer lib buffer sz final r = Ok r' -> P r'.
Proof. intros Hr. apply pushBuffer_keeps_counted, P_count, Hr. Qed.

Lemma push_all_keeps blocks r r' :
  P r -> push_all lib blocks r = Ok r' -> P r'.
Proof.
  unfold push_all. apply (foldM_keeps P).
  intros b a b' Hb H. exact (pushBuffer_keeps _ _ _ _ _ Hb H).
Qed.

Lemma decode_keeps blocks last r r' :
  P r -> decode lib blocks last r = Ok r' -> P r'.
Proof.
  intros Hr H. unfold decode in H. destruct (bind_ok _ _ _ H) as (r1 & H1 & H2).
  exact (pushBuffer_keeps _ _ _ _ _ (push_all_keeps _ _ _ Hr H1) H2).
Qed.

End Lifting.

(** No push changes the shape of the reader. *)
Lemma pushBuffer_shape buffer sz final (r r' : Reader R F) :
  pushBuffer lib buffer sz final r = Ok r' -> shape r' = shape r.
Proof.
  apply (pushBuffer_keeps (fun x => shape x = shape r)).
  - intros b s x x' Hx H. destruct (pushBufferNonResampling_inv _ _ _ _ H) as (_ & E & _).
    rewrite E. exact Hx.
  - intros rs x Hx. exact Hx.
  - intros s x Hx. exact Hx.
  - reflexivity.
Qed.

(** *** Pushes without resampler *)

Lemma pushBuffer_plain buffer sz final (r : Reader R F) :
  m_resampler r = None ->
  pushBuffer lib buffer sz final r =
    pushBufferNonResampling lib buffer sz (countFileFrames sz r).
Proof.
  intros Hrs. unfold pushBuffer.
  change (m_resampler (countFileFrames sz r)) with (m_resampler r). rewrite Hrs. reflexivity.
Qed.

(** A block that the reader can take: the buffer holds the samples of its
    frames. *)
Definition fits (channels : Z) (b : list Float32.float * Z) : Prop :=
  0 <= snd b * channels <= Z.of_nat (length (fst b)).

Lemma pushBufferNonResampling_memory buffer sz (r : Reader R F) :
  m_cacheMode r = CacheInMemory -> fits (m_channelCount r) (buffer, sz) ->
  exists r', pushBufferNonResampling lib buffer sz r = Ok r'.
Proof.
  intros Hmode [H0 Hlen]. cbn [fst snd] in *. unfold pushBufferNonResampling.
  destruct (Z.ltb_spec (Z.of_nat (length buffer)) (sz * m_channelCount r)); [lia|].
  destruct (if m_normalised r then _ else _) as [mx gn].
  cbn [counted m_cacheMode]. rewrite Hmode.
  destruct (Z.ltb_spec (sz * m_channelCount r) 0); [lia|]. eauto.
Qed.

(** The floats a sequence of pushes hands over. *)
Definition pushed (channels : Z) (blocks : list (list Float32.float * Z))
    : list Float32.float :=
  flat_map (fun b => buffer_prefix (fst b) (snd b * channels)) blocks.

Definition frames_of (blocks : list (list Float32.float * Z)) : Z :=
  fold_right (fun b n => snd b + n) 0 blocks.

Lemma frames_of_app blocks last :
  frames_of (blocks ++ [last]) = frames_of blocks + snd last.
Proof.
  induction blocks as [|b blocks IH]; cbn [app frames_of fold_right] in *; [lia|].
  fold (frames_of (blocks ++ [last])). fold (frames_of blocks). lia.
Qed.

(** In memory and without resampler every block that fits is taken. *)
Lemma pushBuffer_memory buffer sz final (r : Reader R F) :
  m_cacheMode r = CacheInMemory -> m_resampler r = None ->
  fits (m_channelCount r) (buffer, sz) ->
  exists r',
    pushBuffer lib buffer sz final r = Ok r' /\
    shape r' = shape r /\ m_resampler r' = None /\
    m_data r' =
      m_data r ++ store (m_normalised r) (buffer_prefix buffer (sz * m_channelCount r)) /\
    (m_max r', m_gain r') =
      (if m_normalised r
       then fold_left track_peak (buffer_prefix buffer (sz * m_channelCount r))
              (m_max r, m_gain r)
       else (m_max r, m_gain r)) /\
    m_frameCount r' = m_frameCount r + sz /\
    m_fileFrameCount r' = m_fileFrameCount r + sz.
Proof.
  intros Hmode Hrs Hfits. rewrite (pushBuffer_plain _ _ _ _ Hrs).
  destruct (pushBufferNonResampling_memory buffer sz (countFileFrames sz r) Hmode Hfits)
    as [r' H].
  exists r'. split; [exact H|].
  destruct (pushBufferNonResampling_inv _ _ _ _ H) as (_ & Es & Er & Eff & Ef & Ep & Em).
  cbv zeta in *.
  change (m_cacheMode (countFileFrames sz r)) with (m_cacheMode r) in Em.
  rewrite Hmode in Em. destruct Em as (_ & Ed & _).
  split; [exact Es|]. split; [rewrite Er; exact Hrs|].
  split; [exact Ed|]. split; [exact Ep|]. split; [exact Ef | exact Eff].
Qed.

Lemma push_all_memory blocks : forall (r : Reader R F),
  m_cacheMode r = CacheInMemory -> m_resampler r = None ->
  Forall (fits (m_channelCount r)) blocks ->
  exists r',
    push_all lib blocks r = Ok r' /\
    shape r' = shape r /\ m_resampler r' = None /\
    m_data r' = m_data r ++ store (m_normalised r) (pushed (m_channelCount r) blocks) /\
    (m_max r', m_gain r') =
      (if m_normalised r
       then fold_left track_peak (pushed (m_channelCount r) blocks) (m_max r, m_gain r)
       else (m_max r, m_gain r)) /\
    m_frameCount r' = m_frameCount r + frames_of blocks /\
    m_fileFrameCount r' = m_fileFrameCount r + frames_of blocks.
Proof.
  induction blocks as [|[buffer sz] blocks IH]; intros r Hmode Hrs Hfits.
  - exists r. unfold push_all, pushed, frames_of, store.
    cbn [foldM flat_map fold_right fold_left].
    rewrite !Z.add_0_r.
    destruct (m_normalised r); cbn [map]; rewrite app_nil_r; auto 10.
  - inversion Hfits as [|? ? Hb Hrest]; subst.
    destruct (pushBuffer_memory buffer sz false r Hmode Hrs Hb)
      as (r1 & H1 & Es1 & Er1 & Ed1 & Ep1 & Ef1 & Eff1).
    destruct (shape_fields _ _ Es1) as (Em1 & _ & _ & Ec1 & _ & _ & En1 & _).
    destruct (IH r1) as (r2 & H2 & Es2 & Er2 & Ed2 & Ep2 & Ef2 & Eff2);
      [rewrite Em1; exact Hmode | exact Er1 | rewrite Ec1; exact Hrest |].
    exists r2. unfold push_all in *. cbn [foldM fst snd]. rewrite H1. cbn [bind].
    split; [exact H2|]. split; [rewrite Es2; exact Es1|]. split; [exact Er2|].
    cbn [pushed flat_map frames_of fold_right fst snd].
    fold (pushed (m_channelCount r) blocks). fold (frames_of blocks).
    rewrite Ec1, En1 in *. split; [|split; [|split]].
    + rewrite Ed2, Ed1, store_app, app_assoc. reflexivity.
    + rewrite Ep2. destruct (m_normalised r).
      * rewrite fold_left_app, <- Ep1. reflexivity.
      * exact Ep1.
    + lia.
    + lia.
Qed.

Lemma decode_memory blocks last (r : Reader R F) :
  m_cacheMode r = CacheInMemory -> m_resampler r = None ->
  Forall (fits (m_channelCount r)) (blocks ++ [last]) ->
  exists r',
    decode lib blocks last r = Ok r' /\
    shape r' = shape r /\ m_resampler r' = None /\
    m_data r' =
      m_data r ++ store (m_normalised r) (pushed (m_channelCount r) (blocks ++ [last])) /\
    m_frameCount r' = m_frameCount r + frames_of (blocks ++ [last]) /\
    m_fileFrameCount r' = m_fileFrameCount r + frames_of (blocks ++ [last]).
Proof.
  intros Hmode Hrs Hfits.
  destruct (push_all_memory (blocks ++ [last]) r Hmode Hrs Hfits)
    as (r' & H & Es & Er & Ed & _ & Ef & Eff).
  exists r'. split; [|auto].
  unfold decode. unfold push_all in *. rewrite foldM_app in H.
  destruct (bind_ok _ _ _ H) as (r1 & H1 & H2). rewrite H1. cbn [bind].
  cbn [foldM] in H2. destruct (bind_ok _ _ _ H2) as (r2 & H3 & H4).
  inversion H4. subst r2.
  assert (Hrs1 : m_resampler r1 = None).
  { apply (foldM_keeps (fun x => m_resampler x = None /\ m_cacheMode x = CacheInMemory)
             (fun r b => pushBuffer lib (fst b) (snd b) false r)) with (l := blocks) (b := r);
      [|auto|exact H1].
    intros b a b' [Hb Hm] Hba. rewrite (pushBuffer_plain _ _ _ _ Hb) in Hba.
    destruct (pushBufferNonResampling_inv _ _ _ _ Hba) as (_ & Es' & Er' & _).
    destruct (shape_fields _ _ Es') as (Em' & _). split.
    - rewrite Er'. exact Hb.
    - rewrite Em'. exact Hm. }
  rewrite (pushBuffer_plain _ _ false _ Hrs1) in H3.
  rewrite (pushBuffer_plain _ _ true _ Hrs1). exact H3.
Qed.

End Pushes.

(** *** A normalising reader *)

(** A peak in [[2^-126, 2^126)]: a normal float whose reciprocal is normal. *)
Definition normal_peak (x : Float32.float) : bool :=
  match x with
  | S754_finite false m e =>
      (2 ^ 23 <=? Zpos m) && (Zpos m <? 2 ^ 24) && (-149 <=? e) && (e <=? 102)
  | _ => false
  end.

Lemma peak_read_back p :
  normal_peak (Float32.fabsf p) = true ->
  let y := Float32.mul p (Float32.div Float32.one (Float32.fabsf p)) in
  Float32.fabsf y = Float32.one \/ Float32.fabsf y = below_one.
Proof.
  destruct p as [sp|sp| |sp m e]; try discriminate.
  unfold normal_peak, Float32.fabsf. cbn [SFabs]. intros Hp.
  apply andb_prop in Hp. destruct Hp as [Hp He2]. apply andb_prop in Hp. destruct Hp as [Hp He1].
  apply andb_prop in Hp. destruct Hp as [Hm1 Hm2].
  apply Z.leb_le in Hm1, He1, He2. apply Z.ltb_lt in Hm2.
  cbv zeta.
  destruct (peak_scaled sp m e ltac:(lia) ltac:(lia)) as [-> | ->]; [left | right]; reflexivity.
Qed.

Lemma below_peak_read_back p s :
  normal_peak (Float32.fabsf p) = true ->
  valid_binary Float32.prec Float32.emax s = true ->
  Float32.ltb (Float32.fabsf p) (Float32.fabsf s) = false ->
  let g := Float32.div Float32.one (Float32.fabsf p) in
  Float32.ltb (Float32.fabsf (Float32.mul p g)) (Float32.fabsf (Float32.mul s g)) = false.
Proof.
  destruct p as [sp|sp| |sp m e]; try discriminate.
  unfold normal_peak. cbn [Float32.fabsf SFabs]. intros Hp.
  apply andb_prop in Hp. destruct Hp as [Hp He2]. apply andb_prop in Hp. destruct Hp as [Hp He1].
  apply andb_prop in Hp. destruct Hp as [Hm1 Hm2].
  apply Z.leb_le in Hm1, He1, He2. apply Z.ltb_lt in Hm2.
  intros Hvalid Hle. apply scaled_below; try assumption; lia.
Qed.

Section Normalising.

Context {R F : Type}.
Variable lib : External R F.

(** A normalising reader that keeps its samples in memory: the peak has
    been tracked over the samples stored, and these make up the frames
    counted. *)
Definition normal (r : Reader R F) : Prop :=
  m_cacheMode r = CacheInMemory /\ m_normalised r = true /\
  m_initialised r = true /\ isOK r = true /\
  tracked (m_data r) (m_max r, m_gain r) /\
  Z.of_nat (length (m_data r)) = m_frameCount r * m_channelCount r.

Lemma prefix_length (buffer : list Float32.float) count :
  0 <= count <= Z.of_nat (length buffer) ->
  Z.of_nat (length (buffer_prefix buffer count)) = count.
Proof. intros H. unfold buffer_prefix. rewrite length_firstn. lia. Qed.

Lemma normal_store buffer sz (r r' : Reader R F) :
  normal r -> pushBufferNonResampling lib buffer sz r = Ok r' -> normal r'.
Proof.
  intros (Hmode & Hnorm & Hinit & Hok & Htr & Hlen) H.
  destruct (pushBufferNonResampling_inv _ _ _ _ _ H) as (Hb & Es & _ & _ & Ef & Ep & Em).
  cbv zeta in *. rewrite Hmode in Em. destruct Em as (Hc & Ed & _).
  destruct (shape_fields _ _ Es) as (E1 & E2 & E3 & E4 & _ & _ & E7 & _).
  rewrite Hnorm in *. unfold store in Ed.
  unfold normal. rewrite E1, E2, E3, E4, E7, Ef, Ed, Ep.
  split; [exact Hmode|]. split; [reflexivity|]. split; [exact Hinit|].
  split; [exact Hok|]. split.
  - apply tracked_fold. exact Htr.
  - rewrite length_app, Nat2Z.inj_add, Hlen, prefix_length by lia. ring.
Qed.

Lemma decode_normal blocks last (r r' : Reader R F) :
  normal r -> decode lib blocks last r = Ok r' -> normal r'.
Proof.
  apply (decode_keeps lib normal).
  - intros buffer sz x x'. apply normal_store.
  - intros rs x Hx. exact Hx.
  - intros sz x Hx. exact Hx.
Qed.

Lemma read_back_all (r : Reader R F) :
  normal r ->
  getInterleavedFrames lib 0 (m_frameCount r) r =
    Ok (map (fun f => Float32.mul f (m_gain r)) (m_data r)).
Proof.
  intros (Hmode & Hnorm & Hinit & Hok & _ & Hlen). unfold getInterleavedFrames.
  rewrite Hinit, Hmode, Hok. cbn [negb].
  destruct (Z.eqb_spec (m_frameCount r) 0) as [E|E].
  - rewrite E in Hlen. destruct (m_data r); [reflexivity | cbn [length] in Hlen; lia].
  - cbn zeta. rewrite Z.mul_0_l, Z.add_0_l, <- Hlen.
    replace (Z.of_nat (length (m_data r)) >? Z.of_nat (length (m_data r))) with false
      by (symmetry; rewrite Z.gtb_ltb; apply Z.ltb_irrefl).
    replace (Z.of_nat (length (m_data r)) <? 0) with false
      by (symmetry; apply Z.ltb_ge; lia).
    cbn [Z.ltb Z.compare orb Z.to_nat skipn]. rewrite Nat2Z.id, firstn_all.
    unfold scaled. rewrite Hnorm. reflexivity.
Qed.

(** What normalisation comes to for the samples [stored] once their peak
    has been tracked: no sample exceeds the maximum in magnitude, and once
    an audible sample is among them, the gain is [1 / max], the maximum is
    the magnitude of one of them, and when it lies in [[2^-126, 2^126)]
    that sample times the gain has magnitude [1.0] or the float just below
    [1.0] and no stored [float] times the gain has a greater magnitude. *)
Definition peak_normalised (stored : list Float32.float) (r : Reader R F) : Prop :=
  Forall (fun s => Float32.ltb (m_max r) (Float32.fabsf s) = false) stored /\
  (existsb audible stored = true ->
   m_gain r = Float32.div Float32.one (m_max r) /\
   exists p,
     In p stored /\ Float32.fabsf p = m_max r /\
     (normal_peak (m_max r) = true ->
      (Float32.fabsf (Float32.mul p (m_gain r)) = Float32.one \/
       Float32.fabsf (Float32.mul p (m_gain r)) = below_one) /\
      forall s,
        In s stored -> valid_binary Float32.prec Float32.emax s = true ->
        Float32.ltb (Float32.fabsf (Float32.mul p (m_gain r)))
                    (Float32.fabsf (Float32.mul s (m_gain r))) = false)).

Lemma tracked_peak stored (r : Reader R F) :
  tracked stored (m_max r, m_gain r) -> peak_normalised stored r.
Proof.
  intros [Hall Hcases]. cbn [fst snd] in *. split; [exact Hall|]. intros Haud.
  destruct Hcases as [[_ Hsil]|(p & Hin & Hp & Hmax & Hgain)].
  - apply existsb_exists in Haud. destruct Haud as (s & Hs & Hs').
    rewrite Forall_forall in Hsil. rewrite (Hsil s Hs) in Hs'. discriminate.
  - split; [exact Hgain|]. exists p. split; [exact Hin|]. split; [symmetry; exact Hmax|].
    intros Hnp. rewrite Hgain, Hmax. rewrite Hmax in Hnp. split.
    + apply peak_read_back. exact Hnp.
    + intros s Hs Hvalid. apply below_peak_read_back; try assumption.
      rewrite Forall_forall in Hall. rewrite <- Hmax. apply Hall, Hs.
Qed.

(** What the reader relies on when it writes to the temporary file: the
    frames that [sf_writef_float] has written in full are appended to the
    contents of the file. *)
Definition appends (channels : Z) (contents : F -> list Float32.float) : Prop :=
  forall handle file buffer sz file' written,
    sf_writef_float lib handle file buffer sz = (file', written) -> sz <= written ->
    contents file' = contents file ++ buffer_prefix buffer (sz * channels).

(** A normalising reader that keeps its samples in the temporary file: the
    peak has been tracked over the samples written since [file0]. *)
Definition normal_on_file (channels : Z) (contents : F -> list Float32.float) (file0 : F)
    (r : Reader R F) : Prop :=
  m_cacheMode r = CacheInTemporaryFile /\ m_normalised r = true /\
  m_channelCount r = channels /\
  exists written,
    contents (m_cacheFile r) = contents file0 ++ written /\
    tracked written (m_max r, m_gain r).

Lemma normal_on_file_store channels contents file0 buffer sz (r r' : Reader R F) :
  appends channels contents ->
  normal_on_file channels contents file0 r ->
  pushBufferNonResampling lib buffer sz r = Ok r' ->
  normal_on_file channels contents file0 r'.
Proof.
  intros Happ (Hmode & Hnorm & Hch & written & Hc & Htr) H.
  destruct (pushBufferNonResampling_inv _ _ _ _ _ H) as (_ & Es & _ & _ & _ & Ep & Em).
  cbv zeta in *. rewrite Hmode in Em. destruct Em as (_ & n & Hn & Ew).
  destruct (shape_fields _ _ Es) as (E1 & _ & _ & E4 & _ & _ & E7 & _).
  rewrite Hnorm in *. unfold store, buffer_prefix in Ew. rewrite firstn_skipn in Ew.
  unfold normal_on_file. rewrite E1, E4, E7.
  split; [exact Hmode|]. split; [reflexivity|]. split; [exact Hch|].
  exists (written ++ buffer_prefix buffer (sz * m_channelCount r)). split.
  - rewrite (Happ _ _ _ _ _ _ Ew Hn), Hc, Hch, app_assoc. reflexivity.
  - rewrite Ep. apply tracked_fold. exact Htr.
Qed.

(** C6, as amended.  With [normalise] set, a push hands the samples to the
    store as they are, to [m_data] or to [sf_writef_float], and tracks
    their peak; a read multiplies what the store gives by the gain.  A
    decode into memory without resampler returns and stores the samples
    pushed.  After a decode that returns, with or without resampler, no
    stored sample exceeds the tracked maximum in magnitude; once an
    audible sample has been stored, the gain is [1 / max] and the maximum
    is the magnitude of a stored sample; when it lies in [[2^-126, 2^126)]
    that sample reads back with magnitude [1.0] or the float just below
    [1.0], and no stored [float] reads back with a greater magnitude.  The
    stored samples are those of [m_data], which a read of the whole signal
    gives multiplied by the gain, or those written to the temporary file,
    given that [sf_writef_float] appends what it writes. *)
Theorem normalised_read_back channels fileRate sampleRate resampler file blocks last :
  (forall buffer sz (r r' : Reader R F),
     m_normalised r = true -> pushBufferNonResampling lib buffer sz r = Ok r' ->
     (m_max r', m_gain r') =
       fold_left track_peak (buffer_prefix buffer (sz * m_channelCount r))
         (m_max r, m_gain r) /\
     match m_cacheMode r with
     | CacheInMemory =>
         m_data r' = m_data r ++ buffer_prefix buffer (sz * m_channelCount r)
     | CacheInTemporaryFile =>
         exists written,
           sz <= written /\
           sf_writef_float lib (m_cacheFileWritePtr r) (m_cacheFile r) buffer sz =
             (m_cacheFile r', written)
     end) /\
  (forall start count (r : Reader R F),
     m_cacheMode r = CacheInTemporaryFile -> m_initialised r = true ->
     m_normalised r = true -> m_cacheFileReader r = true ->
     getInterleavedFrames lib start count r =
       Ok (map (fun f => Float32.mul f (m_gain r))
             (readInterleavedFrames lib (m_cacheFile r) start count))) /\
  (Forall (fits channels) (blocks ++ [last]) ->
   exists r,
     decode lib blocks last
       (initialised CacheInMemory channels fileRate sampleRate None true file) = Ok r /\
     m_data r = pushed channels (blocks ++ [last])) /\
  (forall r,
     decode lib blocks last
       (initialised CacheInMemory channels fileRate sampleRate resampler true file) = Ok r ->
     getInterleavedFrames lib 0 (m_frameCount r) r =
       Ok (map (fun f => Float32.mul f (m_gain r)) (m_data r)) /\
     peak_normalised (m_data r) r) /\
  (forall contents r,
     appends channels contents ->
     decode lib blocks last
       (initialised CacheInTemporaryFile channels fileRate sampleRate resampler true file)
       = Ok r ->
     exists written,
       contents (m_cacheFile r) = contents file ++ written /\
       peak_normalised written r).
Proof.
  split; [|split; [|split; [|split]]].
  - intros buffer sz r r' Hnorm H.
    destruct (pushBufferNonResampling_inv _ _ _ _ _ H) as (_ & _ & _ & _ & _ & Ep & Em).
    cbv zeta in *. rewrite Hnorm in *. unfold store in Em. split; [exact Ep|].
    destruct (m_cacheMode r).
    + destruct Em as (_ & written & Hw & Ew). exists written. split; [exact Hw|].
      unfold buffer_prefix in Ew. rewrite firstn_skipn in Ew. exact Ew.
    + destruct Em as (_ & Ed & _). exact Ed.
  - intros start count r Hmode Hinit Hnorm Hwav. unfold getInterleavedFrames, scaled.
    rewrite Hinit, Hmode, Hnorm, Hwav. reflexivity.
  - intros Hfits.
    destruct (decode_memory lib blocks last
                (initialised CacheInMemory channels fileRate sampleRate None true file)
                eq_refl eq_refl Hfits) as (r & H & _ & _ & Ed & _).
    exists r. split; [exact H|]. rewrite Ed. reflexivity.
  - intros r H.
    assert (Hr : normal r).
    { refine (decode_normal blocks last _ r _ H).
      unfold normal.
      cbn [initialised m_cacheMode m_normalised m_initialised isOK m_data m_max m_gain
           m_frameCount m_channelCount length].
      split; [reflexivity|]. split; [reflexivity|]. split; [reflexivity|].
      split; [reflexivity|]. split; [exact tracked_start | reflexivity]. }
    split; [apply read_back_all, Hr|].
    destruct Hr as (_ & _ & _ & _ & Htr & _). apply tracked_peak, Htr.
  - intros contents r Happ H.
    assert (Hr : normal_on_file channels contents file r).
    { refine (decode_keeps lib (normal_on_file channels contents file) _ _ _
                blocks last _ r _ H).
      - intros b s x x'. apply normal_on_file_store, Happ.
      - intros rs x Hx. exact Hx.
      - intros s x Hx. exact Hx.
      - unfold normal_on_file.
        cbn [initialised m_cacheMode m_normalised m_channelCount m_cacheFile m_max m_gain].
        split; [reflexivity|]. split; [reflexivity|]. split; [reflexivity|].
        exists []. split; [rewrite app_nil_r; reflexivity | exact tracked_start]. }
    destruct Hr as (_ & _ & _ & written & Hc & Htr).
    exists written. split; [exact Hc | apply tracked_peak, Htr].
Qed.

End Normalising.

(** *** Instances *)

(** A resampler that is never asked. *)
Definition idle (rs : unit) (buffer : list Float32.float) (sz : Z)
    (ratio : Float64.float) (final : bool) : unit * Z * list Float32.float :=
  (tt, 0, []).

Fixpoint every_other (l : list Float32.float) : list Float32.float :=
  match l with
  | x :: _ :: rest => x :: every_other rest
  | _ => []
  end.

(** A resampler for one channel that keeps every other frame. *)
Definition halving (rs : unit) (buffer : list Float32.float) (sz : Z)
    (ratio : Float64.float) (final : bool) : unit * Z * list Float32.float :=
  (tt, sz / 2, every_other (firstn (Z.to_nat sz) buffer)).

(** The libraries of a reader that is given no temporary directory: the
    cache is kept in memory. *)
Definition in_memory
    (resample : unit -> list Float32.float -> Z -> Float64.float -> bool ->
                unit * Z * list Float32.float) : External unit unit :=
  mkExternal (fun _ _ => tt) resample
    (fun file => (file, false)) (fun file _ _ => (file, false))
    (fun _ file _ _ => (file, 0)) (fun _ file => file)
    (fun file => (file, false)) (fun file => file) (fun _ _ _ => []).

Definition three_quarters : Float32.float := S754_finite false 12582912 (-24).
Definition minus_quarter : Float32.float := S754_finite true 8388608 (-25).
Definition faintest : Float32.float := S754_finite false 1 (-149).
Definition huge : Float32.float := S754_finite false 12582913 104.

Definition plain_reader : Reader unit unit :=
  initialised CacheInMemory 1 (Float64.of_Z 44100) (Float64.of_Z 44100) None true tt.

(** C6 fails as stated at both ends of the range of [float].  A signal
    whose only audible sample is the least positive [float] gets the gain
    [1.f / max = +inf] and reads back infinite; one whose peak is
    [12582913 * 2^104] gets a subnormal gain and reads back with peak
    [1 - 3 * 2^-24]. *)
Lemma peak_out_of_range_misses_one :
  (exists r,
     decode (in_memory idle) [] ([Float32.zero; faintest], 2) plain_reader = Ok r /\
     m_data r = [Float32.zero; faintest] /\
     m_gain r = S754_infinity false /\
     getInterleavedFrames (in_memory idle) 0 2 r = Ok [S754_nan; S754_infinity false]) /\
  (exists r,
     decode (in_memory idle) [] ([huge; Float32.one], 2) plain_reader = Ok r /\
     m_data r = [huge; Float32.one] /\
     getInterleavedFrames (in_memory idle) 0 2 r =
       Ok [S754_finite false 16777213 (-24); S754_finite false 2796202 (-149)]).
Proof.
  split; eexists; (split; [vm_compute; reflexivity|]); repeat split; vm_compute; reflexivity.
Qed.

(** The reader after three samples in two blocks. *)
Definition heard : Reader unit unit :=
  match decode (in_memory idle) [([three_quarters; minus_quarter], 2)] ([Float32.zero], 1)
          plain_reader with
  | Ok r => r
  | Fails _ => plain_reader
  end.

Lemma normalised_read_back_witness :
  decode (in_memory idle) [([three_quarters; minus_quarter], 2)] ([Float32.zero], 1)
    plain_reader = Ok heard /\
  m_data heard = [three_quarters; minus_quarter; Float32.zero] /\
  getInterleavedFrames (in_memory idle) 0 (m_frameCount heard) heard =
    Ok (map (fun f => Float32.mul f (m_gain heard)) (m_data heard)) /\
  m_gain heard = Float32.div Float32.one (m_max heard) /\
  exists p,
    In p (m_data heard) /\
    (Float32.fabsf (Float32.mul p (m_gain heard)) = Float32.one \/
     Float32.fabsf (Float32.mul p (m_gain heard)) = below_one) /\
    Float32.ltb (Float32.fabsf (Float32.mul p (m_gain heard)))
                (Float32.fabsf (Float32.mul minus_quarter (m_gain heard))) = false.
Proof.
  assert (E : decode (in_memory idle) [([three_quarters; minus_quarter], 2)]
                ([Float32.zero], 1) plain_reader = Ok heard) by (vm_compute; reflexivity).
  destruct (normalised_read_back (in_memory idle) 1 (Float64.of_Z 44100) (Float64.of_Z 44100)
              None tt [([three_quarters; minus_quarter], 2)] ([Float32.zero], 1))
    as (_ & _ & _ & Hafter & _).
  destruct (Hafter heard E) as (Hread & _ & Hpeak).
  destruct Hpeak as (Hgain & p & Hin & _ & Hone); [vm_compute; reflexivity|].
  destruct Hone as [Hone Hmax]; [vm_compute; reflexivity|].
  split; [exact E|]. split; [vm_compute; reflexivity|]. split; [exact Hread|].
  split; [exact Hgain|].
  exists p. split; [exact Hin|]. split; [exact Hone|].
  apply Hmax; [right; left; reflexivity | reflexivity].
Defined.

(** The libraries of a reader with a temporary file of one channel: the
    file is the list of the samples written, and the reader of the file
    sees all of them. *)
Definition on_disc : External unit (list Float32.float) :=
  mkExternal (fun _ _ => tt) idle
    (fun file => (file, true)) (fun file _ _ => (file, true))
    (fun _ file buffer sz => (file ++ firstn (Z.to_nat sz) buffer, sz))
    (fun _ file => file)
    (fun file => (file, true)) (fun file => file)
    (fun file start count => firstn (Z.to_nat count) (skipn (Z.to_nat start) file)).

Lemma on_disc_appends : appends on_disc 1 (fun file => file).
Proof.
  intros handle file buffer sz file' written H _. cbn in H. inversion H.
  unfold buffer_prefix. rewrite Z.mul_1_r. reflexivity.
Qed.

(** The same three samples, with the cache in a temporary file: the file
    holds them as they were pushed, and they are read back with the peak
    at [1.0]. *)
Example cache_file_scenario :
  exists r,
    decode on_disc [([three_quarters; minus_quarter], 2)] ([Float32.zero], 1)
      (initialised CacheInTemporaryFile 1 (Float64.of_Z 44100) (Float64.of_Z 44100) None
         true []) = Ok r /\
    m_cacheFile r = [three_quarters; minus_quarter; Float32.zero] /\
    m_data r = [] /\
    getInterleavedFrames on_disc 0 3 r =
      Ok [Float32.one; Float32.div minus_quarter three_quarters; Float32.zero].
Proof.
  eexists. split; [vm_compute; reflexivity|]. repeat split; vm_compute; reflexivity.
Qed.

(** *** Pushing into a reader that resamples *)

Section Resampling.

Context {R F : Type}.
Variable lib : External R F.

Variables fileRate sampleRate : Float64.float.
Hypothesis file_rate_set : Float64.eqb fileRate (Float64.of_Z 0) = false.
Hypothesis rates_differ :
  Float64.eqb (Float64.div sampleRate fileRate) (Float64.of_Z 1) = false.

(** A reader that resamples and has counted [frames] frames of the file. *)
Definition resampling (frames : Z) (r : Reader R F) : Prop :=
  m_fileRate r = fileRate /\ m_sampleRate r = sampleRate /\ m_resampler r <> None /\
  m_fileFrameCount r = frames.

Lemma ratioOf_resampling frames r :
  resampling frames r -> ratioOf r = Float64.div sampleRate fileRate.
Proof.
  intros (Hf & Hs & Hres & _). unfold ratioOf.
  destruct (m_resampler r); [|contradiction].
  rewrite Hf, Hs, file_rate_set. reflexivity.
Qed.

Lemma resampling_store frames buffer sz (r r' : Reader R F) :
  resampling frames r -> pushBufferNonResampling lib buffer sz r = Ok r' ->
  resampling frames r'.
Proof.
  intros (Hf & Hs & Hres & Hn) H.
  destruct (pushBufferNonResampling_inv _ _ _ _ _ H) as (_ & Es & Er & Eff & _).
  destruct (shape_fields _ _ Es) as (_ & _ & _ & _ & E5 & E6 & _).
  unfold resampling. rewrite E5, E6, Er, Eff. auto.
Qed.

Lemma resampling_resampler frames rs (r : Reader R F) :
  resampling frames r -> resampling frames (with_resampler (Some rs) r).
Proof.
  intros (Hf & Hs & _ & Hn). unfold resampling. cbn. repeat split; try assumption.
  discriminate.
Qed.

Lemma pushBuffer_resampling frames buffer sz final (r r' : Reader R F) :
  resampling frames r -> pushBuffer lib buffer sz final r = Ok r' ->
  resampling (frames + sz) r'.
Proof.
  intros (Hf & Hs & Hres & Hn).
  apply (pushBuffer_keeps_counted lib (resampling (frames + sz))).
  - intros b s x x'. apply resampling_store.
  - intros rs x. apply resampling_resampler.
  - unfold resampling. cbn. rewrite Hn. auto.
Qed.

Lemma push_all_resampling blocks : forall frames (r r' : Reader R F),
  resampling frames r -> push_all lib blocks r = Ok r' ->
  resampling (frames + frames_of blocks) r'.
Proof.
  unfold push_all.
  induction blocks as [|[buffer sz] blocks IH]; intros frames r r' Hr H; cbn [foldM] in H.
  - inversion H. subst. cbn [frames_of fold_right]. rewrite Z.add_0_r. exact Hr.
  - destruct (bind_ok _ _ _ H) as (r1 & H1 & H2). cbn [fst snd] in H1.
    pose proof (IH _ _ _ (pushBuffer_resampling _ _ _ _ _ _ Hr H1) H2) as Hr'.
    cbn [frames_of fold_right snd]. fold (frames_of blocks).
    replace (frames + (sz + frames_of blocks)) with (frames + sz + frames_of blocks) by lia.
    exact Hr'.
Qed.

(** The push with [final] set ends at or below the limit. *)
Lemma final_push_clipped frames buffer sz (r r' : Reader R F) :
  resampling frames r -> pushBuffer lib buffer sz true r = Ok r' ->
  m_frameCount r' <=
    Float64.to_frame
      (Float64.mul (Float64.of_Z (frames + sz)) (Float64.div sampleRate fileRate)).
Proof.
  intros Hr H. unfold pushBuffer in H.
  assert (Hc : resampling (frames + sz) (countFileFrames sz r)).
  { destruct Hr as (Hf & Hs & Hres & Hn). unfold resampling. cbn. rewrite Hn. auto. }
  set (r1 := countFileFrames sz r) in *.
  rewrite (ratioOf_resampling _ _ Hc), rates_differ in H. cbn [negb] in H.
  destruct (m_resampler r1) as [rs|] eqn:E; [|destruct Hc as (_ & _ & Hres & _); contradiction].
  unfold pushBufferResampling in H.
  destruct (bind_ok _ _ _ H) as ([rs2 r2] & H1 & H2). cbn [fst snd] in H2.
  assert (Hr2 : resampling (frames + sz) r2).
  { unfold resampleBlock in H1. destruct (0 <? sz).
    - destruct (resampleInterleaved lib rs buffer sz _ false) as [[rs' out] resampled].
      destruct (bind_ok _ _ _ H1) as (r3 & H3 & H4). inversion H4. subst.
      exact (resampling_store _ _ _ _ _ (resampling_resampler _ _ _ Hc) H3).
    - inversion H1. subst. exact Hc. }
  unfold flushClipped in H2.
  destruct (flushResampler lib rs2 _ r2) as [[rs3 out] resampled].
  destruct (pushBufferNonResampling_inv _ _ _ _ _ H2) as (_ & _ & _ & _ & Ef & _).
  rewrite Ef. cbn [with_resampler m_frameCount]. unfold output_limit.
  destruct Hr2 as (_ & _ & _ & ->).
  destruct (Z.gtb_spec (m_frameCount r2 + out)
              (Float64.to_frame (Float64.mul (Float64.of_Z (frames + sz))
                                             (Float64.div sampleRate fileRate)))); lia.
Qed.

End Resampling.

(** The samples in memory make up the frames counted. *)
Definition counted_in_memory {R F : Type} (r : Reader R F) : Prop :=
  m_cacheMode r = CacheInMemory /\
  Z.of_nat (length (m_data r)) = m_frameCount r * m_channelCount r.

Lemma counted_in_memory_store {R F : Type} (lib : External R F) buffer sz (r r' : Reader R F) :
  counted_in_memory r -> pushBufferNonResampling lib buffer sz r = Ok r' ->
  counted_in_memory r'.
Proof.
  intros (Hmode & Hlen) H.
  destruct (pushBufferNonResampling_inv _ _ _ _ _ H) as (Hb & Es & _ & _ & Ef & _ & Em).
  cbv zeta in *. rewrite Hmode in Em. destruct Em as (Hc & Ed & _).
  destruct (shape_fields _ _ Es) as (E1 & _ & _ & E4 & _).
  unfold counted_in_memory. rewrite E1, E4, Ef, Ed. split; [exact Hmode|].
  rewrite length_app, Nat2Z.inj_add, Hlen, store_length, prefix_length by lia. ring.
Qed.

(** [N * tr / sr] rounded to the nearest integer (halves upwards). *)
Definition round_frames (N tr sr : Z) : Z := Float64Facts.nearest (N * tr) sr.

(** X29: When resampling between two different rates sr and tr (both below
    2^53, N * tr < 2^50 * sr), whatever the resampler delivers and in either
    cache mode, a decode of N frames that returns leaves m_fileFrameCount at N
    and m_frameCount at most sv_frame_t(double(N) * ratio), the limit the
    final flush clips at, which is round(N * tr / sr) or one less; so
    m_frameCount never exceeds round(N * tr / sr). In CacheInMemory mode
    m_data then holds exactly m_frameCount frames. *)
Theorem resampled_count_clipped {R F : Type} (lib : External R F)
    (mode : CacheMode) (rs0 : R) (channels sr tr : Z) (normalised : bool) (file : F)
    (blocks : list (list Float32.float * Z)) (last : list Float32.float * Z)
    (r : Reader R F) :
  0 < sr < 2 ^ 53 -> 0 < tr < 2 ^ 53 -> tr <> sr ->
  0 <= frames_of (blocks ++ [last]) < 2 ^ 53 ->
  frames_of (blocks ++ [last]) * tr < 2 ^ 50 * sr ->
  decode lib blocks last
    (initialised mode channels (Float64.of_Z sr) (Float64.of_Z tr) (Some rs0) normalised file)
    = Ok r ->
  let N := frames_of (blocks ++ [last]) in
  let limit :=
    Float64.to_frame
      (Float64.mul (Float64.of_Z N) (Float64.div (Float64.of_Z tr) (Float64.of_Z sr))) in
  m_fileFrameCount r = N /\
  m_frameCount r <= limit /\
  round_frames N tr sr - 1 <= limit <= round_frames N tr sr /\
  m_frameCount r <= round_frames N tr sr /\
  (mode = CacheInMemory -> Z.of_nat (length (m_data r)) = m_frameCount r * channels).
Proof.
  intros Hsr Htr Hne HN Hx H. cbv zeta.
  pose proof (Float64Facts.rate_not_zero sr Hsr) as Hrate.
  pose proof (Float64Facts.ratio_not_one tr sr Htr Hsr Hne) as Hratio.
  set (r0 := initialised mode channels (Float64.of_Z sr) (Float64.of_Z tr) (Some rs0)
               normalised file) in *.
  assert (Hr0 : resampling (Float64.of_Z sr) (Float64.of_Z tr) 0 r0)
    by (unfold resampling; cbn; repeat split; discriminate).
  unfold decode in H. destruct (bind_ok _ _ _ H) as (r1 & H1 & H2).
  pose proof (push_all_resampling lib _ _ blocks 0 r0 r1 Hr0 H1) as Hr1.
  pose proof (pushBuffer_resampling lib _ _ _ _ _ _ _ _ Hr1 H2) as (_ & _ & _ & Hn).
  pose proof (final_push_clipped lib _ _ Hrate Hratio _ _ _ _ _ Hr1 H2) as Hm.
  rewrite Z.add_0_l, <- frames_of_app in Hn, Hm.
  pose proof (Float64Facts.limit_accurate (frames_of (blocks ++ [last])) tr sr
                HN Htr Hsr Hx) as Hacc.
  cbv zeta in Hacc. unfold round_frames.
  split; [exact Hn|]. split; [exact Hm|]. split; [exact Hacc|]. split; [lia|].
  intros Hmode.
  assert (Hc : counted_in_memory r).
  { assert (Hd : decode lib blocks last r0 = Ok r)
      by (unfold decode; rewrite H1; exact H2).
    refine (decode_keeps lib counted_in_memory _ _ _ blocks last r0 r _ Hd).
    - intros b s x x'. apply counted_in_memory_store.
    - intros rs x Hx'. exact Hx'.
    - intros s x Hx'. exact Hx'.
    - unfold counted_in_memory, r0. cbn. split; [exact Hmode | reflexivity]. }
  destruct Hc as [_ Hlen]. rewrite Hlen. f_equal.
  assert (Hs : shape r = shape r0).
  { assert (Hd : decode lib blocks last r0 = Ok r)
      by (unfold decode; rewrite H1; exact H2).
    refine (decode_keeps lib (fun x => shape x = shape r0) _ _ _ blocks last r0 r eq_refl Hd).
    - intros b s x x' Hx' Hp.
      destruct (pushBufferNonResampling_inv _ _ _ _ _ Hp) as (_ & E & _).
      rewrite E. exact Hx'.
    - intros rs x Hx'. exact Hx'.
    - intros s x Hx'. exact Hx'. }
  destruct (shape_fields _ _ Hs) as (_ & _ & _ & E4 & _). exact E4.
Qed.

(** Eight frames at 44100 Hz, halved to 22050 Hz. *)
Definition halved : Reader unit unit :=
  match decode (in_memory halving) [(repeat Float32.one 5, 5)] (repeat Float32.one 3, 3)
          (initialised CacheInMemory 1 (Float64.of_Z 44100) (Float64.of_Z 22050) (Some tt)
             false tt) with
  | Ok r => r
  | Fails _ => plain_reader
  end.

Lemma resampled_count_clipped_witness :
  m_fileFrameCount halved = 8 /\
  m_frameCount halved <= round_frames 8 22050 44100 /\
  Z.of_nat (length (m_data halved)) = m_frameCount halved * 1.
Proof.
  destruct (resampled_count_clipped (in_memory halving) CacheInMemory tt 1 44100 22050 false tt
              [(repeat Float32.one 5, 5)] (repeat Float32.one 3, 3) halved)
    as (Hn & _ & _ & Hle & Hlen).
  - lia.
  - lia.
  - lia.
  - vm_compute. split; [discriminate | reflexivity].
  - vm_compute. reflexivity.
  - vm_compute. reflexivity.
  - split; [exact Hn|]. split; [exact Hle|]. apply Hlen. reflexivity.
Defined.

(** Eight frames halved give four frames, the last one from the flush.  When
    the resampler has delivered four frames where the limit is two, the
    final flush asks for the insertion of a negative count of samples. *)
Example resampling_scenario :
  m_frameCount halved = 4 /\
  m_data halved = [Float32.one; Float32.one; Float32.one; Float32.zero] /\
  decode (in_memory halving) [(repeat Float32.one 8, 8)] ([], 0)
    (initialised CacheInMemory 1 (Float64.of_Z 44100) (Float64.of_Z 11025) (Some tt)
       false tt) = Fails UndefinedBehaviour.
Proof. repeat split; vm_compute; reflexivity. Qed.

End ReaderFacts.

(** ** CodedAudioFileReader: clipping, the decode cache and reading back *)

Module DecodeCacheFacts.

Import CodedAudioFileReader.
Import ReaderFacts.

(** *** Clipping *)

(** Neither above [1.0] nor below [-1.0]; a NaN is neither. *)
Definition within_clip (x : Float32.float) : Prop :=
  Float32.ltb clip x = false /\ Float32.ltb x (SFopp clip) = false.

Lemma clip_sample_within x : within_clip (clip_sample x).
Proof.
  unfold clip_sample, within_clip.
  destruct (Float32.ltb clip x) eqn:E1.
  - replace (Float32.ltb clip (SFopp clip)) with false by reflexivity.
    split; reflexivity.
  - destruct (Float32.ltb x (SFopp clip)) eqn:E2.
    + split; reflexivity.
    + split; assumption.
Qed.

Lemma store_within l : Forall within_clip (store false l).
Proof.
  unfold store. rewrite Forall_map. rewrite Forall_forall. intros x _.
  apply clip_sample_within.
Qed.

Section Pushes.

Context {R F : Type}.
Variable lib : External R F.

(** The readers that clip and hold clipped samples only. *)
Definition clipped (r : Reader R F) : Prop :=
  m_cacheMode r = CacheInMemory /\ m_normalised r = false /\
  Forall within_clip (m_data r).

Lemma clipped_store buffer sz (r r' : Reader R F) :
  clipped r -> pushBufferNonResampling lib buffer sz r = Ok r' -> clipped r'.
Proof.
  intros (Hmode & Hn & Hd) H.
  destruct (pushBufferNonResampling_inv _ _ _ _ _ H) as (_ & Es & _ & _ & _ & _ & Em).
  cbv zeta in *. rewrite Hmode in Em. destruct Em as (_ & Ed & _).
  destruct (shape_fields _ _ Es) as (E1 & _ & _ & _ & _ & _ & E7 & _).
  unfold clipped. rewrite E1, E7, Ed, Hn.
  split; [exact Hmode|]. split; [reflexivity|].
  apply Forall_app. split; [exact Hd | apply store_within].
Qed.

(** X15: Without normalisation, pushBufferNonResampling hands on each sample
    above 1.0 as 1.0 and each one below -1.0 as -1.0, appended to m_data in
    CacheInMemory mode and passed to sf_writef_float in CacheInTemporaryFile
    mode. After a decode in CacheInMemory mode that returns, resampled or not,
    no stored sample is above 1.0 or below -1.0. Without a resampler a decode
    in CacheInMemory mode whose buffers hold the samples of their frames (no
    negative count) returns, and the stored data are exactly the pushed
    samples so clipped. *)
Theorem stored_samples_clipped channels fileRate sampleRate resampler file blocks last :
  (forall buffer sz (r r' : Reader R F),
     m_normalised r = false -> pushBufferNonResampling lib buffer sz r = Ok r' ->
     let count := sz * m_channelCount r in
     match m_cacheMode r with
     | CacheInMemory => m_data r' = m_data r ++ map clip_sample (buffer_prefix buffer count)
     | CacheInTemporaryFile =>
         exists written,
           sz <= written /\
           sf_writef_float lib (m_cacheFileWritePtr r) (m_cacheFile r)
             (map clip_sample (buffer_prefix buffer count) ++ skipn (Z.to_nat count) buffer)
             sz = (m_cacheFile r', written)
     end) /\
  (forall r,
     decode lib blocks last
       (initialised CacheInMemory channels fileRate sampleRate resampler false file) = Ok r ->
     Forall within_clip (m_data r)) /\
  (Forall (fits channels) (blocks ++ [last]) ->
   exists r,
     decode lib blocks last
       (initialised CacheInMemory channels fileRate sampleRate None false file) = Ok r /\
     m_data r = map clip_sample (pushed channels (blocks ++ [last]))).
Proof.
  split; [|split].
  - intros buffer sz r r' Hn H. cbv zeta.
    destruct (pushBufferNonResampling_inv _ _ _ _ _ H) as (_ & _ & _ & _ & _ & _ & Em).
    cbv zeta in Em. rewrite Hn in Em. unfold store in Em.
    destruct (m_cacheMode r).
    + destruct Em as (_ & written & Hw & Ew). exists written. auto.
    + destruct Em as (_ & Ed & _). exact Ed.
  - intros r H.
    assert (Hc : clipped r).
    { refine (decode_keeps lib clipped _ _ _ blocks last _ r _ H).
      - intros b s x x'. apply clipped_store.
      - intros rs x Hx. exact Hx.
      - intros s x Hx. exact Hx.
      - unfold clipped. cbn. split; [reflexivity|]. split; [reflexivity | constructor]. }
    destruct Hc as (_ & _ & Hd). exact Hd.
  - intros Hfits.
    destruct (decode_memory lib blocks last
                (initialised CacheInMemory channels fileRate sampleRate None false file)
                eq_refl eq_refl Hfits) as (r & H & _ & _ & Ed & _).
    exists r. split; [exact H|]. rewrite Ed. reflexivity.
Qed.

End Pushes.

(** *** The write buffer *)

Section Cache.

Context {R F : Type}.
Variable lib : External R F.

(** Between two calls, in memory and without resampler: the samples seen
    are the ones pushed, buffer by buffer, then the ones waiting in the
    write buffer. *)
Record caching (channels : Z) (normalised : bool) (seen : list Float32.float)
    (d : Decoder R F) : Prop := mkCaching {
  c_initialised : m_initialised (reader d) = true;
  c_mode : m_cacheMode (reader d) = CacheInMemory;
  c_wav : m_cacheFileReader (reader d) = false;
  c_channels : m_channelCount (reader d) = channels;
  c_plain : m_resampler (reader d) = None;
  c_normalised : m_normalised (reader d) = normalised;
  c_file : m_fileFrameCount (reader d) = m_frameCount (reader d);
  c_seen : exists pushed waiting k,
      m_cacheWriteBuffer d = Some waiting /\
      m_cacheWriteBufferIndex d = Z.of_nat (length waiting) /\
      Z.of_nat (length waiting) < m_cacheWriteBufferSize d * channels /\
      seen = pushed ++ waiting /\
      m_data (reader d) = store normalised pushed /\
      Z.of_nat (length pushed) = m_frameCount (reader d) * channels /\
      0 <= k /\ Z.of_nat (length pushed) = k * (m_cacheWriteBufferSize d * channels)
}.

Lemma addSample_caching channels normalised seen d x :
  caching channels normalised seen d ->
  exists d',
    addSample lib d x = Ok d' /\
    caching channels normalised (seen ++ [x]) d' /\
    m_cacheWriteBufferSize d' = m_cacheWriteBufferSize d.
Proof.
  intros [Hi Hm Hw Hc Hp Hn Hf
            (pushed & waiting & k & Hbuf & Hidx & Hroom & Hseen & Hdata & Hlen & Hk & Hmult)].
  unfold addSample. rewrite Hbuf, Hidx, Hc.
  replace ((Z.of_nat (length waiting) <? 0) ||
           (m_cacheWriteBufferSize d * channels <=? Z.of_nat (length waiting)))
    with false.
  2:{ symmetry. apply orb_false_intro; [apply Z.ltb_ge | apply Z.leb_gt]; lia. }
  destruct (Z.eqb_spec (Z.of_nat (length waiting) + 1)
              (m_cacheWriteBufferSize d * channels)) as [Efull|Enot].
  - assert (Hfits : fits (m_channelCount (reader d))
                      (waiting ++ [x], m_cacheWriteBufferSize d)).
    { unfold fits. cbn [fst snd]. rewrite Hc, length_app. cbn [length]. lia. }
    destruct (pushBuffer_memory lib (waiting ++ [x]) (m_cacheWriteBufferSize d) false
                (reader d) Hm Hp Hfits)
      as (r' & H & Es & Hrs & Ed & _ & Efc & Effc).
    destruct (shape_fields _ _ Es) as (E1 & E2 & _ & E4 & _ & _ & E7 & _ & E9).
    rewrite H. cbn [bind m_cacheWriteBufferIndex reader].
    rewrite E9, Hw, andb_false_r.
    eexists. split; [reflexivity|]. split; [|reflexivity].
    constructor; cbn [reader m_cacheWriteBuffer m_cacheWriteBufferSize m_cacheWriteBufferIndex].
    + rewrite E2. exact Hi.
    + rewrite E1. exact Hm.
    + rewrite E9. exact Hw.
    + rewrite E4. exact Hc.
    + exact Hrs.
    + rewrite E7. exact Hn.
    + rewrite Efc, Effc, Hf. reflexivity.
    + exists (pushed ++ waiting ++ [x]), [], (k + 1).
      split; [reflexivity|]. split; [reflexivity|]. cbn [length].
      split; [change (Z.of_nat 0) with 0; lia|].
      split; [rewrite Hseen, app_nil_r, app_assoc; reflexivity|].
      assert (Hfull : Z.of_nat (length (waiting ++ [x])) = m_cacheWriteBufferSize d * channels)
        by (rewrite length_app; cbn [length]; lia).
      split; [|split; [|split]].
      * rewrite Ed, Hdata, Hn, Hc, store_app. f_equal. f_equal.
        unfold buffer_prefix. rewrite <- Hfull, Nat2Z.id. apply firstn_all.
      * rewrite Efc, length_app, Nat2Z.inj_add, Hlen, Hfull. ring.
      * lia.
      * rewrite length_app, Nat2Z.inj_add, Hmult, Hfull. ring.
  - cbn [bind m_cacheWriteBufferIndex reader]. rewrite Hw, andb_false_r.
    eexists. split; [reflexivity|]. split; [|reflexivity].
    constructor; cbn [reader m_cacheWriteBuffer m_cacheWriteBufferSize m_cacheWriteBufferIndex];
      try assumption.
    exists pushed, (waiting ++ [x]), k.
    split; [reflexivity|]. rewrite length_app. cbn [length].
    split; [lia|]. split; [lia|].
    split; [rewrite Hseen, app_assoc; reflexivity|]. auto.
Qed.

Lemma addSamples_caching channels normalised samples : forall seen d,
  caching channels normalised seen d ->
  exists d',
    foldM (addSample lib) samples d = Ok d' /\
    caching channels normalised (seen ++ samples) d' /\
    m_cacheWriteBufferSize d' = m_cacheWriteBufferSize d.
Proof.
  induction samples as [|x samples IH]; intros seen d Hc.
  - exists d. rewrite app_nil_r. split; [reflexivity|]. split; [exact Hc | reflexivity].
  - destruct (addSample_caching _ _ _ _ x Hc) as (d1 & H1 & Hc1 & Hs1).
    destruct (IH _ _ Hc1) as (d2 & H2 & Hc2 & Hs2).
    exists d2. cbn [foldM]. rewrite H1. cbn [bind].
    split; [exact H2|]. rewrite <- app_assoc in Hc2.
    split; [exact Hc2 | rewrite Hs2; exact Hs1].
Qed.

(** The calls of a decode, one after the other. *)
Definition add_calls (calls : list (list Float32.float)) (d : Decoder R F)
    : Result (Decoder R F) :=
  foldM (fun d samples => addSamplesToDecodeCache lib samples d) calls d.

Lemma calls_caching channels normalised calls : forall seen d,
  caching channels normalised seen d ->
  exists d',
    add_calls calls d = Ok d' /\
    caching channels normalised (seen ++ concat calls) d' /\
    m_cacheWriteBufferSize d' = m_cacheWriteBufferSize d.
Proof.
  unfold add_calls.
  induction calls as [|samples calls IH]; intros seen d Hc.
  - exists d. cbn. rewrite app_nil_r. auto.
  - destruct (addSamples_caching _ _ samples _ _ Hc) as (d1 & H1 & Hc1 & Hs1).
    destruct (IH _ _ Hc1) as (d2 & H2 & Hc2 & Hs2).
    exists d2. cbn [foldM concat]. unfold addSamplesToDecodeCache at 1.
    rewrite (c_initialised _ _ _ _ Hc). cbn [negb]. rewrite H1. cbn [bind].
    split; [exact H2|]. rewrite <- app_assoc in Hc2.
    split; [exact Hc2 | rewrite Hs2; exact Hs1].
Qed.

Lemma finish_caching channels normalised seen d :
  0 < channels -> caching channels normalised seen d ->
  exists d',
    finishDecodeCache lib d = Ok d' /\
    let frames := Z.of_nat (length seen) / channels in
    m_data (reader d') = store normalised (firstn (Z.to_nat (frames * channels)) seen) /\
    m_frameCount (reader d') = frames /\ m_fileFrameCount (reader d') = frames /\
    m_initialised (reader d') = true /\
    m_cacheWriteBuffer d' = None /\
    m_cacheWriteBufferIndex d' =
      Z.of_nat (length seen) mod (m_cacheWriteBufferSize d * channels).
Proof.
  intros Hch [Hi Hm Hw Hc Hp Hn Hf
               (pushed & waiting & k & Hbuf & Hidx & Hroom & Hseen & Hdata & Hlen & Hk & Hmult)].
  unfold finishDecodeCache. rewrite Hi, Hc, Hbuf, Hidx. cbn [negb].
  rewrite (proj2 (Z.eqb_neq channels 0)) by lia.
  set (sz := Z.quot (Z.of_nat (length waiting)) channels).
  assert (Hsz : sz = Z.of_nat (length waiting) / channels).
  { unfold sz. apply Z.quot_div_nonneg; lia. }
  assert (Hsz0 : 0 <= sz) by (rewrite Hsz; apply Z.div_pos; lia).
  assert (Hfits : fits (m_channelCount (reader d)) (waiting, sz)).
  { unfold fits. cbn [fst snd]. rewrite Hc. split.
    - apply Z.mul_nonneg_nonneg; lia.
    - rewrite Hsz, Z.mul_comm. apply Z.mul_div_le. lia. }
  destruct (pushBuffer_memory lib waiting sz true (reader d) Hm Hp Hfits)
    as (r' & H & Es & Hrs & Ed & _ & Efc & Effc).
  destruct (shape_fields _ _ Es) as (E1 & E2 & _ & E4 & _ & _ & E7 & _ & E9).
  rewrite H. cbn [bind]. eexists. split; [reflexivity|]. cbv zeta.
  unfold released. cbn [with_resampler m_cacheMode]. rewrite E1, Hm.
  cbn [reader m_cacheWriteBuffer m_cacheWriteBufferIndex m_data m_frameCount
       m_fileFrameCount m_initialised with_resampler].
  assert (Hframes : Z.of_nat (length seen) / channels = m_frameCount (reader d) + sz).
  { rewrite Hseen, length_app, Nat2Z.inj_add, Hlen, Hsz.
    rewrite Z.add_comm, Z.div_add by lia. lia. }
  rewrite Hframes.
  split; [|split; [exact Efc|split; [rewrite Effc, Hf; reflexivity|split; [rewrite E2; exact Hi|]]]].
  - rewrite Ed, Hdata, Hn, Hc, <- store_app. f_equal.
    rewrite Hseen. unfold buffer_prefix.
    replace (Z.to_nat ((m_frameCount (reader d) + sz) * channels))
      with (length pushed + Z.to_nat (sz * channels))%nat.
    2:{ assert (0 <= sz * channels) by (apply Z.mul_nonneg_nonneg; lia).
        rewrite Z.mul_add_distr_r, <- Hlen, Z2Nat.inj_add, Nat2Z.id by lia. reflexivity. }
    rewrite firstn_app_2. reflexivity.
  - split; [reflexivity|].
    rewrite Hseen, length_app, Nat2Z.inj_add, Hmult, Hidx.
    rewrite Z.add_comm, Z_mod_plus_full. symmetry. apply Z.mod_small. lia.
Qed.

(** What [initialiseDecodeCache] leaves when the cache is in memory. *)
Lemma initialise_caching mode ok channels fileRate targetRate normalised file d0 :
  Float64.eqb fileRate
    (if Float64.eqb targetRate (Float64.of_Z 0) then fileRate else targetRate) = true ->
  0 < channels ->
  initialiseDecodeCache lib
    (constructed mode ok channels fileRate targetRate normalised file) = Ok d0 ->
  m_cacheMode (reader d0) = CacheInMemory ->
  caching channels normalised [] d0 /\ m_cacheWriteBufferSize d0 = 16384.
Proof.
  intros Hsame Hch H Hmode. unfold initialiseDecodeCache, constructed in H.
  cbn [reader m_fileRate m_sampleRate m_channelCount m_cacheWriteBufferSize m_resampler
       m_fileFrameCount m_frameCount m_normalised m_max m_gain isOK m_cacheMode
       m_cacheFileWritePtr m_cacheFileReader m_cacheFile m_data] in H.
  destruct (Float64.eqb fileRate (Float64.of_Z 0)); [discriminate|].
  rewrite Hsame in H. cbn [negb] in H.
  assert (Hgoal : forall handle file',
            caching channels normalised []
              (mkDecoder
                 (mkReader CacheInMemory true ok channels fileRate
                    (if Float64.eqb targetRate (Float64.of_Z 0) then fileRate else targetRate)
                    None 0 0 normalised (S754_zero false) (Float32.of_Z 1) [] handle false
                    file')
                 (Some []) 0 16384)).
  { intros handle file'.
    constructor; cbn [reader m_initialised m_cacheMode m_cacheFileReader m_channelCount
                        m_resampler m_normalised m_fileFrameCount m_frameCount];
      try reflexivity.
    exists [], [], 0.
    cbn [m_cacheWriteBuffer m_cacheWriteBufferIndex m_cacheWriteBufferSize reader m_data
         m_frameCount length app].
    change (Z.of_nat 0) with 0. unfold store.
    repeat split; try reflexivity; try lia. destruct normalised; reflexivity. }
  destruct mode.
  - unfold openCacheFile in H.
    destruct (getPath lib file) as [file1 found].
    destruct found; cbn [negb] in H.
    + destruct (sf_open lib file1 _ channels) as [file2 opened].
      destruct opened; cbn [negb] in H.
      * destruct (newWavFileReader lib file2) as [file3 wavok].
        destruct wavok.
        -- inversion H. subst d0. cbn in Hmode. discriminate.
        -- inversion H. subst d0. split; [apply Hgoal | reflexivity].
      * inversion H. subst d0. split; [apply Hgoal | reflexivity].
    + inversion H. subst d0. split; [apply Hgoal | reflexivity].
  - inversion H. subst d0. split; [apply Hgoal | reflexivity].
Qed.

(** X16: For a reader with at least one channel, a file rate other than 0 and
    no resampling, initialiseDecodeCache returns, in CacheInMemory mode when
    that mode was asked for. Whenever it leaves the cache in memory (also
    after a failed set-up of the temporary file), any sequence of
    addSamplesToDecodeCache calls followed by finishDecodeCache returns, and
    the stored data are the complete frames of the samples passed in, in order
    (clipped to [-1, 1] unless normalising) whatever the sizes of the calls;
    the samples of a last incomplete frame are dropped and both frame counts
    are the number of complete frames. finishDecodeCache leaves the write
    buffer null, the reader initialised and the write index where it was, at
    the number of samples modulo 16384 * channels. *)
Theorem decode_cache_keeps_samples mode ok channels fileRate targetRate normalised file calls :
  0 < channels ->
  Float64.eqb fileRate (Float64.of_Z 0) = false ->
  Float64.eqb fileRate
    (if Float64.eqb targetRate (Float64.of_Z 0) then fileRate else targetRate) = true ->
  exists d0,
    initialiseDecodeCache lib
      (constructed mode ok channels fileRate targetRate normalised file) = Ok d0 /\
    (mode = CacheInMemory -> m_cacheMode (reader d0) = CacheInMemory) /\
    (m_cacheMode (reader d0) = CacheInMemory ->
     exists d,
       (d1 <- add_calls calls d0 ;; finishDecodeCache lib d1) = Ok d /\
       let samples := concat calls in
       let frames := Z.of_nat (length samples) / channels in
       m_data (reader d) =
         (if normalised then firstn (Z.to_nat (frames * channels)) samples
          else map clip_sample (firstn (Z.to_nat (frames * channels)) samples)) /\
       m_frameCount (reader d) = frames /\ m_fileFrameCount (reader d) = frames /\
       m_initialised (reader d) = true /\
       m_cacheWriteBuffer d = None /\
       m_cacheWriteBufferIndex d = Z.of_nat (length samples) mod (16384 * channels)).
Proof.
  intros Hch Hfile Hsame.
  destruct (initialiseDecodeCache lib
              (constructed mode ok channels fileRate targetRate normalised file))
    as [d0|f] eqn:Hinit.
  2:{ unfold initialiseDecodeCache, constructed in Hinit.
      cbn [reader m_fileRate] in Hinit. rewrite Hfile in Hinit.
      destruct (match _ with CacheInTemporaryFile => _ | CacheInMemory => _ end)
        as [[[m h] w] f']. discriminate. }
  exists d0. split; [reflexivity|]. split.
  - intros ->. unfold initialiseDecodeCache, constructed in Hinit.
    cbn [reader m_fileRate m_cacheMode] in Hinit. rewrite Hfile in Hinit.
    inversion Hinit. reflexivity.
  - intros Hmode.
    destruct (initialise_caching _ _ _ _ _ _ _ _ Hsame Hch Hinit Hmode) as [Hc Hsize].
    destruct (calls_caching channels normalised calls _ _ Hc) as (d1 & H1 & Hc1 & Hs1).
    cbn [app] in Hc1.
    destruct (finish_caching channels normalised _ _ Hch Hc1)
      as (d & H & Hd & Hf & Hff & Hi & Hb & Hx).
    exists d. rewrite H1. cbn [bind]. split; [exact H|]. cbv zeta.
    rewrite Hd, Hf, Hff, Hb, Hx, Hs1, Hsize. unfold store. auto 10.
Qed.

(** *** The three overloads of [addSamplesToDecodeCache] *)

Lemma addSample_channels (d d' : Decoder R F) x :
  addSample lib d x = Ok d' ->
  m_channelCount (reader d') = m_channelCount (reader d).
Proof.
  unfold addSample. intros H.
  destruct (m_cacheWriteBuffer d) as [written|]; [|discriminate].
  destruct ((m_cacheWriteBufferIndex d <? 0) || _); [discriminate|].
  destruct (bind_ok _ _ _ H) as (d1 & H1 & H2).
  assert (E1 : m_channelCount (reader d1) = m_channelCount (reader d)).
  { destruct (_ =? _).
    - destruct (bind_ok _ _ _ H1) as (r & Hr & Hd). inversion Hd. subst d1. cbn [reader].
      destruct (shape_fields _ _ (pushBuffer_shape lib _ _ _ _ _ Hr)) as (_ & _ & _ & E & _).
      exact E.
    - inversion H1. reflexivity. }
  destruct (_ && _); inversion H2; subst d'; exact E1.
Qed.

Lemma addSamples_channels samples (d d' : Decoder R F) :
  foldM (addSample lib) samples d = Ok d' ->
  m_channelCount (reader d') = m_channelCount (reader d).
Proof.
  apply (foldM_keeps (fun x => m_channelCount (reader x) = m_channelCount (reader d))
           (addSample lib)); [|reflexivity].
  intros b a b' Hb H. rewrite (addSample_channels _ _ _ H). exact Hb.
Qed.

(** The loop over the frames and, inside it, over the channels, for a
    sample that is read at [(i, c)]. *)
Lemma frame_loops (sample : Z -> Z -> Z -> Float32.float) (frames : list Z) :
  forall d : Decoder R F,
  foldM
    (fun d i =>
       foldM (fun d c => addSample lib d (sample (m_channelCount (reader d)) i c))
         (upto (m_channelCount (reader d))) d)
    frames d =
  foldM (addSample lib)
    (flat_map
       (fun i => map (sample (m_channelCount (reader d)) i) (upto (m_channelCount (reader d))))
       frames)
    d.
Proof.
  induction frames as [|i frames IH]; intros d; [reflexivity|].
  cbn [foldM flat_map]. rewrite foldM_app.
  assert (Hinner : forall cs (d1 : Decoder R F),
            m_channelCount (reader d1) = m_channelCount (reader d) ->
            foldM (fun d c => addSample lib d (sample (m_channelCount (reader d)) i c))
              cs d1 =
            foldM (addSample lib) (map (sample (m_channelCount (reader d)) i) cs) d1).
  { induction cs as [|c cs IHc]; intros d1 H1; [reflexivity|].
    cbn [foldM map]. rewrite H1. apply bind_same. intros d2 H2. apply IHc.
    rewrite (addSample_channels _ _ _ H2). exact H1. }
  rewrite (Hinner _ d eq_refl). apply bind_same. intros d' Hd'.
  rewrite IH. rewrite (addSamples_channels _ _ _ Hd'). reflexivity.
Qed.

(** Channel [c] of frame [i], for each frame in turn. *)
Definition interleave (channels nframes : Z) (samples : list (list Float32.float))
    : list Float32.float :=
  flat_map
    (fun i =>
       map (fun c => nth (Z.to_nat i) (nth (Z.to_nat c) samples []) Float32.zero)
         (upto channels))
    (upto nframes).

Lemma upto_succ (n : nat) : upto (Z.of_nat (S n)) = upto (Z.of_nat n) ++ [Z.of_nat n].
Proof.
  unfold upto. rewrite !Nat2Z.id, seq_S, map_app. reflexivity.
Qed.

Lemma seq_offset (k : nat) : forall s a,
  map (fun c => Z.of_nat a + c) (map Z.of_nat (seq s k)) = map Z.of_nat (seq (a + s) k).
Proof.
  induction k as [|k IH]; intros s a; [reflexivity|].
  cbn [seq map]. f_equal; [lia|]. rewrite IH. f_equal. f_equal. lia.
Qed.

Lemma positions (channels : nat) (n : nat) :
  flat_map (fun i => map (fun c => i * Z.of_nat channels + c) (upto (Z.of_nat channels)))
    (upto (Z.of_nat n)) =
  upto (Z.of_nat (n * channels)).
Proof.
  induction n as [|n IH]; [reflexivity|].
  rewrite upto_succ, flat_map_app, IH. cbn [flat_map]. rewrite app_nil_r.
  unfold upto. rewrite !Nat2Z.id.
  replace (S n * channels)%nat with (n * channels + channels)%nat by lia.
  rewrite seq_app, map_app. f_equal. cbn [Nat.add].
  rewrite <- Nat2Z.inj_mul. rewrite (seq_offset channels 0 (n * channels)).
  f_equal. f_equal. lia.
Qed.

Lemma flat_map_through {A B C D} (g : C -> D) (f : A -> B -> C) (cs : list B) (l : list A) :
  flat_map (fun i => map (fun c => g (f i c)) cs) l =
    map g (flat_map (fun i => map (f i) cs) l).
Proof.
  induction l as [|i l IH]; [reflexivity|].
  cbn [flat_map]. rewrite map_app, map_map, IH. reflexivity.
Qed.

Lemma map_nth_upto (l : list Float32.float) : forall k,
  (k <= length l)%nat ->
  map (fun j => nth (Z.to_nat j) l Float32.zero) (upto (Z.of_nat k)) = firstn k l.
Proof.
  unfold upto. intros k Hk. rewrite Nat2Z.id, map_map.
  revert k Hk. induction l as [|a l IH]; intros k Hk.
  - cbn in Hk. replace k with O by lia. reflexivity.
  - destruct k as [|k]; [reflexivity|]. cbn [seq map firstn]. f_equal.
    rewrite <- seq_shift, map_map. rewrite <- (IH k) by (cbn in Hk; lia).
    apply map_ext. intros j. rewrite !Nat2Z.id. reflexivity.
Qed.


(** *** Reading back in parts *)

Lemma adjoining_parts {A} (i k j : nat) (l : list A) :
  (i + k <= j)%nat ->
  skipn i (firstn (i + k) l) ++ skipn (i + k) (firstn j l) = skipn i (firstn j l).
Proof.
  intros Hj. replace (firstn (i + k) l) with (firstn (i + k) (firstn j l)).
  2:{ rewrite firstn_firstn. f_equal. lia. }
  set (l' := firstn j l). rewrite skipn_firstn_comm.
  replace (i + k - i)%nat with k by lia.
  rewrite (Nat.add_comm i k), <- skipn_skipn. apply firstn_skipn.
Qed.


End Cache.

(** *** An instance: five samples in two channels *)

Definition half : Float32.float := S754_finite false 8388608 (-24).
Definition minus_two : Float32.float := S754_finite true 8388608 (-22).
Definition three : Float32.float := S754_finite false 12582912 (-22).

Lemma stored_samples_clipped_witness :
  exists r,
    decode (in_memory idle) [([half; minus_two], 1)] ([three; half], 1)
      (initialised CacheInMemory 2 (Float64.of_Z 44100) (Float64.of_Z 44100) None false tt)
      = Ok r /\
    m_data r = map clip_sample (pushed 2 ([([half; minus_two], 1)] ++ [([three; half], 1)])).
Proof.
  destruct (stored_samples_clipped (in_memory idle) 2 (Float64.of_Z 44100)
              (Float64.of_Z 44100) None tt [([half; minus_two], 1)] ([three; half], 1))
    as (_ & _ & Hfits).
  apply Hfits. repeat constructor; cbn; lia.
Defined.

Lemma decode_cache_keeps_samples_witness :
  exists d0,
    initialiseDecodeCache (in_memory idle)
      (constructed CacheInMemory true 2 (Float64.of_Z 44100) (Float64.of_Z 0) false tt)
      = Ok d0 /\
    (CacheInMemory = CacheInMemory -> m_cacheMode (reader d0) = CacheInMemory) /\
    (m_cacheMode (reader d0) = CacheInMemory ->
     exists d,
       (d1 <- add_calls (in_memory idle) [[half; minus_two; three]; [half; half]] d0 ;;
        finishDecodeCache (in_memory idle) d1) = Ok d /\
       let samples := concat [[half; minus_two; three]; [half; half]] in
       let frames := Z.of_nat (length samples) / 2 in
       m_data (reader d) =
         (if false then firstn (Z.to_nat (frames * 2)) samples
          else map clip_sample (firstn (Z.to_nat (frames * 2)) samples)) /\
       m_frameCount (reader d) = frames /\ m_fileFrameCount (reader d) = frames /\
       m_initialised (reader d) = true /\
       m_cacheWriteBuffer d = None /\
       m_cacheWriteBufferIndex d = Z.of_nat (length samples) mod (16384 * 2)).
Proof.
  apply (decode_cache_keeps_samples (in_memory idle) CacheInMemory true 2
           (Float64.of_Z 44100) (Float64.of_Z 0) false tt
           [[half; minus_two; three]; [half; half]]);
    [lia | vm_compute; reflexivity | vm_compute; reflexivity].
Defined.

Definition stereo : Decoder unit unit :=
  mkDecoder
    (initialised CacheInMemory 2 (Float64.of_Z 44100) (Float64.of_Z 44100) None false tt)
    (Some []) 0 16384.


Definition four_frames : Reader unit unit :=
  mkReader CacheInMemory true true 2 (Float64.of_Z 44100) (Float64.of_Z 44100) None 4 4 false
    Float32.zero Float32.one [half; half; three; half; minus_two; half; half; three]
    false false tt.


(** The decode cache with five samples in two channels: the fifth sample
    is not stored, the index stays at 5 and the buffer is deleted, so that
    a further sample cannot be added.  A reader asked for a temporary file
    that it cannot set up keeps its cache in memory.  A read that starts
    beyond the stored frames is not defined. *)
Example decode_cache_scenario :
  (exists d,
     (d1 <- addSamplesToDecodeCache (in_memory idle) [half; minus_two; three; half; half]
              stereo ;;
      finishDecodeCache (in_memory idle) d1) = Ok d /\
     m_data (reader d) = [half; SFopp Float32.one; Float32.one; half] /\
     m_cacheWriteBuffer d = None /\ m_cacheWriteBufferIndex d = 5 /\
     addSamplesToDecodeCache (in_memory idle) [half] d = Fails UndefinedBehaviour) /\
  (exists d0,
     initialiseDecodeCache (in_memory idle)
       (constructed CacheInTemporaryFile true 2 (Float64.of_Z 44100) (Float64.of_Z 0)
          false tt) = Ok d0 /\
     m_cacheMode (reader d0) = CacheInMemory) /\
  getInterleavedFrames (in_memory idle) 1 5 four_frames =
    Ok [three; half; minus_two; half; half; three] /\
  getInterleavedFrames (in_memory idle) 5 1 four_frames = Fails UndefinedBehaviour.
Proof.
  split; [|split; [|split]].
  - eexists. split; [vm_compute; reflexivity|]. repeat split; vm_compute; reflexivity.
  - eexists. split; vm_compute; reflexivity.
  - vm_compute. reflexivity.
  - vm_compute. reflexivity.
Qed.

End DecodeCacheFacts.

(** ** NoteModel *)

Module NoteModelFacts.

Import EventSeries EventSeriesFacts EventSeriesQueries.

(** *** The order of floats *)

Lemma SFltb_trans a b c : SFltb a b = true -> SFltb b c = true -> SFltb a c = true.
Proof.
  destruct a as [[]|[]| |[] ma ea], b as [[]|[]| |[] mb eb], c as [[]|[]| |[] mc ec];
    cbn; try reflexivity; try discriminate;
    unfold SFltb; cbn; change (Pos.compare_cont Eq) with Pos.compare;
    destruct (Z.compare_spec ea eb); destruct (Z.compare_spec eb ec);
    destruct (Z.compare_spec ea ec); try discriminate; try reflexivity; try lia;
    destruct (Pos.compare_spec ma mb); destruct (Pos.compare_spec mb mc);
    destruct (Pos.compare_spec ma mc); cbn; try discriminate; try reflexivity; lia.
Qed.

Section Notes.

Context {P : Type} `{PayloadOrder P}.
Variable getValue : P -> Float32.float.
Variable NoteData : Type.
Variable toNoteData : Event P -> Float64.float -> bool -> NoteData.

(** *** The extents of the values *)

Definition finite (v : Float32.float) : bool :=
  negb (NoteModel.ISNAN v) && negb (NoteModel.ISINF v).

Definition add_all (es : list (Event P)) (m : NoteModel.NoteModel P) : NoteModel.NoteModel P :=
  fold_left (fun m e => fst (NoteModel.add getValue e m)) es m.

(** The extents bracket the values [seen]. *)
Definition bracketed (seen : list Float32.float) (m : NoteModel.NoteModel P) : Prop :=
  match seen with
  | [] => True
  | _ :: _ => NoteModel.m_haveExtents m = true
  end /\
  Forall (fun v => Float32.ltb v (NoteModel.m_valueMinimum m) = false /\
                   Float32.ltb (NoteModel.m_valueMaximum m) v = false) seen.

Lemma add_bracketed seen e (m : NoteModel.NoteModel P) :
  bracketed seen m ->
  bracketed (seen ++ filter finite [getValue (payload e)]) (fst (NoteModel.add getValue e m)).
Proof.
  intros [Hhave Hall]. unfold NoteModel.add. cbn [filter]. fold (finite (getValue (payload e))).
  set (v := getValue (payload e)).
  destruct (finite v) eqn:Hfin.
  - assert (Hirr : Float32.ltb v v = false).
    { unfold Float32.ltb, SFltb. destruct v as [[]|[]| |[] mv ev]; cbn; try reflexivity;
        rewrite Z.compare_refl; change (Pos.compare_cont Eq) with Pos.compare;
        rewrite Pos.compare_refl; reflexivity. }
    assert (Hlow : forall u lo, Float32.ltb u lo = false -> Float32.ltb v lo = true ->
                     Float32.ltb u v = false).
    { intros u lo Hu Hv. destruct (Float32.ltb u v) eqn:Euv; [|reflexivity].
      unfold Float32.ltb in *. rewrite (SFltb_trans _ _ _ Euv Hv) in Hu. discriminate. }
    assert (Hhigh : forall u hi, Float32.ltb hi u = false -> Float32.ltb hi v = true ->
                      Float32.ltb v u = false).
    { intros u hi Hu Hv. destruct (Float32.ltb v u) eqn:Evu; [|reflexivity].
      unfold Float32.ltb in *. rewrite (SFltb_trans _ _ _ Hv Evu) in Hu. discriminate. }
    destruct (NoteModel.m_haveExtents m) eqn:Eh; cbn [negb orb].
    + set (lo := NoteModel.m_valueMinimum m) in *. set (hi := NoteModel.m_valueMaximum m) in *.
      destruct (Float32.ltb v lo) eqn:Elo; destruct (Float32.ltb hi v) eqn:Ehi;
        cbn [fst NoteModel.m_haveExtents NoteModel.m_valueMinimum NoteModel.m_valueMaximum];
        (split; [destruct (seen ++ [v]); [exact I | reflexivity]|]);
        apply Forall_app; split.
      * revert Hall. apply Forall_impl. intros u [Hu1 Hu2].
        split; [apply (Hlow u lo) | apply (Hhigh u hi)]; assumption.
      * constructor; [split; exact Hirr | constructor].
      * revert Hall. apply Forall_impl. intros u [Hu1 Hu2].
        split; [apply (Hlow u lo); assumption | exact Hu2].
      * constructor; [split; [exact Hirr | exact Ehi] | constructor].
      * revert Hall. apply Forall_impl. intros u [Hu1 Hu2].
        split; [exact Hu1 | apply (Hhigh u hi); assumption].
      * constructor; [split; [exact Elo | exact Hirr] | constructor].
      * exact Hall.
      * constructor; [split; assumption | constructor].
    + cbn [fst NoteModel.m_haveExtents NoteModel.m_valueMinimum NoteModel.m_valueMaximum].
      destruct seen as [|u seen]; [|rewrite Hhave in Eh; discriminate].
      split; [reflexivity|]. constructor; [split; exact Hirr | constructor].
  - rewrite app_nil_r. cbn [fst]. split; assumption.
Qed.

Lemma add_all_bracketed es : forall seen (m : NoteModel.NoteModel P),
  bracketed seen m ->
  bracketed (seen ++ filter finite (map (fun e => getValue (payload e)) es)) (add_all es m).
Proof.
  induction es as [|e es IH]; intros seen m Hb.
  - cbn. rewrite app_nil_r. exact Hb.
  - cbn [add_all fold_left map].
    replace (filter finite (getValue (payload e) :: map (fun e0 => getValue (payload e0)) es))
      with (filter finite [getValue (payload e)] ++
            filter finite (map (fun e0 => getValue (payload e0)) es))
      by (cbn [filter]; destruct (finite (getValue (payload e))); reflexivity).
    rewrite app_assoc. apply IH. apply add_bracketed, Hb.
Qed.

(** X23: After adding a list of events to a NoteModel, whatever its extents
    were before, the model has extents and every added value that is neither
    NaN nor infinite lies between the value minimum and the value maximum. *)
Theorem extents_bracket_values (m : NoteModel.NoteModel P) (es : list (Event P)) e :
  In e es -> finite (getValue (payload e)) = true ->
  let m' := add_all es m in
  NoteModel.m_haveExtents m' = true /\
  Float32.ltb (getValue (payload e)) (NoteModel.m_valueMinimum m') = false /\
  Float32.ltb (NoteModel.m_valueMaximum m') (getValue (payload e)) = false.
Proof.
  intros Hin Hfin. cbv zeta.
  assert (Hb0 : bracketed [] m) by (split; [exact I | constructor]).
  pose proof (add_all_bracketed es [] m Hb0) as [Hhave Hall]. cbn [app] in *.
  assert (Hv : In (getValue (payload e))
                 (filter finite (map (fun e => getValue (payload e)) es))).
  { apply filter_In. split; [|exact Hfin]. apply in_map_iff. exists e. auto. }
  rewrite Forall_forall in Hall. split; [|apply Hall, Hv].
  destruct (filter finite _) as [|u l]; [destruct Hv | exact Hhave].
Qed.


(** *** [getNotes] *)

Definition note_of (m : NoteModel.NoteModel P) (e : Event P) : NoteData :=
  toNoteData e (NoteModel.m_sampleRate m) (NoteModel.not_in_hertz m).

(** X24: getNotes() of a NoteModel whose events were reached by adds and
    removes contains the note of every stored event with a duration, and every
    note it returns comes from a stored event that starts before
    getEndFrame(); an event without duration at the end frame is therefore
    left out. *)
Theorem getNotes_misses_the_end (ops : list (Op P)) (m : NoteModel.NoteModel P) :
  apply_all ops empty = Some (NoteModel.m_events m) ->
  (forall e, In e (m_events (NoteModel.m_events m)) -> hasDuration e = true ->
     In (note_of m e) (NoteModel.getNotes toNoteData m)) /\
  (forall n, In n (NoteModel.getNotes toNoteData m) ->
     exists e, In e (m_events (NoteModel.m_events m)) /\ n = note_of m e /\
               frame e < NoteModel.getEndFrame m).
Proof.
  intros Hrun. set (s := NoteModel.m_events m) in *.
  pose proof (reached_inv ops s Hrun) as Hinv.
  pose proof (reached_final_covers ops s Hrun) as Hq.
  unfold NoteModel.getNotes, NoteModel.getNotesStartingWithin, getEventsStartingWithin.
  unfold NoteModel.getStartFrame, NoteModel.getEndFrame. fold s.
  replace (getStartFrame s + (getEndFrame s - getStartFrame s)) with (getEndFrame s) by lia.
  split.
  - intros e Hin Hd. apply in_map_iff. exists e. split; [reflexivity|].
    apply (starting_from_in _ _ _ _ (inv_events s Hinv)).
    destruct (within_extent s e Hinv Hq Hin) as [[Hstart _] Hend].
    pose proof (proj1 (hasDuration_pos e) Hd) as Hpos. specialize (Hend Hd).
    split; [exact Hin|]. split; [|lia].
    destruct (Z.eq_dec (frame e) (getStartFrame s)) as [E|E].
    + rewrite <- E. apply Event_at_le_duration, Hd.
    + apply Event_lt_le, Event_lt_frame. cbn. lia.
  - intros n Hn. apply in_map_iff in Hn. destruct Hn as (e & <- & He).
    apply (starting_from_in _ _ _ _ (inv_events s Hinv)) in He.
    destruct He as (Hin & _ & Hlt). exists e. auto.
Qed.

(** *** Rows and frames *)

(** X25: In a NoteModel whose events were reached by adds and removes and
    number at most INT_MAX, getFrameForRow(i) for a row within range is the
    frame of the i-th stored event, and that frame is below f exactly when i
    is below getRowForFrame(f), provided no stored event without duration at
    frame f sorts before the bare event Event(f). *)
Theorem row_for_frame (ops : list (Op P)) (m : NoteModel.NoteModel P) f i :
  apply_all ops empty = Some (NoteModel.m_events m) ->
  default_least f (m_events (NoteModel.m_events m)) ->
  Z.of_nat (length (m_events (NoteModel.m_events m))) <= INT_MAX ->
  0 <= i < Z.of_nat (length (m_events (NoteModel.m_events m))) ->
  exists e,
    nth_error (m_events (NoteModel.m_events m)) (Z.to_nat i) = Some e /\
    NoteModel.getFrameForRow i m = Some (frame e) /\
    (frame e < f <-> i < NoteModel.getRowForFrame f m).
Proof.
  intros Hrun Hmin Hmax Hi. set (s := NoteModel.m_events m) in *.
  pose proof (reached_inv ops s Hrun) as Hinv.
  destruct (split_at_frame f (m_events s) (inv_events s Hinv) Hmin)
    as (before & after & E & Hlb & Hbelow & Habove).
  unfold NoteModel.getFrameForRow, NoteModel.getRowForFrame, getIndexForEvent,
    getEventByIndex, count. fold s. rewrite Hlb.
  assert (Hcount : (Z.of_nat (length (m_events s)) >? INT_MAX) = false)
    by (rewrite Z.gtb_ltb; apply Z.ltb_ge; lia).
  rewrite Hcount.
  assert (Hrange : (i <? 0) || (i >=? Z.of_nat (length (m_events s))) = false).
  { apply orb_false_iff. split; [apply Z.ltb_ge | rewrite Z.geb_leb; apply Z.leb_gt]; lia. }
  rewrite Hrange.
  assert (Hrow : (Z.of_nat (length before) <? 0) || (Z.of_nat (length before) >? INT_MAX) = false).
  { apply orb_false_iff. rewrite E, length_app in Hmax.
    split; [apply Z.ltb_ge | rewrite Z.gtb_ltb; apply Z.ltb_ge]; lia. }
  rewrite Hrow.
  destruct (nth_error (m_events s) (Z.to_nat i)) as [e|] eqn:En.
  2:{ apply nth_error_None in En. lia. }
  exists e. split; [reflexivity|]. split; [reflexivity|].
  rewrite E in En. destruct (Nat.lt_ge_cases (Z.to_nat i) (length before)) as [Hlt|Hge].
  - rewrite nth_error_app1 in En by exact Hlt.
    pose proof (Hbelow e (nth_error_In _ _ En)). split; lia.
  - rewrite nth_error_app2 in En by exact Hge.
    pose proof (Habove e (nth_error_In _ _ En)). split; lia.
Qed.

End Notes.

Arguments note_of {P NoteData}.

(** *** An instance: values read off an integer payload *)

Definition value_of (p : Z) : Float32.float := Float32.of_Z p.

Definition notes : NoteModel.NoteModel Z :=
  add_all value_of [E1; E2; E3; tick]
    (NoteModel.construct (Float64.of_Z 44100) 1 NoteModel.NORMAL_NOTE).

Lemma extents_bracket_values_witness :
  let m' := add_all value_of [E1; E2; E3; tick]
              (NoteModel.construct (Float64.of_Z 44100) 1 NoteModel.NORMAL_NOTE) in
  NoteModel.m_haveExtents m' = true /\
  Float32.ltb (value_of (payload E2)) (NoteModel.m_valueMinimum m') = false /\
  Float32.ltb (NoteModel.m_valueMaximum m') (value_of (payload E2)) = false.
Proof.
  apply (extents_bracket_values value_of
           (NoteModel.construct (Float64.of_Z 44100) 1 NoteModel.NORMAL_NOTE)
           [E1; E2; E3; tick] E2); [cbn; auto | reflexivity].
Defined.

Lemma getNotes_misses_the_end_witness :
  (forall e, In e (m_events (NoteModel.m_events notes)) -> hasDuration e = true ->
     In (note_of (fun e _ _ => e) notes e) (NoteModel.getNotes (fun e _ _ => e) notes)) /\
  (forall n, In n (NoteModel.getNotes (fun e _ _ => e) notes) ->
     exists e, In e (m_events (NoteModel.m_events notes)) /\
               n = note_of (fun e _ _ => e) notes e /\
               frame e < NoteModel.getEndFrame notes).
Proof.
  exact (getNotes_misses_the_end _ (fun e _ _ => e) sample_ops notes eq_refl).
Defined.

Lemma row_for_frame_witness :
  exists e,
    nth_error (m_events (NoteModel.m_events notes)) (Z.to_nat 2) = Some e /\
    NoteModel.getFrameForRow 2 notes = Some (frame e) /\
    (frame e < 120 <-> 2 < NoteModel.getRowForFrame 120 notes).
Proof.
  apply (row_for_frame sample_ops notes 120 2 eq_refl).
  - least_by_cases.
  - vm_compute. discriminate.
  - vm_compute. split; [discriminate | reflexivity].
Defined.

Example notes_scenario :
  NoteModel.m_valueMinimum notes = Float32.of_Z 1 /\
  NoteModel.m_valueMaximum notes = Float32.of_Z 5 /\
  NoteModel.getNotes (fun e _ _ => e) notes = [tick; E1; E2] /\
  NoteModel.getEndFrame notes = 200 /\
  NoteModel.getRowForFrame 120 notes = 2.
Proof. repeat split; vm_compute; reflexivity. Qed.

End NoteModelFacts.

(** ** PathModel: the order of path points *)

Module PathModelFacts.

Import AlignmentModel PathModel.

(** X26: PathPoint::Comparator is a strict total order on path points:
    irreflexive, transitive, and two points neither of which sorts before the
    other are equal. OrderComparator is coarser: what it puts in order
    Comparator puts in the same order, and it never reverses Comparator. *)
Theorem comparator_strict_total_order :
  (forall p, Comparator p p = false) /\
  (forall p q r, Comparator p q = true -> Comparator q r = true -> Comparator p r = true) /\
  (forall p q, Comparator p q = false -> Comparator q p = false -> p = q) /\
  (forall p q, OrderComparator p q = true -> Comparator p q = true) /\
  (forall p q, Comparator p q = true -> OrderComparator q p = false).
Proof.
  unfold Comparator, OrderComparator. repeat split.
  - intros p. rewrite Z.eqb_refl. cbn [negb]. apply Z.ltb_irrefl.
  - intros p q r.
    destruct (Z.eqb_spec (frame p) (frame q)); destruct (Z.eqb_spec (frame q) (frame r));
      destruct (Z.eqb_spec (frame p) (frame r)); cbn [negb];
      rewrite ?Z.ltb_lt; lia.
  - intros [fp mp] [fq mq]. cbn [frame mapframe].
    destruct (Z.eqb_spec fp fq); destruct (Z.eqb_spec fq fp); cbn [negb];
      rewrite ?Z.ltb_ge; intros; try lia. f_equal; lia.
  - intros p q. rewrite Z.ltb_lt. intros Hlt.
    destruct (Z.eqb_spec (frame p) (frame q)); cbn [negb]; [lia | apply Z.ltb_lt; exact Hlt].
  - intros p q. destruct (Z.eqb_spec (frame p) (frame q)); cbn [negb];
      rewrite ?Z.ltb_lt, Z.ltb_ge; lia.
Qed.

End PathModelFacts.

(** ** HelperExecPath: the search for helper executables *)

Module HelperExecFacts.

Import HelperExecPath.

Section Search.

Variables appName myDir binaryName : String.string.
Variable isGood : String.string -> bool.
Variable m_type : SearchType.

(** Every path that could be tried, tag by tag and, for a tag, directory
    by directory. *)
Definition paths_for (basename t : String.string) : list String.string :=
  map (candidate basename t) (getHelperDirPaths appName myDir binaryName).

Definition all_paths (basename : String.string) : list String.string :=
  flat_map (paths_for basename) (getTags m_type).

(** The paths of a list up to the first good one. *)
Fixpoint until_good (paths : list String.string) : list String.string :=
  match paths with
  | [] => []
  | path :: paths' => if isGood path then [path] else path :: until_good paths'
  end.

Lemma search_dirs_find basename t dirs :
  search_dirs isGood basename t dirs =
    (until_good (map (candidate basename t) dirs),
     option_map (fun path => mkHelperExec path t)
       (find isGood (map (candidate basename t) dirs))).
Proof.
  induction dirs as [|d dirs IH]; cbn [search_dirs map find until_good]; [reflexivity|].
  destruct (isGood (candidate basename t d)); [reflexivity|]. rewrite IH. reflexivity.
Qed.

Lemma search_fold basename (tags : list String.string) : forall execs candidates,
  fold_left
    (fun state t =>
       let '(pushed, found) :=
         search_dirs isGood basename t (getHelperDirPaths appName myDir binaryName) in
       (fst state ++ match found with Some e => [e] | None => [] end,
        snd state ++ pushed))
    tags (execs, candidates) =
  (execs ++
   flat_map
     (fun t => match find isGood (paths_for basename t) with
               | Some path => [mkHelperExec path t]
               | None => []
               end) tags,
   candidates ++ flat_map (fun t => until_good (paths_for basename t)) tags).
Proof.
  induction tags as [|t tags IH]; intros execs candidates; cbn [fold_left flat_map].
  - rewrite !app_nil_r. reflexivity.
  - rewrite search_dirs_find. cbn [fst snd]. rewrite IH, <- !app_assoc.
    unfold paths_for at 1 3. destruct (find isGood _); reflexivity.
Qed.

Lemma find_flat_map {A B} (g : B -> bool) (f : A -> list B) (l : list A) :
  find g (flat_map f l) =
    match flat_map (fun a => match find g (f a) with Some b => [b] | None => [] end) l with
    | [] => None
    | b :: _ => Some b
    end.
Proof.
  induction l as [|a l IH]; [reflexivity|]. cbn [flat_map].
  assert (Happ : forall l1 l2, find g (l1 ++ l2) =
                   match find g l1 with Some b => Some b | None => find g l2 end).
  { induction l1 as [|x l1 IH1]; intros l2; [reflexivity|]. cbn [app find].
    destruct (g x); [reflexivity | apply IH1]. }
  rewrite Happ. destruct (find g (f a)); [reflexivity | exact IH].
Qed.

(** X27: getHelperExecutables gives, for each tag in order, the first good
    path among that tag's candidates in directory order (nothing for a tag
    without one); getHelperExecutable gives the first good path over all tags
    and directories, or the empty string; getHelperCandidatePaths lists, per
    tag, the candidates up to and including the first good one. *)
Theorem search_finds_first_good (basename : String.string) :
  getHelperExecutables appName myDir binaryName isGood m_type basename =
    flat_map
      (fun t => match find isGood (paths_for basename t) with
                | Some path => [mkHelperExec path t]
                | None => []
                end) (getTags m_type) /\
  getHelperExecutable appName myDir binaryName isGood m_type basename =
    match find isGood (all_paths basename) with
    | Some path => path
    | None => String.EmptyString
    end /\
  getHelperCandidatePaths appName myDir binaryName isGood m_type basename =
    flat_map (fun t => until_good (paths_for basename t)) (getTags m_type).
Proof.
  unfold getHelperExecutable, getHelperExecutables, getHelperCandidatePaths, search.
  rewrite search_fold. cbn [fst snd app]. split; [reflexivity|]. split; [|reflexivity].
  unfold all_paths. rewrite find_flat_map.
  induction (getTags m_type) as [|t tags IH]; [reflexivity|].
  cbn [flat_map]. destruct (find isGood (paths_for basename t)); [reflexivity | exact IH].
Qed.

End Search.

Import String.StringSyntax.
Local Open Scope string_scope.

(** Only the 32-bit helper is installed, beside the program. *)
Definition only_32 (path : String.string) : bool := String.eqb path "/opt/sv/bin/helper-32".

Example search_scenario :
  getHelperExecutable "sv" "/opt/sv/bin" "sv" only_32 AllInstalled "helper" =
    "/opt/sv/bin/helper-32" /\
  getHelperExecutable "sv" "/opt/sv/bin" "sv" only_32 NativeArchitectureOnly "helper" = "" /\
  length (getHelperCandidatePaths "sv" "/opt/sv/bin" "sv" only_32 AllInstalled "helper") = 16%nat.
Proof. repeat split; vm_compute; reflexivity. Qed.

End HelperExecFacts.

(** ** FeatureExtractionPluginAdapter: feature sets as lists *)

Module AdapterFacts.

Import FeatureExtractionPluginAdapter.

(** What the entry for a feature list holds. *)
Definition converted (fl : list Feature) : SVPFeatureList :=
  mkSVPFeatureList (Z.of_nat (length fl)) (Some (map convertFeature fl)).

Lemma find_in k fl (fs : FeatureSet) :
  StronglySorted Z.lt (map fst fs) -> In (k, fl) fs -> find k fs = Some fl.
Proof.
  induction fs as [|[k0 fl0] fs IH]; intros Hs Hin; [destruct Hin|].
  cbn [find]. inversion Hs as [|? ? Hs' Hall]; subst.
  destruct Hin as [E|Hin].
  - inversion E; subst. rewrite Z.eqb_refl. reflexivity.
  - rewrite Forall_forall in Hall.
    assert (Hlt : k0 < k) by (apply Hall; apply (in_map fst _ _ Hin)).
    rewrite (proj2 (Z.eqb_neq k0 k)) by lia. apply IH; assumption.
Qed.

Lemma last_key (fs : FeatureSet) k fl rest :
  StronglySorted Z.lt (map fst fs) -> rev fs = (k, fl) :: rest ->
  In (k, fl) fs /\ forall k' fl', In (k', fl') fs -> k' <= k.
Proof.
  intros Hs E. assert (Hfs : fs = rev rest ++ [(k, fl)]).
  { rewrite <- (rev_involutive fs), E. reflexivity. }
  subst fs. split; [apply in_or_app; right; left; reflexivity|].
  intros k' fl' Hin. rewrite map_app in Hs.
  destruct (ListFacts.ssorted_app_inv _ _ _ Hs) as (_ & _ & Hcross).
  apply in_app_or in Hin. destruct Hin as [Hin|[Hin|[]]].
  - apply Z.lt_le_incl. apply (Hcross k' k); [apply (in_map fst _ _ Hin) | left; reflexivity].
  - inversion Hin. lia.
Qed.

Lemma to_int_small i : 0 <= i < 2 ^ 31 -> to_int i = i.
Proof.
  intros Hi. unfold to_int. rewrite Z.mod_small by lia.
  rewrite (proj2 (Z.ltb_lt i (2 ^ 31))) by lia. reflexivity.
Qed.

(** X28: For a non-empty feature set (output numbers in increasing order
    without repeats, as a std::map holds them) with output numbers from 0 to
    below 2^31 - 1, convertFeatures returns an array with one entry per output
    number up to the greatest one in the set: the entry of a number in the set
    holds that number's features converted in order, and the entry of a number
    not in the set has count 0 and no features. *)
Theorem convert_keeps_features (fs : FeatureSet) :
  StronglySorted Z.lt (map fst fs) ->
  Forall (fun kf => 0 <= fst kf < 2 ^ 31 - 1) fs ->
  fs <> [] ->
  exists out,
    convertFeatures fs = Some out /\
    (forall k fl, In (k, fl) fs -> nth_error out (Z.to_nat k) = Some (converted fl)) /\
    (forall i, (i < length out)%nat -> find (Z.of_nat i) fs = None ->
       nth_error out i = Some (mkSVPFeatureList 0 None)) /\
    (exists k fl, In (k, fl) fs /\ Z.of_nat (length out) = k + 1).
Proof.
  intros Hs Hrange Hne. unfold convertFeatures.
  destruct (rev fs) as [|[k fl] rest] eqn:Er.
  { exfalso. apply Hne. rewrite <- (rev_involutive fs), Er. reflexivity. }
  destruct (last_key fs k fl rest Hs Er) as [Hlast Hmax].
  rewrite Forall_forall in Hrange. pose proof (Hrange _ Hlast) as Hk. cbn [fst] in Hk.
  assert (Hn : to_unsigned (k + 1) = k + 1) by (unfold to_unsigned; apply Z.mod_small; lia).
  rewrite Hn, (proj2 (Z.eqb_neq (k + 1) 0)) by lia.
  eexists. split; [reflexivity|].
  assert (Hnth : forall i, (i < Z.to_nat (k + 1))%nat ->
            nth_error
              (map (fun i => match find (to_int (Z.of_nat i)) fs with
                             | None => mkSVPFeatureList 0 None
                             | Some fl0 =>
                                 mkSVPFeatureList (Z.of_nat (length fl0))
                                   (Some (map convertFeature fl0))
                             end) (seq 0 (Z.to_nat (k + 1)))) i =
            Some (match find (Z.of_nat i) fs with
                  | None => mkSVPFeatureList 0 None
                  | Some fl0 => converted fl0
                  end)).
  { intros i Hi. rewrite nth_error_map, nth_error_seq.
    rewrite (proj2 (Nat.ltb_lt i (Z.to_nat (k + 1))) Hi). cbn [option_map Nat.add].
    rewrite to_int_small by lia. reflexivity. }
  split; [|split].
  - intros k' fl' Hin. pose proof (Hrange _ Hin) as Hk'. cbn [fst] in Hk'.
    specialize (Hmax k' fl' Hin).
    rewrite Hnth by lia. rewrite Z2Nat.id by lia. rewrite (find_in k' fl' fs Hs Hin). reflexivity.
  - intros i Hi Hnone. rewrite length_map, length_seq in Hi.
    rewrite Hnth by exact Hi. rewrite Hnone. reflexivity.
  - exists k, fl. split; [exact Hlast|]. rewrite length_map, length_seq. lia.
Qed.

Definition onset : Feature :=
  mkFeature true 1 500 [Float32.of_Z 3] String.EmptyString.

Lemma convert_keeps_features_witness :
  exists out,
    convertFeatures [(0, [onset]); (2, [onset; onset])] = Some out /\
    (forall k fl, In (k, fl) [(0, [onset]); (2, [onset; onset])] ->
       nth_error out (Z.to_nat k) = Some (converted fl)) /\
    (forall i, (i < length out)%nat ->
       find (Z.of_nat i) [(0, [onset]); (2, [onset; onset])] = None ->
       nth_error out i = Some (mkSVPFeatureList 0 None)) /\
    (exists k fl, In (k, fl) [(0, [onset]); (2, [onset; onset])] /\
                  Z.of_nat (length out) = k + 1).
Proof.
  apply convert_keeps_features.
  - repeat constructor.
  - repeat constructor; cbn; lia.
  - discriminate.
Defined.

Example convert_scenario :
  convertFeatures [] = None /\
  convertFeatures [(-1, [onset])] = None /\
  option_map (@length _) (convertFeatures [(0, [onset]); (2, [onset; onset])]) = Some 3%nat.
Proof. repeat split; vm_compute; reflexivity. Qed.

End AdapterFacts.
